(** * hash-sig-go: generalized XMSS over tweakable hashes

    A shallow embedding of the Go sources (packages [tweak], [th], [merkle],
    [encoding], [hypercube], [prf], [xmss]) and the properties the
    specification states about them.

    Conventions of the embedding:
    - a Go [int], [uint8], [uint32], [uint64] is a [Z]; every conversion to a
      narrower type is written out ([u8], [u32], [u64]);
    - a [*big.Int] is a [Z];
    - a byte is a [Z] in [0, 256); a [[]byte] (also [th.Domain], [th.Params],
      [th.Tweak]) is a [list Z];
    - a [float64] is a [spec_float] with the binary64 operations of the
      standard library's IEEE 754 model;
    - a run-time panic (index out of range, explicit [panic]) is [None];
    - an [io.Reader] is an explicit state that the functions thread. *)

From Stdlib Require Import ZArith List Lia Bool Arith.
From Stdlib Require Import Floats.SpecFloat.
Import ListNotations.
Local Open Scope Z_scope.

(* ================================================================= *)
(** ** Go machine integers and slices *)

Module GoInt.

Definition u8 (z : Z) : Z := z mod 256.
Definition u32 (z : Z) : Z := z mod 2 ^ 32.
Definition u64 (z : Z) : Z := z mod 2 ^ 64.

(** Conversion to the signed 64-bit [int]: two's complement wrap-around. *)
Definition i64 (z : Z) : Z := (z + 2 ^ 63) mod 2 ^ 64 - 2 ^ 63.

Definition is_u8 (z : Z) : Prop := 0 <= z < 256.
Definition is_u32 (z : Z) : Prop := 0 <= z < 2 ^ 32.
Definition is_u64 (z : Z) : Prop := 0 <= z < 2 ^ 64.
Definition is_int (z : Z) : Prop := - 2 ^ 63 <= z < 2 ^ 63.

(** [len(s)] as an [int]. *)
Definition len {A} (s : list A) : Z := Z.of_nat (length s).

(** [s[i]]: panics when [i] is out of range. *)
Definition idx {A} (s : list A) (i : Z) : option A :=
  if i <? 0 then None else nth_error s (Z.to_nat i).

(** [for i := 0; i < n; i++] as the list of its indices. *)
Definition zrange (n : Z) : list Z := map Z.of_nat (seq 0 (Z.to_nat n)).

(** A loop body that may panic, run over a list of indices. *)
Fixpoint mapM {A B} (f : A -> option B) (l : list A) : option (list B) :=
  match l with
  | [] => Some []
  | a :: l' =>
      match f a with
      | None => None
      | Some b =>
          match mapM f l' with
          | None => None
          | Some bs => Some (b :: bs)
          end
      end
  end.

(** [s[i] = a]: panics when [i] is out of range. *)
Definition set_idx {A} (s : list A) (i : Z) (a : A) : option (list A) :=
  if (i <? 0) || (len s <=? i) then None
  else Some (firstn (Z.to_nat i) s ++ a :: skipn (Z.to_nat (i + 1)) s).

End GoInt.
Import GoInt.

(* ================================================================= *)
(** ** Package [tweak]: byte encodings of the three tweak kinds *)

Module Tweak.

Definition TweakSeparatorChainHash : Z := 0.
Definition TweakSeparatorTreeHash : Z := 1.
Definition TweakSeparatorMessageHash : Z := 2.

(** [binary.BigEndian.AppendUint32(b, v)]:
    [append(b, byte(v>>24), byte(v>>16), byte(v>>8), byte(v))]. *)
Definition BigEndian_AppendUint32 (b : list Z) (v : Z) : list Z :=
  b ++ [u8 (Z.shiftr v 24); u8 (Z.shiftr v 16); u8 (Z.shiftr v 8); u8 v].

(** [binary.LittleEndian.AppendUint32(b, v)]:
    [append(b, byte(v), byte(v>>8), byte(v>>16), byte(v>>24))]. *)
Definition LittleEndian_AppendUint32 (b : list Z) (v : Z) : list Z :=
  b ++ [u8 v; u8 (Z.shiftr v 8); u8 (Z.shiftr v 16); u8 (Z.shiftr v 24)].

Definition ChainTweak (epoch chainIndex posInChain : Z) : list Z :=
  let tweak := [] in
  let tweak := tweak ++ [TweakSeparatorChainHash] in
  let tweak := BigEndian_AppendUint32 tweak epoch in
  let tweak := tweak ++ [chainIndex] in
  let tweak := tweak ++ [posInChain] in
  tweak.

Definition TreeTweak (level posInLevel : Z) : list Z :=
  let tweak := [] in
  let tweak := tweak ++ [TweakSeparatorTreeHash] in
  let tweak := tweak ++ [level] in
  let tweak := BigEndian_AppendUint32 tweak posInLevel in
  tweak.

Definition MessageTweak (epoch : Z) : list Z :=
  let tweak := [] in
  let tweak := tweak ++ [TweakSeparatorMessageHash] in
  let tweak := LittleEndian_AppendUint32 tweak epoch in
  tweak.

(** The formats as the specification writes them: the four base-256 digits
    of a 32-bit value, most significant first ([BE32]) or least significant
    first ([LE32]). *)
Definition spec_BE32 (x : Z) : list Z :=
  [x / 256 ^ 3 mod 256; x / 256 ^ 2 mod 256; x / 256 mod 256; x mod 256].

Definition spec_LE32 (x : Z) : list Z := rev (spec_BE32 x).

(** The value a four-digit big-endian string denotes. *)
Definition be_value (l : list Z) : Z :=
  fold_left (fun acc d => acc * 256 + d) l 0.

End Tweak.

(* ================================================================= *)
(** ** Package [th]: the tweakable-hash interface and the chain walker *)

Module Th.

Definition Tweak := list Z.
Definition Params := list Z.
Definition Domain := list Z.

(** The [TweakableHash] interface.  [Rng] is the state of the [io.Reader]
    the sampling methods draw from; they return the sample and the state
    the reader is left in, or panic ([None]) when the reader fails. *)
Record TweakableHash (Rng : Type) : Type := {
  RandParameter : Rng -> option (Params * Rng);
  RandDomain : Rng -> option (Domain * Rng);
  TreeTweak : Z -> Z -> Tweak;
  ChainTweak : Z -> Z -> Z -> Tweak;
  Apply : Params -> Tweak -> list Domain -> Domain
}.

Arguments RandParameter {Rng} _ _.
Arguments RandDomain {Rng} _ _.
Arguments TreeTweak {Rng} _ _ _.
Arguments ChainTweak {Rng} _ _ _ _.
Arguments Apply {Rng} _ _ _ _.

Section Chain.
Context {Rng : Type} (th : TweakableHash Rng).

(** The body of [for j := 0; j < steps; j++]: [n] iterations remain and
    the loop variable is [j]. *)
Fixpoint chain_loop (parameter : Params) (epoch chainIndex startPosInChain : Z)
    (n : nat) (j : Z) (current : Domain) : Domain :=
  match n with
  | O => current
  | S n' =>
      let tweak :=
        ChainTweak th epoch chainIndex (u8 (u8 (startPosInChain + u8 j) + 1)) in
      let current := Apply th parameter tweak [current] in
      chain_loop parameter epoch chainIndex startPosInChain n' (j + 1) current
  end.

(** [Chain(th, parameter, epoch, chainIndex, startPosInChain, steps, start)].
    [startPosInChain] is a [uint8]; [startPosInChain+uint8(j)+1] is computed
    in [uint8]. *)
Definition Chain (parameter : Params) (epoch chainIndex startPosInChain : Z)
    (steps : Z) (start : Domain) : Domain :=
  chain_loop parameter epoch chainIndex startPosInChain (Z.to_nat steps) 0 start.

End Chain.
End Th.

(* ================================================================= *)
(** ** Package [merkle]: the sparse hash tree *)

Module Merkle.
Import Th.

Record HashTreeLayer : Type := {
  startIndex : Z;
  nodes : list Domain
}.

Record HashTree : Type := {
  depth : Z;
  layers : list HashTreeLayer;
  params : Params
}.

Record HashTreeOpening : Type := { CoPath : list Domain }.

(** [1 << depth] at type [int]: a negative count panics, the result wraps. *)
Definition shl1_int (count : Z) : option Z :=
  if count <? 0 then None else Some (i64 (Z.shiftl 1 count)).

Section WithHash.
Context {Rng : Type} (thash : TweakableHash Rng).

(** [HashTreeLayer.padded]: one random node in front when the start is
    odd, one at the back when the end is even. *)
Definition padded (rng : Rng) (nodes : list Domain) (startIndex : Z)
  : option (HashTreeLayer * Rng) :=
  let endIndex := startIndex + len nodes - 1 in
  let needsFront := Z.land startIndex 1 =? 1 in
  let needsBack := Z.land endIndex 1 =? 0 in
  let actualStartIndex := if needsFront then startIndex - 1 else startIndex in
  let paddedNodes := [] in
  match (if needsFront
         then match RandDomain thash rng with
              | Some (d, rng) => Some (paddedNodes ++ [d], rng)
              | None => None
              end
         else Some (paddedNodes, rng)) with
  | None => None
  | Some (paddedNodes, rng) =>
      let paddedNodes := paddedNodes ++ nodes in
      match (if needsBack
             then match RandDomain thash rng with
                  | Some (d, rng) => Some (paddedNodes ++ [d], rng)
                  | None => None
                  end
             else Some (paddedNodes, rng)) with
      | None => None
      | Some (paddedNodes, rng) =>
          Some ({| startIndex := actualStartIndex; nodes := paddedNodes |}, rng)
      end
  end.

(** The pair-hashing loop of [NewHashTree], [for i := 0; i < numParents; i++]
    with [n] iterations left.  The source runs the same body in goroutines
    when [numParents > 100]; every iteration writes its own slot
    [parents[i]], so both branches compute this list. *)
Fixpoint hash_pairs (parameter : Params) (level parentStart : Z)
    (prevNodes : list Domain) (n : nat) (i : Z) : option (list Domain) :=
  match n with
  | O => Some []
  | S n' =>
      let posInLevel := u32 (parentStart + i) in
      let tweak := TreeTweak thash (u8 (level + 1)) posInLevel in
      match idx prevNodes (2 * i), idx prevNodes (2 * i + 1) with
      | Some l, Some r =>
          match hash_pairs parameter level parentStart prevNodes n' (i + 1) with
          | Some rest => Some (Apply thash parameter tweak [l; r] :: rest)
          | None => None
          end
      | _, _ => None
      end
  end.

(** [for level := 0; level < depth; level++] of [NewHashTree], with [n]
    iterations left. *)
Fixpoint build_layers (parameter : Params) (n : nat) (level : Z)
    (layers : list HashTreeLayer) (rng : Rng)
  : option (list HashTreeLayer * Rng) :=
  match n with
  | O => Some (layers, rng)
  | S n' =>
      match idx layers level with
      | None => None
      | Some prev =>
          let parentStart := Z.shiftr (startIndex prev) 1 in
          let numParents := len (nodes prev) / 2 in
          match hash_pairs parameter level parentStart (nodes prev)
                  (Z.to_nat numParents) 0 with
          | None => None
          | Some parents =>
              match padded rng parents parentStart with
              | None => None
              | Some (parentLayer, rng) =>
                  build_layers parameter n' (level + 1)
                    (layers ++ [parentLayer]) rng
              end
          end
      end
  end.

Definition NewHashTree (rng : Rng) (depth startIndex : Z) (parameter : Params)
    (leafHashes : list Domain) : option (HashTree * Rng) :=
  match shl1_int depth with
  | None => None
  | Some cap =>
      if startIndex + len leafHashes >? cap then None
      else
        let layers := [] in
        match padded rng leafHashes startIndex with
        | None => None
        | Some (layer, rng) =>
            let layers := layers ++ [layer] in
            match build_layers parameter (Z.to_nat depth) 0 layers rng with
            | None => None
            | Some (layers, rng) =>
                Some ({| depth := depth; layers := layers;
                         params := parameter |}, rng)
            end
        end
  end.

(** [HashTree.Root]; the nil slice is the empty list. *)
Definition Root (t : HashTree) : Domain :=
  if len (layers t) =? 0 then []
  else match idx (layers t) (len (layers t) - 1) with
       | None => []
       | Some rootLayer =>
           match idx (nodes rootLayer) 0 with
           | Some r => r
           | None => []
           end
       end.

(** [for level := 0; level < t.depth; level++] of [Path], with [n]
    iterations left.  [crand] is the state of the process-wide
    [crypto/rand.Reader] the fallback branch draws from. *)
Fixpoint path_loop (t : HashTree) (n : nat) (level currentIndex : Z)
    (coPath : list Domain) (crand : Rng) : option (list Domain * Rng) :=
  match n with
  | O => Some (coPath, crand)
  | S n' =>
      match idx (layers t) level with
      | None => None
      | Some layer =>
          let relIndex := currentIndex - startIndex layer in
          let siblingRelIndex := Z.lxor relIndex 1 in
          match (if (0 <=? siblingRelIndex)
                      && (siblingRelIndex <? len (nodes layer))
                 then match idx (nodes layer) siblingRelIndex with
                      | Some d => Some (coPath ++ [d], crand)
                      | None => None
                      end
                 else match RandDomain thash crand with
                      | Some (d, crand) => Some (coPath ++ [d], crand)
                      | None => None
                      end) with
          | None => None
          | Some (coPath, crand) =>
              path_loop t n' (level + 1) (Z.shiftr currentIndex 1) coPath crand
          end
      end
  end.

Definition Path (t : HashTree) (epoch : Z) (crand : Rng)
  : option (HashTreeOpening * Rng) :=
  let leafIndex := epoch in
  match path_loop t (Z.to_nat (depth t)) 0 leafIndex [] crand with
  | None => None
  | Some (coPath, crand) => Some ({| CoPath := coPath |}, crand)
  end.

(** [for level := 0; level < len(path.CoPath); level++] of [VerifyPath]:
    the remaining co-path entries are [coPath], the loop variable [level]. *)
Fixpoint verify_loop (parameter : Params) (coPath : list Domain)
    (level index : Z) (current : Domain) : Domain :=
  match coPath with
  | [] => current
  | sibling :: coPath' =>
      let children :=
        if Z.land index 1 =? 0 then [current; sibling]
        else [sibling; current] in
      let parentIndex := Z.shiftr index 1 in
      let tweak := TreeTweak thash (u8 (level + 1)) parentIndex in
      let current := Apply thash parameter tweak children in
      verify_loop parameter coPath' (level + 1) parentIndex current
  end.

(** The closing comparison of [VerifyPath]: equal lengths and equal bytes. *)
Definition domain_equal (current root : Domain) : bool :=
  if negb (len current =? len root) then false
  else forallb (fun cr => fst cr =? snd cr) (combine current root).

Definition VerifyPath (parameter : Params) (root : Domain) (epoch : Z)
    (leaf : list Domain) (path : HashTreeOpening) : bool :=
  let leafTweak := TreeTweak thash 0 epoch in
  let current := Apply thash parameter leafTweak leaf in
  let current := verify_loop parameter (CoPath path) 0 epoch current in
  domain_equal current root.

End WithHash.
End Merkle.

(* ================================================================= *)
(** ** Readers: the caller-supplied byte source *)

Module IO.

(** An [io.Reader] over reader states [Rng]: [Read rng n] is a call
    [rng.Read(p)] with [len(p) = n]; it returns the bytes it stored at the
    front of [p], whether it returned an error, and the state it leaves. *)
Record Reader (Rng : Type) : Type := {
  Read : Rng -> Z -> (list Z * bool) * Rng
}.
Arguments Read {Rng} _ _ _.

(** The buffer [p] after [Read] stored [got] at its front. *)
Definition store (p got : list Z) : list Z :=
  firstn (length p) got ++ skipn (length got) p.

(** [make([]byte, n)]: panics on a negative length. *)
Definition make_bytes (n : Z) : option (list Z) :=
  if n <? 0 then None else Some (repeat 0 (Z.to_nat n)).

Section WithReader.
Context {Rng : Type} (R : Reader Rng).

(** [io.ReadFull(rng, buf)], i.e. [io.ReadAtLeast(rng, buf, len(buf))]:
    [for n < min && err == nil { nn, err = r.Read(buf[n:]); n += nn }],
    then an error is reported iff [n < min].  [fuel] bounds the number of
    [Read] calls; [None] is fuel exhaustion.  The result is the buffer,
    whether [ReadFull] returned an error, and the reader state. *)
Fixpoint ReadFull_loop (fuel : nat) (rng : Rng) (done rest : list Z)
  : option ((list Z * bool) * Rng) :=
  match rest with
  | [] => Some ((done, false), rng)
  | _ :: _ =>
      match fuel with
      | O => None
      | S fuel' =>
          let '((got, err), rng) := Read R rng (len rest) in
          let rest' := store rest got in
          let nn := Nat.min (length got) (length rest) in
          let done := done ++ firstn nn rest' in
          let rest := skipn nn rest' in
          if err then Some ((done ++ rest, negb (len rest =? 0)), rng)
          else ReadFull_loop fuel' rng done rest
      end
  end.

Definition ReadFull (fuel : nat) (rng : Rng) (buf : list Z)
  : option ((list Z * bool) * Rng) :=
  ReadFull_loop fuel rng [] buf.

(** [th.randBytes(rng, n)]: panics when [ReadFull] reports an error. *)
Definition randBytes (fuel : nat) (rng : Rng) (n : Z)
  : option (list Z * Rng) :=
  match make_bytes n with
  | None => None
  | Some b =>
      match ReadFull fuel rng b with
      | None => None
      | Some ((b, err), rng) => if err then None else Some (b, rng)
      end
  end.

End WithReader.
End IO.

(* ================================================================= *)
(** ** Package [bitutil] *)

Module Bitutil.

(** [BytesToChunks(bytes, chunkSize)]; [None] is the error return. *)
Definition BytesToChunks (bytes : list Z) (chunkSize : Z) : option (list Z) :=
  if negb ((chunkSize =? 1) || (chunkSize =? 2) || (chunkSize =? 4)
           || (chunkSize =? 8))
  then None
  else
    Some (
      if chunkSize =? 8 then bytes
      else if chunkSize =? 4 then
        flat_map (fun b => [Z.land b 0x0F; Z.shiftr b 4]) bytes
      else if chunkSize =? 2 then
        flat_map (fun b => [Z.land b 0x03; Z.land (Z.shiftr b 2) 0x03;
                            Z.land (Z.shiftr b 4) 0x03;
                            Z.land (Z.shiftr b 6) 0x03]) bytes
      else
        flat_map (fun b => map (fun i => Z.land (Z.shiftr b i) 0x01)
                             [0; 1; 2; 3; 4; 5; 6; 7]) bytes).

End Bitutil.

(* ================================================================= *)
(** ** Package [encoding]: message hashes and incomparable encodings *)

Module MH.
Import Th.

(** The [encoding.MessageHash] interface; [Hash] may panic. *)
Record MessageHash : Type := {
  Hash : Params -> list Z -> list Z -> Z -> option (list Z);
  OutputLen : Z;
  RandLen : Z;
  Dimension : Z;
  Base : Z;
  ChunkSize : Z
}.

End MH.

Module Encoding.
Import Th.

Definition Codeword := list Z.

(** The errors [Encode] returns. *)
Inductive error : Type :=
| ErrEncodingFailed
| ErrChunkSize.

(** The [IncomparableEncoding] interface.  [Encode] returns a codeword or
    an error, or panics ([None]). *)
Record IncomparableEncoding (Rng : Type) : Type := {
  Encode : Params -> list Z -> list Z -> Z -> option (error + Codeword);
  RandRandomness : Rng -> option (list Z * Rng);
  Dimension : Z;
  Base : Z;
  ChunkSize : Z;
  MaxTries : Z;
  NeedsRetry : bool
}.
Arguments Encode {Rng} _ _ _ _ _.
Arguments RandRandomness {Rng} _ _.
Arguments Dimension {Rng} _.
Arguments Base {Rng} _.
Arguments ChunkSize {Rng} _.
Arguments MaxTries {Rng} _.
Arguments NeedsRetry {Rng} _.

End Encoding.

Module Winternitz.
Import Th Encoding.

Record WinternitzEncoding : Type := {
  messageHash : MH.MessageHash;
  chunkSize : Z;
  numChunksChecksum : Z;
  numChunksMessage : Z
}.

Definition Dimension (w : WinternitzEncoding) : Z :=
  numChunksMessage w + numChunksChecksum w.

Definition Base (w : WinternitzEncoding) : Z := i64 (Z.shiftl 1 (chunkSize w)).

(** [binary.LittleEndian.PutUint64(b, v)] on an 8-byte buffer. *)
Definition LittleEndian_PutUint64 (v : Z) : list Z :=
  map (fun k => u8 (Z.shiftr v (8 * k))) [0; 1; 2; 3; 4; 5; 6; 7].

(** [s[:n]]: panics unless [0 <= n <= cap(s)]; here [cap(s) = len(s)]. *)
Definition slice_to {A} (s : list A) (n : Z) : option (list A) :=
  if (n <? 0) || (len s <? n) then None else Some (firstn (Z.to_nat n) s).

Definition Encode (w : WinternitzEncoding) (P : Params) (msg rho : list Z)
    (epoch : Z) : option (error + Codeword) :=
  match MH.Hash (messageHash w) P msg rho epoch with
  | None => None
  | Some messageChunks =>
      let base := u64 (Base w) in
      let checksum :=
        fold_left (fun checksum chunk => u64 (checksum + u64 (u64 (base - 1) - chunk)))
                  messageChunks 0 in
      let checksumBytes := LittleEndian_PutUint64 checksum in
      match Bitutil.BytesToChunks checksumBytes (chunkSize w) with
      | None => Some (inl ErrChunkSize)
      | Some checksumChunks =>
          (* [make(encoding.Codeword, 0, w.Dimension())] *)
          if Dimension w <? 0 then None
          else
            match slice_to checksumChunks (numChunksChecksum w) with
            | None => None
            | Some cs => Some (inr (messageChunks ++ cs))
            end
      end
  end.

Section WithReader.
Context {Rng : Type} (R : IO.Reader Rng).

(** [rand := make([]byte, randLen); rng.Read(rand); return rand]: both
    results of [Read] are discarded. *)
Definition RandRandomness (w : WinternitzEncoding) (rng : Rng)
  : option (list Z * Rng) :=
  let randLen := MH.RandLen (messageHash w) in
  match IO.make_bytes randLen with
  | None => None
  | Some rand =>
      let '((got, _), rng) := IO.Read R rng randLen in
      Some (IO.store rand got, rng)
  end.

Definition as_encoding (w : WinternitzEncoding) : IncomparableEncoding Rng := {|
  Encoding.Encode := Encode w;
  Encoding.RandRandomness := RandRandomness w;
  Encoding.Dimension := Dimension w;
  Encoding.Base := Base w;
  Encoding.ChunkSize := chunkSize w;
  Encoding.MaxTries := 1;
  Encoding.NeedsRetry := false
|}.

End WithReader.
End Winternitz.

Module TargetSum.
Import Th Encoding.

Record TargetSumEncoding : Type := {
  messageHash : MH.MessageHash;
  targetSum : Z
}.

Definition Encode (t : TargetSumEncoding) (P : Params) (msg rho : list Z)
    (epoch : Z) : option (error + Codeword) :=
  match MH.Hash (messageHash t) P msg rho epoch with
  | None => None
  | Some chunks =>
      let sum := fold_left (fun sum chunk => sum + chunk) chunks 0 in
      if negb (sum =? targetSum t) then Some (inl ErrEncodingFailed)
      else Some (inr chunks)
  end.

(** [NewTargetSumEncoding]: panics unless the target lies in
    [0, dimension * (base - 1)], the product taken at type [int]. *)
Definition NewTargetSumEncoding (messageHash : MH.MessageHash) (targetSum : Z)
  : option TargetSumEncoding :=
  let base := MH.Base messageHash in
  let dimension := MH.Dimension messageHash in
  let maxSum := i64 (dimension * i64 (base - 1)) in
  if (targetSum <? 0) || (targetSum >? maxSum) then None
  else Some {| messageHash := messageHash; targetSum := targetSum |}.

Section WithReader.
Context {Rng : Type} (R : IO.Reader Rng).

Definition RandRandomness (t : TargetSumEncoding) (rng : Rng)
  : option (list Z * Rng) :=
  let randLen := MH.RandLen (messageHash t) in
  match IO.make_bytes randLen with
  | None => None
  | Some rand =>
      let '((got, _), rng) := IO.Read R rng randLen in
      Some (IO.store rand got, rng)
  end.

Definition as_encoding (t : TargetSumEncoding) : IncomparableEncoding Rng := {|
  Encoding.Encode := Encode t;
  Encoding.RandRandomness := RandRandomness t;
  Encoding.Dimension := MH.Dimension (messageHash t);
  Encoding.Base := MH.Base (messageHash t);
  Encoding.ChunkSize := MH.ChunkSize (messageHash t);
  Encoding.MaxTries := 100000;
  Encoding.NeedsRetry := true
|}.

End WithReader.

(** binary64: 53 bits of precision, exponents below 1024. *)
Definition prec : Z := 53.
Definition emax : Z := 1024.

(** [float64(n)] for an [int] [n]: rounded to nearest, ties to even. *)
Definition float64_of_int (n : Z) : spec_float :=
  binary_normalize prec emax n 0 false.

(** [int(f)] for a finite [float64] [f]: the fraction is discarded
    (truncation towards zero).  For a NaN or an infinity Go leaves the
    result to the implementation; the model returns 0. *)
Definition int_of_float64 (f : spec_float) : Z :=
  match f with
  | S754_finite s m e =>
      let magnitude :=
        if 0 <=? e then Z.pos m * 2 ^ e else Z.pos m / 2 ^ (- e) in
      if s then - magnitude else magnitude
  | _ => 0
  end.

(** The two values of [delta] the source recommends: the [float64]
    constants [1.0] and [1.1]. *)
Definition delta_1_0 : spec_float := S754_finite false 4503599627370496 (-52).
Definition delta_1_1 : spec_float := S754_finite false 4953959590107546 (-52).

(** [ComputeOptimalTarget]:
    [int(delta * float64(dimension) * float64(maxChunkValue) / 2.0)];
    a negative shift count panics. *)
Definition ComputeOptimalTarget (dimension chunkSize : Z) (delta : spec_float)
  : option Z :=
  if chunkSize <? 0 then None
  else
    let base := i64 (Z.shiftl 1 chunkSize) in
    let maxChunkValue := base - 1 in
    Some (int_of_float64
            (SFdiv prec emax
               (SFmul prec emax
                  (SFmul prec emax delta (float64_of_int dimension))
                  (float64_of_int maxChunkValue))
               (float64_of_int 2))).

(** The target as the specification writes it for [delta = 1.0]: the
    ceiling of [v * (2^w - 1) / 2]. *)
Definition spec_target_ceiling (v w : Z) : Z := - ((- (v * (2 ^ w - 1))) / 2).

(** One case of the exhaustive check of [ComputeOptimalTarget] against the
    floors of [v * (2^w - 1) / 2] and [1.1 * v * (2^w - 1) / 2]. *)
Definition target_is_floor (v w : Z) : bool :=
  match ComputeOptimalTarget v w delta_1_0,
        ComputeOptimalTarget v w delta_1_1 with
  | Some t0, Some t1 =>
      (t0 =? v * (2 ^ w - 1) / 2) && (t1 =? 11 * v * (2 ^ w - 1) / 20)
  | _, _ => false
  end.

End TargetSum.

(* ================================================================= *)
(** ** Package [hypercube]: layers of the hypercube [0, w-1]^v *)

Module Hypercube.

Definition MaxDimension : Z := 100.

Record LayerInfo : Type := {
  Sizes : list Z;
  PrefixSums : list Z
}.

(** [SizesSumInRange(start, end)]: the sum of the sizes in the inclusive
    range, read off the prefix sums. *)
Definition SizesSumInRange (l : LayerInfo) (start end_ : Z) : option Z :=
  if start =? 0 then idx (PrefixSums l) end_
  else
    match idx (PrefixSums l) end_ with
    | None => None
    | Some hi =>
        match idx (PrefixSums l) (start - 1) with
        | None => None
        | Some lo => Some (hi - lo)
        end
    end.

Definition AllLayerInfoForBase := list LayerInfo.

(** The size of layer [d] in dimension [v], from the layer info of
    dimension [v - 1]: the body of the [d] loop of [prepareLayerInfo]. *)
Definition layer_size (w v : Z) (prev : LayerInfo) (d : Z) : option Z :=
  let aiStart := Z.max 1 (Z.max (w - d) 1) in
  let aiEnd := Z.min w (w + (w - 1) * (v - 1) - d) in
  if aiStart >? aiEnd then Some 0
  else
    let dPrimeStart := d - (w - aiStart) in
    let dPrimeEnd := d - (w - aiEnd) in
    SizesSumInRange prev dPrimeStart dPrimeEnd.

(** The running sums of [prepareLayerInfo], [currentSum] carried along. *)
Fixpoint prefix_sums (sizes : list Z) (currentSum : Z) : list Z :=
  match sizes with
  | [] => []
  | size :: sizes' =>
      let currentSum := currentSum + size in
      currentSum :: prefix_sums sizes' currentSum
  end.

(** One iteration of the [v] loop of [prepareLayerInfo]: the layer info of
    dimension [v]. *)
Definition dimension_info (w v : Z) (prev : LayerInfo) : option LayerInfo :=
  let maxD := (w - 1) * v in
  if maxD + 1 <? 0 then None
  else
    match mapM (layer_size w v prev) (zrange (maxD + 1)) with
    | None => None
    | Some currentSizes =>
        Some {| Sizes := currentSizes;
                PrefixSums := prefix_sums currentSizes 0 |}
    end.

(** [for v := 2; v <= vMax; v++] of [prepareLayerInfo], with [n] iterations
    left. *)
Fixpoint fill_dimensions (w : Z) (n : nat) (v : Z)
    (allInfo : AllLayerInfoForBase) : option AllLayerInfoForBase :=
  match n with
  | O => Some allInfo
  | S n' =>
      match idx allInfo (v - 1) with
      | None => None
      | Some prev =>
          match dimension_info w v prev with
          | None => None
          | Some info =>
              match set_idx allInfo v info with
              | None => None
              | Some allInfo => fill_dimensions w n' (v + 1) allInfo
              end
          end
      end
  end.

Definition prepareLayerInfo (w : Z) : option AllLayerInfoForBase :=
  let vMax := MaxDimension in
  let allInfo :=
    repeat {| Sizes := []; PrefixSums := [] |} (Z.to_nat (vMax + 1)) in
  if w <? 0 then None
  else
    let dim1Sizes := map (fun _ => 1) (zrange w) in
    let dim1PrefixSums := map (fun i => i + 1) (zrange w) in
    match set_idx allInfo 1 {| Sizes := dim1Sizes;
                               PrefixSums := dim1PrefixSums |} with
    | None => None
    | Some allInfo => fill_dimensions w (Z.to_nat (vMax - 1)) 2 allInfo
    end.

(** [getAllLayerData]: the process-wide cache memoises [prepareLayerInfo],
    whose result depends on [w] only. *)
Definition getAllLayerData (w : Z) : option AllLayerInfoForBase :=
  prepareLayerInfo w.

Definition GetLayerInfo (w v : Z) : option LayerInfo :=
  match getAllLayerData w with
  | None => None
  | Some allInfo => idx allInfo v
  end.

(** The inner loop of [MapToVertex],
    [for j := rangeStart; j <= min(w-1, dCurr); j++], with [n] iterations
    left: the values of [ji] and [xCurr] it leaves. *)
Fixpoint find_ji (sizes : list Z) (dCurr : Z) (n : nat) (j : Z) (xCurr : Z)
  : option (Z * Z) :=
  match n with
  | O => Some (-1, xCurr)
  | S n' =>
      match idx sizes (dCurr - j) with
      | None => None
      | Some count =>
          if xCurr >=? count then find_ji sizes dCurr n' (j + 1) (xCurr - count)
          else Some (j, xCurr)
      end
  end.

(** The outer loop of [MapToVertex], [for i := 1; i < v; i++], with [n]
    iterations left. *)
Fixpoint vertex_loop (layerData : AllLayerInfoForBase) (w v : Z) (n : nat)
    (i : Z) (dCurr xCurr : Z) (out : list Z) : option (Z * Z * list Z) :=
  match n with
  | O => Some (dCurr, xCurr, out)
  | S n' =>
      let rangeStart := Z.max 0 (dCurr - (w - 1) * (v - i)) in
      match idx layerData (v - i) with
      | None =>
          (* [layerData[v-i]] is read in the inner loop, which panics on it;
             when the loop does not run, [ji] stays -1 and the check that
             follows panics *)
          None
      | Some info =>
          match find_ji (Sizes info) dCurr
                  (Z.to_nat (Z.min (w - 1) dCurr + 1 - rangeStart))
                  rangeStart xCurr with
          | None => None
          | Some (ji, xCurr) =>
              if (ji <? 0) || (ji >=? w) then None
              else
                let ai := w - ji - 1 in
                let out := out ++ [u8 ai] in
                let dCurr := dCurr - (w - 1 - ai) in
                vertex_loop layerData w v n' (i + 1) dCurr xCurr out
          end
      end
  end.

Definition MapToVertex (w v d : Z) (x : Z) : option (list Z) :=
  let xCurr := x in
  let out := [] in
  let dCurr := d in
  match getAllLayerData w with
  | None => None
  | Some layerData =>
      match idx layerData v with
      | None => None
      | Some info =>
          match idx (Sizes info) d with
          | None => None
          | Some size =>
              if xCurr >=? size then None
              else
                match vertex_loop layerData w v (Z.to_nat (v - 1)) 1
                        dCurr xCurr out with
                | None => None
                | Some (dCurr, xCurr, out) =>
                    let xCurrInt := i64 xCurr in
                    if xCurrInt + dCurr >=? w then None
                    else Some (out ++ [u8 (w - 1 - xCurrInt - dCurr)])
                end
          end
      end
  end.

Definition HypercubePartSize (w v d : Z) : option Z :=
  match getAllLayerData w with
  | None => None
  | Some layerData =>
      match idx layerData v with
      | None => None
      | Some info => idx (PrefixSums info) d
      end
  end.

(** [for d < len(prefixSums) && prefixSums[d].Cmp(x) <= 0 { d++ }] with [n]
    iterations left before [d] reaches the length. *)
Fixpoint partition_point (prefixSums : list Z) (x : Z) (n : nat) (d : Z) : Z :=
  match n with
  | O => d
  | S n' =>
      match idx prefixSums d with
      | Some p => if p <=? x then partition_point prefixSums x n' (d + 1) else d
      | None => d
      end
  end.

Definition HypercubeFindLayer (w v : Z) (x : Z) : option (Z * Z) :=
  match getAllLayerData w with
  | None => None
  | Some layerData =>
      match idx layerData v with
      | None => None
      | Some info =>
          let prefixSums := PrefixSums info in
          match idx prefixSums (len prefixSums - 1) with
          | None => None
          | Some total =>
              if x >=? total then None
              else
                let d := partition_point prefixSums x (length prefixSums) 0 in
                if d =? 0 then Some (0, x)
                else
                  match idx prefixSums (d - 1) with
                  | None => None
                  | Some below => Some (d, x - below)
                  end
          end
      end
  end.

(** [for i := v - 2; i >= 0; i--] of [MapToInteger], with [n] iterations
    left. *)
Fixpoint integer_loop (layerData : AllLayerInfoForBase) (w v : Z)
    (a : list Z) (n : nat) (i : Z) (xCurr dCurr : Z) : option (Z * Z) :=
  match n with
  | O => Some (xCurr, dCurr)
  | S n' =>
      match idx a i with
      | None => None
      | Some ai =>
          let ji := w - 1 - ai in
          let dCurr := dCurr + ji in
          let jStart := Z.max 0 (dCurr - (w - 1) * (v - i - 1)) in
          match idx layerData (v - i - 1) with
          | None => None
          | Some info =>
              match SizesSumInRange info (dCurr - ji + 1) (dCurr - jStart) with
              | None => None
              | Some rangeSum =>
                  integer_loop layerData w v a n' (i - 1) (xCurr + rangeSum)
                    dCurr
              end
          end
      end
  end.

Definition MapToInteger (w v d : Z) (a : list Z) : option Z :=
  if negb (len a =? v) then None
  else
    let xCurr := 0 in
    match idx a (v - 1) with
    | None => None
    | Some last =>
        let dCurr := w - 1 - last in
        match getAllLayerData w with
        | None => None
        | Some layerData =>
            match integer_loop layerData w v a (Z.to_nat (v - 1)) (v - 2)
                    xCurr dCurr with
            | None => None
            | Some (xCurr, dCurr) =>
                if negb (dCurr =? d) then None else Some xCurr
            end
        end
    end.

End Hypercube.

(* ================================================================= *)
(** ** Package [message_hash]: the top-level Poseidon message hash *)

Module TopLevelPoseidon.
Import Th.

(** The BabyBear prime.  A [babybear.Element] is its canonical value in
    [0, p): [SetUint64] and [SetBigInt] reduce modulo [p], [Add] adds
    modulo [p], [BigInt] returns the value. *)
Definition p : Z := 2013265921.

Definition Element_Add (a b : Z) : Z := (a + b) mod p.

Record TopLevelPoseidonMessageHash : Type := {
  posOutputLenPerInvFE : Z;
  posInvocations : Z;
  posOutputLenFE : Z;
  dimension : Z;
  base : Z;
  finalLayer : Z;
  tweakLenFE : Z;
  msgLenFE : Z;
  parameterLen : Z;
  randLen : Z
}.

Definition NewTopLevelPoseidonMessageHash
    (posOutputLenPerInvFE posInvocations posOutputLenFE
     dimension base finalLayer tweakLenFE msgLenFE parameterLen randLen : Z)
  : option TopLevelPoseidonMessageHash :=
  if negb (posOutputLenFE =? posInvocations * posOutputLenPerInvFE) then None
  else if posOutputLenPerInvFE >? 15 then None
  else if posInvocations >? 256 then None
  else if base >? 256 then None
  else Some {| posOutputLenPerInvFE := posOutputLenPerInvFE;
               posInvocations := posInvocations;
               posOutputLenFE := posOutputLenFE;
               dimension := dimension;
               base := base;
               finalLayer := finalLayer;
               tweakLenFE := tweakLenFE;
               msgLenFE := msgLenFE;
               parameterLen := parameterLen;
               randLen := randLen |}.

(** The value [new(big.Int).SetBytes(reverseBytes(data))]: [data] read as a
    little-endian integer. *)
Definition le_value (data : list Z) : Z :=
  fold_right (fun b acc => b + 256 * acc) 0 data.

(** [for i := 0; i < n; i++ { result[i] = acc mod p; acc = acc / p }]. *)
Fixpoint base_p_digits (n : nat) (acc : Z) : list Z :=
  match n with
  | O => []
  | S n' => (acc mod p) :: base_p_digits n' (acc / p)
  end.

(** [bytesToFieldElements(data, numElements)]; [make] panics on a negative
    length. *)
Definition bytesToFieldElements (data : list Z) (numElements : Z)
  : option (list Z) :=
  let acc := le_value data in
  if numElements <? 0 then None
  else Some (base_p_digits (Z.to_nat numElements) acc).

Section WithPermutation.
(** The Poseidon2 permutation of width 24 of [gnark-crypto], which
    [poseidon.NewPoseidon2_24] wraps; it rewrites the state in place. *)
Variable permutation24 : list Z -> list Z.

(** [Poseidon2.Permute]: panics unless the state has the width. *)
Definition Permute (state : list Z) : option (list Z) :=
  if negb (len state =? 24) then None else Some (permutation24 state).

Variable h : TopLevelPoseidonMessageHash.

Definition encodeEpoch (epoch : Z) : option (list Z) :=
  let val := u64 (Z.lor (u64 (Z.shiftl (u64 epoch) 8)) 0x02) in
  if tweakLenFE h <? 0 then None
  else Some (base_p_digits (Z.to_nat (tweakLenFE h)) val).

(** [poseidonCompress]: the input padded (or cut) to the width, permuted,
    the input added back, the first [outputLen] elements returned. *)
Definition poseidonCompress (input : list Z) (outputLen : Z)
  : option (list Z) :=
  let width := 24 in
  let padded := firstn (Z.to_nat width) (input ++ repeat 0 (Z.to_nat width)) in
  let state := padded in
  match Permute state with
  | None => None
  | Some state =>
      match mapM (fun i =>
                    match idx state i, idx padded i with
                    | Some s, Some q => Some (Element_Add s q)
                    | _, _ => None
                    end) (zrange width) with
      | None => None
      | Some state => Winternitz.slice_to state outputLen
      end
  end.

(** [mapIntoHypercubePart]; [big.Int.Mod] is the Euclidean modulus and
    panics on a zero modulus. *)
Definition mapIntoHypercubePart (fieldElements : list Z) : option (list Z) :=
  let acc := fold_left (fun acc fe => acc * p + fe) fieldElements 0 in
  match Hypercube.HypercubePartSize (base h) (dimension h) (finalLayer h) with
  | None => None
  | Some domSize =>
      if domSize =? 0 then None
      else
        let acc := acc mod Z.abs domSize in
        match Hypercube.HypercubeFindLayer (base h) (dimension h) acc with
        | None => None
        | Some (layer, offset) =>
            Hypercube.MapToVertex (base h) (dimension h) layer offset
        end
  end.

(** The invocation loop of [Hash], [for inv := 0; inv < posInvocations;
    inv++], with [n] iterations left. *)
Fixpoint invocations (paramFields epochFields randFields msgFields : list Z)
    (n : nat) (inv : Z) (allOutputs : list Z) : option (list Z) :=
  match n with
  | O => Some allOutputs
  | S n' =>
      let invElem := u64 inv mod p in
      let input :=
        [invElem] ++ paramFields ++ epochFields ++ randFields ++ msgFields in
      match poseidonCompress input (posOutputLenPerInvFE h) with
      | None => None
      | Some output =>
          invocations paramFields epochFields randFields msgFields n'
            (inv + 1) (allOutputs ++ output)
      end
  end.

(** The field elements [Hash] collects from its Poseidon invocations. *)
Definition poseidon_outputs (params : Params) (msg rand : list Z) (epoch : Z)
  : option (list Z) :=
  match bytesToFieldElements params (parameterLen h) with
  | None => None
  | Some paramFields =>
      match bytesToFieldElements msg (msgLenFE h) with
      | None => None
      | Some msgFields =>
          match bytesToFieldElements rand (randLen h) with
          | None => None
          | Some randFields =>
              match encodeEpoch epoch with
              | None => None
              | Some epochFields =>
                  if posOutputLenFE h <? 0 then None
                  else
                    invocations paramFields epochFields randFields msgFields
                      (Z.to_nat (posInvocations h)) 0 []
              end
          end
      end
  end.

Definition Hash (params : Params) (msg rand : list Z) (epoch : Z)
  : option (list Z) :=
  match poseidon_outputs params msg rand epoch with
  | None => None
  | Some allOutputs => mapIntoHypercubePart allOutputs
  end.

End WithPermutation.

(** *** The mapping as the specification words it *)

(** The big integer [A] the field elements accumulate to in base [p], the
    first element the most significant digit. *)
Fixpoint spec_accumulate (fieldElements : list Z) : Z :=
  match fieldElements with
  | [] => 0
  | fe :: rest => fe * p ^ len rest + spec_accumulate rest
  end.

(** Reduce [A] modulo the size of layers [0 .. final_layer], find the layer
    and the offset of the result, map them to a vertex. *)
Definition spec_vertex (w v final_layer : Z) (fieldElements : list Z)
  : option (list Z) :=
  match Hypercube.HypercubePartSize w v final_layer with
  | None => None
  | Some part =>
      match Hypercube.HypercubeFindLayer w v
              (spec_accumulate fieldElements mod part) with
      | None => None
      | Some (d, offset) => Hypercube.MapToVertex w v d offset
      end
  end.

(** The configurations [Hash] is meant for: a base a byte can hold, a
    dimension of the layer table, a final layer of the hypercube, and
    lengths that are lengths. *)
Definition valid_config (h : TopLevelPoseidonMessageHash) : Prop :=
  2 <= base h <= 256
  /\ 1 <= dimension h <= Hypercube.MaxDimension
  /\ 0 <= finalLayer h <= (base h - 1) * dimension h
  /\ 0 <= posOutputLenPerInvFE h <= 15
  /\ 0 <= posOutputLenFE h
  /\ 0 <= tweakLenFE h /\ 0 <= msgLenFE h
  /\ 0 <= parameterLen h /\ 0 <= randLen h.

End TopLevelPoseidon.

(* ================================================================= *)
(** ** Package [prf] *)

Module PRF.
Import Th.

(** The [PRF] interface. *)
Record PRF (Rng : Type) : Type := {
  KeyGen : Rng -> option (list Z * Rng);
  Apply : list Z -> Z -> Z -> Domain;
  OutputLen : Z
}.
Arguments KeyGen {Rng} _ _.
Arguments Apply {Rng} _ _ _ _.
Arguments OutputLen {Rng} _.

Definition prfDomainSep : list Z :=
  [0x00; 0x01; 0x12; 0xff; 0x00; 0x01; 0xfa; 0xff;
   0x00; 0xaf; 0x12; 0xff; 0x01; 0xfa; 0xff; 0x00].

Record SHA3PRF : Type := {
  keyLen : Z;
  outputLen : Z
}.

Definition NewSHA3PRF (keyLen outputLen : Z) : SHA3PRF :=
  {| keyLen := keyLen; outputLen := outputLen |}.

(** [binary.BigEndian.PutUint32] and [PutUint64] on fresh buffers. *)
Definition BigEndian_PutUint32 (v : Z) : list Z :=
  map (fun k => u8 (Z.shiftr v (8 * k))) [3; 2; 1; 0].

Definition BigEndian_PutUint64 (v : Z) : list Z :=
  map (fun k => u8 (Z.shiftr v (8 * k))) [7; 6; 5; 4; 3; 2; 1; 0].

Section WithSHA3.
(** [sha3.New256] of [golang.org/x/crypto/sha3]: the digest of everything
    written to the hash. *)
Variable SHA3_256 : list Z -> list Z.

(** [SHA3PRF.Apply]; the slice expression [fullHash[:p.outputLen]] panics
    on a negative bound. *)
Definition SHA3PRF_Apply (p : SHA3PRF) (key : list Z) (epoch chainIndex : Z)
  : option Domain :=
  let epochBytes := BigEndian_PutUint32 epoch in
  let chainBytes := BigEndian_PutUint64 chainIndex in
  let fullHash := SHA3_256 (prfDomainSep ++ key ++ epochBytes ++ chainBytes) in
  if len fullHash >? outputLen p
  then Winternitz.slice_to fullHash (outputLen p)
  else Some fullHash.

Definition SHA3PRF_OutputLen (p : SHA3PRF) : Z := outputLen p.

End WithSHA3.
End PRF.

(* ================================================================= *)
(** ** Package [xmss]: the generalized XMSS engine *)

Module XMSS.
Import Th Merkle.

Record PublicKey : Type := {
  PK_Root : Domain;
  PK_Parameter : Params
}.

Record SecretKey : Type := {
  PRFKey : list Z;
  Tree : HashTree;
  SK_Parameter : Params;
  ActivationEpoch : Z;
  NumActiveEpochs : Z
}.

Record Signature : Type := {
  Path : HashTreeOpening;
  Rho : list Z;
  Hashes : list Domain
}.

(** The errors [Sign] returns: the epoch is outside the activation range,
    or [SigningError] with its attempt count. *)
Inductive SignError : Type :=
| ErrNotActive
| SigningError (Attempts : Z).

Record GeneralizedXMSS (Rng : Type) : Type := {
  prf : PRF.PRF Rng;
  encoding : Encoding.IncomparableEncoding Rng;
  th : TweakableHash Rng;
  logLifetime : Z
}.
Arguments prf {Rng} _.
Arguments encoding {Rng} _.
Arguments th {Rng} _.
Arguments logLifetime {Rng} _.

Section Engine.
Context {Rng : Type}.

Definition NewGeneralizedXMSS (prf : PRF.PRF Rng)
    (encoding : Encoding.IncomparableEncoding Rng) (th : TweakableHash Rng)
    (logLifetime : Z) : option (GeneralizedXMSS Rng) :=
  if logLifetime >? 32 then None
  else if Encoding.Base encoding >? 256 then None
  else if Encoding.Dimension encoding >? 256 then None
  else Some {| prf := prf; encoding := encoding; th := th;
               logLifetime := logLifetime |}.

Variable g : GeneralizedXMSS Rng.

(** [Lifetime]: [1 << g.logLifetime] at type [uint64]. *)
Definition Lifetime : option Z :=
  if logLifetime g <? 0 then None
  else Some (u64 (Z.shiftl 1 (logLifetime g))).

(** The chain ends of one epoch and their leaf hash, the body of the epoch
    loop of [KeyGen] (the same in its parallel and its sequential branch). *)
Definition chain_ends (prfKey : list Z) (parameter : Params) (epoch : Z)
  : list Domain :=
  let numChains := Encoding.Dimension (encoding g) in
  let chainLength := Encoding.Base (encoding g) in
  map (fun chainIndex =>
         let start := PRF.Apply (prf g) prfKey (u32 epoch) (u64 chainIndex) in
         Chain (th g) parameter (u32 epoch) (u8 chainIndex) 0
               (chainLength - 1) start)
      (zrange numChains).

Definition epoch_leaf (prfKey : list Z) (parameter : Params) (epoch : Z)
  : Domain :=
  let chainEnds := chain_ends prfKey parameter epoch in
  let leafTweak := TreeTweak (th g) 0 (u32 epoch) in
  Apply (th g) parameter leafTweak chainEnds.

Definition KeyGen (rng : Rng) (activationEpoch numActiveEpochs : Z)
  : option (PublicKey * SecretKey) :=
  match Lifetime with
  | None => None
  | Some lifetime =>
      if activationEpoch + numActiveEpochs >? i64 lifetime then None
      else
        match RandParameter (th g) rng with
        | None => None
        | Some (parameter, rng) =>
            match PRF.KeyGen (prf g) rng with
            | None => None
            | Some (prfKey, rng) =>
                let numChains := Encoding.Dimension (encoding g) in
                if (numActiveEpochs <? 0)
                   || ((0 <? numActiveEpochs) && (numChains <? 0))
                then None
                else
                  let activationRange := activationEpoch in
                  let chainEndsHashes :=
                    map (fun epochOffset =>
                           let epoch := activationRange + epochOffset in
                           epoch_leaf prfKey parameter epoch)
                        (zrange numActiveEpochs) in
                  match NewHashTree (th g) rng (logLifetime g) activationEpoch
                          parameter chainEndsHashes with
                  | None => None
                  | Some (tree, _) =>
                      let root := Root tree in
                      Some ({| PK_Root := root; PK_Parameter := parameter |},
                            {| PRFKey := prfKey; Tree := tree;
                               SK_Parameter := parameter;
                               ActivationEpoch := activationEpoch;
                               NumActiveEpochs := numActiveEpochs |})
                  end
            end
        end
  end.

(** The retry loop of [Sign], [for attempts := 0; attempts < maxTries;
    attempts++], with [n] iterations left; [codeword] and [rho] are the
    variables the loop assigns.  The result is the error the loop returns
    with, or the variables at loop exit. *)
Fixpoint sign_attempts (sk : SecretKey) (epoch : Z) (message : list Z)
    (maxTries : Z) (n : nat) (attempts : Z) (rng : Rng)
    (codeword : Encoding.Codeword) (rho : list Z)
  : option (SignError + (Encoding.Codeword * list Z)) :=
  match n with
  | O => Some (inr (codeword, rho))
  | S n' =>
      match Encoding.RandRandomness (encoding g) rng with
      | None => None
      | Some (rho, rng) =>
          match Encoding.Encode (encoding g) (SK_Parameter sk) message rho epoch with
          | None => None
          | Some (inr codeword) => Some (inr (codeword, rho))
          | Some (inl _) =>
              let codeword := [] in
              if attempts =? maxTries - 1
              then Some (inl (SigningError maxTries))
              else sign_attempts sk epoch message maxTries n' (attempts + 1)
                     rng codeword rho
          end
      end
  end.

(** [Sign]: an error return is [inl], a panic [None].  [crand] is the state
    of [crypto/rand.Reader], which [Path] may draw from.  The chain walks
    run in goroutines when there are more than 20 chains; each fills its
    own slot [hashes[chainIndex]], so both branches compute the same
    vector. *)
Definition Sign (rng crand : Rng) (sk : SecretKey) (epoch : Z)
    (message : list Z) : option (SignError + Signature) :=
  if (epoch <? ActivationEpoch sk)
     || (epoch >=? ActivationEpoch sk + NumActiveEpochs sk)
  then Some (inl ErrNotActive)
  else
    match Merkle.Path (th g) (Tree sk) epoch crand with
    | None => None
    | Some (path, _) =>
        let maxTries := Encoding.MaxTries (encoding g) in
        match sign_attempts sk epoch message maxTries (Z.to_nat maxTries) 0
                rng [] [] with
        | None => None
        | Some (inl e) => Some (inl e)
        | Some (inr (codeword, rho)) =>
            let numChains := Encoding.Dimension (encoding g) in
            if numChains <? 0 then None
            else
              match mapM (fun chainIndex =>
                      let start := PRF.Apply (prf g) (PRFKey sk) epoch
                                     (u64 chainIndex) in
                      match idx codeword chainIndex with
                      | None => None
                      | Some steps =>
                          Some (Chain (th g) (SK_Parameter sk) epoch
                                  (u8 chainIndex) 0 steps start)
                      end) (zrange numChains) with
              | None => None
              | Some hashes =>
                  Some (inr {| Path := path; Rho := rho; Hashes := hashes |})
              end
        end
    end.

(** [Verify]: [None] is a panic. *)
Definition Verify (pk : PublicKey) (epoch : Z) (message : list Z)
    (sig : Signature) : option bool :=
  match Lifetime with
  | None => None
  | Some lifetime =>
      if u64 epoch >=? lifetime then Some false
      else
        match Encoding.Encode (encoding g) (PK_Parameter pk) message
                (Rho sig) epoch with
        | None => None
        | Some (inl _) => Some false
        | Some (inr codeword) =>
            let chainLength := Encoding.Base (encoding g) in
            let numChains := Encoding.Dimension (encoding g) in
            if negb (len codeword =? numChains) then Some false
            else
              match mapM (fun chainIndex =>
                      match idx codeword chainIndex with
                      | None => None
                      | Some xi =>
                          let steps := chainLength - 1 - xi in
                          match idx (Hashes sig) chainIndex with
                          | None => None
                          | Some h =>
                              Some (Chain (th g) (PK_Parameter pk) epoch
                                      (u8 chainIndex) (u8 xi) steps h)
                          end
                      end) (zrange numChains) with
              | None => None
              | Some chainEnds =>
                  Some (VerifyPath (th g) (PK_Parameter pk) (PK_Root pk)
                          epoch chainEnds (Path sig))
              end
        end
  end.

End Engine.
End XMSS.

(* ================================================================= *)
(** ** Vocabulary for the layer tables and the vertex numbering *)

Module HypercubeSpec.
Import Hypercube.

(** [f lo + f (lo + 1) + ...], [n] terms. *)
Fixpoint zsum_n (f : Z -> Z) (lo : Z) (n : nat) : Z :=
  match n with
  | O => 0
  | S n' => f lo + zsum_n f (lo + 1) n'
  end.

(** The sum of [f k] for [lo <= k <= hi]; 0 when the range is empty. *)
Definition zsum (f : Z -> Z) (lo hi : Z) : Z :=
  zsum_n f lo (Z.to_nat (hi + 1 - lo)).

(** [l[k]], 0 outside the list. *)
Definition at0 (l : list Z) (k : Z) : Z :=
  match idx l k with
  | Some s => s
  | None => 0
  end.

(** [sizes[v][d]] of a table, 0 outside it. *)
Definition sz (tbl : AllLayerInfoForBase) (v d : Z) : Z :=
  match idx tbl v with
  | Some info => at0 (Sizes info) d
  | None => 0
  end.

(** The entry of dimension [v]: one size per layer [0 .. (w-1)*v], each at
    least 1, and their running sums. *)
Definition dim_ok (w : Z) (tbl : AllLayerInfoForBase) (v : Z) : Prop :=
  exists info,
    idx tbl v = Some info
    /\ len (Sizes info) = (w - 1) * v + 1
    /\ PrefixSums info = prefix_sums (Sizes info) 0
    /\ forall d, 0 <= d <= (w - 1) * v -> 1 <= at0 (Sizes info) d.

(** The recurrence of the sizes: a vertex of layer [d] in dimension [v] is
    a first coordinate at distance [j] from [w - 1] and a vertex of layer
    [d - j] in dimension [v - 1]. *)
Definition rec_ok (w : Z) (tbl : AllLayerInfoForBase) (v : Z) : Prop :=
  forall d, 0 <= d <= (w - 1) * v ->
    sz tbl v d =
    zsum (sz tbl (v - 1)) (Z.max 0 (d - (w - 1))) (Z.min d ((w - 1) * (v - 1))).

(** The table of dimensions [1 .. vtop]. *)
Definition table_upto (w : Z) (tbl : AllLayerInfoForBase) (vtop : Z) : Prop :=
  len tbl = MaxDimension + 1
  /\ (forall v, 1 <= v <= vtop -> dim_ok w tbl v)
  /\ (forall d, 0 <= d <= w - 1 -> sz tbl 1 d = 1)
  /\ (forall v, 2 <= v <= vtop -> rec_ok w tbl v).

Definition table_ok (w : Z) (tbl : AllLayerInfoForBase) : Prop :=
  table_upto w tbl MaxDimension.

(** [vertex_index tbl w a x d]: the vertex [a] lies at distance [d] from
    the top vertex and is number [x] of its layer, counting first by the
    first coordinate's distance [j] from [w - 1] in increasing order and
    then by the number of the remaining coordinates in their layer. *)
Fixpoint vertex_index (tbl : AllLayerInfoForBase) (w : Z) (a : list Z)
    (x d : Z) : Prop :=
  match a with
  | [] => False
  | ai :: rest =>
      0 <= ai <= w - 1
      /\ match rest with
         | [] => x = 0 /\ d = w - 1 - ai
         | _ :: _ =>
             let ji := w - 1 - ai in
             let r := len rest in
             let jStart := Z.max 0 (d - (w - 1) * r) in
             exists x',
               vertex_index tbl w rest x' (d - ji)
               /\ 0 <= d - ji <= (w - 1) * r
               /\ jStart <= ji
               /\ 0 <= x'
               /\ x = x' + zsum (fun j => sz tbl r (d - j)) jStart (ji - 1)
         end
  end.

(** [sizes[v][d]] as the callers of the package read it. *)
Definition layer_size_at (w v d : Z) : option Z :=
  match GetLayerInfo w v with
  | None => None
  | Some info => idx (Sizes info) d
  end.

End HypercubeSpec.

(* ================================================================= *)
(** ** Vocabulary for the tree invariants *)

Module MerkleSpec.
Import Th Merkle.

(** The node a layer stores for position [k] of its level. *)
Definition node_at (l : HashTreeLayer) (k : Z) : option Domain :=
  idx (nodes l) (k - startIndex l).

(** One past the last position a layer stores. *)
Definition layer_end (l : HashTreeLayer) : Z := startIndex l + len (nodes l).

(** A layer of level [lvl] in a tree of depth [depth]: even start, even
    length, not empty, inside the level (the top level, which has the single
    position 0, holds positions 0 and 1). *)
Definition layer_ok (depth lvl : Z) (l : HashTreeLayer) : Prop :=
  startIndex l mod 2 = 0 /\ len (nodes l) mod 2 = 0
  /\ 0 <= startIndex l < layer_end l
  /\ layer_end l <= Z.max 2 (2 ^ (depth - lvl)).

Section WithHash.
Context {Rng : Type} (thash : TweakableHash Rng).

(** Layer [l'] holds, for every pair of siblings stored in [l], their hash
    under the tree tweak of the parent's level and position. *)
Definition parent_rel (parameter : Params) (lvl : Z) (l l' : HashTreeLayer)
  : Prop :=
  forall k, startIndex l <= 2 * k < layer_end l ->
    exists x y,
      node_at l (2 * k) = Some x /\ node_at l (2 * k + 1) = Some y
      /\ node_at l' k =
         Some (Apply thash parameter (TreeTweak thash (u8 (lvl + 1)) (u32 k))
                 [x; y]).

(** The invariant of the layer-building loop after [level] iterations. *)
Definition layers_inv (parameter : Params) (depth level : Z)
    (layers : list HashTreeLayer) : Prop :=
  len layers = level + 1
  /\ (forall lvl l, idx layers lvl = Some l -> layer_ok depth lvl l)
  /\ (forall lvl l l', idx layers lvl = Some l ->
        idx layers (lvl + 1) = Some l' -> parent_rel parameter lvl l l').

End WithHash.
End MerkleSpec.

(* ================================================================= *)
(** ** A small concrete instance, used to run the definitions *)

Module Toy.
Import Th.

(** A reader over a counter: it fills every request completely with the
    successive values of the counter. *)
Definition toy_reader : IO.Reader Z := {|
  IO.Read := fun rng n => ((map (fun k => u8 (rng + k)) (zrange n), false),
                           rng + Z.max n 0)
|}.

(** A reader that has run dry: it stores nothing and reports an error. *)
Definition empty_reader : IO.Reader Z := {|
  IO.Read := fun rng n => (([], true), rng)
|}.

(** A keyed checksum of parameter, tweak and message blocks, one byte. *)
Definition toy_apply (P : Params) (T : Tweak) (M : list Domain) : Domain :=
  [u8 (fold_left (fun acc b => 31 * acc + b + 7) (P ++ T ++ concat M) 1)].

Definition toy_th : TweakableHash Z := {|
  RandParameter := fun rng => IO.randBytes toy_reader 1 rng 1;
  RandDomain := fun rng => IO.randBytes toy_reader 1 rng 1;
  TreeTweak := Tweak.TreeTweak;
  ChainTweak := Tweak.ChainTweak;
  Apply := toy_apply
|}.

Definition toy_prf : PRF.PRF Z := {|
  PRF.KeyGen := fun rng => IO.randBytes toy_reader 1 rng 2;
  PRF.Apply := fun key epoch chainIndex => toy_apply key [epoch; chainIndex] [];
  PRF.OutputLen := 1
|}.

(** A message hash with four 2-bit digits: the chunks of one checksum byte. *)
Definition toy_mh : MH.MessageHash := {|
  MH.Hash := fun P msg rho epoch =>
    Bitutil.BytesToChunks (toy_apply P (Tweak.MessageTweak epoch) [rho; msg]) 2;
  MH.OutputLen := 4;
  MH.RandLen := 2;
  MH.Dimension := 4;
  MH.Base := 4;
  MH.ChunkSize := 2
|}.

Definition toy_winternitz : Winternitz.WinternitzEncoding := {|
  Winternitz.messageHash := toy_mh;
  Winternitz.chunkSize := 2;
  Winternitz.numChunksChecksum := 2;
  Winternitz.numChunksMessage := 4
|}.

Definition toy_targetsum : TargetSum.TargetSumEncoding := {|
  TargetSum.messageHash := toy_mh;
  TargetSum.targetSum := 6
|}.

(** The engine over the Winternitz encoding, its randomness drawn from
    reader [R]. *)
Definition toy_xmss_over (R : IO.Reader Z) : XMSS.GeneralizedXMSS Z := {|
  XMSS.prf := toy_prf;
  XMSS.encoding := Winternitz.as_encoding R toy_winternitz;
  XMSS.th := toy_th;
  XMSS.logLifetime := 3
|}.

Definition toy_xmss : XMSS.GeneralizedXMSS Z := toy_xmss_over toy_reader.

(** A stand-in for the Poseidon2 permutation: a rotation of the state with
    a round constant added. *)
Definition toy_permutation (state : list Z) : list Z :=
  match state with
  | [] => []
  | s :: rest => map (fun x => (x + 5) mod TopLevelPoseidon.p) (rest ++ [s])
  end.

(** The configuration of [TestMapIntoHypercubePart]. *)
Definition toy_top_level : TopLevelPoseidon.TopLevelPoseidonMessageHash := {|
  TopLevelPoseidon.posOutputLenPerInvFE := 2;
  TopLevelPoseidon.posInvocations := 2;
  TopLevelPoseidon.posOutputLenFE := 4;
  TopLevelPoseidon.dimension := 8;
  TopLevelPoseidon.base := 4;
  TopLevelPoseidon.finalLayer := 10;
  TopLevelPoseidon.tweakLenFE := 2;
  TopLevelPoseidon.msgLenFE := 9;
  TopLevelPoseidon.parameterLen := 4;
  TopLevelPoseidon.randLen := 4
|}.

(** A stand-in for SHA3-256: 32 bytes that depend on the input. *)
Definition toy_sha3 (m : list Z) : list Z :=
  map (fun k => u8 (fold_left (fun acc b => 31 * acc + b + k) m 1)) (zrange 32).

End Toy.
(* ================================================================= *)
(** ** Positional digit strings: vocabulary for chunks and field elements *)

Module Digits.

(** The [n] least significant base-[b] digits of [x], least significant
    first. *)
Fixpoint digits_le (b : Z) (n : nat) (x : Z) : list Z :=
  match n with
  | O => []
  | S n' => x mod b :: digits_le b n' (x / b)
  end.

(** The value of a digit string, least significant digit first. *)
Fixpoint value_le (b : Z) (ds : list Z) : Z :=
  match ds with
  | [] => 0
  | d :: ds' => d + b * value_le b ds'
  end.

(** Coordinate-wise order of two strings of the same length. *)
Definition pointwise_le (xs ys : list Z) : Prop :=
  Forall2 Z.le xs ys.

End Digits.

(* ================================================================= *)
(** ** Package [bitutil]: truncation and bit-level extraction *)

Module Chunks.

(** [TruncateBits(data, numBits)].  [numBits + 7] is computed at type
    [int]; [make] panics on a negative length. *)
Definition TruncateBits (data : list Z) (numBits : Z) : option (list Z) :=
  if numBits <=? 0 then Some []
  else
    let numBytes := Z.quot (i64 (numBits + 7)) 8 in
    let numBytes := if numBytes >? len data then len data else numBytes in
    match IO.make_bytes numBytes with
    | None => None
    | Some result =>
        match Winternitz.slice_to data numBytes with
        | None => None
        | Some src =>
            let result := IO.store result src in
            let remainingBits := Z.rem numBits 8 in
            if (remainingBits >? 0) && (numBytes >? 0) then
              let mask := u8 (i64 (Z.shiftl 1 remainingBits) - 1) in
              match idx result (numBytes - 1) with
              | None => None
              | Some b => set_idx result (numBytes - 1) (Z.land b mask)
              end
            else Some result
        end
    end.

(** The errors [ExtractWBitChunks] returns. *)
Inductive extract_error : Type :=
| ErrWidth
| ErrInsufficientData.

(** The bit loop of [ExtractWBitChunks], [for j := 0; j < w; j++], with [n]
    iterations left: the chunk and the bit position it leaves. *)
Fixpoint chunk_bits (data : list Z) (n : nat) (j bitPos chunk : Z)
  : option (Z * Z) :=
  match n with
  | O => Some (chunk, bitPos)
  | S n' =>
      let byteIdx := Z.quot bitPos 8 in
      let bitIdx := Z.rem bitPos 8 in
      match (if byteIdx <? len data
             then match idx data byteIdx with
                  | Some b =>
                      let bit := Z.land (u8 (Z.shiftr b bitIdx)) 1 in
                      Some (Z.lor chunk (u32 (Z.shiftl bit j)))
                  | None => None
                  end
             else Some chunk) with
      | None => None
      | Some chunk => chunk_bits data n' (j + 1) (bitPos + 1) chunk
      end
  end.

(** The chunk loop, [for i := 0; i < numChunks; i++], with [n] iterations
    left. *)
Fixpoint chunks_loop (data : list Z) (w : Z) (n : nat) (bitPos : Z)
  : option (list Z) :=
  match n with
  | O => Some []
  | S n' =>
      match chunk_bits data (Z.to_nat w) 0 bitPos 0 with
      | None => None
      | Some (chunk, bitPos) =>
          match chunks_loop data w n' bitPos with
          | None => None
          | Some rest => Some (chunk :: rest)
          end
      end
  end.

(** [ExtractWBitChunks(data, w, numChunks)]: an error return is [inl], a
    panic [None]. *)
Definition ExtractWBitChunks (data : list Z) (w numChunks : Z)
  : option (extract_error + list Z) :=
  if (w <=? 0) || (w >? 32) then Some (inl ErrWidth)
  else
    let totalBits := i64 (len data * 8) in
    let requiredBits := i64 (w * numChunks) in
    if totalBits <? requiredBits then Some (inl ErrInsufficientData)
    else if numChunks <? 0 then None
    else
      match chunks_loop data w (Z.to_nat numChunks) 0 with
      | None => None
      | Some chunks => Some (inr chunks)
      end.

(** The chunks [BytesToChunks] cuts one byte into, as an exhaustive check
    over the bytes compares them with the byte's digits. *)
Definition byte_chunks_are_digits (chunkSize : Z) : bool :=
  forallb (fun b =>
      match Bitutil.BytesToChunks [b] chunkSize with
      | Some chunks =>
          if list_eq_dec Z.eq_dec chunks
               (Digits.digits_le (2 ^ chunkSize) (Z.to_nat (8 / chunkSize)) b)
          then true else false
      | None => false
      end) (zrange 256).

End Chunks.
(* ================================================================= *)
(** ** More small instances *)

Module Toy2.
Import Th.

(** A Target-Sum encoding over the toy message hash whose target no digit
    vector reaches: four 2-bit digits sum to at most 12. *)
Definition toy_unreachable : TargetSum.TargetSumEncoding := {|
  TargetSum.messageHash := Toy.toy_mh;
  TargetSum.targetSum := 100
|}.

Definition toy_xmss_unreachable : XMSS.GeneralizedXMSS Z := {|
  XMSS.prf := Toy.toy_prf;
  XMSS.encoding := TargetSum.as_encoding Toy.toy_reader toy_unreachable;
  XMSS.th := Toy.toy_th;
  XMSS.logLifetime := 3
|}.

End Toy2.
(* ================================================================= *)
(** ** Package [hypercube]: the closed-form layer sizes *)

Module Layers.

(** The loop of [binomial], [for i := 0; i < k; i++], with [m] iterations
    left: [result = result * (n - i) / (i + 1)].  The operands are positive
    here, where [big.Int.Div] is the floor division. *)
Fixpoint binomial_loop (n : Z) (m : nat) (i result : Z) : Z :=
  match m with
  | O => result
  | S m' => binomial_loop n m' (i + 1) (result * (n - i) / (i + 1))
  end.

(** [binomial(n, k)]. *)
Definition binomial (n k : Z) : Z :=
  if (k >? n) || (k <? 0) then 0
  else if (k =? 0) || (k =? n) then 1
  else binomial_loop n (Z.to_nat k) 0 1.

(** Pascal's triangle. *)
Fixpoint choose (n k : nat) : Z :=
  match k with
  | O => 1
  | S k' =>
      match n with
      | O => 0
      | S n' => choose n' k' + choose n' k
      end
  end.

End Layers.
(* ================================================================= *)
(** ** Package [message_hash]: the SHA3 message hash *)

Module SHA3MH.
Import Th.

Record SHA3MessageHash : Type := {
  parameterLen : Z;
  randomnessLen : Z;
  dimension : Z;
  chunkSize : Z
}.

Definition NewSHA3MessageHash (parameterLen randomnessLen dimension chunkSize : Z)
  : option SHA3MessageHash :=
  if negb ((chunkSize =? 1) || (chunkSize =? 2) || (chunkSize =? 4)
           || (chunkSize =? 8))
  then None
  else if dimension >? 256 then None
  else Some {| parameterLen := parameterLen; randomnessLen := randomnessLen;
               dimension := dimension; chunkSize := chunkSize |}.

Definition NewSHA3MessageHash192x3 : option SHA3MessageHash :=
  NewSHA3MessageHash 24 24 48 4.

Section WithSHA3.
(** [sha3.New256]: the digest of everything written to the hash. *)
Variable SHA3_256 : list Z -> list Z.

(** [SHA3MessageHash.Apply]: the digest of [R || P || T || M], truncated to
    [dimension * chunkSize] bits, cut into chunks, at most [dimension] of
    them.  A failing [BytesToChunks] and a slice bound out of range panic. *)
Definition Apply (s : SHA3MessageHash) (parameter : Params) (epoch : Z)
    (randomness message : list Z) : option (list Z) :=
  let msgTweak := Tweak.MessageTweak epoch in
  let fullHash := SHA3_256 (randomness ++ parameter ++ msgTweak ++ message) in
  let numBits := i64 (dimension s * chunkSize s) in
  match Chunks.TruncateBits fullHash numBits with
  | None => None
  | Some truncated =>
      match Bitutil.BytesToChunks truncated (chunkSize s) with
      | None => None
      | Some chunks =>
          if len chunks >? dimension s
          then Winternitz.slice_to chunks (dimension s)
          else Some chunks
      end
  end.

Definition Hash (s : SHA3MessageHash) (params : Params) (msg rand : list Z)
    (epoch : Z) : option (list Z) :=
  Apply s params epoch rand msg.

Definition Base (s : SHA3MessageHash) : Z := i64 (Z.shiftl 1 (chunkSize s)).

(** The hash as an [encoding.MessageHash]. *)
Definition as_message_hash (s : SHA3MessageHash) : MH.MessageHash := {|
  MH.Hash := Hash s;
  MH.OutputLen := dimension s;
  MH.RandLen := randomnessLen s;
  MH.Dimension := dimension s;
  MH.Base := Base s;
  MH.ChunkSize := chunkSize s
|}.

End WithSHA3.

Section WithReader.
Context {Rng : Type} (R : IO.Reader Rng).

(** [RandRandomness]: [io.ReadFull] into a fresh buffer; an error panics. *)
Definition RandRandomness (fuel : nat) (s : SHA3MessageHash) (rng : Rng)
  : option (list Z * Rng) :=
  match IO.make_bytes (randomnessLen s) with
  | None => None
  | Some r =>
      match IO.ReadFull R fuel rng r with
      | None => None
      | Some ((r, err), rng) => if err then None else Some (r, rng)
      end
  end.

End WithReader.
End SHA3MH.

(* ================================================================= *)
(** ** Package [tweak_hash]: the SHA3 tweakable hash *)

Module SHA3TH.
Import Th.

Record SHA3TweakableHash : Type := {
  parameterLen : Z;
  hashLen : Z
}.

Definition NewSHA3TweakableHash (parameterLen hashLen : Z)
  : option SHA3TweakableHash :=
  if (parameterLen >? 255) || (hashLen >? 255) then None
  else Some {| parameterLen := parameterLen; hashLen := hashLen |}.

(** [truncateBytes(data, n)]; the slice expression panics on a negative
    bound. *)
Definition truncateBytes (data : list Z) (n : Z) : option (list Z) :=
  if len data <=? n then Some data else Winternitz.slice_to data n.

Definition TreeTweak (s : SHA3TweakableHash) (level posInLevel : Z) : Tweak :=
  Tweak.TreeTweak level posInLevel.

Definition ChainTweak (s : SHA3TweakableHash) (epoch chainIndex posInChain : Z)
  : Tweak :=
  Tweak.ChainTweak epoch chainIndex posInChain.

Definition OutputLen (s : SHA3TweakableHash) : Z := hashLen s.
Definition ParameterLen (s : SHA3TweakableHash) : Z := parameterLen s.

Section WithSHA3.
Variable SHA3_256 : list Z -> list Z.

(** [Apply]: the digest of [P || T || M_1 || ... || M_k], truncated to
    [hashLen] bytes. *)
Definition Apply (s : SHA3TweakableHash) (parameter : Params) (tweak : Tweak)
    (message : list Domain) : option Domain :=
  let fullHash := SHA3_256 (parameter ++ tweak ++ concat message) in
  truncateBytes fullHash (hashLen s).

End WithSHA3.

Section WithReader.
Context {Rng : Type} (R : IO.Reader Rng).

Definition RandParameter (fuel : nat) (s : SHA3TweakableHash) (rng : Rng)
  : option (Params * Rng) :=
  match IO.make_bytes (parameterLen s) with
  | None => None
  | Some p =>
      match IO.ReadFull R fuel rng p with
      | None => None
      | Some ((p, err), rng) => if err then None else Some (p, rng)
      end
  end.

Definition RandDomain (fuel : nat) (s : SHA3TweakableHash) (rng : Rng)
  : option (Domain * Rng) :=
  match IO.make_bytes (hashLen s) with
  | None => None
  | Some d =>
      match IO.ReadFull R fuel rng d with
      | None => None
      | Some ((d, err), rng) => if err then None else Some (d, rng)
      end
  end.

End WithReader.
End SHA3TH.

(* ================================================================= *)
(** ** The Poseidon sponge shared by the Poseidon message hash and the
       Poseidon tweakable hash *)

Module Sponge.
Import TopLevelPoseidon.

(** [for j := 0; j < n; j++ { state[j] = state[j] + input[i+j] }], over the
    list [js] of the indices [j] still to come. *)
Fixpoint add_input (js : list Z) (input : list Z) (i : Z) (state : list Z)
  : option (list Z) :=
  match js with
  | [] => Some state
  | j :: js' =>
      match idx state j, idx input (i + j) with
      | Some s, Some x =>
          match set_idx state j (Element_Add s x) with
          | None => None
          | Some state => add_input js' input i state
          end
      | _, _ => None
      end
  end.

Section WithPermutation.
Variable permutation24 : list Z -> list Z.

(** The absorb phase, [for i := 0; i < len(input); i += rate { ... }],
    entered at [i]; [fuel] bounds the number of iterations and [None] is a
    panic or fuel exhaustion. *)
Fixpoint absorb (fuel : nat) (rate : Z) (input : list Z) (i : Z)
    (state : list Z) : option (list Z) :=
  if negb (i <? len input) then Some state
  else
    match fuel with
    | O => None
    | S fuel' =>
        let end_ := i + rate in
        let end_ := if end_ >? len input then len input else end_ in
        match add_input (zrange (end_ - i)) input i state with
        | None => None
        | Some state =>
            match Permute permutation24 state with
            | None => None
            | Some state => absorb fuel' rate input (i + rate) state
            end
        end
    end.

(** [poseidonSponge(capacity, input)] squeezing [outLen] elements:
    [state[rate:]] panics on a negative [rate], [make] on a negative
    [outLen], and [state[:outLen]] beyond the width. *)
Definition poseidonSponge (fuel : nat) (outLen : Z) (capacity input : list Z)
  : option (list Z) :=
  let width := 24 in
  let rate := width - len capacity in
  if rate <? 0 then None
  else
    let state := repeat 0 (Z.to_nat rate) ++ capacity in
    match absorb fuel rate input 0 state with
    | None => None
    | Some state =>
        if outLen <? 0 then None
        else Winternitz.slice_to state outLen
    end.

End WithPermutation.
End Sponge.

(* ================================================================= *)
(** ** Package [message_hash]: the Poseidon message hash *)

Module PoseidonMH.
Import Th Digits TopLevelPoseidon.

Record PoseidonMessageHash : Type := {
  parameterLen : Z;
  randLen : Z;
  msgHashLenFE : Z;
  numChunks : Z;
  base : Z;
  tweakLenFE : Z;
  msgLenFE : Z
}.

Definition NewPoseidonMessageHash
    (parameterLen randLen msgHashLenFE numChunks base tweakLenFE msgLenFE : Z)
  : PoseidonMessageHash :=
  {| parameterLen := parameterLen; randLen := randLen;
     msgHashLenFE := msgHashLenFE; numChunks := numChunks; base := base;
     tweakLenFE := tweakLenFE; msgLenFE := msgLenFE |}.

Definition OutputLen (h : PoseidonMessageHash) : Z := numChunks h.
Definition RandLen (h : PoseidonMessageHash) : Z := i64 (randLen h * 4).
Definition Dimension (h : PoseidonMessageHash) : Z := numChunks h.
Definition Base (h : PoseidonMessageHash) : Z := base h.

(** [for base > 1 { base >>= 1; chunkSize++ }]; an [int] has 64 bits, so
    64 iterations exhaust it. *)
Fixpoint chunk_size_loop (fuel : nat) (base chunkSize : Z) : Z :=
  match fuel with
  | O => chunkSize
  | S fuel' =>
      if base >? 1 then chunk_size_loop fuel' (Z.shiftr base 1) (chunkSize + 1)
      else chunkSize
  end.

Definition ChunkSize (h : PoseidonMessageHash) : Z :=
  chunk_size_loop 64 (base h) 0.

(** [epochToFieldElements]: the base-[p] digits of [epoch << 8 | 0x02]. *)
Definition epochToFieldElements (h : PoseidonMessageHash) (epoch : Z)
  : option (list Z) :=
  let val := u64 (Z.lor (u64 (Z.shiftl (u64 epoch) 8)) 0x02) in
  if tweakLenFE h <? 0 then None
  else Some (base_p_digits (Z.to_nat (tweakLenFE h)) val).

Definition reverseBytes (b : list Z) : list Z := rev b.

(** [x.Bytes()] of [math/big] for [x >= 0]: the big-endian bytes of [x]
    without leading zero bytes; [byte_len x] is their number. *)
Definition byte_len (x : Z) : nat :=
  if x <=? 0 then O else S (Z.to_nat (Z.log2 x / 8)).

Definition big_Bytes (x : Z) : list Z := rev (digits_le 256 (byte_len x) x).

(** [fieldElementsToBytes]: the elements as base-[p] digits, least
    significant first, written as little-endian bytes and padded to
    [max(32, 31 * len(elements) / 8)] bytes. *)
Definition fieldElementsToBytes (elements : list Z) : list Z :=
  let acc := fold_right (fun digit acc => acc * p + digit) 0 elements in
  let bytes := big_Bytes acc in
  let expectedLen := (len elements * 31) / 8 in
  let expectedLen := if expectedLen <? 32 then 32 else expectedLen in
  let bytes :=
    if len bytes <? expectedLen
    then repeat 0 (Z.to_nat (expectedLen - len bytes)) ++ bytes
    else bytes in
  reverseBytes bytes.

(** [big.Int.Mod] and [big.Int.Div]: Euclidean modulus and division; both
    panic on a zero divisor. *)
Definition big_Mod (x y : Z) : option Z :=
  if y =? 0 then None else Some (x mod Z.abs y).

Definition big_Div (x y : Z) : option Z :=
  if y =? 0 then None else Some ((x - x mod Z.abs y) / y).

(** [for i := 0; i < numChunks; i++ { chunks[i] = byte(acc mod base);
    acc = acc div base }], with [n] iterations left. *)
Fixpoint chunks_of (n : nat) (acc base : Z) : option (list Z) :=
  match n with
  | O => Some []
  | S n' =>
      match big_Mod acc base, big_Div acc base with
      | Some chunk, Some acc' =>
          match chunks_of n' acc' base with
          | None => None
          | Some chunks => Some (u8 (i64 chunk) :: chunks)
          end
      | _, _ => None
      end
  end.

(** [decodeToChunks]: the elements as base-[p] digits, most significant
    first, rewritten in base [base]. *)
Definition decodeToChunks (h : PoseidonMessageHash) (fieldElements : list Z)
  : option (list Z) :=
  let acc := fold_left (fun acc fe => acc * p + fe) fieldElements 0 in
  let base := i64 (base h) in
  if numChunks h <? 0 then None
  else chunks_of (Z.to_nat (numChunks h)) acc base.

Section WithPermutation.
Variable permutation24 : list Z -> list Z.

Definition poseidonSponge (fuel : nat) (h : PoseidonMessageHash)
    (capacity input : list Z) : option (list Z) :=
  Sponge.poseidonSponge permutation24 fuel (msgHashLenFE h) capacity input.

(** [Hash]: the sponge over capacity [params || epoch] and input
    [rand || msg], decoded to chunks. *)
Definition Hash (fuel : nat) (h : PoseidonMessageHash) (params : Params)
    (msg rand : list Z) (epoch : Z) : option (list Z) :=
  match bytesToFieldElements msg (msgLenFE h) with
  | None => None
  | Some msgFields =>
      match bytesToFieldElements rand (randLen h) with
      | None => None
      | Some randFields =>
          match bytesToFieldElements params (parameterLen h) with
          | None => None
          | Some paramFields =>
              match epochToFieldElements h epoch with
              | None => None
              | Some epochFields =>
                  let capacity := paramFields ++ epochFields in
                  let input := randFields ++ msgFields in
                  match poseidonSponge fuel h capacity input with
                  | None => None
                  | Some result =>
                      match Winternitz.slice_to result (msgHashLenFE h) with
                      | None => None
                      | Some result => decodeToChunks h result
                      end
                  end
              end
          end
      end
  end.

(** The hash as an [encoding.MessageHash]; with a positive rate the absorb
    loop runs at most [len(input)] times, so this fuel lets it finish. *)
Definition as_message_hash (h : PoseidonMessageHash) : MH.MessageHash := {|
  MH.Hash := Hash (Z.to_nat (randLen h + msgLenFE h)) h;
  MH.OutputLen := OutputLen h;
  MH.RandLen := RandLen h;
  MH.Dimension := Dimension h;
  MH.Base := Base h;
  MH.ChunkSize := ChunkSize h
|}.

End WithPermutation.

(** The configuration of [TestPoseidonMessageHashApply]. *)
Definition test_config : PoseidonMessageHash :=
  NewPoseidonMessageHash 4 4 5 32 16 2 9.

(** One chunk in base 5, a base that is not a power of two: [ChunkSize()]
    is 2 all the same, so [NewWinternitzEncoding(mh, 2, 1)] accepts the
    hash. *)
Definition base5_config : PoseidonMessageHash :=
  NewPoseidonMessageHash 4 4 5 1 5 2 9.

Definition winternitz_base5 : Winternitz.WinternitzEncoding := {|
  Winternitz.messageHash := as_message_hash Toy.toy_permutation base5_config;
  Winternitz.chunkSize := 2;
  Winternitz.numChunksChecksum := 1;
  Winternitz.numChunksMessage := 1
|}.

End PoseidonMH.

(* ================================================================= *)
(** ** Package [tweak_hash]: the Poseidon tweakable hash *)

Module PoseidonTH.
Import Th.

Definition TweakSeparatorChainHash : Z := 0x00.
Definition TweakSeparatorTreeHash : Z := 0x01.
Definition TweakSeparatorMessageHash : Z := 0x02.

(** The BabyBear prime. *)
Definition P : Z := 2013265921.

Record PoseidonTweakHash : Type := {
  parameterLen : Z;
  hashLen : Z;
  tweakLen : Z;
  capacity : Z;
  numChunks : Z
}.

Definition NewPoseidonTweakHash
    (parameterLen hashLen tweakLen capacity numChunks : Z)
  : PoseidonTweakHash :=
  {| parameterLen := parameterLen; hashLen := hashLen; tweakLen := tweakLen;
     capacity := capacity; numChunks := numChunks |}.

(** [binary.LittleEndian.Uint64(b)] and [Uint32(b)]: they panic on a
    slice shorter than 8, respectively 4, bytes. *)
Definition LittleEndian_Uint64 (b : list Z) : option Z :=
  match b with
  | b0 :: b1 :: b2 :: b3 :: b4 :: b5 :: b6 :: b7 :: _ =>
      Some (Z.lor (Z.lor (Z.lor (Z.lor (Z.lor (Z.lor (Z.lor
              b0 (Z.shiftl b1 8)) (Z.shiftl b2 16)) (Z.shiftl b3 24))
              (Z.shiftl b4 32)) (Z.shiftl b5 40)) (Z.shiftl b6 48))
              (Z.shiftl b7 56))
  | _ => None
  end.

Definition LittleEndian_Uint32 (b : list Z) : option Z :=
  match b with
  | b0 :: b1 :: b2 :: b3 :: _ =>
      Some (Z.lor (Z.lor (Z.lor
              b0 (Z.shiftl b1 8)) (Z.shiftl b2 16)) (Z.shiftl b3 24))
  | _ => None
  end.

(** [TreeTweak]: the 8 little-endian bytes of
    [level << 40 | posInLevel << 8 | 0x01]. *)
Definition TreeTweak (t : PoseidonTweakHash) (level posInLevel : Z) : Tweak :=
  Winternitz.LittleEndian_PutUint64
    (Z.lor (Z.lor (u64 (Z.shiftl (u64 level) 40))
                  (u64 (Z.shiftl (u64 posInLevel) 8)))
           TweakSeparatorTreeHash).

(** [ChainTweak]: the 8 little-endian bytes of
    [epoch << 24 | chainIndex << 16 | posInChain << 8 | 0x00]. *)
Definition ChainTweak (t : PoseidonTweakHash) (epoch chainIndex posInChain : Z)
  : Tweak :=
  let val :=
    Z.lor (Z.lor (Z.lor (u64 (Z.shiftl (u64 epoch) 24))
                        (u64 (Z.shiftl (u64 chainIndex) 16)))
                 (u64 (Z.shiftl (u64 posInChain) 8)))
          TweakSeparatorChainHash in
  Winternitz.LittleEndian_PutUint64 val.

(** [MessageTweak]: the separator and the epoch in 4 little-endian
    bytes. *)
Definition MessageTweak (t : PoseidonTweakHash) (epoch : Z) : Tweak :=
  TweakSeparatorMessageHash :: Tweak.LittleEndian_AppendUint32 [] epoch.

Definition OutputLen (t : PoseidonTweakHash) : Z := i64 (hashLen t * 4).
Definition ParameterLen (t : PoseidonTweakHash) : Z := i64 (parameterLen t * 4).

(** [babybear.Element] as its canonical value in [0, P): [SetBytes] reads
    a big-endian integer and reduces it, [Bytes] writes the value in 4
    big-endian bytes. *)
Definition Element_SetBytes (e : list Z) : Z := Tweak.be_value e mod P.
Definition Element_Bytes (z : Z) : list Z := PRF.BigEndian_PutUint32 z.

(** [tweakToFieldElements]: the 64-bit word the tweak packs, in base
    [P]; an empty tweak panics at [tweak[0]], a chain or tree tweak
    shorter than 8 bytes in [Uint64]; any other tweak counts as zero. *)
Definition tweakToFieldElements (t : PoseidonTweakHash) (tweak : Tweak)
  : option (list Z) :=
  match idx tweak 0 with
  | None => None
  | Some separator =>
      let acc :=
        if separator =? TweakSeparatorTreeHash then LittleEndian_Uint64 tweak
        else if separator =? TweakSeparatorChainHash
        then LittleEndian_Uint64 tweak
        else if separator =? TweakSeparatorMessageHash then
          if len tweak >=? 5 then
            match LittleEndian_Uint32 (skipn 1 tweak) with
            | None => None
            | Some epoch =>
                Some (Z.lor (u64 (Z.shiftl epoch 8)) TweakSeparatorMessageHash)
            end
          else Some 0
        else Some 0 in
      match acc with
      | None => None
      | Some acc =>
          if tweakLen t <? 0 then None
          else Some (TopLevelPoseidon.base_p_digits (Z.to_nat (tweakLen t)) acc)
      end
  end.

Definition computeCapacityValue (params tweak : list Z) : list Z :=
  params ++ tweak.

(** [bytesToFieldElements]: element [i] is read from bytes
    [4i .. 4i+3]; a last group cut short is completed with zero bytes on
    the right, and elements past the data stay zero. *)
Definition bytesToFieldElements (data : list Z) (numElements : Z)
  : option (list Z) :=
  if numElements <? 0 then None
  else
    Some (map (fun i =>
                 let offset := i * 4 in
                 if offset + 4 <=? len data
                 then Element_SetBytes
                        (firstn 4 (skipn (Z.to_nat offset) data))
                 else if offset <? len data
                 then Element_SetBytes
                        (firstn 4 (skipn (Z.to_nat offset) data ++ repeat 0 4))
                 else 0)
              (zrange numElements)).

Definition fieldElementsToBytes (elements : list Z) : list Z :=
  concat (map Element_Bytes elements).

Section WithPermutation.
Variable permutation24 : list Z -> list Z.

Definition poseidonSponge (fuel : nat) (t : PoseidonTweakHash)
    (capacity input : list Z) : option (list Z) :=
  Sponge.poseidonSponge permutation24 fuel (hashLen t) capacity input.

(** [Apply]: the sponge over capacity [params || tweak] and the data
    blocks, written back as bytes. *)
Definition Apply (fuel : nat) (t : PoseidonTweakHash) (params : Params)
    (tweak : Tweak) (data : list Domain) : option Domain :=
  match bytesToFieldElements params (parameterLen t) with
  | None => None
  | Some paramFields =>
      match tweakToFieldElements t tweak with
      | None => None
      | Some tweakFields =>
          match mapM (fun d => bytesToFieldElements d (hashLen t)) data with
          | None => None
          | Some fields =>
              let dataFields := concat fields in
              let capacityValue :=
                computeCapacityValue paramFields tweakFields in
              match poseidonSponge fuel t capacityValue dataFields with
              | None => None
              | Some result => Some (fieldElementsToBytes result)
              end
          end
      end
  end.

End WithPermutation.

(** The three kinds of tweak input, to state facts about all of them. *)
Inductive tweak_input : Type :=
  | ChainInput (epoch chainIndex posInChain : Z)
  | TreeInput (level posInLevel : Z)
  | MessageInput (epoch : Z).

Definition tweak_of (t : PoseidonTweakHash) (a : tweak_input) : Tweak :=
  match a with
  | ChainInput epoch chainIndex posInChain =>
      ChainTweak t epoch chainIndex posInChain
  | TreeInput level posInLevel => TreeTweak t level posInLevel
  | MessageInput epoch => MessageTweak t epoch
  end.

(** The arguments have their Go types: [uint32] epochs and positions,
    [uint8] levels and chain indices. *)
Definition in_range (a : tweak_input) : Prop :=
  match a with
  | ChainInput epoch chainIndex posInChain =>
      is_u32 epoch /\ is_u8 chainIndex /\ is_u8 posInChain
  | TreeInput level posInLevel => is_u8 level /\ is_u32 posInLevel
  | MessageInput epoch => is_u32 epoch
  end.

(** The 64-bit word a tweak packs, per kind of tweak. *)
Definition word_of (a : tweak_input) : Z :=
  match a with
  | ChainInput e c q => e * 2 ^ 24 + c * 2 ^ 16 + q * 2 ^ 8
  | TreeInput l pos => l * 2 ^ 40 + pos * 2 ^ 8 + 1
  | MessageInput e => e * 2 ^ 8 + 2
  end.

(** The configuration of the tests, [NewPoseidonTweakHash(4, 4, 2, 9, 32)]. *)
Definition test_config : PoseidonTweakHash := NewPoseidonTweakHash 4 4 2 9 32.

End PoseidonTH.

(* ================================================================= *)
(** ** Package [prf]: the SHAKE128 PRF with field-element output *)

Module ShakePRF.
Import Th.

Record ShakePRFtoField : Type := {
  keyLen : Z;
  outputLenFE : Z
}.

Definition NewShakePRFtoField (keyLen outputLenFE : Z) : ShakePRFtoField :=
  {| keyLen := keyLen; outputLenFE := outputLenFE |}.

Definition shakePRFDomainSep : list Z :=
  [0xae; 0xae; 0x22; 0xff; 0x00; 0x01; 0xfa; 0xff;
   0x21; 0xaf; 0x12; 0x00; 0x01; 0x11; 0xff; 0x00].

(** [binary.BigEndian.Uint64(b)]: panics on a slice shorter than 8
    bytes. *)
Definition BigEndian_Uint64 (b : list Z) : option Z :=
  match b with
  | b0 :: b1 :: b2 :: b3 :: b4 :: b5 :: b6 :: b7 :: _ =>
      Some (Z.lor (Z.lor (Z.lor (Z.lor (Z.lor (Z.lor (Z.lor
              b7 (Z.shiftl b6 8)) (Z.shiftl b5 16)) (Z.shiftl b4 24))
              (Z.shiftl b3 32)) (Z.shiftl b2 40)) (Z.shiftl b1 48))
              (Z.shiftl b0 56))
  | _ => None
  end.

(** [s[lo:hi]]: panics unless [0 <= lo <= hi <= len(s)]. *)
Definition slice {A} (s : list A) (lo hi : Z) : option (list A) :=
  if (lo <? 0) || (hi <? lo) || (len s <? hi) then None
  else Some (firstn (Z.to_nat (hi - lo)) (skipn (Z.to_nat lo) s)).

Definition OutputLen (p : ShakePRFtoField) : Z := i64 (outputLenFE p * 4).

Section WithShake.
(** [sha3.NewShake128] of [golang.org/x/crypto/sha3]: [SHAKE128 m n] is
    what [Read] stores in a buffer of [n] bytes after [m] was written. *)
Variable SHAKE128 : list Z -> nat -> list Z.

(** [Apply]: 8 bytes of SHAKE128 output per field element, read as a
    big-endian integer, reduced modulo the BabyBear prime and written in
    4 big-endian bytes. *)
Definition Apply (p : ShakePRFtoField) (key : list Z) (epoch chainIndex : Z)
  : option Domain :=
  let epochBytes := PRF.BigEndian_PutUint32 epoch in
  let chainBytes := PRF.BigEndian_PutUint64 chainIndex in
  let bytesPerFE := 8 in
  match IO.make_bytes (i64 (bytesPerFE * outputLenFE p)) with
  | None => None
  | Some buf =>
      let prfOutput :=
        SHAKE128 (shakePRFDomainSep ++ key ++ epochBytes ++ chainBytes)
                 (length buf) in
      if i64 (outputLenFE p * 4) <? 0 then None
      else
        match mapM (fun i =>
                      let chunkStart := i * bytesPerFE in
                      let chunkEnd := chunkStart + bytesPerFE in
                      match slice prfOutput chunkStart chunkEnd with
                      | None => None
                      | Some chunk =>
                          match BigEndian_Uint64 chunk with
                          | None => None
                          | Some val =>
                              let val := val mod 2013265921 in
                              let elem := val mod PoseidonTH.P in
                              Some (PoseidonTH.Element_Bytes elem)
                          end
                      end)
                   (zrange (outputLenFE p)) with
        | None => None
        | Some groups => Some (concat groups)
        end
  end.

End WithShake.

(** A stand-in for SHAKE128: [n] bytes that depend on the input. *)
Definition toy_shake (m : list Z) (n : nat) : list Z :=
  map (fun k => u8 (fold_left (fun acc b => 31 * acc + b + k) m 7))
      (zrange (Z.of_nat n)).

End ShakePRF.
(* ================================================================= *)
(** ** Facts about machine integers and slices *)

Module GoIntFacts.

Lemma u8_id z : is_u8 z -> u8 z = z.
Proof. unfold is_u8, u8; intros; apply Z.mod_small; lia. Qed.

Lemma u32_id z : is_u32 z -> u32 z = z.
Proof. unfold is_u32, u32; intros; apply Z.mod_small; lia. Qed.

Lemma u8_range z : is_u8 (u8 z).
Proof. unfold is_u8, u8; apply Z.mod_pos_bound; lia. Qed.

Lemma u32_range z : is_u32 (u32 z).
Proof. unfold is_u32, u32; apply Z.mod_pos_bound; lia. Qed.

Lemma i64_id z : is_int z -> i64 z = z.
Proof.
  unfold is_int, i64; intros.
  rewrite Z.mod_small; lia.
Qed.

Lemma len_nonneg {A} (s : list A) : 0 <= len s.
Proof. unfold len; lia. Qed.

Lemma len_app {A} (s t : list A) : len (s ++ t) = len s + len t.
Proof. unfold len; rewrite length_app; lia. Qed.

Lemma len_nil {A} : len (@nil A) = 0.
Proof. reflexivity. Qed.

Lemma len_cons {A} (a : A) (s : list A) : len (a :: s) = 1 + len s.
Proof. unfold len; simpl length; lia. Qed.

(** Normalise the lengths of explicit lists. *)
Ltac lens :=
  cbn [app]; repeat (rewrite len_app || rewrite len_cons);
  repeat match goal with
         | |- context [@len ?A []] => change (@len A []) with 0
         end.

Lemma idx_Some_range {A} (s : list A) i x :
  idx s i = Some x -> 0 <= i < len s.
Proof.
  unfold idx, len; destruct (Z.ltb_spec i 0); [discriminate|].
  intros E. assert (Hn : (Z.to_nat i < length s)%nat)
    by (apply nth_error_Some; congruence).
  lia.
Qed.

Lemma idx_in_range {A} (s : list A) i :
  0 <= i < len s -> exists x, idx s i = Some x.
Proof.
  unfold idx, len; intros H.
  destruct (Z.ltb_spec i 0); [lia|].
  destruct (nth_error s (Z.to_nat i)) eqn:E; [eauto|].
  apply nth_error_None in E; lia.
Qed.

Lemma idx_cons_0 {A} (a : A) s : idx (a :: s) 0 = Some a.
Proof. reflexivity. Qed.

Lemma idx_cons_succ {A} (a : A) s i :
  0 <= i -> idx (a :: s) (i + 1) = idx s i.
Proof.
  intros H; unfold idx.
  destruct (Z.ltb_spec (i + 1) 0); [lia|].
  destruct (Z.ltb_spec i 0); [lia|].
  replace (Z.to_nat (i + 1)) with (S (Z.to_nat i)) by lia.
  reflexivity.
Qed.

Lemma idx_cons_pos {A} (a : A) s i :
  0 < i -> idx (a :: s) i = idx s (i - 1).
Proof.
  intros H; replace i with (i - 1 + 1) at 1 by lia.
  apply idx_cons_succ; lia.
Qed.

Lemma idx_app_l {A} (s t : list A) i :
  i < len s -> idx (s ++ t) i = idx s i.
Proof.
  unfold idx, len; intros H.
  destruct (Z.ltb_spec i 0); [reflexivity|].
  apply nth_error_app1; lia.
Qed.

Lemma idx_app_r {A} (s t : list A) i :
  len s <= i -> idx (s ++ t) i = idx t (i - len s).
Proof.
  unfold idx, len; intros H.
  destruct (Z.ltb_spec i 0); [lia|].
  destruct (Z.ltb_spec (i - Z.of_nat (length s)) 0); [lia|].
  rewrite nth_error_app2 by lia.
  f_equal; lia.
Qed.

Lemma idx_snoc_last {A} (s : list A) (a : A) : idx (s ++ [a]) (len s) = Some a.
Proof.
  rewrite idx_app_r by lia.
  rewrite Z.sub_diag; reflexivity.
Qed.

Lemma idx_map {A B} (f : A -> B) (s : list A) i :
  idx (map f s) i = option_map f (idx s i).
Proof.
  unfold idx; destruct (i <? 0); [reflexivity|].
  apply nth_error_map.
Qed.

Lemma land_1 x : Z.land x 1 = x mod 2.
Proof. exact (Z.land_ones x 1 ltac:(lia)). Qed.

Lemma shiftr_1 x : Z.shiftr x 1 = x / 2.
Proof. exact (Z.shiftr_div_pow2 x 1 ltac:(lia)). Qed.

Lemma lxor_1_even x : x mod 2 = 0 -> Z.lxor x 1 = x + 1.
Proof.
  intros H; symmetry; apply Z.add_nocarry_lxor.
  rewrite land_1; assumption.
Qed.

Lemma lxor_1_odd x : x mod 2 = 1 -> Z.lxor x 1 = x - 1.
Proof.
  intros H.
  assert (E : (x - 1) mod 2 = 0).
  { pose proof (Z.div_mod x 2 ltac:(lia)).
    replace (x - 1) with (x / 2 * 2) by lia.
    apply Z.mod_mul; lia. }
  replace x with (Z.lxor (x - 1) 1) at 1
    by (rewrite (lxor_1_even _ E); lia).
  rewrite Z.lxor_assoc, Z.lxor_nilpotent, Z.lxor_0_r; reflexivity.
Qed.

Lemma lxor_1_double q : Z.lxor (2 * q) 1 = 2 * q + 1.
Proof. apply lxor_1_even; rewrite Z.mul_comm; apply Z.mod_mul; lia. Qed.

Lemma lxor_1_double_succ q : Z.lxor (2 * q + 1) 1 = 2 * q.
Proof.
  rewrite lxor_1_odd; [lia|].
  rewrite Z.add_comm, Z.mul_comm, Z.mod_add by lia; reflexivity.
Qed.

Lemma zrange_idx n i : 0 <= i < n -> idx (zrange n) i = Some i.
Proof.
  intros H; unfold zrange, idx.
  destruct (Z.ltb_spec i 0); [lia|].
  rewrite nth_error_map, nth_error_seq.
  destruct (Nat.ltb_spec (Z.to_nat i) (Z.to_nat n)); [|lia].
  cbn [option_map Nat.add]; f_equal; lia.
Qed.

Lemma zrange_len n : len (zrange n) = Z.max 0 n.
Proof. unfold zrange, len; rewrite length_map, length_seq; lia. Qed.

Lemma zrange_In n i : In i (zrange n) -> 0 <= i < n.
Proof.
  unfold zrange; rewrite in_map_iff; intros (k & <- & Hk).
  apply in_seq in Hk; lia.
Qed.

Lemma mapM_map {A B} (f : A -> option B) (h : A -> B) l :
  (forall a, In a l -> f a = Some (h a)) -> mapM f l = Some (map h l).
Proof.
  induction l as [|a l IH]; intros H; [reflexivity|].
  cbn [mapM map]; rewrite (H a (or_introl eq_refl)), IH; [reflexivity|].
  intros b Hb; apply H; right; assumption.
Qed.

Lemma mapM_idx {A B} (f : A -> option B) l r :
  mapM f l = Some r ->
  forall i a, idx l i = Some a -> exists b, f a = Some b /\ idx r i = Some b.
Proof.
  revert r; induction l as [|a l IH]; intros r E i x Hx.
  - pose proof (idx_Some_range _ _ _ Hx) as Hr; revert Hr; lens; lia.
  - cbn [mapM] in E.
    destruct (f a) as [b|] eqn:Ea; [|discriminate].
    destruct (mapM f l) as [bs|] eqn:Ebs; [|discriminate].
    injection E as <-.
    pose proof (idx_Some_range _ _ _ Hx) as Hr.
    destruct (Z.eq_dec i 0) as [->|Hne].
    + injection Hx as <-; exists b; auto.
    + rewrite idx_cons_pos in Hx by lia.
      rewrite idx_cons_pos by lia.
      eauto.
Qed.

Lemma i64_le z : 0 <= z -> i64 z <= z.
Proof.
  unfold i64; intros H.
  pose proof (Z.mod_le (z + 2 ^ 63) (2 ^ 64) ltac:(lia) ltac:(lia)).
  lia.
Qed.

(** Case analysis on parity, in the form [lia] consumes. *)
Lemma parity x : x = 2 * (x / 2) /\ x mod 2 = 0
                 \/ x = 2 * (x / 2) + 1 /\ x mod 2 = 1.
Proof.
  pose proof (Z.div_mod x 2 ltac:(lia)).
  pose proof (Z.mod_pos_bound x 2 ltac:(lia)).
  lia.
Qed.

End GoIntFacts.
Import GoIntFacts.

(* ================================================================= *)
(** ** Properties of the tweak encoders *)

Module TweakFacts.
Import Tweak.

Lemma BigEndian_spec b v : BigEndian_AppendUint32 b v = b ++ spec_BE32 v.
Proof.
  unfold BigEndian_AppendUint32, spec_BE32, u8.
  rewrite !Z.shiftr_div_pow2 by lia.
  reflexivity.
Qed.

Lemma LittleEndian_spec b v : LittleEndian_AppendUint32 b v = b ++ spec_LE32 v.
Proof.
  unfold LittleEndian_AppendUint32, spec_LE32, spec_BE32, u8.
  rewrite !Z.shiftr_div_pow2 by lia.
  reflexivity.
Qed.

Lemma be_value_BE32 x : is_u32 x -> be_value (spec_BE32 x) = x.
Proof.
  unfold is_u32, be_value, spec_BE32; intros H; cbn [fold_left].
  replace (x / 256 ^ 3) with (x / 256 / 256 / 256)
    by (rewrite !Z.div_div by lia; reflexivity).
  replace (x / 256 ^ 2) with (x / 256 / 256)
    by (rewrite !Z.div_div by lia; reflexivity).
  pose proof (Z.div_mod x 256 ltac:(lia)).
  pose proof (Z.div_mod (x / 256) 256 ltac:(lia)).
  pose proof (Z.div_mod (x / 256 / 256) 256 ltac:(lia)).
  assert (x / 256 / 256 / 256 < 256).
  { rewrite !Z.div_div by lia. apply Z.div_lt_upper_bound; lia. }
  assert (0 <= x / 256 / 256 / 256) by (repeat apply Z.div_pos; lia).
  rewrite (Z.mod_small (x / 256 / 256 / 256)) by lia.
  lia.
Qed.

Lemma spec_BE32_inj x y :
  is_u32 x -> is_u32 y -> spec_BE32 x = spec_BE32 y -> x = y.
Proof.
  intros Hx Hy E.
  rewrite <- (be_value_BE32 x Hx), <- (be_value_BE32 y Hy), E.
  reflexivity.
Qed.

(** The three test vectors of [TestChainTweakFormat], [TestTreeTweakFormat]
    and [TestMessageTweakFormat]. *)
Example ChainTweak_vector :
  ChainTweak 0x12345678 0xAB 0xCD = [0x00; 0x12; 0x34; 0x56; 0x78; 0xAB; 0xCD].
Proof. reflexivity. Qed.

Example TreeTweak_vector :
  TreeTweak 0xAB 0x12345678 = [0x01; 0xAB; 0x12; 0x34; 0x56; 0x78].
Proof. reflexivity. Qed.

Example MessageTweak_vector :
  MessageTweak 0x12345678 = [0x02; 0x78; 0x56; 0x34; 0x12].
Proof. reflexivity. Qed.

Lemma ChainTweak_format epoch i pos :
  ChainTweak epoch i pos = [0x00] ++ spec_BE32 epoch ++ [i] ++ [pos].
Proof. unfold ChainTweak; rewrite BigEndian_spec; reflexivity. Qed.

Lemma TreeTweak_format level pos :
  TreeTweak level pos = [0x01] ++ [level] ++ spec_BE32 pos.
Proof. unfold TreeTweak; rewrite BigEndian_spec; reflexivity. Qed.

Lemma MessageTweak_format epoch :
  MessageTweak epoch = [0x02] ++ spec_LE32 epoch.
Proof. unfold MessageTweak; rewrite LittleEndian_spec; reflexivity. Qed.

Lemma ChainTweak_inj e i p e' i' p' :
  is_u32 e -> is_u32 e' ->
  ChainTweak e i p = ChainTweak e' i' p' -> e = e' /\ i = i' /\ p = p'.
Proof.
  intros He He'; rewrite !ChainTweak_format; intros E.
  unfold spec_BE32 in E; cbn [app] in E.
  injection E as E3 E2 E1 E0 Ei Ep.
  repeat split; try assumption.
  apply spec_BE32_inj; try assumption.
  unfold spec_BE32; cbn [Z.pow]; congruence.
Qed.

Lemma TreeTweak_inj l p l' p' :
  is_u32 p -> is_u32 p' ->
  TreeTweak l p = TreeTweak l' p' -> l = l' /\ p = p'.
Proof.
  intros Hp Hp'; rewrite !TreeTweak_format; intros E.
  unfold spec_BE32 in E; cbn [app] in E.
  injection E as El E3 E2 E1 E0.
  split; [assumption|].
  apply spec_BE32_inj; try assumption.
  unfold spec_BE32; cbn [Z.pow]; congruence.
Qed.

Lemma MessageTweak_inj e e' :
  is_u32 e -> is_u32 e' -> MessageTweak e = MessageTweak e' -> e = e'.
Proof.
  intros He He'; rewrite !MessageTweak_format; intros E.
  unfold spec_LE32, spec_BE32 in E; cbn [app rev] in E.
  injection E as E0 E1 E2 E3.
  apply spec_BE32_inj; try assumption.
  unfold spec_BE32; cbn [Z.pow]; congruence.
Qed.

(** C3. For arguments of their Go types ([epoch], [pos_in_level] 32-bit,
    the others 8-bit), [ChainTweak] is [0x00 || BE32(epoch) || u8(i) ||
    u8(pos)], [TreeTweak] is [0x01 || u8(level) || BE32(pos)] and
    [MessageTweak] is [0x02 || LE32(epoch)]; the three test vectors hold;
    each kind is injective and the first bytes of the three kinds are
    pairwise different. *)
Theorem tweak_formats (epoch i pos level posInLevel : Z)
    (Hepoch : is_u32 epoch) (Hi : is_u8 i) (Hpos : is_u8 pos)
    (Hlevel : is_u8 level) (HposInLevel : is_u32 posInLevel) :
  (ChainTweak epoch i pos = [0x00] ++ spec_BE32 epoch ++ [u8 i] ++ [u8 pos]
   /\ TreeTweak level posInLevel = [0x01] ++ [u8 level] ++ spec_BE32 posInLevel
   /\ MessageTweak epoch = [0x02] ++ spec_LE32 epoch)
  /\ (ChainTweak 0x12345678 0xAB 0xCD = [0x00; 0x12; 0x34; 0x56; 0x78; 0xAB; 0xCD]
      /\ TreeTweak 0xAB 0x12345678 = [0x01; 0xAB; 0x12; 0x34; 0x56; 0x78]
      /\ MessageTweak 0x12345678 = [0x02; 0x78; 0x56; 0x34; 0x12])
  /\ (forall epoch' i' pos', is_u32 epoch' ->
        ChainTweak epoch i pos = ChainTweak epoch' i' pos' ->
        epoch = epoch' /\ i = i' /\ pos = pos')
  /\ (forall level' posInLevel', is_u32 posInLevel' ->
        TreeTweak level posInLevel = TreeTweak level' posInLevel' ->
        level = level' /\ posInLevel = posInLevel')
  /\ (forall epoch', is_u32 epoch' ->
        MessageTweak epoch = MessageTweak epoch' -> epoch = epoch')
  /\ (forall e1 i1 p1 l2 p2 e3,
        hd_error (ChainTweak e1 i1 p1) = Some 0x00
        /\ hd_error (TreeTweak l2 p2) = Some 0x01
        /\ hd_error (MessageTweak e3) = Some 0x02
        /\ ChainTweak e1 i1 p1 <> TreeTweak l2 p2
        /\ ChainTweak e1 i1 p1 <> MessageTweak e3
        /\ TreeTweak l2 p2 <> MessageTweak e3).
Proof.
  split; [|split; [|split; [|split; [|split]]]].
  - rewrite (u8_id i), (u8_id pos), (u8_id level) by assumption.
    auto using ChainTweak_format, TreeTweak_format, MessageTweak_format.
  - auto using ChainTweak_vector, TreeTweak_vector, MessageTweak_vector.
  - intros; eapply ChainTweak_inj; eassumption.
  - intros; eapply TreeTweak_inj; eassumption.
  - intros; eapply MessageTweak_inj; eassumption.
  - intros; rewrite ChainTweak_format, TreeTweak_format, MessageTweak_format.
    repeat split; simpl; congruence.
Qed.

Lemma tweak_formats_witness :
  Tweak.ChainTweak 7 1 2 = [0x00] ++ spec_BE32 7 ++ [u8 1] ++ [u8 2].
Proof.
  apply (tweak_formats 7 1 2 3 9); unfold is_u32, is_u8; lia.
Defined.

End TweakFacts.

(* ================================================================= *)
(** ** Properties of the chain walker *)

Module ChainFacts.
Import Th.

Section WithHash.
Context {Rng : Type} (th : TweakableHash Rng).
Variables (P : Params) (epoch chainIndex : Z).

Lemma chain_loop_app sp n m j cur :
  chain_loop th P epoch chainIndex sp (n + m) j cur =
  chain_loop th P epoch chainIndex sp m (j + Z.of_nat n)
    (chain_loop th P epoch chainIndex sp n j cur).
Proof.
  revert j cur; induction n as [|n IH]; intros j cur.
  - simpl; f_equal; lia.
  - cbn [Nat.add chain_loop]; rewrite IH; f_equal; lia.
Qed.

Lemma chain_pos_congr sp j sp' j' :
  (sp + j) mod 256 = (sp' + j') mod 256 ->
  u8 (u8 (sp + u8 j) + 1) = u8 (u8 (sp' + u8 j') + 1).
Proof.
  unfold u8; intros E.
  rewrite !Zplus_mod_idemp_r, E; reflexivity.
Qed.

Lemma chain_loop_shift n : forall sp j sp' j' cur,
  (sp + j) mod 256 = (sp' + j') mod 256 ->
  chain_loop th P epoch chainIndex sp n j cur =
  chain_loop th P epoch chainIndex sp' n j' cur.
Proof.
  induction n as [|n IH]; intros sp j sp' j' cur E; [reflexivity|].
  cbn [chain_loop].
  rewrite (chain_pos_congr sp j sp' j' E).
  apply IH.
  rewrite !Z.add_assoc, (Z.add_mod (sp + j)), (Z.add_mod (sp' + j')), E by lia.
  reflexivity.
Qed.

Lemma chain_loop_split (a b : Z) (start : Domain) :
  0 <= a -> 0 <= b ->
  Chain th P epoch chainIndex 0 (a + b) start =
  Chain th P epoch chainIndex (u8 a) b (Chain th P epoch chainIndex 0 a start).
Proof.
  intros Ha Hb; unfold Chain.
  rewrite Z2Nat.inj_add, chain_loop_app by assumption.
  apply chain_loop_shift.
  rewrite Z2Nat.id by assumption.
  unfold u8; rewrite Z.add_0_r, Z.mod_mod by lia; reflexivity.
Qed.

(** C2. Walking [a + b] steps from position 0 is walking [a] steps and then
    [b] steps from position [a] (as the [uint8] the walker takes); and a
    walk of zero steps returns its start value, from any position. *)
Theorem chain_associative (a b : Z) (start : Domain)
    (Ha : 0 <= a) (Hb : 0 <= b) :
  Chain th P epoch chainIndex 0 (a + b) start =
    Chain th P epoch chainIndex (u8 a) b (Chain th P epoch chainIndex 0 a start)
  /\ (forall e i sp s, Chain th P e i sp 0 s = s).
Proof.
  split; [|reflexivity].
  apply chain_loop_split; assumption.
Qed.

End WithHash.
End ChainFacts.

Module ChainWitness.
Import Th.

Lemma chain_associative_witness :
  Chain Toy.toy_th [1] 5 2 0 (3 + 4) [9] =
  Chain Toy.toy_th [1] 5 2 (u8 3) 4 (Chain Toy.toy_th [1] 5 2 0 3 [9]).
Proof.
  apply (ChainFacts.chain_associative Toy.toy_th [1] 5 2 3 4 [9]); lia.
Defined.

End ChainWitness.

(* ================================================================= *)
(** ** The sparse hash tree: layers, paths and their verification *)

Module MerkleFacts.
Import Th Merkle MerkleSpec.

Section WithHash.
Context {Rng : Type} (thash : TweakableHash Rng).

(** What [padded] returns: the segment widened to an even start and an even
    end, holding the given nodes at their positions. *)
Lemma padded_spec rng ns s l rng' :
  padded thash rng ns s = Some (l, rng') ->
  startIndex l = 2 * (s / 2)
  /\ layer_end l = 2 * ((s + len ns + 1) / 2)
  /\ (forall k, s <= k < s + len ns -> node_at l k = idx ns (k - s)).
Proof.
  unfold padded, layer_end, node_at; rewrite !land_1.
  cbn [app].
  destruct (parity s) as [[Es Ms]|[Es Ms]]; rewrite Ms; cbn [Z.eqb];
    destruct (parity (s + len ns - 1)) as [[Ee Me]|[Ee Me]]; rewrite Me;
    cbn [Z.eqb Pos.eqb].
  - (* even start, even last index: one node appended *)
    destruct (RandDomain thash rng) as [[d r]|]; [|discriminate].
    intros E; injection E as <- <-; cbn [startIndex nodes].
    lens.
    pose proof (parity (s + len ns + 1)).
    split; [lia|split; [lia|]].
    intros k Hk; apply idx_app_l; lia.
  - intros E; injection E as <- <-; cbn [startIndex nodes].
    pose proof (parity (s + len ns + 1)).
    split; [lia|split; [lia|]].
    intros k Hk; reflexivity.
  - destruct (RandDomain thash rng) as [[d r]|]; [|discriminate].
    destruct (RandDomain thash r) as [[d' r']|]; [|discriminate].
    intros E; injection E as <- <-; cbn [startIndex nodes app].
    lens.
    pose proof (parity (s + len ns + 1)).
    split; [lia|split; [lia|]].
    intros k Hk.
    replace (k - (s - 1)) with (k - s + 1) by lia.
    rewrite idx_cons_succ by lia.
    apply idx_app_l; lia.
  - destruct (RandDomain thash rng) as [[d r]|]; [|discriminate].
    intros E; injection E as <- <-; cbn [startIndex nodes app].
    lens.
    pose proof (parity (s + len ns + 1)).
    split; [lia|split; [lia|]].
    intros k Hk.
    replace (k - (s - 1)) with (k - s + 1) by lia.
    apply idx_cons_succ; lia.
Qed.

Lemma hash_pairs_spec P lvl ps ns n : forall i parents,
  hash_pairs thash P lvl ps ns n i = Some parents ->
  len parents = Z.of_nat n
  /\ forall k, 0 <= k < Z.of_nat n ->
       exists x y,
         idx ns (2 * (i + k)) = Some x /\ idx ns (2 * (i + k) + 1) = Some y
         /\ idx parents k =
            Some (Apply thash P (TreeTweak thash (u8 (lvl + 1)) (u32 (ps + (i + k))))
                    [x; y]).
Proof.
  induction n as [|n IH]; intros i parents.
  - cbn [hash_pairs]; intros E; injection E as <-.
    split; [reflexivity|]; intros k Hk; lia.
  - cbn [hash_pairs].
    destruct (idx ns (2 * i)) as [x|] eqn:Ex; [|discriminate].
    destruct (idx ns (2 * i + 1)) as [y|] eqn:Ey; [|discriminate].
    destruct (hash_pairs thash P lvl ps ns n (i + 1)) as [rest|] eqn:Er;
      [|discriminate].
    intros E; injection E as <-.
    destruct (IH _ _ Er) as [Hlen Hk].
    split; [rewrite len_cons; lia|].
    intros k Hk'.
    destruct (Z.eq_dec k 0) as [->|Hne].
    + exists x, y; rewrite !Z.add_0_r; auto.
    + destruct (Hk (k - 1) ltac:(lia)) as (x' & y' & Hx' & Hy' & Hp).
      exists x', y'.
      replace (i + 1 + (k - 1)) with (i + k) in * by lia.
      repeat split; try assumption.
      replace k with (k - 1 + 1) at 1 by lia.
      rewrite idx_cons_succ by lia; assumption.
Qed.

Lemma pow2_shape j : 0 <= j -> 2 ^ j = 1 \/ (2 ^ j) mod 2 = 0 /\ 2 <= 2 ^ j.
Proof.
  intros Hj; destruct (Z.eq_dec j 0) as [->|Hne]; [left; reflexivity|right].
  replace j with (1 + (j - 1)) by lia.
  rewrite Z.pow_add_r by lia.
  change (2 ^ 1) with 2.
  pose proof (Z.pow_pos_nonneg 2 (j - 1) ltac:(lia) ltac:(lia)).
  split; [|lia].
  rewrite Z.mul_comm; apply Z.mod_mul; lia.
Qed.

(** Widening a segment [lo, hi) that lies in a level of [M] positions to
    even bounds keeps it inside the level ([M] a power of two). *)
Lemma pad_bounds lo hi M :
  0 <= lo < hi -> hi <= M -> M = 1 \/ M mod 2 = 0 /\ 2 <= M ->
  (2 * (lo / 2)) mod 2 = 0
  /\ (2 * ((hi + 1) / 2) - 2 * (lo / 2)) mod 2 = 0
  /\ 0 <= 2 * (lo / 2) < 2 * ((hi + 1) / 2)
  /\ 2 * ((hi + 1) / 2) <= Z.max 2 M.
Proof.
  intros Hlo Hhi HM.
  split; [rewrite Z.mul_comm; apply Z.mod_mul; lia|].
  split.
  { rewrite <- Z.mul_sub_distr_l, Z.mul_comm; apply Z.mod_mul; lia. }
  destruct (parity lo) as [[E1 _]|[E1 _]], (parity (hi + 1)) as [[E2 _]|[E2 _]],
           (parity M) as [[E3 M3]|[E3 M3]]; lia.
Qed.

Lemma layer_ok_padded depth lvl rng ns s l rng' :
  padded thash rng ns s = Some (l, rng') ->
  0 <= s -> 1 <= len ns -> 0 <= depth - lvl -> s + len ns <= 2 ^ (depth - lvl) ->
  layer_ok depth lvl l.
Proof.
  intros Hp Hs Hn Hd Hcap.
  destruct (padded_spec _ _ _ _ _ Hp) as (Hst & Hen & _).
  destruct (pad_bounds s (s + len ns) (2 ^ (depth - lvl)) ltac:(lia) Hcap
              (pow2_shape _ Hd)) as (P1 & P2 & P3 & P4).
  unfold layer_ok.
  replace (len (nodes l)) with (layer_end l - startIndex l)
    by (unfold layer_end; lia).
  rewrite Hst, Hen; auto.
Qed.

Lemma layers_step P depth level layers prev parents pl rng rng' :
  layers_inv thash P depth level layers ->
  0 <= level < depth ->
  idx layers level = Some prev ->
  hash_pairs thash P level (Z.shiftr (startIndex prev) 1) (nodes prev)
    (Z.to_nat (len (nodes prev) / 2)) 0 = Some parents ->
  padded thash rng parents (Z.shiftr (startIndex prev) 1) = Some (pl, rng') ->
  layers_inv thash P depth (level + 1) (layers ++ [pl]).
Proof.
  intros (Hlen & Hok & Hrel) Hlvl Hprev Hhp Hpad.
  rewrite shiftr_1 in *.
  destruct (Hok _ _ Hprev) as (Hs2 & Hn2 & Hrange & Hcap).
  unfold layer_end in *.
  set (s := startIndex prev) in *; set (n := len (nodes prev)) in *.
  destruct (hash_pairs_spec _ _ _ _ _ _ _ Hhp) as [Hpl Hpk].
  rewrite Z2Nat.id in Hpl, Hpk by (apply Z.div_pos; lia).
  destruct (padded_spec _ _ _ _ _ Hpad) as (Hst & Hen & Hnodes).
  assert (Es : s = 2 * (s / 2)) by (destruct (parity s); lia).
  assert (En : n = 2 * (n / 2)) by (destruct (parity n); lia).
  assert (Hpow : 2 ^ (depth - level) = 2 * 2 ^ (depth - (level + 1))).
  { replace (depth - level) with (1 + (depth - (level + 1))) by lia.
    rewrite Z.pow_add_r by lia; reflexivity. }
  assert (Hpos : 0 < 2 ^ (depth - (level + 1)))
    by (apply Z.pow_pos_nonneg; lia).
  assert (Hok' : layer_ok depth (level + 1) pl).
  { eapply layer_ok_padded; [exact Hpad|..]. all: lia. }
  assert (Hrel' : parent_rel thash P level prev pl).
  { intros k Hk; unfold layer_end in Hk; fold s in Hk; fold n in Hk.
    destruct (Hpk (k - s / 2) ltac:(lia)) as (x & y & Hx & Hy & Hp).
    exists x, y; unfold node_at; fold s.
    replace (2 * k - s) with (2 * (0 + (k - s / 2))) by lia.
    replace (2 * k + 1 - s) with (2 * (0 + (k - s / 2)) + 1) by lia.
    repeat split; try assumption.
    fold (node_at pl k).
    rewrite Hnodes by lia.
    rewrite Hp; do 4 f_equal; lia. }
  split; [lens; lia|split].
  - intros lvl l Hl.
    destruct (Z_lt_le_dec lvl (len layers)) as [Hlt|Hge].
    + rewrite idx_app_l in Hl by assumption; eauto.
    + pose proof (idx_Some_range _ _ _ Hl) as Hr; revert Hr; lens; intros Hr.
      assert (lvl = len layers) by lia; subst lvl.
      rewrite idx_snoc_last in Hl; injection Hl as <-.
      rewrite Hlen; assumption.
  - intros lvl l l' Hl Hl'.
    destruct (Z_lt_le_dec (lvl + 1) (len layers)) as [Hlt|Hge].
    + rewrite idx_app_l in Hl, Hl' by lia; eauto.
    + pose proof (idx_Some_range _ _ _ Hl') as Hr; revert Hr; lens; intros Hr.
      assert (lvl = level) by lia; subst lvl.
      rewrite idx_app_l in Hl by lia.
      replace (level + 1) with (len layers) in Hl' by lia.
      rewrite idx_snoc_last in Hl'; injection Hl' as <-.
      rewrite Hprev in Hl; injection Hl as <-; assumption.
Qed.

Lemma build_layers_inv P depth n : forall level layers rng layers' rng',
  layers_inv thash P depth level layers ->
  0 <= level -> level + Z.of_nat n <= depth ->
  build_layers thash P n level layers rng = Some (layers', rng') ->
  layers_inv thash P depth (level + Z.of_nat n) layers'
  /\ idx layers' 0 = idx layers 0.
Proof.
  induction n as [|n IH]; intros level layers rng layers' rng' Hinv Hl Hd.
  - cbn [build_layers]; intros E; injection E as <- <-.
    rewrite Z.add_0_r; auto.
  - cbn [build_layers].
    destruct (idx layers level) as [prev|] eqn:Hprev; [|discriminate].
    destruct (hash_pairs _ _ _ _ _ _ _) as [parents|] eqn:Hhp; [|discriminate].
    destruct (padded _ _ _ _) as [[pl rng1]|] eqn:Hpad; [|discriminate].
    intros E.
    assert (Hlvl : 0 <= level < depth) by lia.
    pose proof (layers_step _ _ _ _ _ _ _ _ _ Hinv Hlvl Hprev Hhp Hpad)
      as Hinv'.
    assert (Hl' : 0 <= level + 1) by lia.
    assert (Hd' : level + 1 + Z.of_nat n <= depth) by lia.
    destruct (IH _ _ _ _ _ Hinv' Hl' Hd' E) as [H1 H2].
    split.
    + replace (level + Z.of_nat (S n)) with (level + 1 + Z.of_nat n) by lia.
      assumption.
    + rewrite H2; apply idx_app_l.
      destruct Hinv as (Hlen & _); lia.
Qed.

Lemma shl1_int_bound depth cap :
  shl1_int depth = Some cap -> 0 <= depth /\ cap <= 2 ^ depth.
Proof.
  unfold shl1_int; destruct (Z.ltb_spec depth 0); [discriminate|].
  intros E; injection E as <-.
  rewrite Z.shiftl_1_l; split; [assumption|].
  apply i64_le, Z.pow_nonneg; lia.
Qed.

(** The tree [NewHashTree] returns: its layers satisfy the invariant and its
    leaf layer holds the given leaves at their positions. *)
Lemma NewHashTree_inv rng depth0 s P leaves t rng' :
  NewHashTree thash rng depth0 s P leaves = Some (t, rng') ->
  0 <= s -> 1 <= len leaves ->
  depth t = depth0 /\ params t = P /\ 0 <= depth0
  /\ s + len leaves <= 2 ^ depth0
  /\ layers_inv thash P depth0 depth0 (layers t)
  /\ exists l0, idx (layers t) 0 = Some l0
       /\ forall k, s <= k < s + len leaves -> node_at l0 k = idx leaves (k - s).
Proof.
  unfold NewHashTree; intros E Hs Hn.
  destruct (shl1_int depth0) as [cap|] eqn:Hcap; [|discriminate].
  destruct (shl1_int_bound _ _ Hcap) as [Hd Hle].
  destruct (Z.gtb_spec (s + len leaves) cap) as [|Hguard]; [discriminate|].
  destruct (padded thash rng leaves s) as [[l0 rng0]|] eqn:Hpad; [|discriminate].
  cbn [app] in E.
  destruct (build_layers _ _ _ _ _ _) as [[ls rng1]|] eqn:Hb; [|discriminate].
  injection E as <- <-; cbn [depth params layers].
  assert (Hinv0 : layers_inv thash P depth0 0 [l0]).
  { split; [reflexivity|split].
    - intros lvl l Hl.
      pose proof (idx_Some_range _ _ _ Hl) as Hr; revert Hr; lens; intros Hr.
      assert (lvl = 0) by lia; subst lvl.
      injection Hl as <-.
      eapply layer_ok_padded; [exact Hpad|..]. all: rewrite ?Z.sub_0_r; lia.
    - intros lvl l l' Hl Hl'.
      pose proof (idx_Some_range _ _ _ Hl') as Hr; revert Hr; lens; intros Hr.
      pose proof (idx_Some_range _ _ _ Hl) as Hr'; revert Hr'; lens; lia. }
  assert (Hfit : 0 + Z.of_nat (Z.to_nat depth0) <= depth0)
    by (rewrite Z2Nat.id; lia).
  destruct (build_layers_inv _ _ _ _ _ _ _ _ Hinv0 (Z.le_refl 0) Hfit Hb)
    as [Hinv H0].
  rewrite Z.add_0_l, Z2Nat.id in Hinv by lia.
  split; [reflexivity|split; [reflexivity|split; [assumption|]]].
  split; [lia|split; [assumption|]].
  exists l0; split; [rewrite H0; reflexivity|].
  destruct (padded_spec _ _ _ _ _ Hpad) as (_ & _ & Hnodes); exact Hnodes.
Qed.

(** The co-path [Path] extracts from level [level] upwards, fed to the loop
    of [VerifyPath] together with the node it starts from, rebuilds the node
    of the top layer above it; the fallback branch of [Path] is not taken. *)
Lemma path_verify P t n : forall level cur c coPath crand,
  layers_inv thash P (depth t) (depth t) (layers t) ->
  0 <= level -> level + Z.of_nat n = depth t -> is_u32 cur ->
  (exists l, idx (layers t) level = Some l /\ node_at l cur = Some c) ->
  exists cp top,
    path_loop thash t n level cur coPath crand = Some (coPath ++ cp, crand)
    /\ idx (layers t) (depth t) = Some top
    /\ node_at top (Z.shiftr cur (Z.of_nat n))
       = Some (verify_loop thash P cp level cur c).
Proof.
  induction n as [|n IH]; intros level cur c coPath crand Hinv Hlvl Hn Hcur
    (l & Hl & Hc).
  - exists [], l; cbn [path_loop verify_loop Z.of_nat].
    rewrite app_nil_r, Z.shiftr_0_r.
    replace (depth t) with level by lia; auto.
  - destruct Hinv as (Hlen & Hok & Hrel).
    destruct (idx_in_range (layers t) (level + 1) ltac:(lia)) as [l' Hl'].
    destruct (Hok _ _ Hl) as (Hs2 & Hn2 & Hrange & _).
    pose proof (idx_Some_range _ _ _ Hc) as Hrel_range.
    unfold layer_end in *.
    assert (Es : startIndex l = 2 * (startIndex l / 2))
      by (destruct (parity (startIndex l)); lia).
    assert (En : len (nodes l) = 2 * (len (nodes l) / 2))
      by (destruct (parity (len (nodes l))); lia).
    set (k := cur / 2).
    assert (Hk : startIndex l <= 2 * k < startIndex l + len (nodes l))
      by (subst k; destruct (parity cur); lia).
    destruct (Hrel _ _ _ Hl Hl' k Hk) as (x & y & Hx & Hy & Hp).
    assert (Hku : is_u32 k)
      by (unfold is_u32 in *; subst k; destruct (parity cur); lia).
    rewrite (u32_id _ Hku) in Hp.
    pose proof (idx_Some_range _ _ _ Hx) as Rx.
    pose proof (idx_Some_range _ _ _ Hy) as Ry.
    assert (Hinv : layers_inv thash P (depth t) (depth t) (layers t))
      by (split; [|split]; assumption).
    assert (Hstep : exists d,
      (if (0 <=? Z.lxor (cur - startIndex l) 1)
            && (Z.lxor (cur - startIndex l) 1 <? len (nodes l))
       then match idx (nodes l) (Z.lxor (cur - startIndex l) 1) with
            | Some d => Some (coPath ++ [d], crand)
            | None => None
            end
       else match RandDomain thash crand with
            | Some (d, crand) => Some (coPath ++ [d], crand)
            | None => None
            end) = Some (coPath ++ [d], crand)
      /\ Apply thash P (TreeTweak thash (u8 (level + 1)) (Z.shiftr cur 1))
           (if Z.land cur 1 =? 0 then [c; d] else [d; c])
         = Apply thash P (TreeTweak thash (u8 (level + 1)) k) [x; y]).
    { rewrite land_1, shiftr_1; fold k.
      destruct (parity cur) as [[Ec Mc]|[Ec Mc]]; fold k in Ec; rewrite Mc.
      - exists y.
        replace (cur - startIndex l) with (2 * (k - startIndex l / 2)) by lia.
        rewrite lxor_1_double.
        replace (2 * (k - startIndex l / 2) + 1) with (2 * k + 1 - startIndex l)
          by lia.
        destruct (Z.leb_spec 0 (2 * k + 1 - startIndex l)); [|lia].
        destruct (Z.ltb_spec (2 * k + 1 - startIndex l) (len (nodes l))); [|lia].
        cbn [andb]; unfold node_at in Hy; rewrite Hy.
        split; [reflexivity|].
        cbn [Z.eqb]; do 3 f_equal.
        unfold node_at in Hx, Hc; rewrite <- Ec in Hx; congruence.
      - exists x.
        replace (cur - startIndex l) with (2 * (k - startIndex l / 2) + 1)
          by lia.
        rewrite lxor_1_double_succ.
        replace (2 * (k - startIndex l / 2)) with (2 * k - startIndex l) by lia.
        destruct (Z.leb_spec 0 (2 * k - startIndex l)); [|lia].
        destruct (Z.ltb_spec (2 * k - startIndex l) (len (nodes l))); [|lia].
        cbn [andb]; unfold node_at in Hx; rewrite Hx.
        split; [reflexivity|].
        cbn [Z.eqb]; do 3 f_equal.
        unfold node_at in Hy, Hc; rewrite <- Ec in Hy; congruence. }
    destruct Hstep as (d & Hpath & Hver).
    destruct (IH (level + 1) k
                (Apply thash P (TreeTweak thash (u8 (level + 1)) k) [x; y])
                (coPath ++ [d]) crand Hinv ltac:(lia) ltac:(lia) Hku
                (ex_intro _ l' (conj Hl' Hp)))
      as (cp & top & Hpl & Htop & Hnode).
    exists (d :: cp), top.
    cbn [path_loop verify_loop]; rewrite Hl, Hpath.
    rewrite shiftr_1; fold k.
    rewrite Hpl, <- app_assoc; cbn [app].
    split; [reflexivity|split; [assumption|]].
    rewrite shiftr_1 in Hver; fold k in Hver; rewrite Hver.
    replace (Z.of_nat (S n)) with (1 + Z.of_nat n) by lia.
    rewrite <- Z.shiftr_shiftr by lia.
    rewrite (shiftr_1 cur); fold k; assumption.
Qed.

(** The top layer of a tree of at least one leaf: positions 0 and 1, the
    first of them the root. *)
Lemma top_layer P t :
  layers_inv thash P (depth t) (depth t) (layers t) -> 0 <= depth t ->
  exists top pad,
    idx (layers t) (depth t) = Some top
    /\ startIndex top = 0 /\ nodes top = [Root t; pad].
Proof.
  intros (Hlen & Hok & _) Hd.
  destruct (idx_in_range (layers t) (depth t) ltac:(lia)) as [top Htop].
  destruct (Hok _ _ Htop) as (Hs2 & Hn2 & Hrange & Hcap).
  unfold layer_end in *.
  rewrite Z.sub_diag in Hcap; change (Z.max 2 (2 ^ 0)) with 2 in Hcap.
  assert (Hs : startIndex top = 0) by (destruct (parity (startIndex top)); lia).
  assert (Hn : len (nodes top) = 2)
    by (destruct (parity (len (nodes top))); lia).
  destruct top as [s [|a [|b [|? ?]]]]; cbn [startIndex nodes] in *;
    try (revert Hn; lens; pose proof (len_nonneg l); lia);
    try discriminate.
  exists {| startIndex := s; nodes := [a; b] |}, b.
  split; [assumption|split; [assumption|]].
  unfold Root; rewrite Hlen.
  destruct (Z.eqb_spec (depth t + 1) 0); [lia|].
  replace (depth t + 1 - 1) with (depth t) by lia.
  rewrite Htop; reflexivity.
Qed.


End WithHash.



End MerkleFacts.

(* ================================================================= *)
(** ** The encodings produce well-formed codewords *)

Module EncodingFacts.
Import Th Encoding.

Lemma land_mask_range b k : 0 <= k -> 0 <= Z.land b (Z.ones k) < 2 ^ k.
Proof.
  intros Hk; rewrite Z.land_ones by assumption.
  apply Z.mod_pos_bound, Z.pow_pos_nonneg; lia.
Qed.

Lemma shiftr_byte_range b k :
  is_u8 b -> 0 <= k <= 8 -> 0 <= Z.shiftr b k < 2 ^ (8 - k).
Proof.
  unfold is_u8; intros Hb Hk.
  rewrite Z.shiftr_div_pow2 by lia.
  assert (0 < 2 ^ k) by (apply Z.pow_pos_nonneg; lia).
  split; [apply Z.div_pos; lia|].
  apply Z.div_lt_upper_bound; [assumption|].
  rewrite <- Z.pow_add_r by lia.
  replace (k + (8 - k)) with 8 by lia; lia.
Qed.

(** Every chunk [BytesToChunks] cuts out of bytes is below [2^chunkSize],
    and a byte yields [8 / chunkSize] chunks. *)
Lemma BytesToChunks_range bytes chunkSize chunks :
  Bitutil.BytesToChunks bytes chunkSize = Some chunks ->
  Forall is_u8 bytes ->
  Forall (fun x => 0 <= x < 2 ^ chunkSize) chunks
  /\ len chunks * chunkSize = 8 * len bytes.
Proof.
  unfold Bitutil.BytesToChunks.
  destruct (Z.eqb_spec chunkSize 1) as [->|];
    [|destruct (Z.eqb_spec chunkSize 2) as [->|];
      [|destruct (Z.eqb_spec chunkSize 4) as [->|];
        [|destruct (Z.eqb_spec chunkSize 8) as [->|]; [|discriminate]]]];
    cbn [orb negb Z.eqb Pos.eqb]; intros E Hb; injection E as <-.
  - split.
    + apply Forall_flat_map; eapply Forall_impl; [|exact Hb].
      intros b _; cbn [map]; repeat apply Forall_cons; try apply Forall_nil;
        apply (land_mask_range _ 1); lia.
    + induction bytes as [|b bs IH]; [reflexivity|].
      cbn [flat_map map]; inversion Hb; subst.
      revert IH; lens; intros IH; specialize (IH ltac:(assumption)); lia.
  - split.
    + apply Forall_flat_map; eapply Forall_impl; [|exact Hb].
      intros b _; repeat apply Forall_cons; try apply Forall_nil;
        apply (land_mask_range _ 2); lia.
    + induction bytes as [|b bs IH]; [reflexivity|].
      cbn [flat_map]; inversion Hb; subst.
      revert IH; lens; intros IH; specialize (IH ltac:(assumption)); lia.
  - split.
    + apply Forall_flat_map; eapply Forall_impl; [|exact Hb].
      intros b Hbyte; repeat apply Forall_cons; try apply Forall_nil;
        first [apply (land_mask_range _ 4); lia
              |apply (shiftr_byte_range b 4 Hbyte); lia].
    + induction bytes as [|b bs IH]; [reflexivity|].
      cbn [flat_map]; inversion Hb; subst.
      revert IH; lens; intros IH; specialize (IH ltac:(assumption)); lia.
  - split; [exact Hb|lia].
Qed.

Lemma PutUint64_bytes v : Forall is_u8 (Winternitz.LittleEndian_PutUint64 v).
Proof.
  unfold Winternitz.LittleEndian_PutUint64; cbn [map].
  repeat apply Forall_cons; try apply Forall_nil; apply u8_range.
Qed.

Lemma Winternitz_Base w :
  In (Winternitz.chunkSize w) [1; 2; 4; 8] ->
  Winternitz.Base w = 2 ^ Winternitz.chunkSize w.
Proof.
  unfold Winternitz.Base; intros [<-|[<-|[<-|[<-|[]]]]]; reflexivity.
Qed.

(** A Winternitz codeword over a message hash that returns
    [numChunksMessage] digits below the base has the encoding's dimension
    and all its digits, the checksum's included, below the base. *)
Lemma Winternitz_codeword w P msg rho epoch cw :
  (forall ds, MH.Hash (Winternitz.messageHash w) P msg rho epoch = Some ds ->
     len ds = Winternitz.numChunksMessage w
     /\ Forall (fun x => 0 <= x < 2 ^ Winternitz.chunkSize w) ds) ->
  Winternitz.Encode w P msg rho epoch = Some (inr cw) ->
  len cw = Winternitz.Dimension w
  /\ Forall (fun x => 0 <= x < Winternitz.Base w) cw.
Proof.
  unfold Winternitz.Encode; intros Hmh.
  destruct (MH.Hash _ _ _ _ _) as [ds|]; [|discriminate].
  destruct (Hmh ds eq_refl) as [Hlen Hds].
  destruct (Bitutil.BytesToChunks _ _) as [cs|] eqn:Hcs; [|discriminate].
  destruct (BytesToChunks_range _ _ _ Hcs (PutUint64_bytes _)) as [Hrange _].
  assert (Hw : In (Winternitz.chunkSize w) [1; 2; 4; 8]).
  { unfold Bitutil.BytesToChunks in Hcs; cbn [In].
    destruct (Z.eqb_spec (Winternitz.chunkSize w) 1); [auto|].
    destruct (Z.eqb_spec (Winternitz.chunkSize w) 2); [auto|].
    destruct (Z.eqb_spec (Winternitz.chunkSize w) 4); [auto|].
    destruct (Z.eqb_spec (Winternitz.chunkSize w) 8); [auto 6|discriminate]. }
  rewrite (Winternitz_Base w Hw).
  destruct (Winternitz.Dimension w <? 0); [discriminate|].
  unfold Winternitz.slice_to.
  destruct (Z.ltb_spec (Winternitz.numChunksChecksum w) 0); [discriminate|].
  destruct (Z.ltb_spec (len cs) (Winternitz.numChunksChecksum w));
    [discriminate|].
  cbn [orb]; intros E; injection E as <-.
  split.
  - unfold Winternitz.Dimension; lens; rewrite Hlen; f_equal.
    unfold len in *; rewrite firstn_length_le; lia.
  - apply Forall_app; split; [assumption|].
    rewrite <- (firstn_skipn (Z.to_nat (Winternitz.numChunksChecksum w)) cs)
      in Hrange.
    apply Forall_app in Hrange; destruct Hrange; assumption.
Qed.

(** The small message hash of the running example meets that contract. *)
Lemma toy_mh_digits P msg rho epoch ds :
  MH.Hash Toy.toy_mh P msg rho epoch = Some ds ->
  len ds = 4 /\ Forall (fun x => 0 <= x < 2 ^ 2) ds.
Proof.
  cbn [MH.Hash Toy.toy_mh]; unfold Toy.toy_apply; intros E.
  destruct (BytesToChunks_range _ _ _ E) as [Hr Hl].
  - apply Forall_cons; [apply u8_range|apply Forall_nil].
  - split; [|exact Hr].
    change (len [_]) with 1 in Hl; lia.
Qed.

(** A Target-Sum codeword is the message hash's digit vector. *)
Lemma TargetSum_codeword t P msg rho epoch cw :
  (forall ds, MH.Hash (TargetSum.messageHash t) P msg rho epoch = Some ds ->
     len ds = MH.Dimension (TargetSum.messageHash t)
     /\ Forall (fun x => 0 <= x < MH.Base (TargetSum.messageHash t)) ds) ->
  TargetSum.Encode t P msg rho epoch = Some (inr cw) ->
  len cw = MH.Dimension (TargetSum.messageHash t)
  /\ Forall (fun x => 0 <= x < MH.Base (TargetSum.messageHash t)) cw
  /\ fold_left Z.add cw 0 = TargetSum.targetSum t.
Proof.
  unfold TargetSum.Encode; intros Hmh.
  destruct (MH.Hash _ _ _ _ _) as [ds|]; [|discriminate].
  destruct (Hmh ds eq_refl) as [Hlen Hds].
  destruct (Z.eqb_spec (fold_left (fun sum chunk => sum + chunk) ds 0)
              (TargetSum.targetSum t)) as [E|]; [|discriminate].
  cbn [negb]; intros H; injection H as <-; auto.
Qed.

(** *** The target sum [ComputeOptimalTarget] returns *)

Lemma target_is_floor_all :
  forallb (fun v => forallb (TargetSum.target_is_floor v) [1; 2; 4; 8])
          (map (fun k => k + 1) (zrange 256)) = true.
Proof. vm_compute; reflexivity. Qed.

(** The value [ComputeOptimalTarget] returns.  For a dimension
    [1 <= v <= 256], a chunk size [w] in {1, 2, 4, 8} and [delta] in
    {1.0, 1.1}, it is [delta * v * (2^w - 1) / 2] with its fraction
    discarded; and [ComputeOptimalTarget(48, 4, 1.0)] is 360. *)
Theorem ComputeOptimalTarget_floor (v w : Z)
    (Hv : 1 <= v <= 256) (Hw : In w [1; 2; 4; 8]) :
  TargetSum.ComputeOptimalTarget v w TargetSum.delta_1_0
    = Some (v * (2 ^ w - 1) / 2)
  /\ TargetSum.ComputeOptimalTarget v w TargetSum.delta_1_1
    = Some (11 * v * (2 ^ w - 1) / 20)
  /\ TargetSum.ComputeOptimalTarget 48 4 TargetSum.delta_1_0 = Some 360.
Proof.
  pose proof target_is_floor_all as Hall.
  rewrite forallb_forall in Hall.
  assert (Hin : In v (map (fun k => k + 1) (zrange 256))).
  { apply in_map_iff; exists (v - 1); split; [lia|].
    unfold zrange; apply in_map_iff; exists (Z.to_nat (v - 1)).
    split; [lia|apply in_seq; lia]. }
  specialize (Hall v Hin); rewrite forallb_forall in Hall.
  specialize (Hall w Hw); unfold TargetSum.target_is_floor in Hall.
  destruct (TargetSum.ComputeOptimalTarget v w TargetSum.delta_1_0) as [t0|];
    [|discriminate].
  destruct (TargetSum.ComputeOptimalTarget v w TargetSum.delta_1_1) as [t1|];
    [|discriminate].
  apply andb_prop in Hall; destruct Hall as [H0 H1].
  apply Z.eqb_eq in H0, H1; subst.
  split; [reflexivity|split; [reflexivity|]].
  vm_compute; reflexivity.
Qed.

Lemma ComputeOptimalTarget_floor_witness :
  TargetSum.ComputeOptimalTarget 7 2 TargetSum.delta_1_1
    = Some (11 * 7 * (2 ^ 2 - 1) / 20).
Proof.
  apply (ComputeOptimalTarget_floor 7 2); [lia|cbn; auto].
Defined.

(** C5 at failing inputs.  The documented target is the ceiling of
    [delta * v * (2^w - 1) / 2]; [ComputeOptimalTarget] converts the
    [float64] quotient with [int(...)], which discards the fraction.  For
    one chunk of one bit it returns 0 where the ceiling of 1/2 is 1 (and 0
    again for [delta = 1.1], where the ceiling of 0.55 is 1); with
    [delta = 1.0] it is one below the ceiling whenever [v * (2^w - 1)] is
    odd, as for dimension 3 with 1-bit chunks and dimension 255 with 8-bit
    chunks.  The target of scenario S2, dimension 48 with 4-bit chunks, is
    an exact half and comes out as documented, 360. *)
Lemma ComputeOptimalTarget_truncates :
  TargetSum.ComputeOptimalTarget 1 1 TargetSum.delta_1_0 = Some 0
  /\ TargetSum.spec_target_ceiling 1 1 = 1
  /\ TargetSum.ComputeOptimalTarget 1 1 TargetSum.delta_1_1 = Some 0
  /\ TargetSum.ComputeOptimalTarget 3 1 TargetSum.delta_1_0 = Some 1
  /\ TargetSum.spec_target_ceiling 3 1 = 2
  /\ TargetSum.ComputeOptimalTarget 255 8 TargetSum.delta_1_0 = Some 32512
  /\ TargetSum.spec_target_ceiling 255 8 = 32513
  /\ TargetSum.ComputeOptimalTarget 48 4 TargetSum.delta_1_0 = Some 360
  /\ TargetSum.spec_target_ceiling 48 4 = 360.
Proof. repeat split; vm_compute; reflexivity. Qed.

(** *** Short reads in [RandRandomness] *)

(** C7 at a failing input: against a reader that delivers nothing and
    reports an error, the
    [RandRandomness] of both encodings returns the zero-filled buffer as
    randomness, while [th.randBytes], which reads through [io.ReadFull],
    panics; and [Sign] goes on to return a signature carrying that
    all-zero randomness. *)
Lemma RandRandomness_short_read :
  Winternitz.RandRandomness Toy.empty_reader Toy.toy_winternitz 0
    = Some ([0; 0], 0)
  /\ TargetSum.RandRandomness Toy.empty_reader Toy.toy_targetsum 0
    = Some ([0; 0], 0)
  /\ IO.randBytes Toy.empty_reader 8 0 2 = None
  /\ exists pk sk sig,
       XMSS.KeyGen Toy.toy_xmss 0 2 3 = Some (pk, sk)
       /\ XMSS.Sign (Toy.toy_xmss_over Toy.empty_reader) 100 200 sk 3 [1; 2; 3]
          = Some (inr sig)
       /\ XMSS.Rho sig = [0; 0].
Proof.
  split; [reflexivity|split; [reflexivity|split; [reflexivity|]]].
  do 3 eexists.
  split; [vm_compute; reflexivity|].
  split; [vm_compute; reflexivity|reflexivity].
Qed.

End EncodingFacts.

(* ================================================================= *)
(** ** The XMSS engine: a signature that [Sign] returns verifies *)

Module XMSSFacts.
Import Th Merkle MerkleSpec MerkleFacts XMSS.

Lemma domain_equal_refl d : domain_equal d d = true.
Proof.
  unfold domain_equal; rewrite Z.eqb_refl; cbn [negb].
  induction d as [|x d IH]; [reflexivity|].
  cbn [combine forallb fst snd]; rewrite Z.eqb_refl; exact IH.
Qed.

Section Engine.
Context {Rng : Type} (g : GeneralizedXMSS Rng).

(** The retry loop exits normally only with a codeword that [Encode]
    returned for the randomness it exits with. *)
Lemma sign_attempts_encoded sk epoch message maxTries n :
  forall attempts rng cw0 rho0 cw rho,
  attempts + Z.of_nat n = maxTries -> (1 <= n)%nat ->
  sign_attempts g sk epoch message maxTries n attempts rng cw0 rho0
    = Some (inr (cw, rho)) ->
  Encoding.Encode (encoding g) (SK_Parameter sk) message rho epoch
    = Some (inr cw).
Proof.
  induction n as [|n IH]; intros attempts rng cw0 rho0 cw rho Hsum Hn; [lia|].
  cbn [sign_attempts].
  destruct (Encoding.RandRandomness (encoding g) rng) as [[rho1 rng1]|];
    [|discriminate].
  destruct (Encoding.Encode (encoding g) (SK_Parameter sk) message rho1 epoch)
    as [[err|cw1]|] eqn:Eenc; [|intros E; injection E as <- <-; exact Eenc
                              |discriminate].
  destruct (Z.eqb_spec attempts (maxTries - 1)); [discriminate|].
  apply IH; lia.
Qed.

(** Signing then verifying, for keys with a non-negative activation epoch.
    A key pair from [KeyGen] with activation epoch [a >= 0], an epoch
    [e] in the activation range and a message [m]: when the encoding makes
    at least one attempt and its codewords for [m] have the encoding's
    dimension and digits below its base, every signature [Sign] returns
    for [(e, m)] is accepted by [Verify]. *)
Theorem sign_then_verify rng rng2 crand a L pk sk e m sig
    (Hkeys : KeyGen g rng a L = Some (pk, sk))
    (Ha : 0 <= a) (He32 : is_u32 e) (He : a <= e < a + L)
    (Htries : 1 <= Encoding.MaxTries (encoding g))
    (Hcode : forall rho cw,
       Encoding.Encode (encoding g) (PK_Parameter pk) m rho e = Some (inr cw) ->
       len cw = Encoding.Dimension (encoding g)
       /\ Forall (fun x => 0 <= x < Encoding.Base (encoding g)) cw)
    (Hsig : Sign g rng2 crand sk e m = Some (inr sig)) :
  Verify g pk e m sig = Some true.
Proof.
  (* what KeyGen built *)
  unfold KeyGen in Hkeys.
  destruct (Lifetime g) as [lifetime|] eqn:Hlife; [|discriminate].
  destruct (Z.gtb_spec (a + L) (i64 lifetime)) as [|Hfit]; [discriminate|].
  destruct (RandParameter (th g) rng) as [[P rng0]|]; [|discriminate].
  destruct (PRF.KeyGen (prf g) rng0) as [[K rng1]|]; [|discriminate].
  destruct ((L <? 0) || ((0 <? L) && (Encoding.Dimension (encoding g) <? 0)))
    eqn:Hmake; [discriminate|].
  destruct (NewHashTree _ _ _ _ _ _) as [[t rng3]|] eqn:Htree; [|discriminate].
  injection Hkeys as <- <-.
  cbn [PK_Parameter] in Hcode.
  assert (HL : len (map (fun epochOffset => epoch_leaf g K P (a + epochOffset))
                        (zrange L)) = L).
  { unfold len; rewrite length_map; fold (len (zrange L)).
    rewrite zrange_len; lia. }
  destruct (NewHashTree_inv _ _ _ _ _ _ _ _ Htree Ha ltac:(lia))
    as (Hd & _ & Hd0 & Hcap & Hinv & l0 & Hl0 & Hleaf).
  rewrite HL in Hcap, Hleaf; rewrite <- Hd in Hinv.
  (* what Sign returned *)
  unfold Sign in Hsig; cbn [ActivationEpoch NumActiveEpochs Tree SK_Parameter
                            PRFKey] in Hsig.
  destruct ((e <? a) || (e >=? a + L)); [discriminate|].
  assert (Hl0e : node_at l0 e = Some (epoch_leaf g K P e)).
  { rewrite (Hleaf e He), idx_map, zrange_idx by lia.
    cbn [option_map]; do 2 f_equal; lia. }
  destruct (path_verify (th g) P t (Z.to_nat (depth t)) 0 e (epoch_leaf g K P e)
              [] crand Hinv (Z.le_refl 0) ltac:(rewrite Z2Nat.id; lia) He32
              (ex_intro _ l0 (conj Hl0 Hl0e)))
    as (cp & top & Hpath & Htop & Hnode).
  unfold Merkle.Path in Hsig; rewrite Hpath in Hsig; cbn [app] in Hsig.
  destruct (sign_attempts _ _ _ _ _ _ _ _ _ _) as [[err|[cw rho]]|] eqn:Hatt;
    [discriminate| |discriminate].
  apply sign_attempts_encoded in Hatt; [|lia|lia].
  cbn [SK_Parameter] in Hatt.
  destruct (Encoding.Dimension (encoding g) <? 0); [discriminate|].
  destruct (mapM _ _) as [hashes|] eqn:Hhashes; [|discriminate].
  injection Hsig as <-.
  (* Verify *)
  unfold Verify; rewrite Hlife; cbn [PK_Parameter PK_Root Rho Hashes Path].
  assert (Hlt : 0 <= lifetime).
  { unfold Lifetime in Hlife; destruct (logLifetime g <? 0); [discriminate|].
    injection Hlife as <-; apply Z.mod_pos_bound; lia. }
  pose proof (i64_le lifetime Hlt).
  unfold is_u32 in He32.
  destruct (Z.geb_spec (u64 e) lifetime) as [Hge|_].
  { unfold u64 in Hge; rewrite Z.mod_small in Hge; lia. }
  rewrite Hatt.
  destruct (Hcode _ _ Hatt) as [Hlen Hdigits].
  rewrite Hlen, Z.eqb_refl; cbn [negb].
  rewrite (mapM_map _ (fun chainIndex =>
      Chain (th g) P e (u8 chainIndex) 0 (Encoding.Base (encoding g) - 1)
        (PRF.Apply (prf g) K e (u64 chainIndex)))).
  - (* the chain ends are those of KeyGen, and the path leads to the root *)
    f_equal; unfold VerifyPath; cbn [CoPath].
    assert (Hleaf_e :
      Apply (th g) P (TreeTweak (th g) 0 e)
        (map (fun chainIndex =>
           Chain (th g) P e (u8 chainIndex) 0 (Encoding.Base (encoding g) - 1)
             (PRF.Apply (prf g) K e (u64 chainIndex)))
           (zrange (Encoding.Dimension (encoding g))))
      = epoch_leaf g K P e).
    { unfold epoch_leaf, chain_ends; rewrite (u32_id e) by exact He32.
      reflexivity. }
    rewrite Hleaf_e.
    destruct (top_layer (th g) P t Hinv ltac:(lia))
      as (top' & pad & Htop' & Hstart & Hnodes).
    rewrite Htop in Htop'; injection Htop' as <-.
    rewrite <- Hd in Hcap, Hd0.
    rewrite Z2Nat.id, Z.shiftr_div_pow2, Z.div_small in Hnode by lia.
    unfold node_at in Hnode; rewrite Hstart, Hnodes in Hnode.
    injection Hnode as <-.
    apply domain_equal_refl.
  - (* each chain is completed from the signer's intermediate value *)
    intros ci Hci; apply zrange_In in Hci.
    destruct (idx_in_range cw ci ltac:(lia)) as [xi Hxi].
    rewrite Hxi.
    destruct (mapM_idx _ _ _ Hhashes ci ci (zrange_idx _ _ Hci))
      as (h & Hh & Hidx).
    rewrite Hxi in Hh; injection Hh as <-.
    rewrite Hidx; f_equal.
    assert (Hx : 0 <= xi < Encoding.Base (encoding g)).
    { unfold idx in Hxi; destruct (ci <? 0); [discriminate|].
      apply nth_error_In in Hxi.
      rewrite Forall_forall in Hdigits; auto. }
    replace (Encoding.Base (encoding g) - 1)
      with (xi + (Encoding.Base (encoding g) - 1 - xi)) at 2 by lia.
    symmetry; apply ChainFacts.chain_loop_split; lia.
Qed.

End Engine.

Lemma sign_then_verify_witness :
  exists pk sk sig,
    KeyGen Toy.toy_xmss 0 2 3 = Some (pk, sk)
    /\ Sign Toy.toy_xmss 100 200 sk 3 [1; 2; 3] = Some (inr sig)
    /\ Verify Toy.toy_xmss pk 3 [1; 2; 3] sig = Some true.
Proof.
  do 3 eexists.
  split; [vm_compute; reflexivity|].
  split; [vm_compute; reflexivity|].
  eapply (sign_then_verify Toy.toy_xmss 0 100 200 2 3);
    [vm_compute; reflexivity
    |lia
    |unfold is_u32; lia
    |lia
    |cbn; lia
    |
    |vm_compute; reflexivity].
  intros rho cw.
  apply (EncodingFacts.Winternitz_codeword Toy.toy_winternitz).
  apply EncodingFacts.toy_mh_digits.
Defined.

(** C1 at a failing input.  [KeyGen] validates only
    [activationEpoch + numActiveEpochs <= Lifetime()] and takes its epochs
    as [int], so it accepts the activation epoch -1 with two active
    epochs.  The tree it builds starts at index -1: every layer gets a
    padding node in front of position 0, [Root()] reads the first node of
    the top layer, which is such a padding node, and the signature [Sign]
    returns for the active epoch 0 of this key is rejected by [Verify]. *)
Lemma KeyGen_negative_activation_epoch :
  exists pk sk sig,
    KeyGen Toy.toy_xmss 0 (-1) 2 = Some (pk, sk)
    /\ ActivationEpoch sk = -1 /\ NumActiveEpochs sk = 2
    /\ Sign Toy.toy_xmss 100 200 sk 0 [1; 2; 3] = Some (inr sig)
    /\ Verify Toy.toy_xmss pk 0 [1; 2; 3] sig = Some false.
Proof.
  do 3 eexists.
  split; [vm_compute; reflexivity|].
  split; [reflexivity|split; [reflexivity|]].
  split; [vm_compute; reflexivity|].
  vm_compute; reflexivity.
Qed.

(** *** What [Verify] does with the inputs it rejects *)

Section Rejection.
Context {Rng : Type} (g : GeneralizedXMSS Rng).

Lemma Verify_late_epoch pk e m sig lifetime :
  Lifetime g = Some lifetime -> lifetime <= u64 e ->
  Verify g pk e m sig = Some false.
Proof.
  intros Hl He; unfold Verify; rewrite Hl.
  destruct (Z.geb_spec (u64 e) lifetime); [reflexivity|lia].
Qed.

Lemma Verify_encoding_error pk e m sig lifetime err :
  Lifetime g = Some lifetime ->
  Encoding.Encode (encoding g) (PK_Parameter pk) m (Rho sig) e = Some (inl err) ->
  exists b, Verify g pk e m sig = Some b /\ (u64 e < lifetime -> b = false).
Proof.
  intros Hl He; unfold Verify; rewrite Hl, He.
  destruct (u64 e >=? lifetime); eauto.
Qed.

(** With a codeword of the encoding's dimension, [Verify] indexes
    [sig.Hashes] at every chain index: a shorter vector makes it panic. *)
Lemma Verify_short_hashes pk e m sig lifetime cw :
  Lifetime g = Some lifetime -> u64 e < lifetime ->
  Encoding.Encode (encoding g) (PK_Parameter pk) m (Rho sig) e = Some (inr cw) ->
  len cw = Encoding.Dimension (encoding g) ->
  len (Hashes sig) < Encoding.Dimension (encoding g) ->
  Verify g pk e m sig = None.
Proof.
  intros Hl He Henc Hlen Hshort; unfold Verify; rewrite Hl, Henc.
  destruct (Z.geb_spec (u64 e) lifetime); [lia|].
  rewrite Hlen, Z.eqb_refl; cbn [negb].
  destruct (mapM _ _) as [ends|] eqn:Hm; [|reflexivity].
  exfalso.
  pose proof (len_nonneg (Hashes sig)) as Hn.
  set (i := len (Hashes sig)) in *.
  assert (Hi : 0 <= i < Encoding.Dimension (encoding g)) by lia.
  destruct (mapM_idx _ _ _ Hm i i (zrange_idx _ _ Hi)) as (b & Hb & _).
  destruct (idx cw i); [|discriminate].
  destruct (idx (Hashes sig) i) as [h|] eqn:Hh; [|discriminate].
  apply idx_Some_range in Hh; lia.
Qed.

(** With at least as many hash values as the encoding has chains,
    [Verify] returns. *)
Lemma Verify_returns pk e m sig lifetime :
  Lifetime g = Some lifetime ->
  Encoding.Encode (encoding g) (PK_Parameter pk) m (Rho sig) e <> None ->
  Encoding.Dimension (encoding g) <= len (Hashes sig) ->
  exists b, Verify g pk e m sig = Some b.
Proof.
  intros Hl Henc Hlong; unfold Verify; rewrite Hl.
  destruct (u64 e >=? lifetime); [eauto|].
  destruct (Encoding.Encode _ _ _ _ _) as [[err|cw]|];
    [eauto| |exfalso; apply Henc; reflexivity].
  destruct (Z.eqb_spec (len cw) (Encoding.Dimension (encoding g))) as [E|];
    [|cbn [negb]; eauto].
  cbn [negb].
  rewrite (mapM_map _ (fun chainIndex =>
      Chain (th g) (PK_Parameter pk) e (u8 chainIndex)
        (u8 (HypercubeSpec.at0 cw chainIndex))
        (Encoding.Base (encoding g) - 1 - HypercubeSpec.at0 cw chainIndex)
        (nth (Z.to_nat chainIndex) (Hashes sig) [])));
    [eexists; reflexivity|].
  intros ci Hci; apply zrange_In in Hci.
  destruct (idx_in_range cw ci ltac:(lia)) as [xi Hxi].
  destruct (idx_in_range (Hashes sig) ci ltac:(lia)) as [hv Hh].
  rewrite Hxi, Hh; unfold HypercubeSpec.at0; rewrite Hxi.
  unfold idx in Hh; destruct (ci <? 0); [discriminate|].
  rewrite (nth_error_nth _ _ _ Hh); reflexivity.
Qed.

End Rejection.

(** C6 at a failing input: the signature [Sign] returns for epoch 3, with
    its [Hashes] vector emptied, makes [Verify] panic instead of return
    [false]. *)
Lemma Verify_panics_on_short_hashes :
  exists pk sk sig,
    KeyGen Toy.toy_xmss 0 2 3 = Some (pk, sk)
    /\ Sign Toy.toy_xmss 100 200 sk 3 [1; 2; 3] = Some (inr sig)
    /\ Verify Toy.toy_xmss pk 3 [1; 2; 3]
         {| Path := Path sig; Rho := Rho sig; Hashes := [] |} = None.
Proof.
  do 3 eexists.
  split; [vm_compute; reflexivity|].
  split; [vm_compute; reflexivity|].
  vm_compute; reflexivity.
Qed.

End XMSSFacts.

(* ================================================================= *)
(** ** The SHA3 PRF *)

Module PRFFacts.
Import PRF.

Section WithSHA3.
Variable SHA3_256 : list Z -> list Z.
Hypothesis SHA3_256_len : forall m, len (SHA3_256 m) = 32.

(** C10. With a configured output length [>= 0], [SHA3PRF.Apply] returns
    exactly [min(outputLen, 32)] bytes, a prefix of the 32-byte digest: the
    whole digest when [outputLen > 32], so that the configured length is
    the length of the output only when it is at most 32. *)
Theorem SHA3PRF_Apply_length (p : SHA3PRF) (key : list Z) (epoch chainIndex : Z)
    (Hlen : 0 <= outputLen p) :
  exists out,
    SHA3PRF_Apply SHA3_256 p key epoch chainIndex = Some out
    /\ len out = Z.min (outputLen p) 32
    /\ out = firstn (Z.to_nat (outputLen p))
               (SHA3_256 (prfDomainSep ++ key ++ BigEndian_PutUint32 epoch
                            ++ BigEndian_PutUint64 chainIndex))
    /\ (32 < outputLen p -> len out = 32 /\ len out <> SHA3PRF_OutputLen p)
    /\ (outputLen p <= 32 -> len out = SHA3PRF_OutputLen p).
Proof.
  unfold SHA3PRF_Apply, SHA3PRF_OutputLen.
  set (fullHash := SHA3_256 _).
  pose proof (SHA3_256_len
    (prfDomainSep ++ key ++ BigEndian_PutUint32 epoch
       ++ BigEndian_PutUint64 chainIndex)) as Hfull.
  fold fullHash in Hfull.
  destruct (Z.gtb_spec (len fullHash) (outputLen p)) as [Hgt|Hle].
  - unfold Winternitz.slice_to.
    destruct (Z.ltb_spec (outputLen p) 0); [lia|].
    destruct (Z.ltb_spec (len fullHash) (outputLen p)); [lia|].
    cbn [orb]; eexists; split; [reflexivity|].
    assert (E : len (firstn (Z.to_nat (outputLen p)) fullHash) = outputLen p).
    { unfold len in *; rewrite firstn_length_le; lia. }
    rewrite E; repeat split; lia.
  - exists fullHash; split; [reflexivity|].
    rewrite firstn_all2 by (unfold len in *; lia).
    repeat split; lia.
Qed.

End WithSHA3.

Lemma toy_sha3_len m : len (Toy.toy_sha3 m) = 32.
Proof. unfold Toy.toy_sha3, len; rewrite length_map; reflexivity. Qed.

Lemma SHA3PRF_Apply_length_witness :
  exists out,
    SHA3PRF_Apply Toy.toy_sha3 (NewSHA3PRF 16 48) [1; 2] 3 4 = Some out
    /\ len out = Z.min 48 32.
Proof.
  destruct (SHA3PRF_Apply_length Toy.toy_sha3 toy_sha3_len (NewSHA3PRF 16 48)
              [1; 2] 3 4 ltac:(cbn; lia)) as (out & H1 & H2 & _).
  exists out; split; [exact H1|exact H2].
Defined.

End PRFFacts.

(* ================================================================= *)
(** ** The hypercube: layer tables, vertex numbering and its inverse *)

Module HypercubeFacts.
Import Hypercube HypercubeSpec.

(** *** Finite sums *)

Lemma zsum_empty f lo hi : hi < lo -> zsum f lo hi = 0.
Proof.
  intros H; unfold zsum.
  replace (Z.to_nat (hi + 1 - lo)) with O by lia; reflexivity.
Qed.

Lemma zsum_first f lo hi :
  lo <= hi -> zsum f lo hi = f lo + zsum f (lo + 1) hi.
Proof.
  intros H; unfold zsum.
  replace (Z.to_nat (hi + 1 - lo)) with (S (Z.to_nat (hi + 1 - (lo + 1))))
    by lia.
  reflexivity.
Qed.

Lemma zsum_n_last f n : forall lo,
  zsum_n f lo (S n) = zsum_n f lo n + f (lo + Z.of_nat n).
Proof.
  induction n as [|n IH]; intros lo.
  - cbn [zsum_n Z.of_nat]; rewrite !Z.add_0_r; lia.
  - change (zsum_n f lo (S (S n))) with (f lo + zsum_n f (lo + 1) (S n)).
    rewrite IH; cbn [zsum_n].
    replace (lo + 1 + Z.of_nat n) with (lo + Z.of_nat (S n)) by lia; lia.
Qed.

Lemma zsum_last f lo hi :
  lo <= hi -> zsum f lo hi = zsum f lo (hi - 1) + f hi.
Proof.
  intros H; unfold zsum.
  replace (Z.to_nat (hi + 1 - lo)) with (S (Z.to_nat (hi - 1 + 1 - lo))) by lia.
  rewrite zsum_n_last; do 2 f_equal; lia.
Qed.

Lemma zsum_n_ext f g n : forall lo,
  (forall k, lo <= k < lo + Z.of_nat n -> f k = g k) ->
  zsum_n f lo n = zsum_n g lo n.
Proof.
  induction n as [|n IH]; intros lo H; [reflexivity|].
  cbn [zsum_n]; rewrite (H lo) by lia; f_equal.
  apply IH; intros k Hk; apply H; lia.
Qed.

Lemma zsum_ext f g lo hi :
  (forall k, lo <= k <= hi -> f k = g k) -> zsum f lo hi = zsum g lo hi.
Proof.
  intros H; unfold zsum; apply zsum_n_ext.
  intros k Hk; apply H; lia.
Qed.

Lemma zsum_n_app f n m : forall lo,
  zsum_n f lo (n + m) = zsum_n f lo n + zsum_n f (lo + Z.of_nat n) m.
Proof.
  induction n as [|n IH]; intros lo.
  - cbn [zsum_n Nat.add Z.of_nat]; rewrite Z.add_0_r; reflexivity.
  - cbn [zsum_n Nat.add]; rewrite IH.
    replace (lo + 1 + Z.of_nat n) with (lo + Z.of_nat (S n)) by lia; lia.
Qed.

Lemma zsum_split f lo m hi :
  lo <= m + 1 <= hi + 1 -> zsum f lo hi = zsum f lo m + zsum f (m + 1) hi.
Proof.
  intros H; unfold zsum.
  replace (Z.to_nat (hi + 1 - lo))
    with (Z.to_nat (m + 1 - lo) + Z.to_nat (hi + 1 - (m + 1)))%nat by lia.
  rewrite zsum_n_app; do 2 f_equal; lia.
Qed.

Lemma zsum_n_rev g c n : forall lo,
  zsum_n (fun j => g (c - j)) lo n = zsum_n g (c - (lo + Z.of_nat n) + 1) n.
Proof.
  induction n as [|n IH]; intros lo; [reflexivity|].
  rewrite zsum_n_last, IH; cbn [zsum_n].
  replace (c - (lo + Z.of_nat (S n)) + 1) with (c - (lo + Z.of_nat n)) by lia.
  lia.
Qed.

Lemma zsum_rev g c lo hi :
  zsum (fun j => g (c - j)) lo hi = zsum g (c - hi) (c - lo).
Proof.
  unfold zsum; rewrite zsum_n_rev.
  replace (Z.to_nat (c - lo + 1 - (c - hi))) with (Z.to_nat (hi + 1 - lo))
    by lia.
  destruct (Z_lt_le_dec hi (lo - 1)) as [Hlt|Hge].
  - replace (Z.to_nat (hi + 1 - lo)) with O by lia; reflexivity.
  - f_equal; lia.
Qed.

Lemma zsum_ge f lo hi m :
  0 <= m -> (forall k, lo <= k <= hi -> m <= f k) ->
  m * (hi + 1 - lo) <= zsum f lo hi \/ hi < lo.
Proof.
  intros Hm H.
  destruct (Z_lt_le_dec hi lo) as [Hlt|Hge]; [right; assumption|left].
  unfold zsum.
  replace (hi + 1 - lo) with (Z.of_nat (Z.to_nat (hi + 1 - lo))) at 1 by lia.
  assert (Hk : forall k, lo <= k < lo + Z.of_nat (Z.to_nat (hi + 1 - lo)) ->
                         m <= f k) by (intros k Hk; apply H; lia).
  generalize dependent (Z.to_nat (hi + 1 - lo)); intros n; clear H Hge.
  revert lo; induction n as [|n IH]; intros lo Hk.
  - cbn [zsum_n Z.of_nat]; lia.
  - cbn [zsum_n].
    pose proof (Hk lo ltac:(lia)).
    pose proof (IH (lo + 1) ltac:(intros k Hk'; apply Hk; lia)).
    lia.
Qed.

Lemma zsum_pos f lo hi :
  lo <= hi -> (forall k, lo <= k <= hi -> 1 <= f k) -> 1 <= zsum f lo hi.
Proof.
  intros Hr H; destruct (zsum_ge f lo hi 1 ltac:(lia) H); lia.
Qed.

Lemma zsum_nonneg f lo hi :
  (forall k, lo <= k <= hi -> 0 <= f k) -> 0 <= zsum f lo hi.
Proof.
  intros H; destruct (zsum_ge f lo hi 0 ltac:(lia) H) as [Hs|Hs]; [lia|].
  rewrite zsum_empty by assumption; lia.
Qed.

(** *** Reading lists *)

Lemma at0_Some l k s : idx l k = Some s -> at0 l k = s.
Proof. unfold at0; intros ->; reflexivity. Qed.

Lemma idx_at0 l k : 0 <= k < len l -> idx l k = Some (at0 l k).
Proof.
  intros H; destruct (idx_in_range l k H) as [s Hs].
  rewrite (at0_Some _ _ _ Hs); exact Hs.
Qed.

Lemma at0_cons a l k : 0 <= k -> at0 (a :: l) (k + 1) = at0 l k.
Proof. intros H; unfold at0; rewrite idx_cons_succ by lia; reflexivity. Qed.

Lemma zsum_n_cons a l n : forall lo,
  0 <= lo -> zsum_n (at0 (a :: l)) (lo + 1) n = zsum_n (at0 l) lo n.
Proof.
  induction n as [|n IH]; intros lo Hlo; [reflexivity|].
  cbn [zsum_n]; rewrite at0_cons, IH by lia; reflexivity.
Qed.

Lemma prefix_sums_len l : forall c, len (prefix_sums l c) = len l.
Proof.
  induction l as [|a l IH]; intros c; [reflexivity|].
  cbn [prefix_sums]; lens; rewrite IH; reflexivity.
Qed.

Lemma prefix_sums_idx l : forall c d,
  0 <= d < len l ->
  idx (prefix_sums l c) d = Some (c + zsum (at0 l) 0 d).
Proof.
  induction l as [|a l IH]; intros c d Hd.
  - revert Hd; lens; lia.
  - revert Hd; lens; intros Hd; cbn [prefix_sums].
    rewrite zsum_first by lia.
    destruct (Z.eq_dec d 0) as [->|Hne].
    + rewrite zsum_empty by lia.
      change (at0 (a :: l) 0) with a.
      rewrite idx_cons_0; f_equal; lia.
    + rewrite idx_cons_pos, IH by lia.
      f_equal.
      assert (E : zsum (at0 (a :: l)) (0 + 1) d = zsum (at0 l) 0 (d - 1)).
      { unfold zsum.
        replace (Z.to_nat (d - 1 + 1 - 0)) with (Z.to_nat (d + 1 - (0 + 1)))
          by lia.
        apply zsum_n_cons; lia. }
      rewrite E; change (at0 (a :: l) 0) with a; lia.
Qed.

(** [SizesSumInRange] is the sum over the inclusive range it names. *)
Lemma SizesSumInRange_spec info s e :
  PrefixSums info = prefix_sums (Sizes info) 0 ->
  0 <= s <= e + 1 -> 0 <= e < len (Sizes info) ->
  SizesSumInRange info s e = Some (zsum (at0 (Sizes info)) s e).
Proof.
  intros Hp Hs He; unfold SizesSumInRange; rewrite Hp.
  destruct (Z.eqb_spec s 0) as [->|Hne].
  - rewrite prefix_sums_idx by lia; f_equal; lia.
  - rewrite !prefix_sums_idx by lia; f_equal.
    rewrite (zsum_split _ 0 (s - 1) e) by lia.
    replace (s - 1 + 1) with s by lia; lia.
Qed.

Lemma set_idx_spec {A} (l : list A) i a l' :
  set_idx l i a = Some l' ->
  len l' = len l /\ idx l' i = Some a
  /\ forall k, k <> i -> idx l' k = idx l k.
Proof.
  unfold set_idx.
  destruct (Z.ltb_spec i 0); [discriminate|].
  destruct (Z.leb_spec (len l) i); [discriminate|].
  cbn [orb]; intros E; injection E as <-.
  assert (Hf : len (firstn (Z.to_nat i) l) = i)
    by (unfold len in *; rewrite firstn_length_le; lia).
  assert (Hs : len (skipn (Z.to_nat (i + 1)) l) = len l - i - 1)
    by (unfold len in *; rewrite length_skipn; lia).
  split; [lens; lia|split].
  - rewrite idx_app_r by lia.
    rewrite Hf, Z.sub_diag; reflexivity.
  - intros k Hk.
    destruct (Z_lt_le_dec k i) as [Hlt|Hge].
    + rewrite idx_app_l by lia.
      unfold idx; destruct (Z.ltb_spec k 0); [reflexivity|].
      rewrite nth_error_firstn.
      destruct (Nat.ltb_spec (Z.to_nat k) (Z.to_nat i)); [reflexivity|lia].
    + rewrite idx_app_r, Hf, idx_cons_pos by lia.
      unfold idx.
      destruct (Z.ltb_spec (k - i - 1) 0); [lia|].
      destruct (Z.ltb_spec k 0); [lia|].
      rewrite nth_error_skipn; f_equal; lia.
Qed.

Lemma set_idx_total {A} (l : list A) i a :
  0 <= i < len l -> exists l', set_idx l i a = Some l'.
Proof.
  intros H; unfold set_idx.
  destruct (Z.ltb_spec i 0); [lia|].
  destruct (Z.leb_spec (len l) i); [lia|].
  cbn [orb]; eauto.
Qed.

(** *** The table [prepareLayerInfo] builds *)

Lemma at0_map_zrange (h : Z -> Z) n d :
  0 <= d < n -> at0 (map h (zrange n)) d = h d.
Proof.
  intros H; unfold at0.
  rewrite idx_map, zrange_idx by lia; reflexivity.
Qed.

Lemma len_map_zrange {B} (h : Z -> B) n : 0 <= n -> len (map h (zrange n)) = n.
Proof.
  intros H; unfold len; rewrite length_map; fold (len (zrange n)).
  rewrite zrange_len; lia.
Qed.

Lemma sz_at tbl v info d : idx tbl v = Some info -> sz tbl v d = at0 (Sizes info) d.
Proof. unfold sz; intros ->; reflexivity. Qed.

Lemma sz_set tbl v info tbl' v' d :
  set_idx tbl v info = Some tbl' -> v' <> v -> sz tbl' v' d = sz tbl v' d.
Proof.
  intros Hset Hne; destruct (set_idx_spec _ _ _ _ Hset) as (_ & _ & Hk).
  unfold sz; rewrite (Hk v' Hne); reflexivity.
Qed.

Lemma layer_size_spec w v prev d :
  1 <= w -> 2 <= v ->
  len (Sizes prev) = (w - 1) * (v - 1) + 1 ->
  PrefixSums prev = prefix_sums (Sizes prev) 0 ->
  0 <= d <= (w - 1) * v ->
  layer_size w v prev d =
  Some (zsum (at0 (Sizes prev)) (Z.max 0 (d - (w - 1)))
          (Z.min d ((w - 1) * (v - 1)))).
Proof.
  intros Hw Hv Hlen Hp Hd; unfold layer_size.
  assert (E : (w - 1) * v = (w - 1) * (v - 1) + (w - 1)) by lia.
  assert (0 <= (w - 1) * (v - 1)) by (apply Z.mul_nonneg_nonneg; lia).
  set (m := (w - 1) * (v - 1)) in *.
  destruct (Z.gtb_spec (Z.max 1 (Z.max (w - d) 1)) (Z.min w (w + m - d)));
    [lia|].
  replace (d - (w - Z.max 1 (Z.max (w - d) 1))) with (Z.max 0 (d - (w - 1)))
    by lia.
  replace (d - (w - Z.min w (w + m - d))) with (Z.min d m) by lia.
  apply SizesSumInRange_spec; [assumption|lia|lia].
Qed.

Lemma dimension_info_spec w v prev :
  1 <= w -> 2 <= v ->
  len (Sizes prev) = (w - 1) * (v - 1) + 1 ->
  PrefixSums prev = prefix_sums (Sizes prev) 0 ->
  dimension_info w v prev =
  Some {| Sizes := map (fun d => zsum (at0 (Sizes prev))
                                   (Z.max 0 (d - (w - 1)))
                                   (Z.min d ((w - 1) * (v - 1))))
                       (zrange ((w - 1) * v + 1));
          PrefixSums :=
            prefix_sums
              (map (fun d => zsum (at0 (Sizes prev))
                               (Z.max 0 (d - (w - 1)))
                               (Z.min d ((w - 1) * (v - 1))))
                   (zrange ((w - 1) * v + 1))) 0 |}.
Proof.
  intros Hw Hv Hlen Hp; unfold dimension_info.
  assert (0 <= (w - 1) * v) by (apply Z.mul_nonneg_nonneg; lia).
  destruct (Z.ltb_spec ((w - 1) * v + 1) 0); [lia|].
  rewrite (mapM_map _ (fun d => zsum (at0 (Sizes prev))
                                  (Z.max 0 (d - (w - 1)))
                                  (Z.min d ((w - 1) * (v - 1))))).
  - reflexivity.
  - intros d Hin; apply zrange_In in Hin.
    apply layer_size_spec; try assumption; lia.
Qed.

Lemma prefix_sums_ones n : forall a,
  prefix_sums (map (fun _ => 1) (map Z.of_nat (seq a n))) (Z.of_nat a)
  = map (fun i => i + 1) (map Z.of_nat (seq a n)).
Proof.
  induction n as [|n IH]; intros a; [reflexivity|].
  cbn [seq map prefix_sums]; f_equal.
  replace (Z.of_nat a + 1) with (Z.of_nat (S a)) by lia; apply IH.
Qed.

(** One more dimension filled in keeps the table well formed. *)
Lemma table_step w v tbl prev tbl' :
  1 <= w -> 2 <= v <= MaxDimension ->
  table_upto w tbl (v - 1) ->
  idx tbl (v - 1) = Some prev ->
  set_idx tbl v
    {| Sizes := map (fun d => zsum (at0 (Sizes prev))
                                   (Z.max 0 (d - (w - 1)))
                                   (Z.min d ((w - 1) * (v - 1))))
                       (zrange ((w - 1) * v + 1));
       PrefixSums :=
         prefix_sums
           (map (fun d => zsum (at0 (Sizes prev))
                            (Z.max 0 (d - (w - 1)))
                            (Z.min d ((w - 1) * (v - 1))))
                (zrange ((w - 1) * v + 1))) 0 |} = Some tbl' ->
  table_upto w tbl' v.
Proof.
  intros Hw Hv (Hlen & Hdim & Hone & Hrec) Hprev Hset.
  destruct (set_idx_spec _ _ _ _ Hset) as (Hlen' & Hv' & Hother).
  destruct (Hdim (v - 1) ltac:(lia)) as (prev' & Hprev' & Hplen & Hpp & Hpge).
  rewrite Hprev in Hprev'; injection Hprev' as <-.
  assert (Hm : 0 <= (w - 1) * (v - 1)) by (apply Z.mul_nonneg_nonneg; lia).
  assert (Hm' : (w - 1) * v = (w - 1) * (v - 1) + (w - 1)) by lia.
  assert (Hsz : forall d, 0 <= d <= (w - 1) * v ->
            sz tbl' v d = zsum (at0 (Sizes prev)) (Z.max 0 (d - (w - 1)))
                            (Z.min d ((w - 1) * (v - 1)))).
  { intros d Hd; rewrite (sz_at _ _ _ _ Hv'); cbn [Sizes].
    rewrite at0_map_zrange by lia; reflexivity. }
  split; [lia|split; [|split]].
  - intros v0 Hv0.
    destruct (Z.eq_dec v0 v) as [->|Hne].
    + eexists; split; [exact Hv'|]; cbn [Sizes PrefixSums].
      split; [apply len_map_zrange; lia|split; [reflexivity|]].
      intros d Hd; rewrite at0_map_zrange by lia.
      apply zsum_pos; [lia|].
      intros k Hk; apply Hpge; lia.
    + destruct (Hdim v0 ltac:(lia)) as (info & Hi & Hrest).
      exists info; rewrite (Hother v0 Hne); auto.
  - intros d Hd; rewrite (sz_set _ _ _ _ 1 d Hset) by lia; auto.
  - intros v0 Hv0 d Hd.
    destruct (Z.eq_dec v0 v) as [->|Hne].
    + rewrite (Hsz d Hd); apply zsum_ext; intros k Hk.
      rewrite (sz_set _ _ _ _ (v - 1) k Hset) by lia.
      symmetry; apply sz_at; assumption.
    + rewrite (sz_set _ _ _ _ v0 d Hset) by lia.
      rewrite (Hrec v0 ltac:(lia) d Hd); apply zsum_ext; intros k Hk.
      symmetry; apply (sz_set _ _ _ _ (v0 - 1) k Hset); lia.
Qed.

Lemma fill_dimensions_spec w n : forall v tbl,
  1 <= w -> 2 <= v -> v + Z.of_nat n = MaxDimension + 1 ->
  table_upto w tbl (v - 1) ->
  exists tbl', fill_dimensions w n v tbl = Some tbl' /\ table_ok w tbl'.
Proof.
  induction n as [|n IH]; intros v tbl Hw Hv Hn Htbl.
  - exists tbl; split; [reflexivity|].
    unfold table_ok; replace MaxDimension with (v - 1) by lia; assumption.
  - cbn [fill_dimensions].
    destruct Htbl as (Hlen & Hdim & Hone & Hrec).
    destruct (Hdim (v - 1) ltac:(lia)) as (prev & Hprev & Hplen & Hpp & Hpge).
    rewrite Hprev, (dimension_info_spec w v prev Hw Hv) by assumption.
    destruct (set_idx_total tbl v
      {| Sizes := map (fun d => zsum (at0 (Sizes prev))
                                   (Z.max 0 (d - (w - 1)))
                                   (Z.min d ((w - 1) * (v - 1))))
                       (zrange ((w - 1) * v + 1));
         PrefixSums :=
           prefix_sums
             (map (fun d => zsum (at0 (Sizes prev))
                              (Z.max 0 (d - (w - 1)))
                              (Z.min d ((w - 1) * (v - 1))))
                  (zrange ((w - 1) * v + 1))) 0 |} ltac:(lia)) as [tbl' Hset].
    rewrite Hset.
    apply IH; try lia.
    replace (v + 1 - 1) with v by lia.
    apply (table_step w v tbl prev tbl'); try assumption; try lia.
    split; [|split; [|split]]; assumption.
Qed.

(** [prepareLayerInfo] returns, for every base [w >= 1], and the table it
    returns satisfies the recurrence of the layer sizes. *)
Lemma table_total w :
  1 <= w -> exists tbl, getAllLayerData w = Some tbl /\ table_ok w tbl.
Proof.
  intros Hw; unfold getAllLayerData, prepareLayerInfo.
  destruct (Z.ltb_spec w 0); [lia|].
  set (empty := repeat {| Sizes := []; PrefixSums := [] |}
                  (Z.to_nat (MaxDimension + 1))).
  assert (Hlen : len empty = MaxDimension + 1).
  { unfold len, empty; rewrite repeat_length; reflexivity. }
  destruct (set_idx_total empty 1
              {| Sizes := map (fun _ => 1) (zrange w);
                 PrefixSums := map (fun i => i + 1) (zrange w) |})
    as [tbl1 Hset]; [unfold MaxDimension in Hlen; lia|].
  rewrite Hset.
  destruct (set_idx_spec _ _ _ _ Hset) as (Hlen1 & H1 & _).
  apply fill_dimensions_spec; [assumption|lia|reflexivity|].
  replace (2 - 1) with 1 by lia.
  split; [lia|split; [|split]].
  - intros v Hv; assert (v = 1) by lia; subst v.
    eexists; split; [exact H1|]; cbn [Sizes PrefixSums].
    split; [rewrite len_map_zrange; lia|split].
    + unfold zrange; symmetry; apply (prefix_sums_ones _ 0%nat).
    + intros d Hd; rewrite at0_map_zrange; lia.
  - intros d Hd; rewrite (sz_at _ _ _ _ H1); cbn [Sizes].
    apply at0_map_zrange; lia.
  - intros v Hv; lia.
Qed.
(** *** [MapToVertex] *)

(** The inner loop: when [xCurr] is below the sum of the counts it scans,
    it stops at the first [ji] whose running sum exceeds [xCurr], with
    [xCurr] reduced by the counts before [ji]. *)
Lemma find_ji_spec sizes dCurr n : forall j x,
  0 <= x ->
  (forall k, j <= k < j + Z.of_nat n ->
     0 <= dCurr - k < len sizes /\ 0 <= at0 sizes (dCurr - k)) ->
  x < zsum (fun k => at0 sizes (dCurr - k)) j (j + Z.of_nat n - 1) ->
  exists ji x',
    find_ji sizes dCurr n j x = Some (ji, x')
    /\ j <= ji < j + Z.of_nat n
    /\ 0 <= x' < at0 sizes (dCurr - ji)
    /\ x = x' + zsum (fun k => at0 sizes (dCurr - k)) j (ji - 1).
Proof.
  induction n as [|n IH]; intros j x Hx Hk Hlt.
  - rewrite zsum_empty in Hlt by lia; lia.
  - cbn [find_ji].
    destruct (Hk j ltac:(lia)) as [Hr Hc].
    rewrite (idx_at0 _ _ Hr).
    rewrite zsum_first in Hlt by lia.
    destruct (Z.geb_spec x (at0 sizes (dCurr - j))) as [Hge|Hsmall].
    + destruct (IH (j + 1) (x - at0 sizes (dCurr - j)) ltac:(lia)
                  ltac:(intros k Hk'; apply Hk; lia)
                  ltac:(replace (j + 1 + Z.of_nat n - 1)
                          with (j + Z.of_nat (S n) - 1) by lia; lia))
        as (ji & x' & Hf & Hji & Hx' & Hsum).
      exists ji, x'; split; [exact Hf|]; split; [lia|split; [exact Hx'|]].
      rewrite (zsum_first _ j (ji - 1)) by lia; lia.
    + exists j, x; split; [reflexivity|]; split; [lia|split; [lia|]].
      rewrite zsum_empty by lia; lia.
Qed.

Lemma vertex_index_nonempty tbl w a x d :
  vertex_index tbl w a x d -> 1 <= len a.
Proof. destruct a; [intros []|intros _; lens; pose proof (len_nonneg a); lia]. Qed.

(** The outer loop, run for the last [n + 1] coordinates from a state in
    which [xCurr] is below the size of layer [dCurr] of that dimension:
    it consumes [xCurr] entirely and leaves, with the final coordinate,
    the vertex that has number [xCurr] in that layer. *)
Lemma vertex_loop_spec tbl w v n : forall i dCurr x out,
  table_ok w tbl -> 2 <= w <= 256 ->
  i = v - Z.of_nat n -> 1 <= Z.of_nat n + 1 <= MaxDimension ->
  0 <= dCurr <= (w - 1) * (Z.of_nat n + 1) ->
  0 <= x < sz tbl (Z.of_nat n + 1) dCurr ->
  exists d' out' tail,
    vertex_loop tbl w v n i dCurr x out = Some (d', 0, out')
    /\ 0 <= d' <= w - 1
    /\ out' ++ [w - 1 - d'] = out ++ tail
    /\ len tail = Z.of_nat n + 1
    /\ vertex_index tbl w tail x dCurr.
Proof.
  induction n as [|n IH]; intros i dCurr x out Htbl Hw Hi Hn Hd Hx.
  - destruct Htbl as (_ & _ & Hone & _).
    cbn [Z.of_nat Z.add] in *.
    rewrite Hone in Hx by lia.
    assert (x = 0) by lia; subst x.
    exists dCurr, out, [w - 1 - dCurr]; cbn [vertex_loop vertex_index].
    repeat split; lia.
  - cbn [vertex_loop].
    set (r := Z.of_nat n + 1) in *.
    replace (Z.of_nat (S n) + 1) with (r + 1) in * by lia.
    replace (v - i) with r by lia.
    pose proof Htbl as (_ & Hdim & _ & Hrec).
    destruct (Hdim r ltac:(lia)) as (info & Hinfo & Hlen & _ & Hge).
    rewrite Hinfo.
    assert (Hm : (w - 1) * (r + 1) = (w - 1) * r + (w - 1)) by lia.
    assert (Hm0 : 0 <= (w - 1) * r) by (apply Z.mul_nonneg_nonneg; lia).
    set (rs := Z.max 0 (dCurr - (w - 1) * r)).
    set (jm := Z.min (w - 1) dCurr).
    assert (Hsum : sz tbl (r + 1) dCurr
                   = zsum (fun k => at0 (Sizes info) (dCurr - k)) rs jm).
    { rewrite (Hrec (r + 1) ltac:(lia) dCurr ltac:(lia)), zsum_rev.
      replace (r + 1 - 1) with r by lia.
      replace (dCurr - jm) with (Z.max 0 (dCurr - (w - 1))) by lia.
      replace (dCurr - rs) with (Z.min dCurr ((w - 1) * r)) by lia.
      apply zsum_ext; intros k _; apply sz_at; assumption. }
    destruct (find_ji_spec (Sizes info) dCurr (Z.to_nat (jm + 1 - rs)) rs x)
      as (ji & x' & Hf & Hji & Hx' & Hxsum).
    + lia.
    + intros k Hk; split; [lia|].
      pose proof (Hge (dCurr - k) ltac:(lia)); lia.
    + replace (rs + Z.of_nat (Z.to_nat (jm + 1 - rs)) - 1) with jm by lia.
      lia.
    + rewrite Hf.
      destruct (Z.ltb_spec ji 0); [lia|].
      destruct (Z.geb_spec ji w); [lia|].
      cbn [orb].
      rewrite (u8_id (w - ji - 1)) by (unfold is_u8; lia).
      replace (dCurr - (w - 1 - (w - ji - 1))) with (dCurr - ji) by lia.
      destruct (IH (i + 1) (dCurr - ji) x' (out ++ [w - ji - 1]) Htbl Hw
                  ltac:(lia) ltac:(lia) ltac:(fold r; lia)
                  ltac:(fold r; rewrite (sz_at _ _ _ _ Hinfo); lia))
        as (d' & out' & tail & Hloop & Hd' & Hout & Hlen' & Hvi).
      exists d', out', ((w - ji - 1) :: tail).
      split; [exact Hloop|split; [exact Hd'|]].
      split; [rewrite Hout, <- app_assoc; reflexivity|].
      split; [lens; fold r in Hlen'; lia|].
      fold r in Hlen'.
      cbn [vertex_index]; split; [lia|].
      destruct tail as [|t tail]; [revert Hlen'; lens; lia|].
      cbv zeta; rewrite Hlen'.
      replace (w - 1 - (w - ji - 1)) with ji by lia.
      exists x'; split; [exact Hvi|].
      split; [lia|split; [fold rs; lia|split; [lia|]]].
      fold rs; rewrite Hxsum; f_equal.
      apply zsum_ext; intros k _; symmetry; apply sz_at; assumption.
Qed.

(** *** [MapToInteger] *)

Lemma integer_loop_app tbl w v a n m : forall i x d,
  integer_loop tbl w v a (n + m) i x d =
  match integer_loop tbl w v a n i x d with
  | Some (x', d') => integer_loop tbl w v a m (i - Z.of_nat n) x' d'
  | None => None
  end.
Proof.
  induction n as [|n IH]; intros i x d.
  - cbn [integer_loop Nat.add Z.of_nat]; rewrite Z.sub_0_r; reflexivity.
  - cbn [integer_loop Nat.add].
    destruct (idx a i); [|reflexivity].
    destruct (idx tbl (v - i - 1)); [|reflexivity].
    destruct (SizesSumInRange _ _ _); [|reflexivity].
    rewrite IH.
    replace (i - 1 - Z.of_nat n) with (i - Z.of_nat (S n)) by lia.
    reflexivity.
Qed.

(** The loop over the coordinates after the first does not look at the
    first one. *)
Lemma integer_loop_tail tbl w v a0 rest n : forall i x d,
  Z.of_nat n <= i + 1 ->
  integer_loop tbl w (v + 1) (a0 :: rest) n (i + 1) x d =
  integer_loop tbl w v rest n i x d.
Proof.
  induction n as [|n IH]; intros i x d Hn; [reflexivity|].
  cbn [integer_loop].
  rewrite idx_cons_succ by lia.
  destruct (idx rest i); [|reflexivity].
  replace (v + 1 - (i + 1) - 1) with (v - i - 1) by lia.
  destruct (idx tbl (v - i - 1)); [|reflexivity].
  destruct (SizesSumInRange _ _ _); [|reflexivity].
  replace (i + 1 - 1) with (i - 1 + 1) by lia.
  apply IH; lia.
Qed.

(** [MapToInteger]'s loop recovers the layer and the number of a vertex. *)
Lemma integer_loop_spec tbl w a : forall x d,
  table_ok w tbl -> 1 <= w -> len a <= MaxDimension ->
  vertex_index tbl w a x d ->
  exists last,
    idx a (len a - 1) = Some last
    /\ integer_loop tbl w (len a) a (Z.to_nat (len a - 1)) (len a - 2) 0
         (w - 1 - last) = Some (x, d).
Proof.
  induction a as [|a0 rest IH]; intros x d Htbl Hw Hlen Hvi; [destruct Hvi|].
  destruct rest as [|b rest'].
  - destruct Hvi as (_ & -> & ->).
    exists a0; split; reflexivity.
  - set (rest := b :: rest') in *.
    cbn [vertex_index] in Hvi; fold rest in Hvi.
    destruct Hvi as (Ha0 & x' & Hrest & Hd' & Hj & Hx' & Hx).
    revert Hlen; lens; intros Hlen; fold rest in Hlen |- *.
    pose proof (vertex_index_nonempty _ _ _ _ _ Hrest) as Hr1.
    destruct (IH x' (d - (w - 1 - a0)) Htbl Hw ltac:(lia) Hrest)
      as (last & Hlast & Hloop).
    exists last.
    replace (1 + len rest - 1) with (len rest - 1 + 1) by lia.
    rewrite idx_cons_succ by lia.
    split; [exact Hlast|].
    replace (Z.to_nat (len rest - 1 + 1))
      with (Z.to_nat (len rest - 1) + 1)%nat by lia.
    rewrite integer_loop_app.
    replace (1 + len rest) with (len rest + 1) by lia.
    replace (len rest + 1 - 2) with (len rest - 2 + 1) by lia.
    rewrite integer_loop_tail by lia.
    rewrite Hloop.
    replace (len rest - 2 + 1 - Z.of_nat (Z.to_nat (len rest - 1))) with 0
      by lia.
    cbn [integer_loop]; rewrite idx_cons_0.
    replace (d - (w - 1 - a0) + (w - 1 - a0)) with d by lia.
    replace (len rest + 1 - 0 - 1) with (len rest) by lia.
    destruct Htbl as (_ & Hdim & _).
    destruct (Hdim (len rest) ltac:(lia)) as (info & Hinfo & Hilen & Hip & _).
    rewrite Hinfo.
    rewrite SizesSumInRange_spec by (try assumption; lia).
    do 2 f_equal.
    rewrite Hx; f_equal.
    rewrite zsum_rev.
    replace (d - (w - 1 - a0 - 1)) with (d - (w - 1 - a0) + 1) by lia.
    apply zsum_ext; intros k _; symmetry; apply sz_at; assumption.
Qed.

(** The coordinates of a numbered vertex are digits below [w], and their
    distances from [w - 1] add up to the layer. *)
Lemma vertex_index_sum tbl w a : forall x d,
  vertex_index tbl w a x d ->
  Forall (fun ai => 0 <= ai <= w - 1) a
  /\ fold_left Z.add a 0 = (w - 1) * len a - d.
Proof.
  assert (Hfold : forall l c, fold_left Z.add l c = c + fold_left Z.add l 0).
  { induction l as [|b l IHl]; intros c; cbn [fold_left]; [lia|].
    rewrite (IHl (c + b)), (IHl (0 + b)); lia. }
  induction a as [|a0 rest IH]; intros x d Hvi; [destruct Hvi|].
  destruct rest as [|b rest'].
  - destruct Hvi as (Ha0 & _ & ->).
    split; [repeat constructor; lia|cbn; lia].
  - set (rest := b :: rest') in *.
    cbn [vertex_index] in Hvi; fold rest in Hvi.
    destruct Hvi as (Ha0 & x' & Hrest & _).
    destruct (IH _ _ Hrest) as [Hall Hsum].
    split; [constructor; assumption|].
    cbn [fold_left]; rewrite Hfold, Hsum; lens; lia.
Qed.
(** *** The round trip *)

Lemma layer_size_at_table w v d tbl :
  getAllLayerData w = Some tbl -> table_ok w tbl ->
  1 <= w -> 1 <= v <= MaxDimension -> 0 <= d <= (w - 1) * v ->
  layer_size_at w v d = Some (sz tbl v d) /\ 1 <= sz tbl v d.
Proof.
  intros Htbl (_ & Hdim & _) Hw Hv Hd.
  destruct (Hdim v Hv) as (info & Hinfo & Hlen & _ & Hge).
  unfold layer_size_at, GetLayerInfo; rewrite Htbl, Hinfo.
  rewrite (sz_at _ _ _ _ Hinfo).
  split; [apply idx_at0; lia|apply Hge; lia].
Qed.

(** [sizes[v][d]] is defined, and positive, on the whole range the claim
    speaks of. *)
Lemma layer_size_at_total w v d :
  1 <= w -> 1 <= v <= MaxDimension -> 0 <= d <= (w - 1) * v ->
  exists size, layer_size_at w v d = Some size /\ 1 <= size.
Proof.
  intros Hw Hv Hd; destruct (table_total w Hw) as (tbl & Htbl & Hok).
  exists (sz tbl v d); apply layer_size_at_table; assumption.
Qed.

(** [MapToVertex] returns the vertex that has number [x] in layer [d]. *)
Lemma MapToVertex_vertex w v d x tbl :
  getAllLayerData w = Some tbl -> table_ok w tbl ->
  2 <= w <= 256 -> 1 <= v <= MaxDimension -> 0 <= d <= (w - 1) * v ->
  0 <= x < sz tbl v d ->
  exists a,
    MapToVertex w v d x = Some a /\ len a = v /\ vertex_index tbl w a x d.
Proof.
  intros Htbl Hok Hw Hv Hd Hx.
  pose proof Hok as (_ & Hdim & _).
  destruct (Hdim v Hv) as (info & Hinfo & Hlen & _).
  destruct (vertex_loop_spec tbl w v (Z.to_nat (v - 1)) 1 d x [] Hok Hw
              ltac:(lia) ltac:(lia)
              ltac:(rewrite Z2Nat.id by lia; replace (v - 1 + 1) with v by lia;
                    exact Hd)
              ltac:(rewrite Z2Nat.id by lia; replace (v - 1 + 1) with v by lia;
                    exact Hx))
    as (d' & out' & a & Hloop & Hd' & Hout & Hlena & Hvi).
  rewrite Z2Nat.id in Hlena by lia.
  replace (v - 1 + 1) with v in Hlena by lia.
  cbn [app] in Hout.
  exists a; split; [|split; assumption].
  unfold MapToVertex; rewrite Htbl, Hinfo.
  rewrite (idx_at0 (Sizes info) d) by lia.
  rewrite <- (sz_at _ _ _ _ Hinfo).
  destruct (Z.geb_spec x (sz tbl v d)); [lia|].
  rewrite Hloop; change (i64 0) with 0.
  destruct (Z.geb_spec (0 + d') w); [lia|].
  rewrite u8_id by (unfold is_u8; lia).
  replace (w - 1 - 0 - d') with (w - 1 - d') by lia.
  rewrite Hout; reflexivity.
Qed.

(** C8 (as the code has it). For a base [2 <= w <= 256] (a coordinate is a
    byte), a dimension [1 <= v <= 100], a layer [0 <= d <= (w-1)*v] and an
    [x] with [0 <= x < sizes[v][d]]: [MapToVertex] returns a vertex of [v]
    coordinates in [0, w-1] whose sum is [(w-1)*v - d], and [MapToInteger]
    maps that vertex back to [x]. *)
Theorem MapToVertex_roundtrip (w v d x size : Z)
    (Hw : 2 <= w <= 256) (Hv : 1 <= v <= 100) (Hd : 0 <= d <= (w - 1) * v)
    (Hsize : layer_size_at w v d = Some size) (Hx : 0 <= x < size) :
  exists a,
    MapToVertex w v d x = Some a
    /\ MapToInteger w v d a = Some x
    /\ len a = v
    /\ Forall (fun ai => 0 <= ai <= w - 1) a
    /\ fold_left Z.add a 0 = (w - 1) * v - d.
Proof.
  destruct (table_total w ltac:(lia)) as (tbl & Htbl & Hok).
  destruct (layer_size_at_table w v d tbl Htbl Hok ltac:(lia) Hv Hd)
    as [Hsz _].
  rewrite Hsz in Hsize; injection Hsize as <-.
  destruct (MapToVertex_vertex w v d x tbl Htbl Hok Hw Hv Hd Hx)
    as (a & Hmap & Hlena & Hvi).
  exists a.
  split; [exact Hmap|split; [|split; [exact Hlena|]]].
  - destruct (integer_loop_spec tbl w a x d Hok ltac:(lia)
                ltac:(unfold MaxDimension; lia) Hvi) as (last & Hlast & Hint).
    rewrite Hlena in Hlast, Hint.
    unfold MapToInteger; rewrite Hlena, Z.eqb_refl, Hlast, Htbl, Hint.
    rewrite Z.eqb_refl; reflexivity.
  - destruct (vertex_index_sum _ _ _ _ _ Hvi) as [Hall Hsum].
    rewrite Hlena in Hsum; auto.
Qed.

Lemma MapToVertex_roundtrip_witness :
  exists a,
    MapToVertex 3 2 2 1 = Some a
    /\ MapToInteger 3 2 2 a = Some 1
    /\ len a = 2
    /\ Forall (fun ai => 0 <= ai <= 3 - 1) a
    /\ fold_left Z.add a 0 = (3 - 1) * 2 - 2.
Proof.
  apply (MapToVertex_roundtrip 3 2 2 1 3);
    [lia|lia|lia|vm_compute; reflexivity|lia].
Defined.

(** Base 257 is within the range the specification words, and there the
    single coordinate 256 of the top vertex does not fit a byte: the vertex
    comes back as [0], its coordinate sum is not 256, and [MapToInteger]
    panics on it. *)
Lemma roundtrip_fails_above_256 :
  layer_size_at 257 1 0 = Some 1
  /\ MapToVertex 257 1 0 0 = Some [0]
  /\ MapToInteger 257 1 0 [0] = None
  /\ fold_left Z.add [0] 0 <> (257 - 1) * 1 - 0.
Proof.
  destruct (table_total 257 ltac:(lia)) as (tbl & Htbl & Hok).
  pose proof Hok as (_ & Hdim & Hone & _).
  destruct (Hdim 1 ltac:(unfold MaxDimension; lia))
    as (info & Hinfo & Hlen & _).
  pose proof (Hone 0 ltac:(lia)) as H0.
  rewrite (sz_at _ _ _ _ Hinfo) in H0.
  assert (Hidx : idx (Sizes info) 0 = Some 1)
    by (rewrite (idx_at0 (Sizes info) 0), H0 by lia; reflexivity).
  split; [|split; [|split]].
  - unfold layer_size_at, GetLayerInfo; rewrite Htbl, Hinfo; exact Hidx.
  - unfold MapToVertex; rewrite Htbl, Hinfo, Hidx.
    change (Z.to_nat (1 - 1)) with O; reflexivity.
  - unfold MapToInteger; change (len [0] =? 1) with true; cbn [negb].
    change (idx [0] (1 - 1)) with (Some 0); rewrite Htbl.
    change (Z.to_nat (1 - 1)) with O; reflexivity.
  - cbn; lia.
Qed.

(** Scenario S7 of the specification, [TestBigMap] of the source. *)
Example TestBigMap :
  exists a,
    MapToVertex 12 40 174 21790506781852242898091207809690042074412 = Some a
    /\ MapToInteger 12 40 174 a = Some 21790506781852242898091207809690042074412
    /\ fold_left Z.add a 0 = 11 * 40 - 174.
Proof.
  eexists; split; [vm_compute; reflexivity|].
  split; vm_compute; reflexivity.
Qed.

End HypercubeFacts.

(* ================================================================= *)
(** ** The top-level Poseidon message hash maps into the hypercube *)

Module TopLevelFacts.
Import Hypercube HypercubeSpec HypercubeFacts TopLevelPoseidon.

(** *** Layer sizes summed, and the search through them *)

Lemma prefix_sum_at w tbl v info d :
  table_ok w tbl -> 1 <= v <= MaxDimension -> idx tbl v = Some info ->
  0 <= d <= (w - 1) * v ->
  idx (PrefixSums info) d = Some (zsum (sz tbl v) 0 d).
Proof.
  intros (_ & Hdim & _) Hv Hinfo Hd.
  destruct (Hdim v Hv) as (info' & Hinfo' & Hlen & Hp & _).
  rewrite Hinfo in Hinfo'; injection Hinfo' as <-.
  rewrite Hp, prefix_sums_idx by lia.
  f_equal; rewrite Z.add_0_l; apply zsum_ext.
  intros k _; symmetry; apply sz_at; assumption.
Qed.

Lemma sz_ge_1 w tbl v d :
  table_ok w tbl -> 1 <= v <= MaxDimension -> 0 <= d <= (w - 1) * v ->
  1 <= sz tbl v d.
Proof.
  intros (_ & Hdim & _) Hv Hd.
  destruct (Hdim v Hv) as (info & Hinfo & _ & _ & Hge).
  rewrite (sz_at _ _ _ _ Hinfo); auto.
Qed.

Lemma HypercubePartSize_spec w v D tbl :
  getAllLayerData w = Some tbl -> table_ok w tbl ->
  1 <= v <= MaxDimension -> 0 <= D <= (w - 1) * v ->
  HypercubePartSize w v D = Some (zsum (sz tbl v) 0 D)
  /\ 1 <= zsum (sz tbl v) 0 D.
Proof.
  intros Htbl Hok Hv HD.
  pose proof Hok as (_ & Hdim & _).
  destruct (Hdim v Hv) as (info & Hinfo & _).
  unfold HypercubePartSize; rewrite Htbl, Hinfo.
  split; [eapply prefix_sum_at; eassumption|].
  apply zsum_pos; [lia|].
  intros k Hk; eapply sz_ge_1; [eassumption|assumption|lia].
Qed.

(** The search stops at the first prefix sum above [x]. *)
Lemma partition_point_spec ps x n : forall d0,
  d0 + Z.of_nat n = len ps -> 0 <= d0 ->
  (exists k p, d0 <= k /\ idx ps k = Some p /\ x < p) ->
  (forall k p, 0 <= k < d0 -> idx ps k = Some p -> p <= x) ->
  let d := partition_point ps x n d0 in
  d0 <= d < len ps
  /\ (exists p, idx ps d = Some p /\ x < p)
  /\ (forall k p, 0 <= k < d -> idx ps k = Some p -> p <= x).
Proof.
  induction n as [|n IH]; intros d0 Hn Hd0 (k & q & Hk & Hq & Hx) Hbelow.
  - apply idx_Some_range in Hq; lia.
  - cbn [partition_point].
    destruct (idx_in_range ps d0 ltac:(lia)) as [q0 Hq0].
    rewrite Hq0.
    destruct (Z.leb_spec q0 x) as [Hle|Hgt].
    + assert (Hne : k <> d0)
        by (intros ->; rewrite Hq0 in Hq; injection Hq as <-; lia).
      assert (Hk1 : d0 + 1 <= k) by lia.
      assert (Hn1 : d0 + 1 + Z.of_nat n = len ps) by lia.
      assert (Hd1 : 0 <= d0 + 1) by lia.
      destruct (IH (d0 + 1) Hn1 Hd1
                  (ex_intro _ k (ex_intro _ q (conj Hk1 (conj Hq Hx)))))
        as (H1 & H2 & H3).
      { intros k' p' Hk' Hp'.
        destruct (Z.eq_dec k' d0) as [->|];
          [rewrite Hq0 in Hp'; injection Hp' as <-; assumption|].
        apply (Hbelow k' p'); [lia|assumption]. }
      split; [lia|split; assumption].
    + split; [lia|split; [eauto|assumption]].
Qed.

Lemma HypercubeFindLayer_spec w v x D tbl :
  getAllLayerData w = Some tbl -> table_ok w tbl ->
  1 <= w -> 1 <= v <= MaxDimension -> 0 <= D <= (w - 1) * v ->
  0 <= x < zsum (sz tbl v) 0 D ->
  exists d offset,
    HypercubeFindLayer w v x = Some (d, offset)
    /\ 0 <= d <= D /\ 0 <= offset < sz tbl v d.
Proof.
  intros Htbl Hok Hw Hv HD Hx.
  pose proof Hok as (_ & Hdim & _).
  destruct (Hdim v Hv) as (info & Hinfo & Hlen & Hp & _).
  assert (Hm : 0 <= (w - 1) * v) by lia.
  assert (Hpl : len (PrefixSums info) = (w - 1) * v + 1)
    by (rewrite Hp, prefix_sums_len; exact Hlen).
  assert (Hps : forall d, 0 <= d <= (w - 1) * v ->
            idx (PrefixSums info) d = Some (zsum (sz tbl v) 0 d))
    by (intros d Hd; eapply prefix_sum_at; eassumption).
  assert (Hmono : zsum (sz tbl v) 0 D <= zsum (sz tbl v) 0 ((w - 1) * v)).
  { rewrite (zsum_split _ 0 D ((w - 1) * v)) by lia.
    assert (0 <= zsum (sz tbl v) (D + 1) ((w - 1) * v)); [|lia].
    apply zsum_nonneg; intros k Hk.
    pose proof (sz_ge_1 w tbl v k Hok Hv ltac:(lia)); lia. }
  unfold HypercubeFindLayer; rewrite Htbl, Hinfo, Hpl.
  replace ((w - 1) * v + 1 - 1) with ((w - 1) * v) by lia.
  rewrite (Hps ((w - 1) * v)) by lia.
  destruct (Z.geb_spec x (zsum (sz tbl v) 0 ((w - 1) * v))); [lia|].
  destruct (partition_point_spec (PrefixSums info) x
              (length (PrefixSums info)) 0)
    as (Hd & (q & Hq & Hxq) & Hbelow).
  { unfold len; lia. }
  { lia. }
  { exists D, (zsum (sz tbl v) 0 D); split; [lia|split; [apply Hps; lia|lia]]. }
  { intros k q Hk; lia. }
  set (d := partition_point (PrefixSums info) x (length (PrefixSums info)) 0)
    in *.
  rewrite Hps in Hq by lia; injection Hq as <-.
  assert (HdD : d <= D).
  { destruct (Z_lt_le_dec D d) as [Hlt|]; [|assumption].
    pose proof (Hbelow D _ ltac:(lia) (Hps D ltac:(lia))); lia. }
  destruct (Z.eqb_spec d 0) as [E|Hne].
  - exists 0, x; split; [reflexivity|split; [lia|]].
    rewrite E, zsum_first, zsum_empty in Hxq by lia; lia.
  - rewrite (Hps (d - 1)) by lia.
    exists d, (x - zsum (sz tbl v) 0 (d - 1)).
    split; [reflexivity|split; [lia|]].
    pose proof (Hbelow (d - 1) _ ltac:(lia) (Hps (d - 1) ltac:(lia))).
    rewrite zsum_last in Hxq by lia; lia.
Qed.

(** *** The accumulation *)

Lemma accumulate_spec fes : forall a0,
  fold_left (fun acc fe => acc * p + fe) fes a0
  = a0 * p ^ len fes + spec_accumulate fes.
Proof.
  induction fes as [|fe fes IH]; intros a0.
  - cbn [fold_left spec_accumulate]; change (len (@nil Z)) with 0.
    rewrite Z.pow_0_r; lia.
  - cbn [fold_left spec_accumulate]; rewrite IH; lens.
    rewrite Z.pow_add_r, Z.pow_1_r by (pose proof (len_nonneg fes); lia).
    lia.
Qed.

(** The code's mapping is the specification's, on every input. *)
Lemma mapIntoHypercubePart_spec h fes tbl :
  getAllLayerData (base h) = Some tbl -> table_ok (base h) tbl ->
  1 <= dimension h <= MaxDimension ->
  0 <= finalLayer h <= (base h - 1) * dimension h ->
  mapIntoHypercubePart h fes
  = spec_vertex (base h) (dimension h) (finalLayer h) fes.
Proof.
  intros Htbl Hok Hv HD.
  destruct (HypercubePartSize_spec _ _ _ _ Htbl Hok Hv HD) as [Hsize Hpos].
  unfold mapIntoHypercubePart, spec_vertex; rewrite Hsize.
  destruct (Z.eqb_spec (zsum (sz tbl (dimension h)) 0 (finalLayer h)) 0);
    [lia|].
  rewrite Z.abs_eq, accumulate_spec by lia.
  rewrite Z.mul_0_l, Z.add_0_l; reflexivity.
Qed.

(** *** The Poseidon invocations return *)

Section WithPermutation.
Variable permutation24 : list Z -> list Z.
Hypothesis permutation24_len :
  forall state, len state = 24 -> len (permutation24 state) = 24.

Lemma base_p_digits_len n : forall acc, len (base_p_digits n acc) = Z.of_nat n.
Proof.
  induction n as [|n IH]; intros acc; [reflexivity|].
  cbn [base_p_digits]; lens; rewrite IH; lia.
Qed.

Lemma poseidonCompress_total input outputLen :
  0 <= outputLen <= 24 ->
  exists output,
    poseidonCompress permutation24 input outputLen = Some output
    /\ len output = outputLen.
Proof.
  intros Hout; unfold poseidonCompress.
  set (padded := firstn (Z.to_nat 24) (input ++ repeat 0 (Z.to_nat 24))).
  assert (Hpad : len padded = 24).
  { unfold len, padded; rewrite length_firstn, length_app, repeat_length.
    lia. }
  unfold Permute; rewrite Hpad; cbn [Z.eqb Pos.eqb negb].
  pose proof (permutation24_len padded Hpad) as Hst.
  rewrite (mapM_map _ (fun i => Element_Add (at0 (permutation24 padded) i)
                                            (at0 padded i))).
  - unfold Winternitz.slice_to.
    rewrite len_map_zrange by lia.
    destruct (Z.ltb_spec outputLen 0); [lia|].
    destruct (Z.ltb_spec 24 outputLen); [lia|].
    cbn [orb]; eexists; split; [reflexivity|].
    unfold len; rewrite firstn_length_le; [lia|].
    unfold zrange; rewrite !length_map, length_seq; lia.
  - intros i Hi; apply zrange_In in Hi.
    rewrite !idx_at0 by lia; reflexivity.
Qed.

Lemma invocations_total h pf ef rf mf n : forall inv all,
  0 <= posOutputLenPerInvFE h <= 24 ->
  exists outputs,
    invocations permutation24 h pf ef rf mf n inv all = Some outputs
    /\ len outputs = len all + Z.of_nat n * posOutputLenPerInvFE h.
Proof.
  induction n as [|n IH]; intros inv all Hlen.
  - exists all; split; [reflexivity|cbn; lia].
  - cbn [invocations].
    destruct (poseidonCompress_total
                ([u64 inv mod p] ++ pf ++ ef ++ rf ++ mf)
                (posOutputLenPerInvFE h) Hlen) as (output & Hc & Hol).
    rewrite Hc.
    destruct (IH (inv + 1) (all ++ output) Hlen) as (outputs & Hi & Hl).
    exists outputs; split; [exact Hi|].
    rewrite Hl; lens; lia.
Qed.

Lemma poseidon_outputs_total h params msg rand epoch :
  valid_config h ->
  exists outputs,
    poseidon_outputs permutation24 h params msg rand epoch = Some outputs
    /\ len outputs = Z.max 0 (posInvocations h) * posOutputLenPerInvFE h.
Proof.
  intros (_ & _ & _ & Hper & Hfe & Ht & Hm & Hpl & Hr).
  unfold poseidon_outputs, bytesToFieldElements, encodeEpoch.
  destruct (Z.ltb_spec (parameterLen h) 0); [lia|].
  destruct (Z.ltb_spec (msgLenFE h) 0); [lia|].
  destruct (Z.ltb_spec (randLen h) 0); [lia|].
  destruct (Z.ltb_spec (tweakLenFE h) 0); [lia|].
  destruct (Z.ltb_spec (posOutputLenFE h) 0); [lia|].
  destruct (invocations_total h
              (base_p_digits (Z.to_nat (parameterLen h)) (le_value params))
              (base_p_digits (Z.to_nat (tweakLenFE h))
                 (u64 (Z.lor (u64 (Z.shiftl (u64 epoch) 8)) 2)))
              (base_p_digits (Z.to_nat (randLen h)) (le_value rand))
              (base_p_digits (Z.to_nat (msgLenFE h)) (le_value msg))
              (Z.to_nat (posInvocations h)) 0 [] ltac:(lia))
    as (outputs & Hi & Hl).
  exists outputs; split; [exact Hi|].
  rewrite Hl; change (len (@nil Z)) with 0; lia.
Qed.

(** C9. For a valid configuration and every input, [Hash] returns the
    vertex the specification's mapping assigns to the field elements of its
    Poseidon invocations: with [A] their accumulation in base [p] (first
    element most significant), the vertex is
    [MapToVertex(w, v, d, offset)] for
    [(d, offset) = HypercubeFindLayer(w, v, A mod HypercubePartSize(w, v,
    final_layer))]; it has [v] coordinates in [0, w-1] and lies in a layer
    [d <= final_layer]. *)
Theorem Hash_is_hypercube_mapping (h : TopLevelPoseidonMessageHash)
    (params : Th.Params) (msg rand : list Z) (epoch : Z)
    (Hvalid : valid_config h) :
  exists outputs part d offset vertex,
    poseidon_outputs permutation24 h params msg rand epoch = Some outputs
    /\ HypercubePartSize (base h) (dimension h) (finalLayer h) = Some part
    /\ HypercubeFindLayer (base h) (dimension h)
         (spec_accumulate outputs mod part) = Some (d, offset)
    /\ MapToVertex (base h) (dimension h) d offset = Some vertex
    /\ Hash permutation24 h params msg rand epoch = Some vertex
    /\ spec_vertex (base h) (dimension h) (finalLayer h) outputs = Some vertex
    /\ len outputs = Z.max 0 (posInvocations h) * posOutputLenPerInvFE h
    /\ len vertex = dimension h
    /\ Forall (fun ai => 0 <= ai <= base h - 1) vertex
    /\ 0 <= d <= finalLayer h
    /\ fold_left Z.add vertex 0 = (base h - 1) * dimension h - d.
Proof.
  destruct (poseidon_outputs_total h params msg rand epoch Hvalid)
    as (outputs & Hout & Houtlen).
  destruct Hvalid as (Hw & Hv & HD & _).
  destruct (table_total (base h) ltac:(lia)) as (tbl & Htbl & Hok).
  destruct (HypercubePartSize_spec _ _ _ _ Htbl Hok Hv HD) as [Hsize Hpos].
  set (part := zsum (sz tbl (dimension h)) 0 (finalLayer h)) in *.
  assert (Hmod : 0 <= spec_accumulate outputs mod part < part)
    by (apply Z.mod_pos_bound; lia).
  destruct (HypercubeFindLayer_spec _ _ _ _ _ Htbl Hok ltac:(lia) Hv HD Hmod)
    as (d & offset & Hfind & Hd & Hoff).
  destruct (MapToVertex_vertex (base h) (dimension h) d offset tbl Htbl Hok Hw
              Hv ltac:(nia) Hoff) as (vertex & Hmap & Hlen & Hvi).
  destruct (vertex_index_sum _ _ _ _ _ Hvi) as [Hall Hsum].
  assert (Hspec : spec_vertex (base h) (dimension h) (finalLayer h) outputs
                  = Some vertex).
  { unfold spec_vertex; rewrite Hsize; fold part; rewrite Hfind; exact Hmap. }
  exists outputs, part, d, offset, vertex.
  repeat (split; [first [assumption|lia]|]).
  split.
  { unfold Hash; rewrite Hout.
    rewrite (mapIntoHypercubePart_spec h outputs tbl Htbl Hok Hv HD).
    exact Hspec. }
  split; [exact Hspec|].
  split; [exact Houtlen|].
  split; [exact Hlen|].
  split; [exact Hall|].
  split; [lia|].
  rewrite Hlen in Hsum; exact Hsum.
Qed.

End WithPermutation.

Lemma toy_permutation_len state :
  len state = 24 -> len (Toy.toy_permutation state) = 24.
Proof.
  destruct state as [|s rest]; [discriminate|].
  unfold Toy.toy_permutation, len; rewrite length_map, length_app.
  cbn [length]; lia.
Qed.

Lemma toy_top_level_valid : valid_config Toy.toy_top_level.
Proof. unfold valid_config, MaxDimension; cbn; lia. Qed.

Lemma Hash_is_hypercube_mapping_witness :
  exists outputs vertex,
    poseidon_outputs Toy.toy_permutation Toy.toy_top_level [1; 2; 3] [4; 5; 6]
      [7; 8] 42 = Some outputs
    /\ Hash Toy.toy_permutation Toy.toy_top_level [1; 2; 3] [4; 5; 6] [7; 8] 42
       = Some vertex
    /\ spec_vertex 4 8 10 outputs = Some vertex.
Proof.
  destruct (Hash_is_hypercube_mapping Toy.toy_permutation toy_permutation_len
              Toy.toy_top_level [1; 2; 3] [4; 5; 6] [7; 8] 42
              toy_top_level_valid)
    as (outputs & part & d & offset & vertex & H1 & _ & _ & _ & H2 & H3 & _).
  exists outputs, vertex; auto.
Defined.

End TopLevelFacts.
(* ================================================================= *)
(** ** Digit strings *)

Module DigitsFacts.
Import Digits.

Lemma digits_len b n : forall x, len (digits_le b n x) = Z.of_nat n.
Proof.
  induction n as [|n IH]; intros x; [reflexivity|].
  cbn [digits_le]; rewrite len_cons, IH; lia.
Qed.

Lemma digits_range b n : forall x,
  0 < b -> Forall (fun d => 0 <= d < b) (digits_le b n x).
Proof.
  induction n as [|n IH]; intros x Hb; cbn [digits_le]; constructor; auto.
  apply Z.mod_pos_bound; lia.
Qed.

Lemma value_digits b n : forall x,
  0 < b -> value_le b (digits_le b n x) = x mod b ^ Z.of_nat n.
Proof.
  induction n as [|n IH]; intros x Hb.
  - cbn; rewrite Z.mod_1_r; reflexivity.
  - cbn [digits_le value_le]; rewrite IH by lia.
    rewrite Nat2Z.inj_succ, Z.pow_succ_r by lia.
    rewrite Z.rem_mul_r by (try apply Z.pow_pos_nonneg; lia).
    reflexivity.
Qed.

Lemma value_app b xs : forall ys,
  value_le b (xs ++ ys) = value_le b xs + b ^ len xs * value_le b ys.
Proof.
  induction xs as [|x xs IH]; intros ys.
  - cbn [app value_le]; change (len (@nil Z)) with 0; lia.
  - cbn [app value_le]; rewrite IH, len_cons.
    replace (1 + len xs) with (Z.succ (len xs)) by lia.
    rewrite Z.pow_succ_r by apply len_nonneg; ring.
Qed.

Lemma value_bound b ds :
  0 < b -> Forall (fun d => 0 <= d < b) ds ->
  0 <= value_le b ds < b ^ len ds.
Proof.
  intros Hb H; induction H as [|d ds Hd _ IH].
  - cbn; lia.
  - cbn [value_le]; rewrite len_cons.
    replace (1 + len ds) with (Z.succ (len ds)) by lia.
    rewrite Z.pow_succ_r by apply len_nonneg; nia.
Qed.

(** Splitting a value into its low [a] digits and the rest. *)
Lemma digits_split b a : forall n x R,
  0 < b -> 0 <= x < b ^ Z.of_nat a ->
  digits_le b (a + n) (x + b ^ Z.of_nat a * R)
  = digits_le b a x ++ digits_le b n R.
Proof.
  induction a as [|a IH]; intros n x R Hb Hx.
  - cbn [Nat.add digits_le app]; change (b ^ Z.of_nat 0) with 1 in *.
    f_equal; lia.
  - rewrite Nat2Z.inj_succ, Z.pow_succ_r in * by lia.
    cbn [Nat.add digits_le app].
    assert (Hp : 0 < b ^ Z.of_nat a) by (apply Z.pow_pos_nonneg; lia).
    replace (x + b * b ^ Z.of_nat a * R) with (x + (b ^ Z.of_nat a * R) * b) by ring.
    rewrite Z.mod_add, Z.div_add by lia.
    f_equal; apply IH; [lia|].
    split; [apply Z.div_pos; lia|].
    apply Z.div_lt_upper_bound; lia.
Qed.

Lemma digits_value b ds :
  0 < b -> Forall (fun d => 0 <= d < b) ds ->
  digits_le b (length ds) (value_le b ds) = ds.
Proof.
  intros Hb H; induction H as [|d ds Hd _ IH]; [reflexivity|].
  cbn [length digits_le value_le].
  replace (d + b * value_le b ds) with (d + value_le b ds * b) by ring.
  rewrite Z.mod_add, Z.div_add by lia.
  rewrite Z.mod_small, Z.div_small by lia.
  cbn [Z.add]; rewrite IH; reflexivity.
Qed.

(** A digit string of a given length is determined by its value. *)
Lemma value_inj b xs ys :
  0 < b -> length xs = length ys ->
  Forall (fun d => 0 <= d < b) xs -> Forall (fun d => 0 <= d < b) ys ->
  value_le b xs = value_le b ys -> xs = ys.
Proof.
  intros Hb Hl Hx Hy E.
  rewrite <- (digits_value b xs), <- (digits_value b ys) by assumption.
  rewrite Hl, E; reflexivity.
Qed.

Lemma digits_firstn b n : forall k x,
  firstn k (digits_le b n x) = digits_le b (Nat.min k n) x.
Proof.
  induction n as [|n IH]; intros k x.
  - rewrite Nat.min_0_r; cbn [digits_le]; apply firstn_nil.
  - destruct k as [|k]; [reflexivity|].
    cbn [digits_le firstn Nat.min]; rewrite IH; reflexivity.
Qed.

Lemma digits_small b n : forall x,
  0 < b -> 0 <= x < b ^ Z.of_nat n -> value_le b (digits_le b n x) = x.
Proof.
  intros x Hb Hx; rewrite value_digits by lia.
  apply Z.mod_small; assumption.
Qed.

(** Pointwise smaller digits give a smaller value; equal values then force
    equal strings. *)
Lemma pointwise_value b xs ys :
  0 <= b -> pointwise_le xs ys -> value_le b xs <= value_le b ys.
Proof.
  intros Hb H; induction H as [|x y xs ys Hxy _ IH]; cbn [value_le]; [lia|nia].
Qed.

Lemma pointwise_sum xs ys :
  pointwise_le xs ys -> fold_left Z.add xs 0 <= fold_left Z.add ys 0.
Proof.
  intros H.
  enough (G : forall a c, a <= c ->
            fold_left Z.add xs a <= fold_left Z.add ys c) by (apply G; lia).
  induction H as [|x y xs ys Hxy _ IH]; intros a c Hac; cbn [fold_left]; [lia|].
  apply IH; lia.
Qed.

Lemma pointwise_sum_eq xs ys :
  pointwise_le xs ys -> fold_left Z.add xs 0 = fold_left Z.add ys 0 -> xs = ys.
Proof.
  intros H.
  enough (G : forall a c, a <= c ->
            fold_left Z.add xs a = fold_left Z.add ys c -> a = c /\ xs = ys)
    by (intros E; apply (G 0 0); [lia|assumption]).
  induction H as [|x y xs ys Hxy Hrest IH]; intros a c Hac E; cbn [fold_left] in E.
  - auto.
  - destruct (IH (a + x) (c + y) ltac:(lia) E) as [E1 ->].
    split; [lia|f_equal; lia].
Qed.

Lemma le_value_is_value data : TopLevelPoseidon.le_value data = value_le 256 data.
Proof.
  unfold TopLevelPoseidon.le_value.
  induction data as [|d data IH]; [reflexivity|].
  cbn [fold_right value_le]; rewrite IH; reflexivity.
Qed.

Lemma base_p_is_digits n : forall acc,
  TopLevelPoseidon.base_p_digits n acc = digits_le TopLevelPoseidon.p n acc.
Proof.
  induction n as [|n IH]; intros acc; [reflexivity|].
  cbn [TopLevelPoseidon.base_p_digits digits_le]; rewrite IH; reflexivity.
Qed.

End DigitsFacts.
(* ================================================================= *)
(** ** Package [bitutil]: chunks are digits of the little-endian value *)

Module ChunksFacts.
Import Digits DigitsFacts Chunks.

Lemma digits_idx b n : forall x i,
  0 < b -> 0 <= i < Z.of_nat n ->
  idx (digits_le b n x) i = Some ((x / b ^ i) mod b).
Proof.
  induction n as [|n IH]; intros x i Hb Hi; [lia|].
  cbn [digits_le].
  destruct (Z.eq_dec i 0) as [->|Hne].
  - rewrite idx_cons_0, Z.pow_0_r, Z.div_1_r; reflexivity.
  - rewrite idx_cons_pos by lia.
    rewrite IH by lia.
    replace i with (Z.succ (i - 1)) at 2 by lia.
    rewrite Z.pow_succ_r by lia.
    rewrite Z.div_div by (try apply Z.pow_pos_nonneg; lia).
    reflexivity.
Qed.

Lemma value_idx b ds i d :
  0 < b -> Forall (fun d => 0 <= d < b) ds -> idx ds i = Some d ->
  d = (value_le b ds / b ^ i) mod b.
Proof.
  intros Hb Hds Hi.
  pose proof (idx_Some_range _ _ _ Hi) as Hr.
  rewrite <- (digits_value b ds Hb Hds) in Hi.
  rewrite digits_idx in Hi by (unfold len in Hr; lia).
  congruence.
Qed.

Lemma value_firstn b ds k :
  0 < b -> Forall (fun d => 0 <= d < b) ds -> (k <= length ds)%nat ->
  value_le b (firstn k ds) = value_le b ds mod b ^ Z.of_nat k.
Proof.
  intros Hb Hds Hk.
  rewrite <- (firstn_skipn k ds) at 2.
  rewrite value_app.
  assert (Hl : len (firstn k ds) = Z.of_nat k)
    by (unfold len; rewrite firstn_length_le; lia).
  rewrite Hl.
  replace (value_le b (firstn k ds)
           + b ^ Z.of_nat k * value_le b (skipn k ds))
    with (value_le b (firstn k ds)
          + value_le b (skipn k ds) * b ^ Z.of_nat k) by ring.
  rewrite Z.mod_add by (apply Z.pow_nonzero; lia).
  symmetry; apply Z.mod_small.
  rewrite <- Hl; apply value_bound; [lia|].
  rewrite <- (firstn_skipn k ds) in Hds; apply Forall_app in Hds; tauto.
Qed.

(** *** [BytesToChunks] *)

Lemma some_eq {A} (x y : A) : Some x = Some y -> x = y.
Proof. congruence. Qed.

Lemma flat_digits (f : Z -> list Z) (B : Z) (c : nat) :
  0 < B -> B ^ Z.of_nat c = 256 ->
  (forall b, is_u8 b -> f b = digits_le B c b) ->
  forall bytes, Forall is_u8 bytes ->
  flat_map f bytes = digits_le B (length bytes * c) (value_le 256 bytes).
Proof.
  intros HB Hc Hf bytes H; induction H as [|b bytes Hb _ IH]; [reflexivity|].
  cbn [flat_map length Nat.mul value_le].
  replace (b + 256 * value_le 256 bytes)
    with (b + B ^ Z.of_nat c * value_le 256 bytes) by (rewrite Hc; reflexivity).
  rewrite digits_split by (rewrite ?Hc; auto).
  rewrite Hf, IH by assumption; reflexivity.
Qed.

Lemma byte_chunks w :
  byte_chunks_are_digits w = true ->
  forall b, is_u8 b ->
  Bitutil.BytesToChunks [b] w
  = Some (digits_le (2 ^ w) (Z.to_nat (8 / w)) b).
Proof.
  unfold byte_chunks_are_digits; rewrite forallb_forall; intros H b Hb.
  specialize (H b).
  assert (Hin : In b (zrange 256)).
  { unfold zrange; apply in_map_iff; exists (Z.to_nat b); split; [unfold is_u8 in Hb; lia|].
    apply in_seq; unfold is_u8 in Hb; lia. }
  specialize (H Hin).
  destruct (Bitutil.BytesToChunks [b] w) as [cs|]; [|discriminate].
  destruct (list_eq_dec Z.eq_dec cs _) as [->|]; [reflexivity|discriminate].
Qed.

Lemma BytesToChunks_digits bytes w :
  In w [1; 2; 4; 8] -> Forall is_u8 bytes ->
  Bitutil.BytesToChunks bytes w
  = Some (digits_le (2 ^ w) (length bytes * Z.to_nat (8 / w))
            (value_le 256 bytes)).
Proof.
  intros Hw Hbytes.
  assert (Hchk : byte_chunks_are_digits w = true)
    by (cbn [In] in Hw; destruct Hw as [<-|[<-|[<-|[<-|[]]]]]; vm_compute; reflexivity).
  pose proof (byte_chunks w Hchk) as Hb.
  cbn [In] in Hw; destruct Hw as [<-|[<-|[<-|[<-|[]]]]].
  - unfold Bitutil.BytesToChunks in *; cbn [Z.eqb Pos.eqb orb negb] in *.
    f_equal; apply (flat_digits _ (2 ^ 1) 8); [lia|reflexivity| |assumption].
    intros b Hu; specialize (Hb b Hu); cbn [flat_map] in Hb.
    rewrite app_nil_r in Hb; exact (some_eq _ _ Hb).
  - unfold Bitutil.BytesToChunks in *; cbn [Z.eqb Pos.eqb orb negb] in *.
    f_equal; apply (flat_digits _ (2 ^ 2) 4); [lia|reflexivity| |assumption].
    intros b Hu; specialize (Hb b Hu); cbn [flat_map] in Hb.
    rewrite app_nil_r in Hb; exact (some_eq _ _ Hb).
  - unfold Bitutil.BytesToChunks in *; cbn [Z.eqb Pos.eqb orb negb] in *.
    f_equal; apply (flat_digits _ (2 ^ 4) 2); [lia|reflexivity| |assumption].
    intros b Hu; specialize (Hb b Hu); cbn [flat_map] in Hb.
    rewrite app_nil_r in Hb; exact (some_eq _ _ Hb).
  - unfold Bitutil.BytesToChunks; cbn [Z.eqb Pos.eqb orb negb].
    change (Z.to_nat (8 / 8)) with 1%nat; rewrite Nat.mul_1_r.
    change (2 ^ 8) with 256.
    rewrite digits_value; [reflexivity|lia|exact Hbytes].
Qed.

(** *** [TruncateBits] *)

Lemma store_full (p got : list Z) :
  length got = length p -> IO.store p got = got.
Proof.
  unfold IO.store; intros E.
  rewrite <- E, firstn_all, E, skipn_all, app_nil_r; reflexivity.
Qed.

Lemma make_bytes_len n r : IO.make_bytes n = Some r -> length r = Z.to_nat n /\ 0 <= n.
Proof.
  unfold IO.make_bytes; destruct (Z.ltb_spec n 0); [discriminate|].
  intros E; injection E as <-; rewrite repeat_length; split; [reflexivity|lia].
Qed.

(** The general shape of the result: the first [k] bytes, the last of them
    reduced modulo [2^r] when [r = numBits mod 8] is not zero. *)
Lemma TruncateBits_shape data numBits :
  Forall is_u8 data -> 0 < numBits -> numBits + 7 < 2 ^ 63 ->
  let k := Z.min ((numBits + 7) / 8) (len data) in
  let r := numBits mod 8 in
  exists res,
    TruncateBits data numBits = Some res
    /\ len res = k /\ Forall is_u8 res
    /\ value_le 256 res
       = if (0 <? r) && (0 <? k)
         then value_le 256 data mod 2 ^ (8 * (k - 1) + r)
         else value_le 256 data mod 2 ^ (8 * k).
Proof.
  intros Hdata Hn Hmax k r.
  pose proof (len_nonneg data) as Hlen.
  assert (Hk0 : 0 <= k) by (subst k; apply Z.min_glb; [apply Z.div_pos|]; lia).
  assert (Hkl : k <= len data) by (subst k; lia).
  unfold TruncateBits.
  destruct (Z.leb_spec numBits 0); [lia|].
  rewrite i64_id by (unfold is_int; lia).
  rewrite Z.quot_div_nonneg, Z.rem_mod_nonneg by lia.
  assert (Ek : (if (numBits + 7) / 8 >? len data then len data
                else (numBits + 7) / 8) = k).
  { subst k; destruct (Z.gtb_spec ((numBits + 7) / 8) (len data)); lia. }
  rewrite Ek; fold r.
  unfold IO.make_bytes; destruct (Z.ltb_spec k 0); [lia|].
  unfold Winternitz.slice_to.
  destruct (Z.ltb_spec k 0); [lia|]; destruct (Z.ltb_spec (len data) k); [lia|].
  cbn [orb].
  assert (Hfl : length (firstn (Z.to_nat k) data) = Z.to_nat k)
    by (apply firstn_length_le; unfold len in Hkl; lia).
  rewrite store_full by (rewrite repeat_length; exact Hfl).
  assert (Hfu : Forall is_u8 (firstn (Z.to_nat k) data)).
  { rewrite <- (firstn_skipn (Z.to_nat k) data) in Hdata.
    apply Forall_app in Hdata; tauto. }
  assert (Hfv : value_le 256 (firstn (Z.to_nat k) data)
                = value_le 256 data mod 2 ^ (8 * k)).
  { rewrite value_firstn by (try exact Hdata; unfold len in Hkl; lia).
    rewrite Z2Nat.id by lia.
    change 256 with (2 ^ 8) at 2; rewrite <- Z.pow_mul_r by lia; reflexivity. }
  assert (Hr : 0 <= r < 8) by (subst r; apply Z.mod_pos_bound; lia).
  destruct (Z.gtb_spec r 0) as [Hrp|Hr0];
    destruct (Z.gtb_spec k 0) as [Hkp|Hk1]; cbn [andb].
  2,3,4: exists (firstn (Z.to_nat k) data); split; [reflexivity|];
         split; [unfold len; lia|]; split; [exact Hfu|];
         destruct (Z.ltb_spec 0 r); destruct (Z.ltb_spec 0 k); try lia;
         cbn [andb]; exact Hfv.
  destruct (idx_in_range (firstn (Z.to_nat k) data) (k - 1)
              ltac:(unfold len; lia)) as [b Hb].
  rewrite Hb; unfold set_idx.
  destruct (Z.ltb_spec (k - 1) 0); [lia|].
  destruct (Z.leb_spec (len (firstn (Z.to_nat k) data)) (k - 1));
    [unfold len in *; lia|].
  cbn [orb].
  replace (k - 1 + 1) with k by lia.
  rewrite (skipn_all2 (n := Z.to_nat k)) by lia.
  rewrite firstn_firstn, Nat.min_l by lia.
  assert (Hmask : u8 (i64 (Z.shiftl 1 r) - 1) = Z.ones r).
  { rewrite Z.shiftl_1_l, Z.ones_equiv.
    assert (2 ^ r <= 2 ^ 7) by (apply Z.pow_le_mono_r; lia).
    assert (0 < 2 ^ r) by (apply Z.pow_pos_nonneg; lia).
    rewrite i64_id by (unfold is_int; lia).
    apply u8_id; unfold is_u8; lia. }
  rewrite Hmask, Z.land_ones by lia.
  assert (Hbu : is_u8 b).
  { rewrite Forall_forall in Hfu; apply Hfu.
    unfold idx in Hb; destruct (k - 1 <? 0); [discriminate|].
    eapply nth_error_In; exact Hb. }
  assert (Hbv : b = (value_le 256 data / 256 ^ (k - 1)) mod 256).
  { apply (value_idx 256 data (k - 1) b); [lia|exact Hdata|].
    rewrite <- (firstn_skipn (Z.to_nat k) data).
    rewrite idx_app_l by (unfold len; lia); exact Hb. }
  assert (Hpr : 0 < 2 ^ r) by (apply Z.pow_pos_nonneg; lia).
  assert (Hprb : 2 ^ r <= 2 ^ 7) by (apply Z.pow_le_mono_r; lia).
  eexists; split; [reflexivity|].
  split; [|split].
  - unfold len; rewrite length_app, firstn_length_le by (unfold len in Hkl; lia).
    cbn [length]; lia.
  - apply Forall_app; split.
    + rewrite <- (firstn_skipn (Z.to_nat (k - 1)) data) in Hdata.
      apply Forall_app in Hdata; tauto.
    + constructor; [|constructor].
      pose proof (Z.mod_pos_bound b (2 ^ r) Hpr); unfold is_u8;
        change (2 ^ 7) with 128 in Hprb; lia.
  - destruct (Z.ltb_spec 0 r); [|lia]; destruct (Z.ltb_spec 0 k); [|lia].
    cbn [andb].
    rewrite value_app; cbn [value_le].
    rewrite value_firstn by (try exact Hdata; unfold len in Hkl; lia).
    assert (Hlf : len (firstn (Z.to_nat (k - 1)) data) = k - 1)
      by (unfold len; rewrite firstn_length_le by (unfold len in Hkl; lia); lia).
    rewrite Hlf, Z2Nat.id by lia.
    rewrite Z.pow_add_r by lia.
    change 256 with (2 ^ 8) at 1 2 3; rewrite <- !Z.pow_mul_r by lia.
    assert (Hp8 : 0 < 2 ^ (8 * (k - 1))) by (apply Z.pow_pos_nonneg; lia).
    rewrite (Z.rem_mul_r _ (2 ^ (8 * (k - 1))) (2 ^ r)) by lia.
    f_equal; f_equal.
    rewrite Z.mul_0_r, Z.add_0_r.
    assert (E256 : 256 ^ (k - 1) = 2 ^ (8 * (k - 1)))
      by (change 256 with (2 ^ 8); rewrite <- Z.pow_mul_r by lia; reflexivity).
    rewrite Hbv, E256.
    apply Z.mod_mod_divide.
    exists (2 ^ (8 - r)); rewrite <- Z.pow_add_r by lia.
    replace (8 - r + r) with 8 by lia; reflexivity.
Qed.

(** *** [ExtractWBitChunks] *)

Lemma bit_of_byte Y r :
  0 <= r < 8 -> ((Y mod 256) / 2 ^ r) mod 2 = (Y / 2 ^ r) mod 2.
Proof.
  intros Hr.
  rewrite <- !Z.testbit_spec' by lia.
  change 256 with (2 ^ 8); rewrite Z.mod_pow2_bits_low by lia; reflexivity.
Qed.

Lemma lor_bit chunk bit j :
  0 <= j -> 0 <= chunk < 2 ^ j -> 0 <= bit <= 1 ->
  Z.lor chunk (bit * 2 ^ j) = chunk + 2 ^ j * bit.
Proof.
  intros Hj Hc Hb.
  assert (bit = 0 \/ bit = 1) as [->| ->] by lia.
  - rewrite Z.mul_0_l, Z.mul_0_r, Z.lor_0_r; lia.
  - rewrite Z.mul_1_l, Z.mul_1_r.
    rewrite <- Z.lxor_lor, <- Z.add_nocarry_lxor; try reflexivity.
    all: apply Z.bits_inj'; intros k Hk;
      rewrite Z.land_spec, Z.bits_0, Z.pow2_bits_eqb by lia;
      destruct (Z.eqb_spec j k) as [<-|]; [|apply andb_false_r];
      rewrite andb_true_r;
      destruct (Z.eq_dec chunk 0) as [->|]; [apply Z.bits_0|];
      apply Z.bits_above_log2; [lia|]; apply Z.log2_lt_pow2; lia.
Qed.

Lemma chunk_bits_spec data n : forall j bitPos chunk,
  Forall is_u8 data -> 0 <= j -> j + Z.of_nat n <= 32 -> j <= bitPos ->
  bitPos + Z.of_nat n <= 8 * len data ->
  chunk = (value_le 256 data / 2 ^ (bitPos - j)) mod 2 ^ j ->
  chunk_bits data n j bitPos chunk
  = Some ((value_le 256 data / 2 ^ (bitPos - j)) mod 2 ^ (j + Z.of_nat n),
          bitPos + Z.of_nat n).
Proof.
  induction n as [|n IH]; intros j bitPos chunk Hdata Hj Hjn Hjb Hbn Hc.
  - cbn [chunk_bits]; rewrite !Z.add_0_r; congruence.
  - cbn [chunk_bits].
    rewrite Z.quot_div_nonneg, Z.rem_mod_nonneg by lia.
    set (V := value_le 256 data) in *.
    set (q := bitPos / 8); set (r := bitPos mod 8).
    assert (Hr : 0 <= r < 8) by (subst r; apply Z.mod_pos_bound; lia).
    assert (Hq : bitPos = 8 * q + r) by (subst q r; apply Z.div_mod; lia).
    assert (Hq0 : 0 <= q) by (subst q; apply Z.div_pos; lia).
    destruct (Z.ltb_spec q (len data)); [|lia].
    destruct (idx_in_range data q ltac:(lia)) as [b Hb]; rewrite Hb.
    assert (Hbu : is_u8 b).
    { rewrite Forall_forall in Hdata; apply Hdata.
      unfold idx in Hb; destruct (q <? 0); [discriminate|].
      eapply nth_error_In; exact Hb. }
    pose proof (value_idx 256 data q b ltac:(lia) Hdata Hb) as Hbv; fold V in Hbv.
    assert (Hpr : 0 < 2 ^ r) by (apply Z.pow_pos_nonneg; lia).
    assert (Hsh : is_u8 (Z.shiftr b r)).
    { rewrite Z.shiftr_div_pow2 by lia; unfold is_u8 in *; split.
      - apply Z.div_pos; lia.
      - apply Z.div_lt_upper_bound; nia. }
    rewrite (u8_id _ Hsh), land_1, Z.shiftr_div_pow2 by lia.
    assert (Hbit : (b / 2 ^ r) mod 2 = (V / 2 ^ bitPos) mod 2).
    { rewrite Hbv, bit_of_byte by lia.
      rewrite Z.div_div by (try apply Z.pow_pos_nonneg; lia).
      change 256 with (2 ^ 8); rewrite <- Z.pow_mul_r, <- Z.pow_add_r by lia.
      rewrite <- Hq; reflexivity. }
    rewrite Hbit.
    set (bit := (V / 2 ^ bitPos) mod 2).
    assert (Hb01 : 0 <= bit <= 1)
      by (pose proof (Z.mod_pos_bound (V / 2 ^ bitPos) 2 ltac:(lia)); subst bit; lia).
    assert (Hpj : 0 < 2 ^ j) by (apply Z.pow_pos_nonneg; lia).
    assert (Hpj32 : 2 ^ j <= 2 ^ 31) by (apply Z.pow_le_mono_r; lia).
    rewrite Z.shiftl_mul_pow2 by lia.
    rewrite u32_id by (unfold is_u32; nia).
    assert (Hcr : 0 <= chunk < 2 ^ j)
      by (rewrite Hc; apply Z.mod_pos_bound; lia).
    rewrite lor_bit by lia.
    rewrite IH; try assumption; try lia.
    + replace (bitPos + 1 - (j + 1)) with (bitPos - j) by lia.
      replace (j + 1 + Z.of_nat n) with (j + Z.of_nat (S n)) by lia.
      replace (bitPos + 1 + Z.of_nat n) with (bitPos + Z.of_nat (S n)) by lia.
      reflexivity.
    + replace (bitPos + 1 - (j + 1)) with (bitPos - j) by lia.
      set (X := V / 2 ^ (bitPos - j)) in *.
      rewrite Z.pow_add_r, (Z.rem_mul_r X (2 ^ j) (2 ^ 1)) by lia.
      rewrite Hc; f_equal; f_equal.
      subst bit X.
      rewrite Z.div_div by (try apply Z.pow_pos_nonneg; lia).
      rewrite <- Z.pow_add_r by lia.
      replace (bitPos - j + j) with bitPos by lia; reflexivity.
Qed.

Lemma chunks_loop_spec data w n : forall bitPos,
  Forall is_u8 data -> 1 <= w <= 32 -> 0 <= bitPos ->
  bitPos + w * Z.of_nat n <= 8 * len data ->
  chunks_loop data w n bitPos
  = Some (digits_le (2 ^ w) n (value_le 256 data / 2 ^ bitPos)).
Proof.
  induction n as [|n IH]; intros bitPos Hdata Hw Hb Hn; [reflexivity|].
  cbn [chunks_loop digits_le].
  rewrite (chunk_bits_spec data (Z.to_nat w) 0 bitPos 0); try assumption; try lia.
  - rewrite IH by (try assumption; lia).
    rewrite Z.sub_0_r, Z.add_0_l, Z2Nat.id by lia.
    rewrite Z.div_div
      by (try apply Z.pow_nonzero; try apply Z.pow_pos_nonneg; lia).
    rewrite <- Z.pow_add_r by lia; reflexivity.
  - rewrite Z.pow_0_r, Z.mod_1_r; reflexivity.
Qed.

Lemma ExtractWBitChunks_spec data w numChunks :
  Forall is_u8 data -> 1 <= w <= 32 -> 0 <= numChunks ->
  w * numChunks <= 8 * len data -> 8 * len data < 2 ^ 63 ->
  ExtractWBitChunks data w numChunks
  = Some (inr (digits_le (2 ^ w) (Z.to_nat numChunks) (value_le 256 data))).
Proof.
  intros Hdata Hw Hn Hfit Hmax.
  pose proof (len_nonneg data).
  unfold ExtractWBitChunks.
  destruct (Z.leb_spec w 0); [lia|]; destruct (Z.gtb_spec w 32); [lia|].
  cbn [orb].
  rewrite !i64_id by (unfold is_int; nia).
  destruct (Z.ltb_spec (len data * 8) (w * numChunks)); [lia|].
  destruct (Z.ltb_spec numChunks 0); [lia|].
  rewrite chunks_loop_spec by (try assumption; lia).
  rewrite Z.pow_0_r, Z.div_1_r; reflexivity.
Qed.

(** *** The properties of the package *)

(** X1: the chunks [BytesToChunks] returns are the base-[2^chunkSize] digits
    of the byte string read as a little-endian integer, least significant
    first, [8 / chunkSize] per byte; so the byte string can be recovered
    from them (TestBytesToChunksReversible). *)
Theorem BytesToChunks_reversible (bytes : list Z) (chunkSize : Z)
    (chunks : list Z)
    (Hbytes : Forall is_u8 bytes)
    (Hchunks : Bitutil.BytesToChunks bytes chunkSize = Some chunks) :
  len chunks = len bytes * (8 / chunkSize)
  /\ Forall (fun c => 0 <= c < 2 ^ chunkSize) chunks
  /\ chunks = digits_le (2 ^ chunkSize) (length chunks)
                (TopLevelPoseidon.le_value bytes)
  /\ value_le (2 ^ chunkSize) chunks = TopLevelPoseidon.le_value bytes.
Proof.
  assert (Hw : In chunkSize [1; 2; 4; 8]).
  { unfold Bitutil.BytesToChunks in Hchunks; cbn [In].
    destruct (Z.eqb_spec chunkSize 1); [auto|].
    destruct (Z.eqb_spec chunkSize 2); [auto|].
    destruct (Z.eqb_spec chunkSize 4); [auto|].
    destruct (Z.eqb_spec chunkSize 8); [auto 6|discriminate]. }
  rewrite BytesToChunks_digits in Hchunks by assumption.
  injection Hchunks as <-.
  rewrite le_value_is_value.
  assert (Hpos : 0 < 2 ^ chunkSize)
    by (cbn [In] in Hw; destruct Hw as [<-|[<-|[<-|[<-|[]]]]]; reflexivity).
  assert (Hn : Z.of_nat (length bytes * Z.to_nat (8 / chunkSize))
               = len bytes * (8 / chunkSize)).
  { rewrite Nat2Z.inj_mul, Z2Nat.id; [reflexivity|].
    cbn [In] in Hw; destruct Hw as [<-|[<-|[<-|[<-|[]]]]]; discriminate. }
  assert (Hlen : length (digits_le (2 ^ chunkSize)
                           (length bytes * Z.to_nat (8 / chunkSize))
                           (value_le 256 bytes))
                 = (length bytes * Z.to_nat (8 / chunkSize))%nat).
  { apply Nat2Z.inj; apply digits_len. }
  split; [rewrite digits_len; exact Hn|].
  split; [apply digits_range; exact Hpos|].
  split; [rewrite Hlen; reflexivity|].
  rewrite value_digits by exact Hpos.
  apply Z.mod_small.
  rewrite Hn.
  pose proof (value_bound 256 bytes ltac:(lia) Hbytes) as Hb.
  replace ((2 ^ chunkSize) ^ (len bytes * (8 / chunkSize))) with (256 ^ len bytes);
    [exact Hb|].
  rewrite (Z.mul_comm (len bytes)), Z.pow_mul_r
    by (try apply len_nonneg;
        cbn [In] in Hw; destruct Hw as [<-|[<-|[<-|[<-|[]]]]]; discriminate).
  f_equal.
  cbn [In] in Hw; destruct Hw as [<-|[<-|[<-|[<-|[]]]]]; reflexivity.
Qed.

Lemma BytesToChunks_reversible_witness :
  len [0; 3; 2; 1; 2; 1; 2; 2] = len [0x6C; 0xA6] * (8 / 2)
  /\ Forall (fun c => 0 <= c < 2 ^ 2) [0; 3; 2; 1; 2; 1; 2; 2]
  /\ [0; 3; 2; 1; 2; 1; 2; 2]
     = digits_le (2 ^ 2) (length [0; 3; 2; 1; 2; 1; 2; 2])
         (TopLevelPoseidon.le_value [0x6C; 0xA6])
  /\ value_le (2 ^ 2) [0; 3; 2; 1; 2; 1; 2; 2]
     = TopLevelPoseidon.le_value [0x6C; 0xA6].
Proof.
  apply (BytesToChunks_reversible [0x6C; 0xA6] 2).
  - repeat (constructor; [unfold is_u8; lia|]); constructor.
  - reflexivity.
Defined.

Lemma TruncateBits_in_range (data : list Z) (numBits : Z)
    (Hdata : Forall is_u8 data)
    (Hrange : 0 <= numBits <= 8 * len data)
    (Hmax : numBits + 7 < 2 ^ 63) :
  exists res,
    TruncateBits data numBits = Some res
    /\ len res = (numBits + 7) / 8
    /\ Forall is_u8 res
    /\ value_le 256 res = value_le 256 data mod 2 ^ numBits.
Proof.
  destruct (Z.eq_dec numBits 0) as [->|Hne].
  - exists []; cbn; rewrite Z.mod_1_r; auto.
  - destruct (TruncateBits_shape data numBits Hdata ltac:(lia) Hmax)
      as (res & E & Hl & Hu & Hv).
    exists res.
    pose proof (Z.div_mod numBits 8 ltac:(lia)) as Hdm.
    pose proof (Z.mod_pos_bound numBits 8 ltac:(lia)) as Hr.
    assert (Hk : Z.min ((numBits + 7) / 8) (len data) = (numBits + 7) / 8).
    { assert ((numBits + 7) / 8 < len data + 1)
        by (apply Z.div_lt_upper_bound; lia).
      lia. }
    rewrite Hk in *.
    split; [exact E|]; split; [exact Hl|]; split; [exact Hu|].
    rewrite Hv.
    destruct (Z.ltb_spec 0 (numBits mod 8)) as [Hrp|Hr0].
    + assert (Hq : (numBits + 7) / 8 = numBits / 8 + 1).
      { replace (numBits + 7) with ((numBits mod 8 + 7) + (numBits / 8) * 8) by lia.
        rewrite Z.div_add by lia.
        replace ((numBits mod 8 + 7) / 8) with 1; [lia|].
        apply Z.div_unique with (r := numBits mod 8 - 1); lia. }
      rewrite Hq.
      destruct (Z.ltb_spec 0 (numBits / 8 + 1));
        [|pose proof (Z.div_pos numBits 8); lia].
      cbn [andb]; f_equal; f_equal; lia.
    + cbn [andb].
      assert (Hq : (numBits + 7) / 8 = numBits / 8).
      { replace (numBits + 7) with (7 + (numBits / 8) * 8) by lia.
        rewrite Z.div_add by lia; reflexivity. }
      rewrite Hq; f_equal; f_equal; lia.
Qed.


(** X2: for a request of at most the bits there are, [TruncateBits] returns
    the first [ceil(numBits / 8)] bytes with the bits from position
    [numBits] on cleared: as little-endian integers, the result is the
    data modulo [2^numBits]. *)
Theorem TruncateBits_value (data : list Z) (numBits : Z)
    (Hdata : Forall is_u8 data)
    (Hrange : 0 <= numBits <= 8 * len data)
    (Hmax : numBits + 7 < 2 ^ 63) :
  exists res,
    TruncateBits data numBits = Some res
    /\ len res = (numBits + 7) / 8
    /\ Forall is_u8 res
    /\ TopLevelPoseidon.le_value res
       = TopLevelPoseidon.le_value data mod 2 ^ numBits.
Proof.
  destruct (TruncateBits_in_range data numBits Hdata Hrange Hmax)
    as (res & E & Hl & Hu & Hv).
  exists res; rewrite !le_value_is_value; auto.
Qed.

Lemma TruncateBits_value_witness :
  exists res,
    TruncateBits [0xFF; 0xFF] 12 = Some res
    /\ len res = (12 + 7) / 8
    /\ Forall is_u8 res
    /\ TopLevelPoseidon.le_value res
       = TopLevelPoseidon.le_value [0xFF; 0xFF] mod 2 ^ 12.
Proof.
  apply (TruncateBits_value [0xFF; 0xFF] 12).
  - repeat (constructor; [unfold is_u8; lia|]); constructor.
  - cbn; lia.
  - lia.
Defined.

Lemma TruncateBits_beyond (data : list Z) (numBits : Z)
    (Hdata : Forall is_u8 data)
    (Hne : 1 <= len data)
    (Hlong : 8 * len data < numBits)
    (Hmax : numBits + 7 < 2 ^ 63) :
  exists res,
    TruncateBits data numBits = Some res
    /\ len res = len data
    /\ (numBits mod 8 = 0 -> res = data)
    /\ (numBits mod 8 <> 0 ->
        value_le 256 res
        = value_le 256 data mod 2 ^ (8 * (len data - 1) + numBits mod 8)).
Proof.
  destruct (TruncateBits_shape data numBits Hdata ltac:(lia) Hmax)
    as (res & E & Hl & Hu & Hv).
  pose proof (Z.mod_pos_bound numBits 8 ltac:(lia)) as Hr.
  assert (Hk : Z.min ((numBits + 7) / 8) (len data) = len data).
  { apply Z.min_r; apply Z.div_le_lower_bound; lia. }
  rewrite Hk in *.
  exists res; split; [exact E|]; split; [exact Hl|]; split.
  - intros Hr0; rewrite Hr0 in Hv; cbn [Z.ltb Z.compare andb] in Hv.
    apply (value_inj 256); try assumption; [lia|unfold len in Hl; lia|].
    rewrite Hv; apply Z.mod_small.
    replace (2 ^ (8 * len data)) with (256 ^ len data)
      by (change 256 with (2 ^ 8); rewrite <- Z.pow_mul_r by lia; reflexivity).
    apply value_bound; [lia|assumption].
  - intros Hr0; rewrite Hv.
    destruct (Z.ltb_spec 0 (numBits mod 8)); [|lia].
    destruct (Z.ltb_spec 0 (len data)); [|lia].
    reflexivity.
Qed.


(** X3: a request for more bits than the data holds still masks: the
    result has all the bytes of the data, unchanged when [numBits] is a
    multiple of 8; otherwise the last byte keeps only its low
    [numBits mod 8] bits, although every bit of the data was asked for. *)
Theorem TruncateBits_beyond_data (data : list Z) (numBits : Z)
    (Hdata : Forall is_u8 data)
    (Hne : 1 <= len data)
    (Hlong : 8 * len data < numBits)
    (Hmax : numBits + 7 < 2 ^ 63) :
  exists res,
    TruncateBits data numBits = Some res
    /\ len res = len data
    /\ (numBits mod 8 = 0 -> res = data)
    /\ (numBits mod 8 <> 0 ->
        TopLevelPoseidon.le_value res
        = TopLevelPoseidon.le_value data
          mod 2 ^ (8 * (len data - 1) + numBits mod 8)).
Proof.
  destruct (TruncateBits_beyond data numBits Hdata Hne Hlong Hmax)
    as (res & E & Hl & H0 & H1).
  exists res; rewrite !le_value_is_value; auto.
Qed.

Lemma TruncateBits_beyond_data_witness :
  exists res,
    TruncateBits [0xAB] 12 = Some res
    /\ len res = len [0xAB]
    /\ (12 mod 8 = 0 -> res = [0xAB])
    /\ (12 mod 8 <> 0 ->
        TopLevelPoseidon.le_value res
        = TopLevelPoseidon.le_value [0xAB]
          mod 2 ^ (8 * (len [0xAB] - 1) + 12 mod 8)).
Proof.
  apply (TruncateBits_beyond_data [0xAB] 12).
  - repeat (constructor; [unfold is_u8; lia|]); constructor.
  - cbn; lia.
  - cbn; lia.
  - lia.
Defined.

(** The loss is real: of the byte [0xAB], asked for 12 bits, [0x0B] is
    left. *)
Example TruncateBits_drops_available_bits :
  TruncateBits [0xAB] 12 = Some [0x0B].
Proof. reflexivity. Qed.

(** X4: [ExtractWBitChunks] returns the [numChunks] least significant
    base-[2^w] digits of the data read as a little-endian integer, for
    every width from 1 to 32. *)
Theorem ExtractWBitChunks_digits (data : list Z) (w numChunks : Z)
    (Hdata : Forall is_u8 data)
    (Hw : 1 <= w <= 32)
    (Hn : 0 <= numChunks)
    (Hfit : w * numChunks <= 8 * len data)
    (Hmax : 8 * len data < 2 ^ 63) :
  ExtractWBitChunks data w numChunks
  = Some (inr (digits_le (2 ^ w) (Z.to_nat numChunks)
                 (TopLevelPoseidon.le_value data))).
Proof.
  rewrite le_value_is_value.
  apply ExtractWBitChunks_spec; assumption.
Qed.

Lemma ExtractWBitChunks_digits_witness :
  ExtractWBitChunks [0xFF; 0x00; 0xAA] 4 6
  = Some (inr (digits_le (2 ^ 4) (Z.to_nat 6)
                 (TopLevelPoseidon.le_value [0xFF; 0x00; 0xAA]))).
Proof.
  apply (ExtractWBitChunks_digits [0xFF; 0x00; 0xAA] 4 6).
  - repeat (constructor; [unfold is_u8; lia|]); constructor.
  - lia.
  - lia.
  - cbn; lia.
  - cbn; lia.
Defined.

(** X5: on the chunk sizes both functions accept, [ExtractWBitChunks]
    returns the first [numChunks] chunks of [BytesToChunks]. *)
Theorem ExtractWBitChunks_agrees_with_BytesToChunks (data : list Z)
    (w numChunks : Z)
    (Hdata : Forall is_u8 data)
    (Hw : In w [1; 2; 4; 8])
    (Hn : 0 <= numChunks)
    (Hfit : w * numChunks <= 8 * len data)
    (Hmax : 8 * len data < 2 ^ 63) :
  exists all,
    Bitutil.BytesToChunks data w = Some all
    /\ ExtractWBitChunks data w numChunks
       = Some (inr (firstn (Z.to_nat numChunks) all)).
Proof.
  eexists; split; [apply BytesToChunks_digits; assumption|].
  rewrite digits_firstn.
  rewrite ExtractWBitChunks_spec; try assumption.
  - repeat f_equal.
    symmetry; apply Nat.min_l.
    cbn [In] in Hw; destruct Hw as [<-|[<-|[<-|[<-|[]]]]];
      unfold len in Hfit; cbn; lia.
  - cbn [In] in Hw; destruct Hw as [<-|[<-|[<-|[<-|[]]]]]; lia.
Qed.

Lemma ExtractWBitChunks_agrees_with_BytesToChunks_witness :
  exists all,
    Bitutil.BytesToChunks [0xFF; 0x00; 0xAA] 2 = Some all
    /\ ExtractWBitChunks [0xFF; 0x00; 0xAA] 2 8
       = Some (inr (firstn (Z.to_nat 8) all)).
Proof.
  apply (ExtractWBitChunks_agrees_with_BytesToChunks [0xFF; 0x00; 0xAA] 2 8).
  - repeat (constructor; [unfold is_u8; lia|]); constructor.
  - cbn; auto.
  - lia.
  - cbn; lia.
  - cbn; lia.
Defined.

End ChunksFacts.
(* ================================================================= *)
(** ** The encodings are incomparable *)

Module IncomparableFacts.
Import Th Encoding Digits DigitsFacts ChunksFacts.

Lemma fold_add_acc l : forall a, fold_left Z.add l a = a + fold_left Z.add l 0.
Proof.
  induction l as [|x l IH]; intros a; cbn [fold_left]; [lia|].
  rewrite IH, (IH (0 + x)); lia.
Qed.

(** The checksum loop does not wrap when the largest checksum fits. *)
Lemma checksum_exact base ds : forall c0,
  Forall (fun d => 0 <= d < base) ds -> 0 <= c0 ->
  c0 + len ds * (base - 1) < 2 ^ 64 ->
  fold_left (fun checksum chunk => u64 (checksum + u64 (u64 (base - 1) - chunk)))
            ds c0
  = c0 + (len ds * (base - 1) - fold_left Z.add ds 0).
Proof.
  intros c0 H; revert c0; induction H as [|d ds Hd _ IH]; intros c0 Hc Hfit.
  - cbn; lia.
  - rewrite len_cons in Hfit.
    pose proof (len_nonneg ds).
    cbn [fold_left].
    assert (Hs : u64 (c0 + u64 (u64 (base - 1) - d)) = c0 + (base - 1 - d)).
    { unfold u64.
      rewrite (Z.mod_small (base - 1)) by nia.
      rewrite (Z.mod_small (base - 1 - d)) by nia.
      apply Z.mod_small; nia. }
    rewrite Hs, IH by nia.
    rewrite len_cons, (fold_add_acc ds (0 + d)); lia.
Qed.

Lemma digits_le_map b n : forall x,
  0 < b ->
  digits_le b n x = map (fun k => (x / b ^ k) mod b) (zrange (Z.of_nat n)).
Proof.
  intros x Hb.
  apply nth_error_ext; intros i.
  destruct (Nat.ltb_spec i n) as [Hi|Hi].
  - pose proof (digits_idx b n x (Z.of_nat i) Hb ltac:(lia)) as H1.
    pose proof (zrange_idx (Z.of_nat n) (Z.of_nat i) ltac:(lia)) as H2.
    unfold idx in H1, H2.
    destruct (Z.ltb_spec (Z.of_nat i) 0); [lia|].
    rewrite Nat2Z.id in H1, H2.
    rewrite H1, nth_error_map, H2; reflexivity.
  - rewrite (proj2 (nth_error_None _ _)), (proj2 (nth_error_None _ _));
      [reflexivity| |].
    + rewrite length_map; unfold zrange; rewrite length_map, length_seq; lia.
    + pose proof (digits_len b n x) as Hl; unfold len in Hl; lia.
Qed.

Lemma PutUint64_digits v :
  Winternitz.LittleEndian_PutUint64 v = digits_le 256 8 v.
Proof.
  rewrite digits_le_map by lia.
  unfold Winternitz.LittleEndian_PutUint64.
  change (zrange (Z.of_nat 8)) with [0; 1; 2; 3; 4; 5; 6; 7].
  apply map_ext_in; intros k Hk.
  assert (0 <= k <= 7) by (cbn [In] in Hk; lia).
  unfold u8; rewrite Z.shiftr_div_pow2 by lia.
  change 256 with (2 ^ 8) at 2; rewrite <- Z.pow_mul_r by lia; reflexivity.
Qed.

(** The codeword [Encode] builds: the message digits, then the
    [numChunksChecksum] low digits of the checksum. *)
Lemma Winternitz_encode_digits w P msg rho epoch ds :
  In (Winternitz.chunkSize w) [1; 2; 4; 8] ->
  0 <= Winternitz.numChunksChecksum w <= 64 / Winternitz.chunkSize w ->
  MH.Hash (Winternitz.messageHash w) P msg rho epoch = Some ds ->
  len ds = Winternitz.numChunksMessage w ->
  Forall (fun d => 0 <= d < 2 ^ Winternitz.chunkSize w) ds ->
  len ds * (2 ^ Winternitz.chunkSize w - 1) < 2 ^ 64 ->
  Winternitz.Encode w P msg rho epoch
  = Some (inr (ds ++ digits_le (2 ^ Winternitz.chunkSize w)
                       (Z.to_nat (Winternitz.numChunksChecksum w))
                       (len ds * (2 ^ Winternitz.chunkSize w - 1)
                        - fold_left Z.add ds 0))).
Proof.
  intros Hcs Hn1 Hh Hlen Hds Hfit.
  pose proof (len_nonneg ds) as Hl0.
  unfold Winternitz.Encode; rewrite Hh.
  rewrite (EncodingFacts.Winternitz_Base w Hcs).
  set (cs := Winternitz.chunkSize w) in *.
  set (n1 := Winternitz.numChunksChecksum w) in *.
  assert (Hp : 1 <= 2 ^ cs <= 256)
    by (cbn [In] in Hcs; destruct Hcs as [<-|[<-|[<-|[<-|[]]]]]; cbn; lia).
  assert (Hu : u64 (2 ^ cs) = 2 ^ cs)
    by (unfold u64; apply Z.mod_small; lia).
  rewrite Hu, checksum_exact by (try assumption; lia).
  rewrite Z.add_0_l.
  set (c := len ds * (2 ^ cs - 1) - fold_left Z.add ds 0).
  assert (Hsum : 0 <= fold_left Z.add ds 0 <= len ds * (2 ^ cs - 1)).
  { clear - Hds Hp. induction Hds as [|d ds Hd _ IH]; [cbn; lia|].
    cbn [fold_left]; rewrite fold_add_acc, len_cons; lia. }
  assert (Hc : 0 <= c < 2 ^ 64) by (subst c; lia).
  rewrite PutUint64_digits.
  rewrite BytesToChunks_digits
    by (try assumption; apply digits_range; lia).
  rewrite value_digits by lia.
  change (256 ^ Z.of_nat 8) with (2 ^ 64); rewrite Z.mod_small by exact Hc.
  unfold Winternitz.Dimension; fold n1; rewrite <- Hlen.
  destruct (Z.ltb_spec (len ds + n1) 0); [lia|].
  unfold Winternitz.slice_to.
  rewrite digits_len.
  assert (Hcount : Z.of_nat (length (digits_le 256 8 c) * Z.to_nat (8 / cs))
                   = 64 / cs).
  { pose proof (digits_len 256 8 c) as Hl8; unfold len in Hl8.
    rewrite Nat2Z.inj_mul, Hl8.
    cbn [In] in Hcs; destruct Hcs as [<-|[<-|[<-|[<-|[]]]]]; reflexivity. }
  rewrite Hcount.
  destruct (Z.ltb_spec n1 0); [lia|]; destruct (Z.ltb_spec (64 / cs) n1); [lia|].
  cbn [orb]; rewrite digits_firstn.
  rewrite Nat.min_l by lia; reflexivity.
Qed.

Lemma complement_sum B ds : forall a,
  fold_left (fun acc d => acc + (B - 1 - d)) ds a
  = a + (len ds * (B - 1) - fold_left Z.add ds 0).
Proof.
  induction ds as [|d ds IH]; intros a; cbn [fold_left].
  - change (len (@nil Z)) with 0; lia.
  - rewrite IH, len_cons, (fold_add_acc ds (0 + d)); lia.
Qed.

Lemma pow_chunks_le cs n1 :
  In cs [1; 2; 4; 8] -> 0 <= n1 <= 64 / cs -> (2 ^ cs) ^ n1 <= 2 ^ 64.
Proof.
  intros Hcs Hn1.
  rewrite <- Z.pow_mul_r
    by (cbn [In] in Hcs; destruct Hcs as [<-|[<-|[<-|[<-|[]]]]]; lia).
  apply Z.pow_le_mono_r; [lia|].
  cbn [In] in Hcs; destruct Hcs as [<-|[<-|[<-|[<-|[]]]]];
    [change (64 / 1) with 64 in Hn1|change (64 / 2) with 32 in Hn1
    |change (64 / 4) with 16 in Hn1|change (64 / 8) with 8 in Hn1]; lia.
Qed.

Lemma Forall2_app_same_length {A} (R : A -> A -> Prop) (xs xs' ys ys' : list A) :
  length xs = length xs' ->
  Forall2 R (xs ++ ys) (xs' ++ ys') -> Forall2 R xs xs' /\ Forall2 R ys ys'.
Proof.
  revert xs'; induction xs as [|x xs IH]; intros [|x' xs'] Hl H;
    try discriminate.
  - split; [constructor|exact H].
  - cbn [app] in H; inversion H; subst.
    destruct (IH xs' ltac:(cbn in Hl; lia) ltac:(assumption)).
    split; [constructor|]; assumption.
Qed.

(** X6: a Winternitz codeword is the message digits followed by the
    checksum: the [numChunksChecksum] base-[2^w] digits, least significant
    first, of the sum of [2^w - 1 - d] over the message digits [d]. *)
Theorem Winternitz_checksum (w : Winternitz.WinternitzEncoding)
    (P : Params) (msg rho : list Z) (epoch : Z) (cw : Codeword)
    (Hcs : In (Winternitz.chunkSize w) [1; 2; 4; 8])
    (Hn1 : 0 <= Winternitz.numChunksChecksum w <= 64 / Winternitz.chunkSize w)
    (Hfit : Winternitz.numChunksMessage w * (2 ^ Winternitz.chunkSize w - 1)
            < (2 ^ Winternitz.chunkSize w) ^ Winternitz.numChunksChecksum w)
    (Hmh : forall ds,
       MH.Hash (Winternitz.messageHash w) P msg rho epoch = Some ds ->
       len ds = Winternitz.numChunksMessage w
       /\ Forall (fun d => 0 <= d < 2 ^ Winternitz.chunkSize w) ds)
    (Henc : Winternitz.Encode w P msg rho epoch = Some (inr cw)) :
  exists ds cs,
    MH.Hash (Winternitz.messageHash w) P msg rho epoch = Some ds
    /\ cw = ds ++ cs
    /\ len cs = Winternitz.numChunksChecksum w
    /\ Forall (fun c => 0 <= c < 2 ^ Winternitz.chunkSize w) cs
    /\ value_le (2 ^ Winternitz.chunkSize w) cs
       = fold_left (fun acc d => acc + (2 ^ Winternitz.chunkSize w - 1 - d)) ds 0.
Proof.
  destruct (MH.Hash (Winternitz.messageHash w) P msg rho epoch) as [ds|] eqn:Hh;
    [|unfold Winternitz.Encode in Henc; rewrite Hh in Henc; discriminate].
  destruct (Hmh ds eq_refl) as [Hlen Hds].
  pose proof (pow_chunks_le _ _ Hcs Hn1) as Hpow.
  assert (Hp : 0 < 2 ^ Winternitz.chunkSize w)
    by (cbn [In] in Hcs; destruct Hcs as [<-|[<-|[<-|[<-|[]]]]]; reflexivity).
  rewrite (Winternitz_encode_digits w P msg rho epoch ds) in Henc
    by (try assumption; rewrite Hlen; lia).
  injection Henc as <-.
  eexists; eexists; split; [reflexivity|]; split; [reflexivity|].
  split; [rewrite digits_len; lia|].
  split; [apply digits_range; exact Hp|].
  rewrite complement_sum, Z.add_0_l.
  apply digits_small; [exact Hp|].
  rewrite Z2Nat.id by lia.
  assert (Hsum : 0 <= fold_left Z.add ds 0 <= len ds * (2 ^ Winternitz.chunkSize w - 1)).
  { clear - Hds Hp. induction Hds as [|d ds Hd _ IH]; [cbn; lia|].
    cbn [fold_left]; rewrite fold_add_acc, len_cons; lia. }
  rewrite Hlen in *; lia.
Qed.

Lemma Winternitz_checksum_witness :
  exists ds cs,
    MH.Hash Toy.toy_mh [1] [1; 2; 3] [5; 6] 3 = Some ds
    /\ [1; 2; 0; 3; 2; 1] = ds ++ cs
    /\ len cs = 2
    /\ Forall (fun c => 0 <= c < 2 ^ 2) cs
    /\ value_le (2 ^ 2) cs = fold_left (fun acc d => acc + (2 ^ 2 - 1 - d)) ds 0.
Proof.
  apply (Winternitz_checksum Toy.toy_winternitz [1] [1; 2; 3] [5; 6] 3).
  - cbn; auto.
  - cbn; lia.
  - cbn; lia.
  - apply EncodingFacts.toy_mh_digits.
  - vm_compute; reflexivity.
Defined.

(** X7: Winternitz codewords are incomparable, over a message hash that
    returns [numChunksMessage] digits below [2^w] and with checksum digits
    enough to hold [numChunksMessage * (2^w - 1)].  If then one codeword
    is coordinate-wise at most another (of any message, randomness and
    epoch), the two are equal; so no codeword dominates a different one,
    which is what lets a verifier's chain walk not be continued into
    another signature.  Both conditions are needed: a digit of [2^w] or
    more makes the checksum wrap around. *)
Theorem Winternitz_incomparable (w : Winternitz.WinternitzEncoding)
    (P1 P2 : Params) (msg1 rho1 msg2 rho2 : list Z) (epoch1 epoch2 : Z)
    (cw1 cw2 : Codeword)
    (Hcs : In (Winternitz.chunkSize w) [1; 2; 4; 8])
    (Hn1 : 0 <= Winternitz.numChunksChecksum w <= 64 / Winternitz.chunkSize w)
    (Hfit : Winternitz.numChunksMessage w * (2 ^ Winternitz.chunkSize w - 1)
            < (2 ^ Winternitz.chunkSize w) ^ Winternitz.numChunksChecksum w)
    (Hmh : forall P msg rho epoch ds,
       MH.Hash (Winternitz.messageHash w) P msg rho epoch = Some ds ->
       len ds = Winternitz.numChunksMessage w
       /\ Forall (fun d => 0 <= d < 2 ^ Winternitz.chunkSize w) ds)
    (Henc1 : Winternitz.Encode w P1 msg1 rho1 epoch1 = Some (inr cw1))
    (Henc2 : Winternitz.Encode w P2 msg2 rho2 epoch2 = Some (inr cw2))
    (Hle : pointwise_le cw1 cw2) :
  cw1 = cw2.
Proof.
  destruct (MH.Hash (Winternitz.messageHash w) P1 msg1 rho1 epoch1) as [ds1|] eqn:Hh1;
    [|unfold Winternitz.Encode in Henc1; rewrite Hh1 in Henc1; discriminate].
  destruct (MH.Hash (Winternitz.messageHash w) P2 msg2 rho2 epoch2) as [ds2|] eqn:Hh2;
    [|unfold Winternitz.Encode in Henc2; rewrite Hh2 in Henc2; discriminate].
  destruct (Hmh _ _ _ _ _ Hh1) as [Hlen1 Hds1].
  destruct (Hmh _ _ _ _ _ Hh2) as [Hlen2 Hds2].
  pose proof (pow_chunks_le _ _ Hcs Hn1) as Hpow.
  set (B := 2 ^ Winternitz.chunkSize w) in *.
  set (n1 := Winternitz.numChunksChecksum w) in *.
  set (n0 := Winternitz.numChunksMessage w) in *.
  assert (Hp : 0 < B)
    by (subst B; cbn [In] in Hcs; destruct Hcs as [<-|[<-|[<-|[<-|[]]]]]; reflexivity).
  rewrite (Winternitz_encode_digits w P1 msg1 rho1 epoch1 ds1) in Henc1
    by (try assumption; fold B n0; rewrite ?Hlen1; lia).
  rewrite (Winternitz_encode_digits w P2 msg2 rho2 epoch2 ds2) in Henc2
    by (try assumption; fold B n0; rewrite ?Hlen2; lia).
  fold B n1 in Henc1, Henc2.
  injection Henc1 as <-; injection Henc2 as <-.
  rewrite Hlen1, Hlen2 in *.
  apply Forall2_app_same_length in Hle;
    [|unfold len in Hlen1, Hlen2; lia].
  destruct Hle as [Hm Hc].
  pose proof (pointwise_sum _ _ Hm) as Hs.
  pose proof (pointwise_value B _ _ ltac:(lia) Hc) as Hv.
  assert (Hb : forall ds, len ds = n0 -> Forall (fun d => 0 <= d < B) ds ->
                 0 <= n0 * (B - 1) - fold_left Z.add ds 0 < B ^ Z.of_nat (Z.to_nat n1)).
  { intros ds Hl Hd. rewrite Z2Nat.id by lia.
    assert (0 <= fold_left Z.add ds 0 <= len ds * (B - 1)).
    { clear - Hd Hp. induction Hd as [|d ds Hd _ IH]; [cbn; lia|].
      cbn [fold_left]; rewrite fold_add_acc, len_cons; lia. }
    rewrite Hl in *; lia. }
  rewrite !digits_small in Hv by (try apply Hb; assumption).
  assert (Es : fold_left Z.add ds1 0 = fold_left Z.add ds2 0) by lia.
  rewrite (pointwise_sum_eq _ _ Hm Es); reflexivity.
Qed.

Lemma Winternitz_incomparable_witness : [1; 2; 0; 3; 2; 1] = [1; 2; 0; 3; 2; 1].
Proof.
  apply (Winternitz_incomparable Toy.toy_winternitz [1] [1]
           [1; 2; 3] [5; 6] [1; 2; 3] [5; 6] 3 3).
  - cbn; auto.
  - cbn; lia.
  - cbn; lia.
  - apply EncodingFacts.toy_mh_digits.
  - vm_compute; reflexivity.
  - vm_compute; reflexivity.
  - repeat constructor; lia.
Defined.

(** X8: Target-Sum codewords are incomparable: all of them have the same
    digit sum, so one that is coordinate-wise at most another equals it. *)
Theorem TargetSum_incomparable (t : TargetSum.TargetSumEncoding)
    (P1 P2 : Params) (msg1 rho1 msg2 rho2 : list Z) (epoch1 epoch2 : Z)
    (cw1 cw2 : Codeword)
    (Henc1 : TargetSum.Encode t P1 msg1 rho1 epoch1 = Some (inr cw1))
    (Henc2 : TargetSum.Encode t P2 msg2 rho2 epoch2 = Some (inr cw2))
    (Hle : pointwise_le cw1 cw2) :
  cw1 = cw2
  /\ fold_left Z.add cw1 0 = TargetSum.targetSum t.
Proof.
  unfold TargetSum.Encode in Henc1, Henc2.
  destruct (MH.Hash _ P1 _ _ _) as [ds1|]; [|discriminate].
  destruct (MH.Hash _ P2 _ _ _) as [ds2|]; [|discriminate].
  change (fun sum chunk : Z => sum + chunk) with Z.add in *.
  destruct (Z.eqb_spec (fold_left Z.add ds1 0) (TargetSum.targetSum t)) as [E1|];
    [|discriminate].
  destruct (Z.eqb_spec (fold_left Z.add ds2 0) (TargetSum.targetSum t)) as [E2|];
    [|discriminate].
  cbn [negb] in *; injection Henc1 as <-; injection Henc2 as <-.
  split; [apply pointwise_sum_eq; [assumption|congruence]|exact E1].
Qed.

Lemma TargetSum_incomparable_witness :
  [1; 2; 0; 3] = [1; 2; 0; 3]
  /\ fold_left Z.add [1; 2; 0; 3] 0 = TargetSum.targetSum Toy.toy_targetsum.
Proof.
  apply (TargetSum_incomparable Toy.toy_targetsum [1] [1]
           [1; 2; 3] [5; 6] [1; 2; 3] [5; 6] 3 3).
  - vm_compute; reflexivity.
  - vm_compute; reflexivity.
  - repeat constructor; lia.
Defined.

(** X9: both targets [ComputeOptimalTarget] recommends are targets
    [NewTargetSumEncoding] accepts, for every dimension up to 256 and every
    chunk size. *)
Theorem NewTargetSumEncoding_accepts_optimal_target (mh : MH.MessageHash)
    (v w : Z)
    (Hv : 1 <= v <= 256) (Hw : In w [1; 2; 4; 8])
    (Hdim : MH.Dimension mh = v) (Hbase : MH.Base mh = 2 ^ w) :
  exists T0 T1,
    TargetSum.ComputeOptimalTarget v w TargetSum.delta_1_0 = Some T0
    /\ TargetSum.ComputeOptimalTarget v w TargetSum.delta_1_1 = Some T1
    /\ TargetSum.NewTargetSumEncoding mh T0
       = Some {| TargetSum.messageHash := mh; TargetSum.targetSum := T0 |}
    /\ TargetSum.NewTargetSumEncoding mh T1
       = Some {| TargetSum.messageHash := mh; TargetSum.targetSum := T1 |}.
Proof.
  pose proof EncodingFacts.target_is_floor_all as Hall.
  rewrite forallb_forall in Hall.
  assert (Hin : In v (map (fun k => k + 1) (zrange 256))).
  { apply in_map_iff; exists (v - 1); split; [lia|].
    unfold zrange; apply in_map_iff; exists (Z.to_nat (v - 1)).
    split; [lia|apply in_seq; lia]. }
  specialize (Hall v Hin); rewrite forallb_forall in Hall.
  specialize (Hall w Hw); unfold TargetSum.target_is_floor in Hall.
  destruct (TargetSum.ComputeOptimalTarget v w TargetSum.delta_1_0) as [t0|];
    [|discriminate].
  destruct (TargetSum.ComputeOptimalTarget v w TargetSum.delta_1_1) as [t1|];
    [|discriminate].
  apply andb_prop in Hall; destruct Hall as [H0 H1].
  apply Z.eqb_eq in H0, H1.
  exists t0, t1; split; [reflexivity|split; [reflexivity|]].
  assert (Hp : 1 <= 2 ^ w - 1 <= 255)
    by (cbn [In] in Hw; destruct Hw as [<-|[<-|[<-|[<-|[]]]]]; cbn; lia).
  unfold TargetSum.NewTargetSumEncoding; rewrite Hdim, Hbase.
  rewrite (i64_id (2 ^ w - 1)) by (unfold is_int; lia).
  rewrite i64_id by (unfold is_int; nia).
  assert (0 <= t0 <= v * (2 ^ w - 1)).
  { subst t0; split; [apply Z.div_pos; nia|apply Z.div_le_upper_bound; nia]. }
  assert (0 <= t1 <= v * (2 ^ w - 1)).
  { subst t1; split; [apply Z.div_pos; nia|apply Z.div_le_upper_bound; nia]. }
  destruct (Z.ltb_spec t0 0); [lia|]; destruct (Z.gtb_spec t0 (v * (2 ^ w - 1))); [lia|].
  destruct (Z.ltb_spec t1 0); [lia|]; destruct (Z.gtb_spec t1 (v * (2 ^ w - 1))); [lia|].
  split; reflexivity.
Qed.

Lemma NewTargetSumEncoding_accepts_optimal_target_witness :
  exists T0 T1,
    TargetSum.ComputeOptimalTarget 4 2 TargetSum.delta_1_0 = Some T0
    /\ TargetSum.ComputeOptimalTarget 4 2 TargetSum.delta_1_1 = Some T1
    /\ TargetSum.NewTargetSumEncoding Toy.toy_mh T0
       = Some {| TargetSum.messageHash := Toy.toy_mh; TargetSum.targetSum := T0 |}
    /\ TargetSum.NewTargetSumEncoding Toy.toy_mh T1
       = Some {| TargetSum.messageHash := Toy.toy_mh; TargetSum.targetSum := T1 |}.
Proof.
  apply (NewTargetSumEncoding_accepts_optimal_target Toy.toy_mh 4 2).
  - lia.
  - cbn; auto.
  - reflexivity.
  - reflexivity.
Defined.

End IncomparableFacts.
(* ================================================================= *)
(** ** The tree commits to its leaves *)

Module MerkleOpenFacts.
Import Th Merkle MerkleSpec MerkleFacts.

Section WithHash.
Context {Rng : Type} (thash : TweakableHash Rng).

Lemma path_loop_len t n : forall level cur coPath crand cp crand',
  path_loop thash t n level cur coPath crand = Some (cp, crand') ->
  len cp = len coPath + Z.of_nat n.
Proof.
  induction n as [|n IH]; intros level cur coPath crand cp crand' H.
  - cbn [path_loop] in H; injection H as <- <-; cbn; lia.
  - cbn [path_loop] in H.
    destruct (idx (layers t) level) as [layer|]; [|discriminate].
    destruct ((0 <=? Z.lxor (cur - startIndex layer) 1)
              && (Z.lxor (cur - startIndex layer) 1 <? len (nodes layer))).
    + destruct (idx (nodes layer) _) as [d|]; [|discriminate].
      apply IH in H; rewrite len_app in H; cbn in H; lia.
    + destruct (RandDomain thash crand) as [[d crand0]|]; [|discriminate].
      apply IH in H; rewrite len_app in H; cbn in H; lia.
Qed.

(** X10: opening a leaf of a tree built from a start index [s >= 0] and
    verifying the opening against the root succeeds.  For every position
    the tree was given a leaf hash for, [Path] returns [depth] siblings,
    all of them nodes of the tree (the fallback to [crypto/rand] is never
    taken: the reader state is returned unchanged), and [VerifyPath]
    accepts the leaf data whose hash the tree stores
    (TestMerkleTreeConstruction, TestSparseTree).  [NewHashTree] also
    accepts a negative start index; there [Root()] is a padding node and
    the opening is rejected. *)
Theorem Merkle_open_verify (rng rng' crand : Rng) (depth0 s : Z) (P : Params)
    (leafHashes : list Domain) (t : HashTree) (epoch : Z) (leaf : list Domain)
    (Hbuilt : NewHashTree thash rng depth0 s P leafHashes = Some (t, rng'))
    (Hs : 0 <= s) (He : s <= epoch < s + len leafHashes)
    (He32 : is_u32 epoch)
    (Hleaf : idx leafHashes (epoch - s)
             = Some (Apply thash P (TreeTweak thash 0 epoch) leaf)) :
  exists path,
    Path thash t epoch crand = Some (path, crand)
    /\ len (CoPath path) = depth0
    /\ VerifyPath thash P (Root t) epoch leaf path = true.
Proof.
  destruct (NewHashTree_inv _ _ _ _ _ _ _ _ Hbuilt Hs ltac:(lia))
    as (Hd & _ & Hd0 & Hcap & Hinv & l0 & Hl0 & Hleaves).
  rewrite <- Hd in Hinv.
  assert (Hl0e : node_at l0 epoch
                 = Some (Apply thash P (TreeTweak thash 0 epoch) leaf))
    by (rewrite (Hleaves epoch He); exact Hleaf).
  destruct (path_verify thash P t (Z.to_nat (depth t)) 0 epoch _ [] crand
              Hinv (Z.le_refl 0) ltac:(rewrite Z2Nat.id; lia) He32
              (ex_intro _ l0 (conj Hl0 Hl0e)))
    as (cp & top & Hpath & Htop & Hnode).
  cbn [app] in Hpath.
  exists {| CoPath := cp |}.
  unfold Path; rewrite Hpath.
  split; [reflexivity|]; split.
  - apply path_loop_len in Hpath; cbn [CoPath].
    change (len (@nil Domain)) with 0 in Hpath; lia.
  - unfold VerifyPath; cbn [CoPath].
    destruct (top_layer thash P t Hinv ltac:(lia))
      as (top' & pad & Htop' & Hstart & Hnodes).
    rewrite Htop in Htop'; injection Htop' as <-.
    rewrite <- Hd in Hcap, Hd0.
    rewrite Z2Nat.id, Z.shiftr_div_pow2, Z.div_small in Hnode by lia.
    unfold node_at in Hnode; rewrite Hstart, Hnodes in Hnode.
    injection Hnode as <-.
    apply XMSSFacts.domain_equal_refl.
Qed.

(** X11: what a built tree stores.  The leaf layer holds the given leaf
    hashes at their positions, and every node of a layer above is the
    tweakable hash of its two children under the tree tweak of its own
    level and position; the padding nodes are hashed like any other. *)
Theorem NewHashTree_nodes (rng rng' : Rng) (depth0 s : Z) (P : Params)
    (leafHashes : list Domain) (t : HashTree)
    (Hbuilt : NewHashTree thash rng depth0 s P leafHashes = Some (t, rng'))
    (Hs : 0 <= s) (Hleaves : 1 <= len leafHashes) :
  (exists l0, idx (layers t) 0 = Some l0
     /\ forall k, s <= k < s + len leafHashes ->
          node_at l0 k = idx leafHashes (k - s))
  /\ forall lvl l l' k,
       idx (layers t) lvl = Some l -> idx (layers t) (lvl + 1) = Some l' ->
       startIndex l <= 2 * k < layer_end l ->
       exists x y,
         node_at l (2 * k) = Some x /\ node_at l (2 * k + 1) = Some y
         /\ node_at l' k
            = Some (Apply thash P (TreeTweak thash (u8 (lvl + 1)) (u32 k)) [x; y]).
Proof.
  destruct (NewHashTree_inv _ _ _ _ _ _ _ _ Hbuilt Hs Hleaves)
    as (Hd & _ & Hd0 & Hcap & Hinv & Hl0).
  split; [exact Hl0|].
  intros lvl l l' k Hl Hl' Hk.
  destruct Hinv as (_ & _ & Hrel).
  exact (Hrel lvl l l' Hl Hl' k Hk).
Qed.

End WithHash.

Lemma Merkle_open_verify_witness :
  exists t rng' path,
    NewHashTree Toy.toy_th 0 3 2 [0]
      [Toy.toy_apply [0] (Tweak.TreeTweak 0 2) [[7]; [8]]; [2]; [3]]
    = Some (t, rng')
    /\ Path Toy.toy_th t 2 55 = Some (path, 55)
    /\ len (CoPath path) = 3
    /\ VerifyPath Toy.toy_th [0] (Root t) 2 [[7]; [8]] path = true.
Proof.
  do 2 eexists.
  assert (H : forall A (P Q : A -> Prop) (R : Prop),
            R -> (R -> exists x, P x /\ Q x) -> exists x, R /\ P x /\ Q x)
    by (intros A P Q R HR HP; destruct (HP HR) as (x & ? & ?); eauto).
  apply (H _ (fun path => Path Toy.toy_th _ 2 55 = Some (path, 55))
           (fun path => len (CoPath path) = 3
                        /\ VerifyPath Toy.toy_th [0] (Root _) 2 [[7]; [8]] path
                           = true)).
  - reflexivity.
  - intros Hb.
    apply (Merkle_open_verify Toy.toy_th 0 _ 55 3 2 [0] _ _ 2 [[7]; [8]] Hb).
    + lia.
    + cbn; lia.
    + unfold is_u32; lia.
    + reflexivity.
Defined.

(** A tree built from the start index -1, which [NewHashTree] accepts:
    every layer starts at -2 with a padding node in front, [Root()] reads
    the padding node of the top layer, and the opening of position 0 does
    not verify. *)
Example Merkle_open_negative_start :
  exists t rng' path,
    NewHashTree Toy.toy_th 0 3 (-1) [0]
      [[2]; Toy.toy_apply [0] (Tweak.TreeTweak 0 0) [[7]; [8]]]
    = Some (t, rng')
    /\ map startIndex (layers t) = [-2; -2; -2; -2]
    /\ Path Toy.toy_th t 0 55 = Some (path, 55)
    /\ VerifyPath Toy.toy_th [0] (Root t) 0 [[7]; [8]] path = false.
Proof.
  do 3 eexists.
  split; [vm_compute; reflexivity|].
  split; [reflexivity|].
  split; vm_compute; reflexivity.
Qed.

Lemma NewHashTree_nodes_witness :
  exists t rng',
    NewHashTree Toy.toy_th 0 3 2 [0] [[1]; [2]; [3]] = Some (t, rng')
    /\ (exists l0, idx (layers t) 0 = Some l0
          /\ forall k, 2 <= k < 2 + len [[1]; [2]; [3]] ->
               node_at l0 k = idx [[1]; [2]; [3]] (k - 2))
    /\ forall lvl l l' k,
         idx (layers t) lvl = Some l -> idx (layers t) (lvl + 1) = Some l' ->
         startIndex l <= 2 * k < layer_end l ->
         exists x y,
           node_at l (2 * k) = Some x /\ node_at l (2 * k + 1) = Some y
           /\ node_at l' k
              = Some (Apply Toy.toy_th [0]
                        (TreeTweak Toy.toy_th (u8 (lvl + 1)) (u32 k)) [x; y]).
Proof.
  do 2 eexists; split; [reflexivity|].
  eapply (NewHashTree_nodes Toy.toy_th 0 _ 3 2 [0] [[1]; [2]; [3]]);
    [reflexivity|lia|vm_compute; discriminate].
Defined.

End MerkleOpenFacts.
(* ================================================================= *)
(** ** What [Sign] returns *)

Module SignFacts.
Import Th Merkle MerkleSpec MerkleFacts XMSS.

Section Engine.
Context {Rng : Type} (g : GeneralizedXMSS Rng).

Lemma sign_attempts_exhausted sk epoch message maxTries n :
  forall attempts rng cw0 rho0,
  (forall rng, Encoding.RandRandomness (encoding g) rng <> None) ->
  (forall rho, exists err,
     Encoding.Encode (encoding g) (SK_Parameter sk) message rho epoch
     = Some (inl err)) ->
  attempts + Z.of_nat n = maxTries -> (1 <= n)%nat ->
  sign_attempts g sk epoch message maxTries n attempts rng cw0 rho0
  = Some (inl (SigningError maxTries)).
Proof.
  induction n as [|n IH]; intros attempts rng cw0 rho0 Hrand Hfail Hn H1; [lia|].
  cbn [sign_attempts].
  destruct (Encoding.RandRandomness (encoding g) rng) as [[rho rng1]|] eqn:Hr;
    [|exfalso; apply (Hrand rng); exact Hr].
  destruct (Hfail rho) as [err Herr]; rewrite Herr.
  destruct (Z.eqb_spec attempts (maxTries - 1)) as [|Hne]; [reflexivity|].
  apply IH; try assumption; lia.
Qed.

(** X12: when no randomness makes the encoding succeed, [Sign] gives up
    after exactly [MaxTries] attempts and returns the signing error that
    carries that count; it does not loop on and it does not panic. *)
Theorem Sign_exhausts_tries (rng crand crand' : Rng) (sk : SecretKey)
    (epoch : Z) (message : list Z) (path : HashTreeOpening)
    (Hactive : ActivationEpoch sk <= epoch
               < ActivationEpoch sk + NumActiveEpochs sk)
    (Hpath : Merkle.Path (th g) (Tree sk) epoch crand = Some (path, crand'))
    (Htries : 1 <= Encoding.MaxTries (encoding g))
    (Hrand : forall rng, Encoding.RandRandomness (encoding g) rng <> None)
    (Hfail : forall rho, exists err,
       Encoding.Encode (encoding g) (SK_Parameter sk) message rho epoch
       = Some (inl err)) :
  Sign g rng crand sk epoch message
  = Some (inl (SigningError (Encoding.MaxTries (encoding g)))).
Proof.
  unfold Sign.
  destruct (Z.ltb_spec epoch (ActivationEpoch sk)); [lia|].
  destruct (Z.geb_spec epoch (ActivationEpoch sk + NumActiveEpochs sk)); [lia|].
  cbn [orb]; rewrite Hpath.
  rewrite sign_attempts_exhausted; try assumption; try reflexivity; lia.
Qed.

(** X13: what a signature that [Sign] returns holds: the epoch was in the
    key's activation range, the randomness is one on which the encoding
    succeeded, there is one hash per chain, each the chain of that index
    walked from the PRF's start value by the codeword digit, and the
    opening has one sibling per tree level. *)
Theorem Sign_signature (rng crand : Rng) (sk : SecretKey) (epoch : Z)
    (message : list Z) (sig : Signature)
    (Htries : 1 <= Encoding.MaxTries (encoding g))
    (Hsig : Sign g rng crand sk epoch message = Some (inr sig)) :
  ActivationEpoch sk <= epoch < ActivationEpoch sk + NumActiveEpochs sk
  /\ len (CoPath (Path sig)) = Z.max 0 (depth (Tree sk))
  /\ len (Hashes sig) = Encoding.Dimension (encoding g)
  /\ exists cw,
       Encoding.Encode (encoding g) (SK_Parameter sk) message (Rho sig) epoch
       = Some (inr cw)
       /\ forall i, 0 <= i < Encoding.Dimension (encoding g) ->
            exists steps,
              idx cw i = Some steps
              /\ idx (Hashes sig) i
                 = Some (Chain (th g) (SK_Parameter sk) epoch (u8 i) 0 steps
                           (PRF.Apply (prf g) (PRFKey sk) epoch (u64 i))).
Proof.
  unfold Sign in Hsig.
  destruct (Z.ltb_spec epoch (ActivationEpoch sk)); [discriminate|].
  destruct (Z.geb_spec epoch (ActivationEpoch sk + NumActiveEpochs sk));
    [discriminate|].
  cbn [orb] in Hsig.
  destruct (Merkle.Path (th g) (Tree sk) epoch crand) as [[path crand']|] eqn:Hpath;
    [|discriminate].
  destruct (sign_attempts _ _ _ _ _ _ _ _ _ _) as [[err|[cw rho]]|] eqn:Hatt;
    [discriminate| |discriminate].
  apply XMSSFacts.sign_attempts_encoded in Hatt; [|lia|lia].
  destruct (Z.ltb_spec (Encoding.Dimension (encoding g)) 0); [discriminate|].
  destruct (mapM _ _) as [hashes|] eqn:Hhashes; [|discriminate].
  injection Hsig as <-; cbn [Path Rho Hashes].
  split; [lia|]; split; [|split].
  - unfold Merkle.Path in Hpath.
    destruct (path_loop _ _ _ _ _ _ _) as [[cp c]|] eqn:Hloop; [|discriminate].
    injection Hpath as <- _; cbn [CoPath].
    apply MerkleOpenFacts.path_loop_len in Hloop.
    change (len (@nil Domain)) with 0 in Hloop; lia.
  - assert (Hl : forall {A B} (f : A -> option B) l r,
              mapM f l = Some r -> length r = length l).
    { intros A B f l; induction l as [|a l IH]; intros r E; cbn [mapM] in E.
      - injection E as <-; reflexivity.
      - destruct (f a); [|discriminate].
        destruct (mapM f l) as [bs|]; [|discriminate].
        injection E as <-; cbn [length]; f_equal; apply IH; reflexivity. }
    apply Hl in Hhashes.
    pose proof (zrange_len (Encoding.Dimension (encoding g))) as Hz.
    unfold len in *; lia.
  - exists cw; split; [exact Hatt|].
    intros i Hi.
    destruct (mapM_idx _ _ _ Hhashes i i (zrange_idx _ _ Hi)) as (h & Hh & Hidx).
    destruct (idx cw i) as [steps|]; [|discriminate].
    injection Hh as <-.
    exists steps; split; [reflexivity|exact Hidx].
Qed.

End Engine.

(** X14: over a Winternitz encoding [Sign] never reports a failed
    encoding: with a chunk size the encoding accepts, it returns a
    signature or the activation error (or panics), for every message and
    every reader. *)
Theorem Sign_Winternitz_never_gives_up {Rng : Type} (g : GeneralizedXMSS Rng)
    (R : IO.Reader Rng) (w : Winternitz.WinternitzEncoding)
    (rng crand : Rng) (sk : SecretKey) (epoch : Z) (message : list Z)
    (Henc : encoding g = Winternitz.as_encoding R w)
    (Hcs : In (Winternitz.chunkSize w) [1; 2; 4; 8]) :
  forall attempts, Sign g rng crand sk epoch message
                   <> Some (inl (SigningError attempts)).
Proof.
  intros attempts; unfold Sign.
  destruct ((epoch <? ActivationEpoch sk)
            || (epoch >=? ActivationEpoch sk + NumActiveEpochs sk));
    [discriminate|].
  destruct (Merkle.Path _ _ _ _) as [[path c]|]; [|discriminate].
  rewrite Henc; cbn [Winternitz.as_encoding Encoding.MaxTries
                     Encoding.Dimension].
  change (Z.to_nat 1) with 1%nat; cbn [sign_attempts].
  rewrite Henc; cbn [Winternitz.as_encoding Encoding.RandRandomness
                     Encoding.Encode].
  destruct (Winternitz.RandRandomness R w rng) as [[rho rng1]|]; [|discriminate].
  unfold Winternitz.Encode.
  destruct (MH.Hash _ _ _ _ _) as [ds|]; [|discriminate].
  assert (Hb : forall bytes, Bitutil.BytesToChunks bytes (Winternitz.chunkSize w)
                             <> None).
  { intros bytes; unfold Bitutil.BytesToChunks.
    cbn [In] in Hcs; destruct Hcs as [<-|[<-|[<-|[<-|[]]]]]; discriminate. }
  destruct (Bitutil.BytesToChunks _ _) as [cs|] eqn:Hc;
    [|exfalso; eapply Hb; exact Hc].
  destruct (Winternitz.Dimension w <? 0); [discriminate|].
  destruct (Winternitz.slice_to cs _); [|discriminate].
  destruct (mapM _ _); discriminate.
Qed.

Lemma Sign_Winternitz_never_gives_up_witness :
  Sign Toy.toy_xmss 100 200
    {| PRFKey := [1]; Tree := {| depth := 0; layers := []; params := [] |};
       SK_Parameter := [0]; ActivationEpoch := 0; NumActiveEpochs := 1 |}
    0 [1; 2; 3]
  <> Some (inl (SigningError 1000)).
Proof.
  refine (Sign_Winternitz_never_gives_up Toy.toy_xmss Toy.toy_reader
            Toy.toy_winternitz _ _ _ _ _ _ _ 1000).
  - reflexivity.
  - cbn; auto.
Defined.

Lemma toy_sum_bound ds :
  len ds = 4 -> Forall (fun x => 0 <= x < 2 ^ 2) ds ->
  fold_left (fun sum chunk => sum + chunk) ds 0 <> 100.
Proof.
  intros Hl Hd.
  destruct ds as [|a [|b [|c [|d [|e ds]]]]]; try (cbn in Hl; lia).
  inversion Hd as [|? ? Ha Hd1]; inversion Hd1 as [|? ? Hb Hd2];
    inversion Hd2 as [|? ? Hc Hd3]; inversion Hd3 as [|? ? Hdd _]; subst.
  cbn [fold_left]; change (2 ^ 2) with 4 in *; lia.
Qed.

Lemma Sign_exhausts_tries_witness :
  exists pk sk,
    KeyGen Toy2.toy_xmss_unreachable 0 2 3 = Some (pk, sk)
    /\ Sign Toy2.toy_xmss_unreachable 100 200 sk 3 [1; 2; 3]
       = Some (inl (SigningError 100000)).
Proof.
  do 2 eexists; split; [vm_compute; reflexivity|].
  eapply (Sign_exhausts_tries Toy2.toy_xmss_unreachable 100 200).
  - cbn; lia.
  - vm_compute; reflexivity.
  - cbn; lia.
  - intros rng; cbn; discriminate.
  - intros rho.
    cbn [Toy2.toy_xmss_unreachable encoding TargetSum.as_encoding
         Encoding.Encode].
    unfold TargetSum.Encode.
    destruct (MH.Hash _ _ _ _ _) as [ds|] eqn:Hh.
    + destruct (EncodingFacts.toy_mh_digits _ _ _ _ _ Hh) as [Hl Hd].
      pose proof (toy_sum_bound ds Hl Hd) as Hne.
      cbn [TargetSum.targetSum Toy2.toy_unreachable].
      destruct (Z.eqb_spec (fold_left (fun sum chunk => sum + chunk) ds 0) 100);
        [contradiction|].
      eexists; reflexivity.
    + exfalso; revert Hh; cbn [TargetSum.messageHash Toy2.toy_unreachable
                                 MH.Hash Toy.toy_mh].
      unfold Bitutil.BytesToChunks; cbn; discriminate.
Defined.

Lemma Sign_signature_witness :
  exists pk sk sig,
    KeyGen Toy.toy_xmss 0 2 3 = Some (pk, sk)
    /\ Sign Toy.toy_xmss 100 200 sk 3 [1; 2; 3] = Some (inr sig)
    /\ len (Hashes sig) = 6 /\ len (CoPath (Path sig)) = 3.
Proof.
  do 3 eexists; split; [vm_compute; reflexivity|].
  assert (Htries : 1 <= Encoding.MaxTries (encoding Toy.toy_xmss))
    by (cbn; lia).
  match goal with
  | |- Sign ?g ?r ?c ?sk ?e ?m = Some (inr ?s) /\ _ =>
      assert (Hs : Sign g r c sk e m = Some (inr s)) by (vm_compute; reflexivity)
  end.
  split; [exact Hs|].
  destruct (Sign_signature Toy.toy_xmss _ _ _ _ _ _ Htries Hs)
    as (_ & Hp & Hh & _).
  split; [exact Hh|exact Hp].
Defined.

End SignFacts.
(* ================================================================= *)
(** ** The layers partition the hypercube, and the numbering is a bijection *)

Module HypercubeBijection.
Import Hypercube HypercubeSpec HypercubeFacts TopLevelFacts.

(** *** More about finite sums *)

Lemma zsum_zero f lo hi :
  (forall k, lo <= k <= hi -> f k = 0) -> zsum f lo hi = 0.
Proof.
  intros H.
  assert (0 <= zsum f lo hi) by (apply zsum_nonneg; intros k Hk; rewrite H; lia).
  assert (0 <= zsum (fun k => - f k) lo hi)
    by (apply zsum_nonneg; intros k Hk; rewrite H; lia).
  assert (E : zsum (fun k => - f k) lo hi = - zsum f lo hi).
  { unfold zsum; generalize (Z.to_nat (hi + 1 - lo)) as n; clear.
    intros n; revert lo; induction n as [|n IH]; intros lo; cbn [zsum_n];
      [reflexivity|rewrite IH; lia]. }
  lia.
Qed.

Lemma zsum_add f g lo hi :
  zsum (fun k => f k + g k) lo hi = zsum f lo hi + zsum g lo hi.
Proof.
  unfold zsum; generalize (Z.to_nat (hi + 1 - lo)) as n.
  intros n; revert lo; induction n as [|n IH]; intros lo; cbn [zsum_n];
    [reflexivity|rewrite IH; lia].
Qed.

Lemma zsum_const c lo hi : lo <= hi + 1 -> zsum (fun _ => c) lo hi = c * (hi + 1 - lo).
Proof.
  intros H; unfold zsum.
  replace (hi + 1 - lo) with (Z.of_nat (Z.to_nat (hi + 1 - lo))) at 2 by lia.
  generalize (Z.to_nat (hi + 1 - lo)) as n; clear.
  intros n; revert lo; induction n as [|n IH]; intros lo; cbn [zsum_n];
    [lia|rewrite IH; lia].
Qed.

Lemma zsum_shift f j lo hi :
  zsum (fun d => f (d - j)) lo hi = zsum f (lo - j) (hi - j).
Proof.
  unfold zsum; replace (hi - j + 1 - (lo - j)) with (hi + 1 - lo) by lia.
  generalize (Z.to_nat (hi + 1 - lo)) as n.
  intros n; revert lo; induction n as [|n IH]; intros lo; cbn [zsum_n];
    [reflexivity|].
  rewrite IH; do 2 f_equal; lia.
Qed.

Lemma zsum_swap (G : Z -> Z -> Z) a b c e :
  zsum (fun d => zsum (G d) a b) c e
  = zsum (fun j => zsum (fun d => G d j) c e) a b.
Proof.
  destruct (Z_lt_le_dec e c) as [Hlt|Hle].
  - rewrite zsum_empty by lia.
    symmetry; apply zsum_zero; intros k _; apply zsum_empty; lia.
  - remember (Z.to_nat (e - c)) as n eqn:Hn.
    revert e Hle Hn; induction n as [|n IH]; intros e Hle Hn.
    + assert (e = c) by lia; subst e.
      rewrite (zsum_first _ c c), (zsum_empty _ (c + 1) c) by lia.
      rewrite Z.add_0_r; apply zsum_ext; intros j _.
      rewrite (zsum_first _ c c), (zsum_empty _ (c + 1) c) by lia; lia.
    + rewrite (zsum_last _ c e) by lia.
      rewrite (IH (e - 1)) by lia.
      rewrite <- zsum_add; apply zsum_ext; intros j _.
      rewrite (zsum_last _ c e) by lia; reflexivity.
Qed.

(** A sum over a range equals the sum over a smaller range outside of
    which the terms vanish. *)
Lemma zsum_support f lo hi lo' hi' :
  lo <= lo' -> lo' <= hi' + 1 -> hi' <= hi ->
  (forall k, lo <= k < lo' -> f k = 0) ->
  (forall k, hi' < k <= hi -> f k = 0) ->
  zsum f lo hi = zsum f lo' hi'.
Proof.
  intros H1 H2 H3 Hlow Hhigh.
  rewrite (zsum_split f lo (lo' - 1) hi) by lia.
  replace (lo' - 1 + 1) with lo' by lia.
  rewrite (zsum_split f lo' hi' hi) by lia.
  rewrite (zsum_zero f lo) by (intros k Hk; apply Hlow; lia).
  rewrite (zsum_zero f (hi' + 1)) by (intros k Hk; apply Hhigh; lia).
  lia.
Qed.

(** *** The table outside its layers, and the window of the recurrence *)

Lemma sz_outside w tbl r k :
  table_ok w tbl -> 1 <= r <= MaxDimension ->
  k < 0 \/ (w - 1) * r < k -> sz tbl r k = 0.
Proof.
  intros (_ & Hdim & _) Hr Hk.
  destruct (Hdim r Hr) as (info & Hinfo & Hlen & _).
  rewrite (sz_at _ _ _ _ Hinfo); unfold at0.
  destruct (idx (Sizes info) k) as [s|] eqn:E; [|reflexivity].
  apply idx_Some_range in E; lia.
Qed.

Lemma window_sum w tbl r d :
  table_ok w tbl -> 1 <= w -> 1 <= r -> r + 1 <= MaxDimension ->
  0 <= d <= (w - 1) * (r + 1) ->
  sz tbl (r + 1) d
  = zsum (fun j => sz tbl r (d - j))
      (Z.max 0 (d - (w - 1) * r)) (Z.min (w - 1) d).
Proof.
  intros Hok Hw Hr Hr1 Hd.
  pose proof Hok as (_ & _ & _ & Hrec).
  rewrite (Hrec (r + 1) ltac:(lia) d Hd), zsum_rev.
  replace (r + 1 - 1) with r by lia.
  f_equal; lia.
Qed.

(** The window may be widened to all first coordinates. *)
Lemma full_window_sum w tbl r d :
  table_ok w tbl -> 1 <= w -> 1 <= r -> r + 1 <= MaxDimension ->
  0 <= d <= (w - 1) * (r + 1) ->
  sz tbl (r + 1) d = zsum (fun j => sz tbl r (d - j)) 0 (w - 1).
Proof.
  intros Hok Hw Hr Hr1 Hd.
  rewrite (window_sum w tbl r d) by assumption.
  assert (0 <= (w - 1) * r) by nia.
  symmetry; apply zsum_support; try lia.
  - intros k Hk; apply (sz_outside w); [assumption|lia|right; lia].
  - intros k Hk; apply (sz_outside w); [assumption|lia|left; lia].
Qed.

Lemma total_size w tbl n :
  table_ok w tbl -> 1 <= w -> (1 <= n)%nat -> Z.of_nat n <= MaxDimension ->
  zsum (sz tbl (Z.of_nat n)) 0 ((w - 1) * Z.of_nat n) = w ^ Z.of_nat n.
Proof.
  intros Hok Hw Hn1; induction n as [|n IH]; [lia|]; intros Hmax.
  destruct n as [|n].
  - pose proof Hok as (_ & _ & Hone & _).
    change (Z.of_nat 1) with 1; rewrite Z.mul_1_r, Z.pow_1_r.
    rewrite (zsum_ext _ (fun _ => 1)) by (intros k Hk; apply Hone; lia).
    rewrite zsum_const by lia; lia.
  - set (r := Z.of_nat (S n)) in *.
    assert (Hr : 1 <= r) by lia.
    replace (Z.of_nat (S (S n))) with (r + 1) in * by lia.
    assert (Hm : 0 <= (w - 1) * r) by nia.
    rewrite (zsum_ext _ (fun d => zsum (fun j => sz tbl r (d - j)) 0 (w - 1)))
      by (intros d Hd; apply full_window_sum; try assumption; lia).
    rewrite zsum_swap.
    rewrite (zsum_ext _ (fun _ => w ^ r)).
    + rewrite zsum_const by lia.
      rewrite Z.pow_add_r by lia; lia.
    + intros j Hj.
      rewrite (zsum_shift (sz tbl r) j), <- IH by lia.
      apply zsum_support; try lia.
      * intros k Hk; apply (sz_outside w); [assumption|lia|left; lia].
      * intros k Hk; apply (sz_outside w); [assumption|lia|right; lia].
Qed.

(** *** The numbering is injective and onto *)

Lemma zsum_mono_hi f lo m hi :
  lo <= m + 1 -> m <= hi -> (forall k, m < k <= hi -> 0 <= f k) ->
  zsum f lo m <= zsum f lo hi.
Proof.
  intros H1 H2 Hf.
  rewrite (zsum_split f lo m hi) by lia.
  assert (0 <= zsum f (m + 1) hi) by (apply zsum_nonneg; intros k Hk; apply Hf; lia).
  lia.
Qed.

Lemma vertex_index_bound tbl w a : forall x d,
  table_ok w tbl -> 1 <= w -> len a <= MaxDimension ->
  vertex_index tbl w a x d ->
  0 <= x < sz tbl (len a) d /\ 0 <= d <= (w - 1) * len a.
Proof.
  induction a as [|ai rest IH]; intros x d Hok Hw Hlen H; [destruct H|].
  destruct rest as [|t tl].
  - cbn [vertex_index] in H; destruct H as [Hai [-> ->]].
    pose proof Hok as (_ & _ & Hone & _).
    change (len [ai]) with 1; rewrite Hone by lia; lia.
  - cbn [vertex_index] in H; destruct H as [Hai H].
    cbv zeta in H; destruct H as (x' & Hvi & Hd' & Hjs & Hx' & Hx).
    set (rest := t :: tl) in *.
    set (r := len rest) in *.
    assert (Hr : 1 <= r) by (subst r rest; rewrite len_cons; pose proof (len_nonneg tl); lia).
    assert (Hlr : len (ai :: rest) = r + 1) by (rewrite len_cons; lia).
    rewrite Hlr in *.
    destruct (IH x' (d - (w - 1 - ai)) Hok Hw ltac:(fold r; lia) Hvi)
      as [Hxb _]; fold r in Hxb.
    split; [|nia].
    rewrite (window_sum w tbl r d) by (try assumption; nia).
    set (ji := w - 1 - ai) in *.
    set (F := fun j => sz tbl r (d - j)) in *.
    assert (Hnn : forall k, Z.max 0 (d - (w - 1) * r) <= k <= Z.min (w - 1) d ->
                    0 <= F k).
    { intros k Hk; subst F; cbv beta.
      pose proof (sz_ge_1 w tbl r (d - k) Hok ltac:(lia) ltac:(lia)); lia. }
    assert (0 <= zsum F (Z.max 0 (d - (w - 1) * r)) (ji - 1))
      by (apply zsum_nonneg; intros k Hk; apply Hnn; lia).
    split; [lia|].
    assert (zsum F (Z.max 0 (d - (w - 1) * r)) ji
            <= zsum F (Z.max 0 (d - (w - 1) * r)) (Z.min (w - 1) d))
      by (apply zsum_mono_hi; [lia|lia|intros k Hk; apply Hnn; lia]).
    rewrite (zsum_last F _ ji) in * by lia.
    subst F; cbv beta in *; lia.
Qed.

Lemma vertex_index_unique tbl w a : forall a' x d,
  table_ok w tbl -> 1 <= w -> len a <= MaxDimension -> len a = len a' ->
  vertex_index tbl w a x d -> vertex_index tbl w a' x d -> a = a'.
Proof.
  induction a as [|ai rest IH]; intros a' x d Hok Hw Hmax Hlen H H';
    [destruct H|].
  destruct a' as [|ai' rest']; [destruct H'|].
  rewrite !len_cons in Hlen.
  destruct rest as [|t tl]; destruct rest' as [|t' tl'];
    try (rewrite ?len_cons in Hlen; change (len (@nil Z)) with 0 in Hlen;
         pose proof (len_nonneg tl'); lia);
    try (rewrite ?len_cons in Hlen; change (len (@nil Z)) with 0 in Hlen;
         pose proof (len_nonneg tl); lia).
  - cbn [vertex_index] in H, H'.
    destruct H as [_ [_ H]]; destruct H' as [_ [_ H']]; f_equal; lia.
  - cbn [vertex_index] in H, H'.
    destruct H as [Hai H]; destruct H' as [Hai' H'].
    cbv zeta in H, H'.
    destruct H as (x1 & Hvi & Hd1 & Hjs & Hx1 & Hx).
    destruct H' as (x2 & Hvi' & Hd2 & Hjs' & Hx2 & Hx').
    set (rest := t :: tl) in *; set (rest' := t' :: tl') in *.
    assert (Hr : len rest' = len rest) by lia.
    rewrite Hr in *.
    set (r := len rest) in *.
    assert (Hr1 : 1 <= r)
      by (subst r rest; rewrite len_cons; pose proof (len_nonneg tl); lia).
    assert (Hrm : r <= MaxDimension) by (rewrite len_cons in Hmax; lia).
    destruct (vertex_index_bound tbl w rest _ _ Hok Hw ltac:(fold r; lia) Hvi)
      as [Hb1 _]; fold r in Hb1.
    destruct (vertex_index_bound tbl w rest' _ _ Hok Hw ltac:(lia) Hvi')
      as [Hb2 _]; rewrite Hr in Hb2; fold r in Hb2.
    set (ji := w - 1 - ai) in *; set (ji' := w - 1 - ai') in *.
    set (js := Z.max 0 (d - (w - 1) * r)) in *.
    set (F := fun j => sz tbl r (d - j)) in *.
    assert (Hnn : forall k, js <= k -> k <= ji \/ k <= ji' -> 0 <= F k).
    { intros k Hk1 Hk2; subst F; cbv beta.
      pose proof (sz_ge_1 w tbl r (d - k) Hok ltac:(lia) ltac:(lia)); lia. }
    assert (Hji : ji = ji').
    { destruct (Z.lt_trichotomy ji ji') as [Hlt|[?|Hgt]]; [|assumption|].
      - exfalso.
        assert (zsum F js ji <= zsum F js (ji' - 1))
          by (apply zsum_mono_hi; [lia|lia|intros k Hk; apply Hnn; lia]).
        rewrite (zsum_last F js ji) in * by lia.
        subst F; cbv beta in *; lia.
      - exfalso.
        assert (zsum F js ji' <= zsum F js (ji - 1))
          by (apply zsum_mono_hi; [lia|lia|intros k Hk; apply Hnn; lia]).
        rewrite (zsum_last F js ji') in * by lia.
        subst F; cbv beta in *; lia. }
    assert (ai = ai') by lia; subst ai'.
    fold ji in Hx'; rewrite <- Hji in *.
    assert (x1 = x2) by lia; subst x2.
    f_equal.
    apply (IH rest' x1 (d - ji)); try assumption; lia.
Qed.

Lemma fold_add_cons a l : fold_left Z.add (a :: l) 0 = a + fold_left Z.add l 0.
Proof.
  cbn [fold_left]; rewrite IncomparableFacts.fold_add_acc; lia.
Qed.

Lemma vertex_index_exists tbl w a :
  table_ok w tbl -> 1 <= w -> 1 <= len a <= MaxDimension ->
  Forall (fun ai => 0 <= ai <= w - 1) a ->
  exists x, vertex_index tbl w a x ((w - 1) * len a - fold_left Z.add a 0).
Proof.
  intros Hok Hw Hlen Ha; induction Ha as [|ai rest Hai Hrest IH];
    [change (len (@nil Z)) with 0 in Hlen; lia|].
  destruct rest as [|t tl].
  - exists 0; cbn; lia.
  - set (rest := t :: tl) in *.
    assert (Hr1 : 1 <= len rest)
      by (subst rest; rewrite len_cons; pose proof (len_nonneg tl); lia).
    rewrite len_cons in Hlen.
    destruct (IH ltac:(lia)) as [x' Hvi].
    destruct (vertex_index_bound tbl w rest _ _ Hok Hw ltac:(lia) Hvi)
      as [Hxb Hdb].
    set (r := len rest) in *.
    set (d' := (w - 1) * r - fold_left Z.add rest 0) in *.
    rewrite len_cons, fold_add_cons; fold r.
    replace ((w - 1) * (1 + r) - (ai + fold_left Z.add rest 0))
      with (d' + (w - 1 - ai)) by (subst d'; lia).
    exists (x' + zsum (fun j => sz tbl r (d' + (w - 1 - ai) - j))
                   (Z.max 0 (d' + (w - 1 - ai) - (w - 1) * r)) (w - 1 - ai - 1)).
    cbn [vertex_index]; split; [exact Hai|].
    fold rest; unfold rest at 1; cbv zeta; fold rest; fold r.
    exists x'.
    replace (d' + (w - 1 - ai) - (w - 1 - ai)) with d' by lia.
    split; [exact Hvi|].
    split; [lia|split; [lia|split; [lia|reflexivity]]].
Qed.

(** *** The properties *)

(** X15: the numbering of a layer is onto and [MapToVertex] inverts
    [MapToInteger].  Every vector of [v] coordinates in [0, w-1] is a
    vertex of the layer [d = (w-1)*v - sum]: [MapToInteger] gives it a
    number below the layer's size, [MapToVertex] maps that number back to
    the vector, and [MapToInteger] panics on every other claimed layer. *)
Theorem MapToInteger_roundtrip (w v : Z) (a : list Z)
    (Hw : 2 <= w <= 256) (Hv : 1 <= v <= 100)
    (Hlen : len a = v)
    (Ha : Forall (fun ai => 0 <= ai <= w - 1) a) :
  exists x size,
    layer_size_at w v ((w - 1) * v - fold_left Z.add a 0) = Some size
    /\ MapToInteger w v ((w - 1) * v - fold_left Z.add a 0) a = Some x
    /\ 0 <= x < size
    /\ MapToVertex w v ((w - 1) * v - fold_left Z.add a 0) x = Some a
    /\ forall d', d' <> (w - 1) * v - fold_left Z.add a 0 ->
         MapToInteger w v d' a = None.
Proof.
  destruct (table_total w ltac:(lia)) as (tbl & Htbl & Hok).
  assert (Hmax : 1 <= len a <= MaxDimension) by (unfold MaxDimension; lia).
  destruct (vertex_index_exists tbl w a Hok ltac:(lia) Hmax Ha) as [x Hvi].
  rewrite Hlen in Hvi.
  set (d := (w - 1) * v - fold_left Z.add a 0) in *.
  destruct (vertex_index_bound tbl w a x d Hok ltac:(lia) ltac:(lia) Hvi)
    as [Hx Hd].
  rewrite Hlen in Hx, Hd.
  destruct (layer_size_at_table w v d tbl Htbl Hok ltac:(lia)
              ltac:(unfold MaxDimension; lia) Hd) as [Hsz _].
  destruct (integer_loop_spec tbl w a x d Hok ltac:(lia) ltac:(lia) Hvi)
    as (last & Hlast & Hint).
  rewrite Hlen in Hlast, Hint.
  exists x, (sz tbl v d).
  split; [exact Hsz|split; [|split; [exact Hx|split]]].
  - unfold MapToInteger; rewrite Hlen, Z.eqb_refl, Hlast, Htbl, Hint.
    rewrite Z.eqb_refl; reflexivity.
  - destruct (MapToVertex_vertex w v d x tbl Htbl Hok Hw
                ltac:(unfold MaxDimension; lia) Hd Hx)
      as (a' & Hmap & Hlen' & Hvi').
    rewrite Hmap; f_equal; symmetry.
    apply (vertex_index_unique tbl w a a' x d); try assumption; lia.
  - intros d' Hne.
    unfold MapToInteger; rewrite Hlen, Z.eqb_refl, Hlast, Htbl, Hint.
    destruct (Z.eqb_spec d d'); [congruence|reflexivity].
Qed.

Lemma MapToInteger_roundtrip_witness :
  exists x size,
    layer_size_at 3 2 ((3 - 1) * 2 - fold_left Z.add [2; 0] 0) = Some size
    /\ MapToInteger 3 2 ((3 - 1) * 2 - fold_left Z.add [2; 0] 0) [2; 0] = Some x
    /\ 0 <= x < size
    /\ MapToVertex 3 2 ((3 - 1) * 2 - fold_left Z.add [2; 0] 0) x = Some [2; 0]
    /\ forall d', d' <> (3 - 1) * 2 - fold_left Z.add [2; 0] 0 ->
         MapToInteger 3 2 d' [2; 0] = None.
Proof.
  apply (MapToInteger_roundtrip 3 2 [2; 0]).
  - lia.
  - lia.
  - reflexivity.
  - repeat (constructor; [lia|]); constructor.
Defined.

(** X16: the layers partition the hypercube: the sizes of the layers
    [0 .. (w-1)*v] of dimension [v] add up to [w^v], the number of
    vertices of [[0, w-1]^v]. *)
Theorem HypercubePartSize_total (w v : Z)
    (Hw : 1 <= w) (Hv : 1 <= v <= 100) :
  HypercubePartSize w v ((w - 1) * v) = Some (w ^ v).
Proof.
  destruct (table_total w Hw) as (tbl & Htbl & Hok).
  destruct (HypercubePartSize_spec w v ((w - 1) * v) tbl Htbl Hok
              ltac:(unfold MaxDimension; lia) ltac:(nia)) as [E _].
  rewrite E; f_equal.
  pose proof (total_size w tbl (Z.to_nat v) Hok Hw ltac:(lia)
                ltac:(unfold MaxDimension; lia)) as Ht.
  rewrite Z2Nat.id in Ht by lia; exact Ht.
Qed.

Lemma HypercubePartSize_total_witness :
  HypercubePartSize 3 2 ((3 - 1) * 2) = Some (3 ^ 2).
Proof. apply (HypercubePartSize_total 3 2); lia. Defined.

(** X17: [HypercubeFindLayer] locates an index.  For [x] below [w^v] it
    returns the layer [d] whose block of indices contains [x] and the
    offset of [x] in the block: the layers before [d] hold [x - offset]
    vertices, and the offset is below the size of layer [d]. *)
Theorem HypercubeFindLayer_locates (w v x : Z)
    (Hw : 1 <= w) (Hv : 1 <= v <= 100) (Hx : 0 <= x < w ^ v) :
  exists d offset size,
    HypercubeFindLayer w v x = Some (d, offset)
    /\ 0 <= d <= (w - 1) * v
    /\ layer_size_at w v d = Some size
    /\ 0 <= offset < size
    /\ HypercubePartSize w v d = Some (x - offset + size)
    /\ (d = 0 -> offset = x)
    /\ (0 < d -> HypercubePartSize w v (d - 1) = Some (x - offset)).
Proof.
  destruct (table_total w Hw) as (tbl & Htbl & Hok).
  assert (HvM : 1 <= v <= MaxDimension) by (unfold MaxDimension; lia).
  assert (Hm : 0 <= (w - 1) * v) by nia.
  pose proof (total_size w tbl (Z.to_nat v) Hok Hw ltac:(lia) ltac:(lia)) as Ht.
  rewrite Z2Nat.id in Ht by lia.
  pose proof Hok as (_ & Hdim & _).
  destruct (Hdim v HvM) as (info & Hinfo & Hlen & Hp & _).
  assert (Hpl : len (PrefixSums info) = (w - 1) * v + 1)
    by (rewrite Hp, prefix_sums_len; exact Hlen).
  assert (Hps : forall d, 0 <= d <= (w - 1) * v ->
            idx (PrefixSums info) d = Some (zsum (sz tbl v) 0 d))
    by (intros d Hd; eapply prefix_sum_at; eassumption).
  assert (Hpart : forall d, 0 <= d <= (w - 1) * v ->
            HypercubePartSize w v d = Some (zsum (sz tbl v) 0 d)).
  { intros d Hd; unfold HypercubePartSize; rewrite Htbl, Hinfo; auto. }
  unfold HypercubeFindLayer; rewrite Htbl, Hinfo, Hpl.
  replace ((w - 1) * v + 1 - 1) with ((w - 1) * v) by lia.
  rewrite (Hps ((w - 1) * v)) by lia.
  destruct (Z.geb_spec x (zsum (sz tbl v) 0 ((w - 1) * v))); [lia|].
  destruct (partition_point_spec (PrefixSums info) x
              (length (PrefixSums info)) 0)
    as (Hd & (q & Hq & Hxq) & Hbelow).
  { unfold len; lia. }
  { lia. }
  { exists ((w - 1) * v), (zsum (sz tbl v) 0 ((w - 1) * v)).
    split; [lia|split; [apply Hps; lia|lia]]. }
  { intros k q Hk; lia. }
  set (d := partition_point (PrefixSums info) x (length (PrefixSums info)) 0)
    in *.
  rewrite Hps in Hq by lia; injection Hq as <-.
  destruct (layer_size_at_table w v d tbl Htbl Hok Hw HvM ltac:(lia))
    as [Hsz _].
  destruct (Z.eqb_spec d 0) as [E|Hne].
  - exists 0, x, (sz tbl v 0); rewrite E in *.
    rewrite zsum_first, zsum_empty in Hxq by lia.
    split; [reflexivity|split; [lia|split; [exact Hsz|split; [lia|]]]].
    split; [|split; [reflexivity|lia]].
    rewrite Hpart, zsum_first, zsum_empty by lia; f_equal; lia.
  - rewrite (Hps (d - 1)) by lia.
    exists d, (x - zsum (sz tbl v) 0 (d - 1)), (sz tbl v d).
    pose proof (Hbelow (d - 1) _ ltac:(lia) (Hps (d - 1) ltac:(lia))).
    rewrite zsum_last in Hxq by lia.
    split; [reflexivity|split; [lia|split; [exact Hsz|split; [lia|]]]].
    split; [|split; [lia|]].
    + rewrite Hpart, (zsum_last _ 0 d) by lia; f_equal; lia.
    + intros _; rewrite Hpart by lia; f_equal; lia.
Qed.

Lemma HypercubeFindLayer_locates_witness :
  exists d offset size,
    HypercubeFindLayer 3 2 5 = Some (d, offset)
    /\ 0 <= d <= (3 - 1) * 2
    /\ layer_size_at 3 2 d = Some size
    /\ 0 <= offset < size
    /\ HypercubePartSize 3 2 d = Some (5 - offset + size)
    /\ (d = 0 -> offset = 5)
    /\ (0 < d -> HypercubePartSize 3 2 (d - 1) = Some (5 - offset)).
Proof. apply (HypercubeFindLayer_locates 3 2 5); lia. Defined.

End HypercubeBijection.
(* ================================================================= *)
(** ** [binomial] is exact *)

Module LayersFacts.
Import Layers.

Lemma choose_0 n : choose n 0 = 1.
Proof. destruct n; reflexivity. Qed.

Lemma choose_gt n : forall k, (n < k)%nat -> choose n k = 0.
Proof.
  induction n as [|n IH]; intros [|k] H; try lia; cbn [choose]; [reflexivity|].
  rewrite !IH by lia; reflexivity.
Qed.

Lemma choose_diag n : choose n n = 1.
Proof.
  induction n as [|n IH]; [reflexivity|].
  cbn [choose]; rewrite IH, choose_gt by lia; reflexivity.
Qed.

Lemma choose_step n : forall k,
  Z.of_nat (S k) * choose n (S k) = (Z.of_nat n - Z.of_nat k) * choose n k.
Proof.
  induction n as [|n IH]; intros k.
  - destruct k; cbn [choose]; lia.
  - destruct k as [|k].
    + pose proof (IH 0%nat) as H0.
      change (choose (S n) 1) with (choose n 0 + choose n 1).
      rewrite !choose_0 in *.
      change (Z.of_nat 1) with 1 in *; change (Z.of_nat 0) with 0 in *.
      rewrite Nat2Z.inj_succ; lia.
    + pose proof (IH k) as H1; pose proof (IH (S k)) as H2.
      change (choose (S n) (S (S k))) with (choose n (S k) + choose n (S (S k))).
      change (choose (S n) (S k)) with (choose n k + choose n (S k)).
      rewrite !Nat2Z.inj_succ in *; nia.
Qed.

Lemma choose_fact n : forall k, (k <= n)%nat ->
  choose n k * Z.of_nat (fact k) * Z.of_nat (fact (n - k)) = Z.of_nat (fact n).
Proof.
  induction k as [|k IH]; intros Hk.
  - rewrite choose_0, Nat.sub_0_r; cbn [fact]; lia.
  - specialize (IH ltac:(lia)).
    pose proof (choose_step n k) as Hs.
    replace (n - k)%nat with (S (n - S k)) in IH by lia.
    cbn [fact] in IH |- *.
    rewrite !Nat2Z.inj_mul in *.
    rewrite <- IH.
    replace (Z.of_nat n - Z.of_nat k) with (Z.of_nat (S (n - S k))) in Hs by lia.
    replace (choose n (S k) * (Z.of_nat (S k) * Z.of_nat (fact k))
             * Z.of_nat (fact (n - S k)))
      with ((Z.of_nat (S k) * choose n (S k)) * Z.of_nat (fact k)
            * Z.of_nat (fact (n - S k))) by ring.
    rewrite Hs; ring.
Qed.

Lemma binomial_loop_spec n m : forall i,
  (i + m <= n)%nat ->
  binomial_loop (Z.of_nat n) m (Z.of_nat i) (choose n i) = choose n (i + m).
Proof.
  induction m as [|m IH]; intros i Hi; cbn [binomial_loop].
  - rewrite Nat.add_0_r; reflexivity.
  - replace (choose n i * (Z.of_nat n - Z.of_nat i) / (Z.of_nat i + 1))
      with (choose n (S i)).
    + replace (Z.of_nat i + 1) with (Z.of_nat (S i)) by lia.
      rewrite IH by lia; f_equal; lia.
    + pose proof (choose_step n i) as Hs.
      apply Z.div_unique_exact; [lia|].
      rewrite Nat2Z.inj_succ in Hs; lia.
Qed.

(** X18: [binomial(n, k)] is the binomial coefficient, for [0 <= k <= n]:
    multiplied by [k!] and [(n-k)!] it gives [n!].  Every division in its
    loop is exact, so nothing is lost to rounding; it is the entry of
    Pascal's triangle. *)
Theorem binomial_exact (n k : Z) (Hk : 0 <= k <= n) :
  binomial n k = choose (Z.to_nat n) (Z.to_nat k)
  /\ binomial n k * Z.of_nat (fact (Z.to_nat k))
       * Z.of_nat (fact (Z.to_nat (n - k)))
     = Z.of_nat (fact (Z.to_nat n)).
Proof.
  assert (E : binomial n k = choose (Z.to_nat n) (Z.to_nat k)).
  { unfold binomial.
    destruct (Z.gtb_spec k n); [lia|]; destruct (Z.ltb_spec k 0); [lia|].
    cbn [orb].
    destruct (Z.eqb_spec k 0) as [->|]; [symmetry; apply choose_0|].
    destruct (Z.eqb_spec k n) as [->|]; [cbn [orb]; rewrite choose_diag; reflexivity|].
    cbn [orb].
    pose proof (binomial_loop_spec (Z.to_nat n) (Z.to_nat k) 0 ltac:(lia)) as Hl.
    rewrite choose_0, Z2Nat.id in Hl by lia; exact Hl. }
  split; [exact E|].
  rewrite E, Z2Nat.inj_sub by lia.
  apply choose_fact; lia.
Qed.

Lemma binomial_exact_witness :
  binomial 5 2 = choose (Z.to_nat 5) (Z.to_nat 2)
  /\ binomial 5 2 * Z.of_nat (fact (Z.to_nat 2))
       * Z.of_nat (fact (Z.to_nat (5 - 2)))
     = Z.of_nat (fact (Z.to_nat 5)).
Proof. apply (binomial_exact 5 2); lia. Defined.

End LayersFacts.
(* ================================================================= *)
(** ** The SHA3 hashes *)

Module SHA3Facts.
Import Th Digits DigitsFacts ChunksFacts.

Lemma digits_mod b n x :
  0 < b -> digits_le b n (x mod b ^ Z.of_nat n) = digits_le b n x.
Proof.
  intros Hb.
  apply (value_inj b); try (apply digits_range; exact Hb); [lia| |].
  - pose proof (digits_len b n (x mod b ^ Z.of_nat n)) as H1.
    pose proof (digits_len b n x) as H2; unfold len in *; lia.
  - rewrite !value_digits by exact Hb.
    apply Z.mod_mod; apply Z.pow_nonzero; lia.
Qed.

Section WithSHA3.
Variable SHA3_256 : list Z -> list Z.
Hypothesis SHA3_256_bytes :
  forall m, len (SHA3_256 m) = 32 /\ Forall is_u8 (SHA3_256 m).

(** The chunks [Apply] returns when the digest has enough bits. *)
Lemma Apply_digits (s : SHA3MH.SHA3MessageHash) P epoch rho msg :
  In (SHA3MH.chunkSize s) [1; 2; 4; 8] ->
  0 <= SHA3MH.dimension s ->
  SHA3MH.dimension s * SHA3MH.chunkSize s <= 256 ->
  SHA3MH.Apply SHA3_256 s P epoch rho msg
  = Some (digits_le (2 ^ SHA3MH.chunkSize s) (Z.to_nat (SHA3MH.dimension s))
            (value_le 256
               (SHA3_256 (rho ++ P ++ Tweak.MessageTweak epoch ++ msg)))).
Proof.
  intros Hcs Hdim Hfit.
  unfold SHA3MH.Apply.
  set (h := SHA3_256 (rho ++ P ++ Tweak.MessageTweak epoch ++ msg)).
  destruct (SHA3_256_bytes (rho ++ P ++ Tweak.MessageTweak epoch ++ msg))
    as [Hlen Hu]; fold h in Hlen, Hu.
  set (cs := SHA3MH.chunkSize s) in *; set (dim := SHA3MH.dimension s) in *.
  assert (Hcs' : 1 <= cs <= 8)
    by (cbn [In] in Hcs; destruct Hcs as [<-|[<-|[<-|[<-|[]]]]]; lia).
  rewrite i64_id by (unfold is_int; nia).
  destruct (TruncateBits_in_range h (dim * cs) Hu ltac:(nia) ltac:(nia))
    as (res & E & Hl & Hru & Hv).
  rewrite E, BytesToChunks_digits by assumption.
  rewrite digits_len.
  assert (Hp : 0 < 2 ^ cs) by (apply Z.pow_pos_nonneg; lia).
  assert (Hn : Z.of_nat (length res * Z.to_nat (8 / cs)) = len res * (8 / cs)).
  { rewrite Nat2Z.inj_mul, Z2Nat.id; [reflexivity|].
    apply Z.div_pos; lia. }
  assert (Hge : dim <= len res * (8 / cs)).
  { rewrite Hl.
    cbn [In] in Hcs; destruct Hcs as [<-|[<-|[<-|[<-|[]]]]].
    - change (8 / 1) with 8.
      pose proof (Z.div_mod (dim * 1 + 7) 8 ltac:(lia)).
      pose proof (Z.mod_pos_bound (dim * 1 + 7) 8 ltac:(lia)); lia.
    - change (8 / 2) with 4.
      pose proof (Z.div_mod (dim * 2 + 7) 8 ltac:(lia)).
      pose proof (Z.mod_pos_bound (dim * 2 + 7) 8 ltac:(lia)); lia.
    - change (8 / 4) with 2.
      pose proof (Z.div_mod (dim * 4 + 7) 8 ltac:(lia)).
      pose proof (Z.mod_pos_bound (dim * 4 + 7) 8 ltac:(lia)); lia.
    - change (8 / 8) with 1.
      pose proof (Z.div_mod (dim * 8 + 7) 8 ltac:(lia)).
      pose proof (Z.mod_pos_bound (dim * 8 + 7) 8 ltac:(lia)); lia. }
  assert (Hdig : digits_le (2 ^ cs) (Z.to_nat dim) (value_le 256 res)
                 = digits_le (2 ^ cs) (Z.to_nat dim) (value_le 256 h)).
  { rewrite Hv.
    replace (2 ^ (dim * cs)) with ((2 ^ cs) ^ Z.of_nat (Z.to_nat dim))
      by (rewrite Z2Nat.id, <- Z.pow_mul_r by lia; f_equal; lia).
    apply digits_mod; exact Hp. }
  rewrite Hn.
  destruct (Z.gtb_spec (len res * (8 / cs)) dim) as [Hgt|Hle].
  - unfold Winternitz.slice_to; rewrite digits_len, Hn.
    destruct (Z.ltb_spec dim 0); [lia|].
    destruct (Z.ltb_spec (len res * (8 / cs)) dim); [lia|].
    cbn [orb]; rewrite digits_firstn, Nat.min_l by lia.
    rewrite Hdig; reflexivity.
  - replace (length res * Z.to_nat (8 / cs))%nat with (Z.to_nat dim) by lia.
    rewrite Hdig; reflexivity.
Qed.

(** X19: with at most 256 bits asked of the digest, the SHA3 message hash
    returns exactly [Dimension()] chunks, each below [Base()]: chunk [k] is
    bits [k*w .. k*w + w - 1] of the digest of [R || P || T || M] read as a
    little-endian integer.  So it meets the contract the encodings and
    [Verify] rely on (TestSHA3MessageHash, TestSHA3MessageHashChunkSizes). *)
Theorem SHA3MessageHash_chunks (s : SHA3MH.SHA3MessageHash)
    (P : Params) (msg rho : list Z) (epoch : Z)
    (Hcs : In (SHA3MH.chunkSize s) [1; 2; 4; 8])
    (Hdim : 0 <= SHA3MH.dimension s)
    (Hfit : SHA3MH.dimension s * SHA3MH.chunkSize s <= 256) :
  exists chunks,
    MH.Hash (SHA3MH.as_message_hash SHA3_256 s) P msg rho epoch = Some chunks
    /\ len chunks = MH.Dimension (SHA3MH.as_message_hash SHA3_256 s)
    /\ Forall (fun c => 0 <= c < MH.Base (SHA3MH.as_message_hash SHA3_256 s))
              chunks
    /\ chunks
       = digits_le (2 ^ SHA3MH.chunkSize s) (Z.to_nat (SHA3MH.dimension s))
           (TopLevelPoseidon.le_value
              (SHA3_256 (rho ++ P ++ Tweak.MessageTweak epoch ++ msg))).
Proof.
  cbn [SHA3MH.as_message_hash MH.Hash MH.Dimension MH.Base].
  unfold SHA3MH.Hash; rewrite Apply_digits by assumption.
  rewrite le_value_is_value.
  assert (Hb : SHA3MH.Base s = 2 ^ SHA3MH.chunkSize s).
  { unfold SHA3MH.Base.
    cbn [In] in Hcs; destruct Hcs as [<-|[<-|[<-|[<-|[]]]]]; reflexivity. }
  eexists; split; [reflexivity|].
  split; [rewrite digits_len; lia|].
  split; [rewrite Hb; apply digits_range; rewrite <- Hb|reflexivity].
  unfold SHA3MH.Base.
  cbn [In] in Hcs; destruct Hcs as [<-|[<-|[<-|[<-|[]]]]]; reflexivity.
Qed.

(** X20: the constructor admits configurations the digest cannot serve.
    When [dimension * chunkSize] exceeds the 256 bits of the digest, the
    hash returns only [256 / chunkSize] chunks, fewer than [Dimension()]
    reports; [NewSHA3MessageHash] accepts such a configuration, for
    instance 256 chunks of 8 bits. *)
Theorem SHA3MessageHash_short_output
    (parameterLen randomnessLen dimension chunkSize : Z)
    (s : SHA3MH.SHA3MessageHash)
    (P : Params) (msg rho : list Z) (epoch : Z)
    (Hnew : SHA3MH.NewSHA3MessageHash parameterLen randomnessLen dimension
              chunkSize = Some s)
    (Hlong : 256 < dimension * chunkSize) :
  exists chunks,
    MH.Hash (SHA3MH.as_message_hash SHA3_256 s) P msg rho epoch = Some chunks
    /\ len chunks = 256 / chunkSize
    /\ len chunks < MH.Dimension (SHA3MH.as_message_hash SHA3_256 s).
Proof.
  unfold SHA3MH.NewSHA3MessageHash in Hnew.
  assert (Hcs : In chunkSize [1; 2; 4; 8]).
  { cbn [In].
    destruct (Z.eqb_spec chunkSize 1); [auto|].
    destruct (Z.eqb_spec chunkSize 2); [auto|].
    destruct (Z.eqb_spec chunkSize 4); [auto|].
    destruct (Z.eqb_spec chunkSize 8); [auto 6|discriminate]. }
  destruct (negb _); [discriminate|].
  destruct (Z.gtb_spec dimension 256); [discriminate|].
  injection Hnew as <-.
  cbn [SHA3MH.as_message_hash MH.Hash MH.Dimension].
  unfold SHA3MH.Hash, SHA3MH.Apply;
    cbn [SHA3MH.dimension SHA3MH.chunkSize].
  set (h := SHA3_256 (rho ++ P ++ Tweak.MessageTweak epoch ++ msg)).
  destruct (SHA3_256_bytes (rho ++ P ++ Tweak.MessageTweak epoch ++ msg))
    as [Hlen Hu]; fold h in Hlen, Hu.
  assert (Hcs' : 1 <= chunkSize <= 8)
    by (cbn [In] in Hcs; destruct Hcs as [<-|[<-|[<-|[<-|[]]]]]; lia).
  rewrite i64_id by (unfold is_int; nia).
  destruct (TruncateBits_beyond h (dimension * chunkSize) Hu ltac:(lia)
              ltac:(lia) ltac:(nia)) as (res & E & Hl & _).
  assert (Hru : Forall is_u8 res).
  { destruct (TruncateBits_shape h (dimension * chunkSize) Hu ltac:(lia)
                ltac:(nia)) as (res' & E' & _ & Hru & _).
    rewrite E in E'; injection E' as <-; exact Hru. }
  rewrite E, BytesToChunks_digits by assumption.
  rewrite digits_len.
  assert (Hn : Z.of_nat (length res * Z.to_nat (8 / chunkSize)) = 256 / chunkSize).
  { rewrite Nat2Z.inj_mul; fold (len res); rewrite Hl, Hlen.
    cbn [In] in Hcs; destruct Hcs as [<-|[<-|[<-|[<-|[]]]]]; reflexivity. }
  rewrite Hn.
  assert (Hlt : 256 / chunkSize < dimension)
    by (apply Z.div_lt_upper_bound; lia).
  destruct (Z.gtb_spec (256 / chunkSize) dimension); [lia|].
  eexists; split; [reflexivity|].
  rewrite digits_len; lia.
Qed.

(** X21: the SHA3 tweakable hash returns the first [hashLen] bytes of the
    digest of [P || T || M_1 || ... || M_k], so [OutputLen()] bytes for a
    hash length up to 32; beyond 32, which the constructor allows up to
    255, it returns the 32 bytes there are (TestSHA3Configurations,
    TestSHA3Truncation). *)
Theorem SHA3TweakableHash_Apply_length (s : SHA3TH.SHA3TweakableHash)
    (P : Params) (T : Tweak) (M : list Domain)
    (Hlen : 0 <= SHA3TH.hashLen s) :
  exists d,
    SHA3TH.Apply SHA3_256 s P T M = Some d
    /\ d = firstn (Z.to_nat (SHA3TH.hashLen s))
             (SHA3_256 (P ++ T ++ concat M))
    /\ len d = Z.min 32 (SHA3TH.OutputLen s).
Proof.
  unfold SHA3TH.Apply, SHA3TH.truncateBytes, SHA3TH.OutputLen.
  set (h := SHA3_256 (P ++ T ++ concat M)).
  destruct (SHA3_256_bytes (P ++ T ++ concat M)) as [Hl _]; fold h in Hl.
  destruct (Z.leb_spec (len h) (SHA3TH.hashLen s)).
  - exists h; split; [reflexivity|].
    split; [rewrite firstn_all2; [reflexivity|unfold len in *; lia]|lia].
  - unfold Winternitz.slice_to.
    destruct (Z.ltb_spec (SHA3TH.hashLen s) 0); [lia|].
    destruct (Z.ltb_spec (len h) (SHA3TH.hashLen s)); [lia|].
    cbn [orb]; eexists; split; [reflexivity|split; [reflexivity|]].
    unfold len in *; rewrite firstn_length_le; lia.
Qed.

End WithSHA3.

Lemma toy_sha3_bytes m :
  len (Toy.toy_sha3 m) = 32 /\ Forall is_u8 (Toy.toy_sha3 m).
Proof.
  unfold Toy.toy_sha3; split.
  - unfold len; rewrite length_map; fold (len (zrange 32)).
    rewrite zrange_len; reflexivity.
  - apply Forall_forall; intros x Hx; apply in_map_iff in Hx.
    destruct Hx as (k & <- & _); apply u8_range.
Qed.

Lemma SHA3MessageHash_chunks_witness :
  exists chunks,
    MH.Hash (SHA3MH.as_message_hash Toy.toy_sha3
               {| SHA3MH.parameterLen := 24; SHA3MH.randomnessLen := 24;
                  SHA3MH.dimension := 48; SHA3MH.chunkSize := 4 |})
      [1] [2] [3] 7 = Some chunks
    /\ len chunks = 48
    /\ Forall (fun c => 0 <= c < 16) chunks
    /\ chunks
       = digits_le (2 ^ 4) (Z.to_nat 48)
           (TopLevelPoseidon.le_value
              (Toy.toy_sha3 ([3] ++ [1] ++ Tweak.MessageTweak 7 ++ [2]))).
Proof.
  apply (SHA3MessageHash_chunks Toy.toy_sha3 toy_sha3_bytes
           {| SHA3MH.parameterLen := 24; SHA3MH.randomnessLen := 24;
              SHA3MH.dimension := 48; SHA3MH.chunkSize := 4 |} [1] [2] [3] 7).
  - cbn; auto.
  - cbn; lia.
  - cbn; lia.
Defined.

Lemma SHA3MessageHash_short_output_witness :
  exists chunks,
    MH.Hash (SHA3MH.as_message_hash Toy.toy_sha3
               {| SHA3MH.parameterLen := 24; SHA3MH.randomnessLen := 24;
                  SHA3MH.dimension := 256; SHA3MH.chunkSize := 8 |})
      [1] [2] [3] 7 = Some chunks
    /\ len chunks = 256 / 8
    /\ len chunks < 256.
Proof.
  apply (SHA3MessageHash_short_output Toy.toy_sha3 toy_sha3_bytes 24 24 256 8).
  - reflexivity.
  - lia.
Defined.

Lemma SHA3TweakableHash_Apply_length_witness :
  exists d,
    SHA3TH.Apply Toy.toy_sha3
      {| SHA3TH.parameterLen := 10; SHA3TH.hashLen := 17 |} [1] [2] [[3]; [4]]
    = Some d
    /\ d = firstn (Z.to_nat 17) (Toy.toy_sha3 ([1] ++ [2] ++ concat [[3]; [4]]))
    /\ len d = Z.min 32 17.
Proof.
  apply (SHA3TweakableHash_Apply_length Toy.toy_sha3 toy_sha3_bytes
           {| SHA3TH.parameterLen := 10; SHA3TH.hashLen := 17 |}).
  cbn; lia.
Defined.

End SHA3Facts.

(* ================================================================= *)
(** ** [th.randBytes]: all the bytes or a panic *)

Module ReaderFacts.
Import IO.

Lemma store_length (p got : list Z) : length (store p got) = length p.
Proof.
  unfold store; rewrite length_app, length_firstn, length_skipn; lia.
Qed.

Section WithReader.
Context {Rng : Type} (R : Reader Rng).

Lemma ReadFull_loop_length (fuel : nat) :
  forall rng done rest b err rng',
    ReadFull_loop R fuel rng done rest = Some ((b, err), rng') ->
    length b = (length done + length rest)%nat.
Proof.
  induction fuel as [|fuel IH]; intros rng done rest b err rng' H;
    destruct rest as [|r rest]; cbn [ReadFull_loop] in H;
    try discriminate;
    try (injection H as <- _ _; cbn [length]; lia).
  destruct (Read R rng (len (r :: rest))) as [[got e] rng1].
  cbv zeta in H.
  set (nn := Nat.min (length got) (length (r :: rest))) in *.
  pose proof (store_length (r :: rest) got) as Hs.
  destruct e.
  - injection H as <- _ _.
    rewrite !length_app, length_firstn, length_skipn. lia.
  - apply IH in H.
    rewrite H, length_app, length_firstn, length_skipn. lia.
Qed.

Lemma randBytes_length fuel rng n b rng' :
  randBytes R fuel rng n = Some (b, rng') -> 0 <= n /\ len b = n.
Proof.
  unfold randBytes, make_bytes, ReadFull.
  destruct (Z.ltb_spec n 0); [discriminate|].
  destruct (ReadFull_loop _ _ _ _ _) as [[[b' e] r']|] eqn:E; [|discriminate].
  destruct e; [discriminate|].
  intros H'; injection H' as <- <-.
  apply ReadFull_loop_length in E.
  cbn [length] in E; rewrite repeat_length in E.
  unfold len; lia.
Qed.

Lemma randBytes_first_read fuel rng n got err rng1 :
  1 <= n ->
  Read R rng n = ((got, err), rng1) ->
  (n <= len got ->
   randBytes R (S fuel) rng n = Some (firstn (Z.to_nat n) got, rng1))
  /\ (len got < n -> err = true -> randBytes R (S fuel) rng n = None).
Proof.
  intros Hn HR.
  unfold randBytes, make_bytes, ReadFull.
  destruct (Z.ltb_spec n 0); [lia|].
  destruct (Z.to_nat n) as [|k] eqn:Ek; [lia|].
  cbn [repeat ReadFull_loop].
  change (0 :: repeat 0 k) with (repeat 0 (S k)).
  assert (Hl : len (repeat 0 (S k)) = n)
    by (unfold len; rewrite repeat_length; lia).
  rewrite Hl, HR; cbv zeta.
  rewrite repeat_length.
  unfold len in *.
  split.
  - intros Hg.
    rewrite Nat.min_r by lia.
    assert (Hst : store (repeat 0 (S k)) got = firstn (S k) got).
    { unfold store; rewrite repeat_length.
      rewrite (skipn_all2 (n := length got)) by (rewrite repeat_length; lia).
      apply app_nil_r. }
    rewrite Hst.
    rewrite firstn_all2 by (rewrite length_firstn; lia).
    rewrite (skipn_all2 (n := S k)) by (rewrite length_firstn; lia).
    cbn [app].
    destruct err; cbn [app length Z.of_nat Z.eqb negb].
    + rewrite app_nil_r; reflexivity.
    + destruct fuel; reflexivity.
  - intros Hg ->.
    rewrite Nat.min_l by lia.
    set (rest := skipn (length got) (store (repeat 0 (S k)) got)).
    assert (Hr : length rest = (S k - length got)%nat).
    { unfold rest; rewrite length_skipn, store_length, repeat_length.
      reflexivity. }
    destruct (Z.eqb_spec (Z.of_nat (length rest)) 0); [lia|].
    reflexivity.
Qed.

(** X22: [randBytes] never hands back a short or partly filled buffer: a
    result has exactly the [n] bytes asked for, whatever the reader does;
    every other outcome is a panic.  When the first [Read] already covers
    the request the result is its first [n] bytes, even if that call also
    reported an error; when it falls short and reports an error,
    [randBytes] panics. *)
Theorem randBytes_all_or_panic (fuel : nat) (rng : Rng) (n : Z)
    (got : list Z) (err : bool) (rng1 : Rng)
    (Hn : 1 <= n)
    (Hread : Read R rng n = ((got, err), rng1)) :
  (forall b rng', randBytes R fuel rng n = Some (b, rng') -> len b = n)
  /\ (n <= len got ->
      randBytes R (S fuel) rng n = Some (firstn (Z.to_nat n) got, rng1))
  /\ (len got < n -> err = true -> randBytes R (S fuel) rng n = None).
Proof.
  split; [intros b rng' H; apply (randBytes_length _ _ _ _ _ H)|].
  exact (randBytes_first_read fuel rng n got err rng1 Hn Hread).
Qed.

End WithReader.

Lemma randBytes_all_or_panic_witness :
  (forall b rng', randBytes Toy.toy_reader 1 5 3 = Some (b, rng') -> len b = 3)
  /\ (3 <= len [5; 6; 7] ->
      randBytes Toy.toy_reader 2 5 3
      = Some (firstn (Z.to_nat 3) [5; 6; 7], 8))
  /\ (len [5; 6; 7] < 3 -> false = true ->
      randBytes Toy.toy_reader 2 5 3 = None).
Proof.
  apply (randBytes_all_or_panic Toy.toy_reader 1%nat 5 3 [5; 6; 7] false 8).
  - lia.
  - reflexivity.
Defined.

End ReaderFacts.

(* ================================================================= *)
(** ** The Poseidon sponge *)

Module SpongeFacts.
Import TopLevelPoseidon Sponge.

Lemma add_input_total js input i : forall state,
  (forall j, In j js -> 0 <= j < len state /\ 0 <= i + j < len input) ->
  exists state',
    add_input js input i state = Some state' /\ len state' = len state.
Proof.
  induction js as [|j js IH]; intros state H; cbn [add_input].
  - eauto.
  - destruct (H j (or_introl eq_refl)) as [Hj Hi].
    destruct (idx_in_range state j Hj) as [s ->].
    destruct (idx_in_range input (i + j) Hi) as [x ->].
    destruct (HypercubeFacts.set_idx_total state j (Element_Add s x) Hj)
      as [st Hst].
    rewrite Hst.
    destruct (HypercubeFacts.set_idx_spec _ _ _ _ Hst) as (Hl & _).
    destruct (IH st) as (st' & E & Hl').
    { intros k Hk; rewrite Hl; apply H; right; exact Hk. }
    exists st'; split; [exact E|lia].
Qed.

Section WithPermutation.
Variable permutation24 : list Z -> list Z.
Hypothesis permutation24_len :
  forall state, len state = 24 -> len (permutation24 state) = 24.

(** With a positive rate the absorb loop ends after at most
    [len(input)] iterations and keeps the width. *)
Lemma absorb_total fuel : forall rate input i state,
  1 <= rate <= 24 -> len state = 24 -> 0 <= i ->
  len input - i <= Z.of_nat fuel ->
  exists state',
    absorb permutation24 fuel rate input i state = Some state'
    /\ len state' = 24.
Proof.
  induction fuel as [|fuel IH]; intros rate input i state Hr Hs Hi Hf;
    cbn [absorb]; destruct (Z.ltb_spec i (len input)); cbn [negb];
    try (eexists; split; [reflexivity|assumption]); [lia|].
  set (end_ := if i + rate >? len input then len input else i + rate).
  assert (He : 0 <= end_ - i <= rate /\ end_ <= len input).
  { unfold end_; destruct (Z.gtb_spec (i + rate) (len input)); lia. }
  destruct (add_input_total (zrange (end_ - i)) input i state)
    as (st & E & Hl).
  { intros j Hj; apply zrange_In in Hj; lia. }
  rewrite E; unfold Permute; rewrite Hl, Hs; cbn [Z.eqb negb Pos.eqb].
  apply IH; try lia.
  apply permutation24_len; lia.
Qed.

Lemma poseidonSponge_total fuel outLen capacity input :
  len capacity < 24 -> 0 <= outLen <= 24 -> (length input <= fuel)%nat ->
  exists result,
    poseidonSponge permutation24 fuel outLen capacity input = Some result
    /\ len result = outLen.
Proof.
  intros Hc Ho Hf; unfold poseidonSponge.
  pose proof (len_nonneg capacity).
  destruct (Z.ltb_spec (24 - len capacity) 0); [lia|].
  destruct (absorb_total fuel (24 - len capacity) input 0
              (repeat 0 (Z.to_nat (24 - len capacity)) ++ capacity))
    as (st & E & Hl); try lia.
  { rewrite len_app; unfold len at 1; rewrite repeat_length; lia. }
  { unfold len; lia. }
  rewrite E.
  destruct (Z.ltb_spec outLen 0); [lia|].
  unfold Winternitz.slice_to.
  destruct (Z.ltb_spec outLen 0); [lia|].
  destruct (Z.ltb_spec (len st) outLen); [lia|].
  cbn [orb]; eexists; split; [reflexivity|].
  unfold len in *; rewrite firstn_length_le; lia.
Qed.

(** With the capacity filling the whole state the rate is zero and the
    absorb loop makes no progress: on a non-empty input no number of
    iterations ends it. *)
Lemma absorb_stuck fuel : forall input state,
  input <> [] -> len state = 24 ->
  absorb permutation24 fuel 0 input 0 state = None.
Proof.
  induction fuel as [|fuel IH]; intros input state Hi Hs; cbn [absorb];
    destruct (Z.ltb_spec 0 (len input)) as [Hlt|Hge]; cbn [negb];
    try reflexivity;
    try (destruct input; [congruence|rewrite len_cons in Hge;
                                      pose proof (len_nonneg input); lia]).
  rewrite Z.add_0_l.
  destruct (Z.gtb_spec 0 (len input)); [lia|].
  cbn [Z.sub Z.opp Z.add zrange Z.to_nat seq map add_input].
  unfold Permute; rewrite Hs; cbn [Z.eqb negb Pos.eqb].
  apply IH; [assumption|apply permutation24_len; assumption].
Qed.

Hypothesis permutation24_canonical :
  forall state, Forall (fun x => 0 <= x < p) (permutation24 state).

Lemma absorb_canonical fuel : forall rate input i state state',
  absorb permutation24 fuel rate input i state = Some state' ->
  Forall (fun x => 0 <= x < p) state ->
  Forall (fun x => 0 <= x < p) state'.
Proof.
  induction fuel as [|fuel IH]; intros rate input i state state' E Hs;
    cbn [absorb] in E; destruct (negb (i <? len input));
    try (injection E as <-; assumption); [discriminate|].
  destruct (add_input _ _ _ _) as [st|]; [|discriminate].
  unfold Permute in E; destruct (negb (len st =? 24)); [discriminate|].
  apply (IH _ _ _ _ _ E), permutation24_canonical.
Qed.

Lemma poseidonSponge_canonical fuel outLen capacity input result :
  poseidonSponge permutation24 fuel outLen capacity input = Some result ->
  Forall (fun x => 0 <= x < p) capacity ->
  Forall (fun x => 0 <= x < p) result.
Proof.
  unfold poseidonSponge; intros E Hc.
  destruct (24 - len capacity <? 0); [discriminate|].
  destruct (absorb _ _ _ _ _ _) as [st|] eqn:Ea; [|discriminate].
  destruct (outLen <? 0); [discriminate|].
  unfold Winternitz.slice_to in E.
  destruct (_ || _); [discriminate|]; injection E as <-.
  assert (Hst : Forall (fun x => 0 <= x < p) st).
  { apply (absorb_canonical _ _ _ _ _ _ Ea).
    apply Forall_app; split; [|assumption].
    apply Forall_forall; intros y Hy; apply repeat_spec in Hy; subst y.
    unfold p; lia. }
  clear Ea; revert st Hst; generalize (Z.to_nat outLen).
  induction n as [|n IH]; intros st Hst; destruct Hst as [|a st Ha Hst];
    cbn [firstn]; constructor; auto.
Qed.

End WithPermutation.
End SpongeFacts.

(* ================================================================= *)
(** ** The Poseidon message hash *)

Module PoseidonMHFacts.
Import Th Digits DigitsFacts.
Import PoseidonMH.

Local Abbreviation p := TopLevelPoseidon.p.

(** Packing a field above [k] low bits: the bitwise or is an addition. *)
Lemma lor_shiftl (hi lo k : Z) :
  0 <= k -> 0 <= lo < 2 ^ k -> Z.lor (Z.shiftl hi k) lo = hi * 2 ^ k + lo.
Proof.
  intros Hk Hlo.
  assert (Hd : Z.land (Z.shiftl hi k) lo = 0).
  { apply Z.bits_inj'; intros n Hn.
    rewrite Z.land_spec, Z.bits_0.
    destruct (Z.lt_ge_cases n k) as [Hlt|Hge].
    - rewrite Z.shiftl_spec_low by lia; reflexivity.
    - rewrite <- (Z.mod_small lo (2 ^ k)) by lia.
      rewrite Z.mod_pow2_bits_high by lia; apply andb_false_r. }
  rewrite <- Z.lxor_lor, <- Z.add_nocarry_lxor by exact Hd.
  rewrite Z.shiftl_mul_pow2 by lia; reflexivity.
Qed.

Lemma epoch_value epoch :
  is_u32 epoch ->
  u64 (Z.lor (u64 (Z.shiftl (u64 epoch) 8)) 2) = epoch * 256 + 2.
Proof.
  unfold is_u32, u64; intros H.
  rewrite (Z.mod_small epoch) by lia.
  rewrite Z.shiftl_mul_pow2 by lia.
  rewrite (Z.mod_small (epoch * 2 ^ 8)) by lia.
  rewrite <- Z.shiftl_mul_pow2, lor_shiftl by lia.
  apply Z.mod_small; lia.
Qed.

Lemma bytesToFieldElements_digits data n :
  0 <= n ->
  TopLevelPoseidon.bytesToFieldElements data n
  = Some (digits_le p (Z.to_nat n) (value_le 256 data)).
Proof.
  intros Hn; unfold TopLevelPoseidon.bytesToFieldElements.
  destruct (Z.ltb_spec n 0); [lia|].
  rewrite base_p_is_digits, le_value_is_value; reflexivity.
Qed.

Lemma epochToFieldElements_digits h epoch :
  0 <= tweakLenFE h -> is_u32 epoch ->
  epochToFieldElements h epoch
  = Some (digits_le p (Z.to_nat (tweakLenFE h)) (epoch * 256 + 2)).
Proof.
  intros Hn He; unfold epochToFieldElements.
  destruct (Z.ltb_spec (tweakLenFE h) 0); [lia|].
  rewrite base_p_is_digits, epoch_value by assumption; reflexivity.
Qed.

Lemma chunks_of_digits b n : forall acc,
  1 <= b <= 256 -> chunks_of n acc b = Some (digits_le b n acc).
Proof.
  induction n as [|n IH]; intros acc Hb; [reflexivity|].
  cbn [chunks_of digits_le]; unfold big_Mod, big_Div.
  destruct (Z.eqb_spec b 0); [lia|].
  rewrite Z.abs_eq by lia.
  assert (Hm : 0 <= acc mod b < b) by (apply Z.mod_pos_bound; lia).
  assert (Hq : (acc - acc mod b) / b = acc / b).
  { rewrite (Z.div_mod acc b) at 1 by lia.
    replace (b * (acc / b) + acc mod b - acc mod b) with (acc / b * b) by ring.
    apply Z.div_mul; lia. }
  rewrite Hq, IH by assumption.
  rewrite i64_id by (unfold is_int; lia).
  rewrite u8_id by (unfold is_u8; lia).
  reflexivity.
Qed.

Section WithPermutation.
Variable permutation24 : list Z -> list Z.
Hypothesis permutation24_len :
  forall state, len state = 24 -> len (permutation24 state) = 24.

Lemma Hash_digits (fuel : nat) (h : PoseidonMessageHash)
    (params msg rand : list Z) (epoch : Z) :
  0 <= parameterLen h -> 0 <= tweakLenFE h ->
  parameterLen h + tweakLenFE h < 24 ->
  0 <= randLen h -> 0 <= msgLenFE h ->
  0 <= msgHashLenFE h <= 24 ->
  1 <= base h <= 256 -> 0 <= numChunks h ->
  is_u32 epoch ->
  randLen h + msgLenFE h <= Z.of_nat fuel ->
  exists result,
    poseidonSponge permutation24 fuel h
      (digits_le p (Z.to_nat (parameterLen h)) (value_le 256 params)
       ++ digits_le p (Z.to_nat (tweakLenFE h)) (epoch * 256 + 2))
      (digits_le p (Z.to_nat (randLen h)) (value_le 256 rand)
       ++ digits_le p (Z.to_nat (msgLenFE h)) (value_le 256 msg))
    = Some result
    /\ len result = msgHashLenFE h
    /\ Hash permutation24 fuel h params msg rand epoch
       = Some (digits_le (base h) (Z.to_nat (numChunks h))
                 (fold_left (fun acc fe => acc * p + fe) result 0)).
Proof.
  intros Hpl Htl Hcap Hrl Hml Hout Hb Hn He Hf.
  unfold Hash.
  rewrite !bytesToFieldElements_digits by assumption.
  rewrite epochToFieldElements_digits by assumption.
  set (capacity := _ ++ _); set (input := _ ++ _).
  destruct (SpongeFacts.poseidonSponge_total permutation24 permutation24_len
              fuel (msgHashLenFE h) capacity input) as (result & E & Hl).
  { unfold capacity; rewrite len_app, !digits_len; lia. }
  { assumption. }
  { assert (Hi : len input = randLen h + msgLenFE h)
      by (unfold input; rewrite len_app, !digits_len; lia).
    unfold len in Hi; lia. }
  exists result; unfold poseidonSponge; rewrite E.
  split; [reflexivity|split; [exact Hl|]].
  unfold Winternitz.slice_to.
  destruct (Z.ltb_spec (msgHashLenFE h) 0); [lia|].
  destruct (Z.ltb_spec (len result) (msgHashLenFE h)); [lia|].
  cbn [orb]; rewrite firstn_all2 by (unfold len in Hl; lia).
  unfold decodeToChunks.
  destruct (Z.ltb_spec (numChunks h) 0); [lia|].
  rewrite i64_id by (unfold is_int; lia).
  apply chunks_of_digits; assumption.
Qed.

(** X23: on a configuration whose capacity leaves room in the state
    ([parameterLen + tweakLenFE < 24], squeeze at most 24 elements) and
    whose base fits a byte, [Hash] ends without a panic and returns exactly
    [Dimension()] chunks, each below [Base()]: the [numChunks] low
    base-[base] digits of the sponge output read as a base-[p] number,
    first element most significant. *)
Theorem PoseidonMessageHash_chunks (fuel : nat) (h : PoseidonMessageHash)
    (params msg rand : list Z) (epoch : Z)
    (Hpl : 0 <= parameterLen h) (Htl : 0 <= tweakLenFE h)
    (Hcap : parameterLen h + tweakLenFE h < 24)
    (Hrl : 0 <= randLen h) (Hml : 0 <= msgLenFE h)
    (Hout : 0 <= msgHashLenFE h <= 24)
    (Hb : 1 <= base h <= 256) (Hn : 0 <= numChunks h)
    (He : is_u32 epoch)
    (Hf : randLen h + msgLenFE h <= Z.of_nat fuel) :
  exists result chunks,
    poseidonSponge permutation24 fuel h
      (digits_le p (Z.to_nat (parameterLen h)) (value_le 256 params)
       ++ digits_le p (Z.to_nat (tweakLenFE h)) (epoch * 256 + 2))
      (digits_le p (Z.to_nat (randLen h)) (value_le 256 rand)
       ++ digits_le p (Z.to_nat (msgLenFE h)) (value_le 256 msg))
    = Some result
    /\ Hash permutation24 fuel h params msg rand epoch = Some chunks
    /\ chunks = digits_le (base h) (Z.to_nat (numChunks h))
                  (fold_left (fun acc fe => acc * p + fe) result 0)
    /\ len chunks = Dimension h
    /\ Forall (fun c => 0 <= c < Base h) chunks.
Proof.
  destruct (Hash_digits fuel h params msg rand epoch Hpl Htl Hcap Hrl Hml
              Hout Hb Hn He Hf) as (result & Es & _ & Eh).
  exists result; eexists; split; [exact Es|split; [exact Eh|]].
  split; [reflexivity|].
  split; [rewrite digits_len; unfold Dimension; lia|].
  apply digits_range; unfold Base; lia.
Qed.

End WithPermutation.

Lemma PoseidonMessageHash_chunks_witness :
  exists result chunks,
    poseidonSponge Toy.toy_permutation 13 test_config
      (digits_le p (Z.to_nat 4) (value_le 256 [1; 2; 3])
       ++ digits_le p (Z.to_nat 2) (13 * 256 + 2))
      (digits_le p (Z.to_nat 4) (value_le 256 [7; 8])
       ++ digits_le p (Z.to_nat 9) (value_le 256 [4; 5; 6]))
    = Some result
    /\ Hash Toy.toy_permutation 13 test_config [1; 2; 3] [4; 5; 6] [7; 8] 13
       = Some chunks
    /\ chunks = digits_le 16 (Z.to_nat 32)
                  (fold_left (fun acc fe => acc * p + fe) result 0)
    /\ len chunks = 32
    /\ Forall (fun c => 0 <= c < 16) chunks.
Proof.
  apply (PoseidonMessageHash_chunks Toy.toy_permutation
           TopLevelFacts.toy_permutation_len 13%nat test_config
           [1; 2; 3] [4; 5; 6] [7; 8] 13);
    cbn; unfold is_u32; lia.
Defined.

(** *** Bytes to field elements and back *)

Lemma digits_zero b n : digits_le b n 0 = repeat 0 n.
Proof.
  induction n as [|n IH]; [reflexivity|].
  cbn [digits_le repeat]; rewrite Zmod_0_l, Zdiv_0_l, IH; reflexivity.
Qed.

Lemma digits_pad b n m x :
  0 < b -> 0 <= x < b ^ Z.of_nat n ->
  digits_le b (n + m) x = digits_le b n x ++ repeat 0 m.
Proof.
  intros Hb Hx.
  rewrite <- (digits_zero b m), <- (digits_split b n m x 0) by assumption.
  f_equal; ring.
Qed.

Lemma fold_right_value ds :
  fold_right (fun digit acc => acc * p + digit) 0 ds = value_le p ds.
Proof.
  induction ds as [|d ds IH]; [reflexivity|].
  cbn [fold_right value_le]; rewrite IH; ring.
Qed.

Lemma pow256 k : 0 <= k -> 256 ^ k = 2 ^ (8 * k).
Proof. intros Hk; rewrite Z.pow_mul_r by lia; reflexivity. Qed.

Lemma byte_len_bound x : 0 <= x -> x < 256 ^ Z.of_nat (byte_len x).
Proof.
  intros Hx; unfold byte_len.
  destruct (Z.leb_spec x 0); [cbn; lia|].
  pose proof (Z.log2_nonneg x) as Hl.
  assert (Hq : 0 <= Z.log2 x / 8) by (apply Z.div_pos; lia).
  rewrite pow256, Nat2Z.inj_succ, Z2Nat.id by lia.
  apply Z.log2_lt_pow2; [lia|].
  pose proof (Z.mod_pos_bound (Z.log2 x) 8 ltac:(lia)).
  pose proof (Z.div_mod (Z.log2 x) 8 ltac:(lia)).
  lia.
Qed.

Lemma byte_len_le x m :
  0 <= x < 256 ^ Z.of_nat m -> (byte_len x <= m)%nat.
Proof.
  intros Hx; unfold byte_len.
  destruct (Z.leb_spec x 0); [lia|].
  rewrite pow256 in Hx by lia.
  assert (Hl : Z.log2 x < 8 * Z.of_nat m) by (apply Z.log2_lt_pow2; lia).
  assert (Hq : Z.log2 x / 8 < Z.of_nat m)
    by (apply Z.div_lt_upper_bound; lia).
  pose proof (Z.log2_nonneg x).
  assert (0 <= Z.log2 x / 8) by (apply Z.div_pos; lia).
  lia.
Qed.

Lemma fieldElementsToBytes_digits (n : nat) (v : Z) :
  0 <= v < p ^ Z.of_nat n ->
  let L := Z.max 32 (Z.of_nat n * 31 / 8) in
  v < 256 ^ L ->
  fieldElementsToBytes (digits_le p n v) = digits_le 256 (Z.to_nat L) v.
Proof.
  intros Hv L HL; unfold fieldElementsToBytes, reverseBytes, big_Bytes.
  rewrite fold_right_value, digits_small by (unfold p in *; lia).
  rewrite digits_len.
  assert (HE : (if Z.of_nat n * 31 / 8 <? 32 then 32 else Z.of_nat n * 31 / 8)
               = L).
  { unfold L; destruct (Z.ltb_spec (Z.of_nat n * 31 / 8) 32); lia. }
  rewrite HE.
  assert (HL0 : 32 <= L) by (unfold L; lia).
  set (k := byte_len v).
  assert (Hk : (k <= Z.to_nat L)%nat)
    by (apply byte_len_le; rewrite Z2Nat.id by lia; lia).
  pose proof (byte_len_bound v ltac:(lia)) as Hb; fold k in Hb.
  assert (Hrl : len (rev (digits_le 256 k v)) = Z.of_nat k)
    by (unfold len; rewrite length_rev; apply digits_len).
  rewrite !Hrl.
  replace (Z.to_nat L) with (k + (Z.to_nat L - k))%nat by lia.
  rewrite digits_pad by lia.
  destruct (Z.ltb_spec (Z.of_nat k) L).
  - rewrite rev_app_distr, rev_involutive, rev_repeat.
    replace (Z.to_nat (L - Z.of_nat k)) with (Z.to_nat L - k)%nat by lia.
    reflexivity.
  - replace (Z.to_nat L - k)%nat with O by lia.
    rewrite rev_involutive, app_nil_r; reflexivity.
Qed.

Lemma roundtrip (data : list Z) (n : Z) :
  Forall is_u8 data -> 0 <= n -> 256 ^ len data <= p ^ n ->
  len data <= Z.max 32 (n * 31 / 8) ->
  fieldElementsToBytes (digits_le p (Z.to_nat n) (value_le 256 data))
  = data ++ repeat 0 (Z.to_nat (Z.max 32 (n * 31 / 8) - len data)).
Proof.
  intros Hu Hn Hp Hl.
  pose proof (value_bound 256 data ltac:(lia) Hu) as Hv.
  pose proof (len_nonneg data) as Hd.
  set (v := value_le 256 data) in *.
  set (L := Z.max 32 (n * 31 / 8)) in *.
  rewrite fieldElementsToBytes_digits; rewrite ?Z2Nat.id by lia; fold L.
  - replace (Z.to_nat L) with (length data + Z.to_nat (L - len data))%nat
      by (unfold len in *; lia).
    rewrite digits_pad by (unfold len in *; lia).
    f_equal; apply digits_value; [lia|exact Hu].
  - lia.
  - assert (256 ^ len data <= 256 ^ L) by (apply Z.pow_le_mono_r; lia).
    lia.
Qed.

(** X24: a byte string that fits [numElements] field elements survives
    [bytesToFieldElements] followed by [fieldElementsToBytes]: the result
    is the input followed by zero bytes up to
    [max(32, 31 * numElements / 8)] bytes, so its first [len(data)] bytes
    are the input.  Every 32-byte message fits 9 elements
    (TestMessageEncoding). *)
Theorem bytes_field_elements_roundtrip (data : list Z) (numElements : Z)
    (Hbytes : Forall is_u8 data)
    (Hn : 0 <= numElements)
    (Hfit : 256 ^ len data <= p ^ numElements)
    (Hlen : len data <= Z.max 32 (numElements * 31 / 8)) :
  exists elements,
    TopLevelPoseidon.bytesToFieldElements data numElements = Some elements
    /\ len elements = numElements
    /\ Forall (fun e => 0 <= e < p) elements
    /\ fieldElementsToBytes elements
       = data ++ repeat 0 (Z.to_nat (Z.max 32 (numElements * 31 / 8)
                                      - len data))
    /\ firstn (length data) (fieldElementsToBytes elements) = data.
Proof.
  rewrite bytesToFieldElements_digits by assumption.
  eexists; split; [reflexivity|].
  split; [rewrite digits_len; lia|].
  split; [apply digits_range; unfold p; lia|].
  rewrite roundtrip by assumption.
  split; [reflexivity|].
  rewrite firstn_app, Nat.sub_diag, firstn_all; cbn [firstn].
  apply app_nil_r.
Qed.

Lemma bytes_field_elements_roundtrip_witness :
  exists elements,
    TopLevelPoseidon.bytesToFieldElements (repeat 255 32) 9 = Some elements
    /\ len elements = 9
    /\ Forall (fun e => 0 <= e < p) elements
    /\ fieldElementsToBytes elements
       = repeat 255 32
         ++ repeat 0 (Z.to_nat (Z.max 32 (9 * 31 / 8) - len (repeat 255 32)))
    /\ firstn (length (repeat 255 32)) (fieldElementsToBytes elements)
       = repeat 255 32.
Proof.
  apply (bytes_field_elements_roundtrip (repeat 255 32) 9).
  - apply Forall_forall; intros x Hx; apply repeat_spec in Hx; subst x.
    unfold is_u8; lia.
  - lia.
  - vm_compute; discriminate.
  - vm_compute; discriminate.
Defined.

(** *** The epoch as field elements *)

Lemma epoch_digits_inj (n : nat) (e1 e2 : Z) :
  (2 <= n)%nat -> is_u32 e1 -> is_u32 e2 ->
  digits_le p n (e1 * 256 + 2) = digits_le p n (e2 * 256 + 2) -> e1 = e2.
Proof.
  unfold is_u32; intros Hn H1 H2 E.
  apply (f_equal (value_le p)) in E.
  assert (Hp : 2 ^ 40 < p ^ Z.of_nat n).
  { apply Z.lt_le_trans with (p ^ 2); [vm_compute; reflexivity|].
    apply Z.pow_le_mono_r; unfold p; lia. }
  rewrite !digits_small in E by (unfold p in *; lia).
  lia.
Qed.

(** X25: with at least two tweak elements, distinct epochs get distinct
    field-element encodings (TestEpochEncoding): the packed value
    [epoch << 8 | 0x02] is below [p^2], so its base-[p] digits determine
    it. *)
Theorem epochToFieldElements_injective (h : PoseidonMessageHash)
    (epoch1 epoch2 : Z)
    (Htl : 2 <= tweakLenFE h)
    (H1 : is_u32 epoch1) (H2 : is_u32 epoch2)
    (Hne : epoch1 <> epoch2) :
  exists f1 f2,
    epochToFieldElements h epoch1 = Some f1
    /\ epochToFieldElements h epoch2 = Some f2
    /\ len f1 = tweakLenFE h /\ len f2 = tweakLenFE h
    /\ f1 <> f2.
Proof.
  rewrite !epochToFieldElements_digits by (assumption || lia).
  do 2 eexists; split; [reflexivity|split; [reflexivity|]].
  rewrite !digits_len.
  split; [lia|split; [lia|]].
  intros E; apply Hne.
  apply (epoch_digits_inj (Z.to_nat (tweakLenFE h))); try assumption; lia.
Qed.

Lemma epochToFieldElements_injective_witness :
  exists f1 f2,
    epochToFieldElements test_config 0 = Some f1
    /\ epochToFieldElements test_config 2013265921 = Some f2
    /\ len f1 = 2 /\ len f2 = 2
    /\ f1 <> f2.
Proof.
  apply (epochToFieldElements_injective test_config 0 2013265921).
  - cbn; lia.
  - unfold is_u32; lia.
  - unfold is_u32; lia.
  - discriminate.
Defined.

(** With a single tweak element the encoding is the packed value modulo
    [p], and epochs that differ by [p] collide. *)
Example epochToFieldElements_one_element_collides :
  epochToFieldElements (NewPoseidonMessageHash 4 4 5 32 16 1 9) 0
  = epochToFieldElements (NewPoseidonMessageHash 4 4 5 32 16 1 9) 2013265921.
Proof. reflexivity. Qed.

(** *** The chunk size *)

Lemma chunk_size_loop_log2 fuel : forall base c,
  base < 2 ^ Z.of_nat fuel ->
  chunk_size_loop fuel base c = c + Z.log2 base.
Proof.
  induction fuel as [|fuel IH]; intros base c Hb.
  - cbn [chunk_size_loop]; change (2 ^ Z.of_nat 0) with 1 in Hb.
    rewrite Z.log2_nonpos by lia; lia.
  - cbn [chunk_size_loop].
    destruct (Z.gtb_spec base 1) as [Hgt|Hle].
    + rewrite Nat2Z.inj_succ, Z.pow_succ_r in Hb by lia.
      rewrite IH
        by (rewrite Z.shiftr_div_pow2 by lia; change (2 ^ 1) with 2;
            apply Z.div_lt_upper_bound; lia).
      rewrite Z.log2_shiftr by lia.
      assert (1 <= Z.log2 base)
        by (apply Z.log2_le_pow2; [lia|change (2 ^ 1) with 2; lia]).
      lia.
    + destruct (Z.eq_dec base 1) as [->|]; [cbn; lia|].
      rewrite Z.log2_nonpos by lia; lia.
Qed.

(** X26: [ChunkSize()] is the integer logarithm of the base:
    [floor(log2(base))] for a base of at least 1 and 0 otherwise.  So
    [2^ChunkSize() <= Base() < 2^(ChunkSize()+1)], and the two agree only
    when the base is a power of two. *)
Theorem ChunkSize_log2 (h : PoseidonMessageHash)
    (Hint : is_int (base h)) :
  ChunkSize h = Z.log2 (base h)
  /\ (1 <= base h ->
      2 ^ ChunkSize h <= Base h < 2 ^ (ChunkSize h + 1))
  /\ (base h <= 1 -> ChunkSize h = 0).
Proof.
  assert (E : ChunkSize h = Z.log2 (base h)).
  { unfold ChunkSize; rewrite chunk_size_loop_log2; [lia|].
    unfold is_int in Hint.
    assert (2 ^ 63 < 2 ^ Z.of_nat 64) by (vm_compute; reflexivity).
    lia. }
  rewrite E; split; [reflexivity|split].
  - intros Hb; unfold Base.
    pose proof (Z.log2_spec (base h) ltac:(lia)) as Hs.
    rewrite <- Z.add_1_r in Hs; exact Hs.
  - intros Hb; destruct (Z.eq_dec (base h) 1) as [->|]; [reflexivity|].
    apply Z.log2_nonpos; lia.
Qed.

Lemma ChunkSize_log2_witness :
  ChunkSize (NewPoseidonMessageHash 4 4 5 32 12 2 9) = Z.log2 12
  /\ (1 <= 12 ->
      2 ^ ChunkSize (NewPoseidonMessageHash 4 4 5 32 12 2 9) <= 12
      < 2 ^ (ChunkSize (NewPoseidonMessageHash 4 4 5 32 12 2 9) + 1))
  /\ (12 <= 1 -> ChunkSize (NewPoseidonMessageHash 4 4 5 32 12 2 9) = 0).
Proof.
  apply (ChunkSize_log2 (NewPoseidonMessageHash 4 4 5 32 12 2 9)).
  unfold is_int; cbn; lia.
Defined.

(** *** A base that is not a power of two under the Winternitz encoding *)

(** The Poseidon message hash in base 5 reports the chunk size 2, which is
    all [NewWinternitzEncoding] compares, so the encoding with 2-bit
    chunks accepts it.  Its digit 4 is beyond [2^2 - 1]: the checksum term
    [3 - 4] wraps around in [uint64] and the checksum chunk is 3, as it is
    for the digit 0; the two codewords differ and one dominates the
    other. *)
Example Winternitz_comparable_over_base_5 :
  MH.ChunkSize (Winternitz.messageHash winternitz_base5) = 2
  /\ MH.Base (Winternitz.messageHash winternitz_base5) = 5
  /\ Winternitz.Encode winternitz_base5 [1; 2; 3] [0] [7; 8] 13
     = Some (inr [0; 3])
  /\ Winternitz.Encode winternitz_base5 [1; 2; 3] [4] [7; 8] 13
     = Some (inr [4; 3])
  /\ pointwise_le [0; 3] [4; 3].
Proof.
  split; [reflexivity|split; [reflexivity|]].
  split; [vm_compute; reflexivity|split; [vm_compute; reflexivity|]].
  repeat constructor; lia.
Qed.

End PoseidonMHFacts.

(* ================================================================= *)
(** ** The Poseidon tweakable hash *)

Module PoseidonTHFacts.
Import Th Digits DigitsFacts.
Import PoseidonTH.

Lemma lor_mul (a lo k : Z) :
  0 <= k -> 0 <= lo < 2 ^ k -> Z.lor (a * 2 ^ k) lo = a * 2 ^ k + lo.
Proof.
  intros Hk Hlo; rewrite <- Z.shiftl_mul_pow2 by lia.
  rewrite PoseidonMHFacts.lor_shiftl by assumption.
  rewrite Z.shiftl_mul_pow2 by lia; reflexivity.
Qed.

Lemma lor_add (lo b k : Z) :
  0 <= k -> 0 <= lo < 2 ^ k -> Z.lor lo (Z.shiftl b k) = lo + b * 2 ^ k.
Proof.
  intros Hk Hlo; rewrite Z.lor_comm, PoseidonMHFacts.lor_shiftl by assumption.
  ring.
Qed.

Ltac bytes_in_range :=
  repeat match goal with
         | H : Forall _ (_ :: _) |- _ => inversion H; subst; clear H
         | H : is_u8 _ |- _ => unfold is_u8 in H
         end.

Ltac sum_bytes :=
  repeat match goal with
         | |- context [Z.lor ?a (Z.shiftl ?b ?k)] =>
             rewrite (lor_add a b k) by (cbn; lia)
         end.

Lemma LittleEndian_Uint64_value (b : list Z) :
  Forall is_u8 b -> length b = 8%nat ->
  LittleEndian_Uint64 b = Some (value_le 256 b).
Proof.
  intros Hb Hl.
  do 8 (destruct b as [|? b]; [discriminate|]).
  destruct b; [|discriminate].
  bytes_in_range; cbn [LittleEndian_Uint64 value_le].
  sum_bytes; f_equal; ring.
Qed.

Lemma LittleEndian_Uint32_value (b : list Z) :
  Forall is_u8 b -> length b = 4%nat ->
  LittleEndian_Uint32 b = Some (value_le 256 b).
Proof.
  intros Hb Hl.
  do 4 (destruct b as [|? b]; [discriminate|]).
  destruct b; [|discriminate].
  bytes_in_range; cbn [LittleEndian_Uint32 value_le].
  sum_bytes; f_equal; ring.
Qed.

Lemma Uint64_PutUint64 v :
  is_u64 v ->
  LittleEndian_Uint64 (Winternitz.LittleEndian_PutUint64 v) = Some v.
Proof.
  intros Hv; rewrite LittleEndian_Uint64_value.
  - rewrite IncomparableFacts.PutUint64_digits, digits_small;
      [reflexivity|lia|exact Hv].
  - apply EncodingFacts.PutUint64_bytes.
  - reflexivity.
Qed.

Lemma AppendUint32_digits v :
  Tweak.LittleEndian_AppendUint32 [] v = digits_le 256 4 v.
Proof.
  rewrite IncomparableFacts.digits_le_map by lia.
  unfold Tweak.LittleEndian_AppendUint32; cbn [app].
  change (zrange (Z.of_nat 4)) with [0; 1; 2; 3]; cbn [map].
  unfold u8; rewrite !Z.shiftr_div_pow2 by lia.
  change (256 ^ 0) with 1; rewrite Z.div_1_r; reflexivity.
Qed.

(** The words the three tweaks pack. *)
Lemma chain_word e c q :
  is_u32 e -> is_u8 c -> is_u8 q ->
  Z.lor (Z.lor (Z.lor (u64 (Z.shiftl (u64 e) 24)) (u64 (Z.shiftl (u64 c) 16)))
               (u64 (Z.shiftl (u64 q) 8))) TweakSeparatorChainHash
  = e * 2 ^ 24 + c * 2 ^ 16 + q * 2 ^ 8.
Proof.
  unfold is_u32, is_u8, u64, TweakSeparatorChainHash; intros He Hc Hq.
  rewrite Z.lor_0_r.
  rewrite !Z.shiftl_mul_pow2 by lia.
  rewrite (Z.mod_small e), (Z.mod_small c), (Z.mod_small q) by lia.
  rewrite !Z.mod_small by lia.
  rewrite lor_mul by lia.
  replace (e * 2 ^ 24 + c * 2 ^ 16) with ((e * 2 ^ 8 + c) * 2 ^ 16)
    by ring.
  rewrite lor_mul by lia; ring.
Qed.

Lemma tree_word l pos :
  is_u8 l -> is_u32 pos ->
  Z.lor (Z.lor (u64 (Z.shiftl (u64 l) 40)) (u64 (Z.shiftl (u64 pos) 8)))
        TweakSeparatorTreeHash
  = l * 2 ^ 40 + pos * 2 ^ 8 + 1.
Proof.
  unfold is_u32, is_u8, u64, TweakSeparatorTreeHash; intros Hl Hp.
  rewrite !Z.shiftl_mul_pow2 by lia.
  rewrite (Z.mod_small l), (Z.mod_small pos) by lia.
  rewrite !Z.mod_small by lia.
  rewrite lor_mul by lia.
  replace (l * 2 ^ 40 + pos * 2 ^ 8) with ((l * 2 ^ 32 + pos) * 2 ^ 8)
    by ring.
  rewrite lor_mul by lia; ring.
Qed.

Lemma word_range a : in_range a -> 0 <= word_of a < 2 ^ 56.
Proof.
  destruct a; cbn [in_range word_of]; unfold is_u32, is_u8; lia.
Qed.

Lemma word_inj a b : in_range a -> in_range b -> word_of a = word_of b -> a = b.
Proof.
  destruct a, b; cbn [in_range word_of]; unfold is_u32, is_u8;
    intros Ha Hb E; try (exfalso; lia); f_equal; lia.
Qed.

Lemma PutUint64_head v :
  idx (Winternitz.LittleEndian_PutUint64 v) 0 = Some (v mod 256).
Proof.
  unfold Winternitz.LittleEndian_PutUint64; cbn [map].
  rewrite idx_cons_0, Z.shiftr_0_r; reflexivity.
Qed.

Lemma tweakToFieldElements_word t a :
  0 <= tweakLen t -> in_range a ->
  tweakToFieldElements t (tweak_of t a)
  = Some (digits_le P (Z.to_nat (tweakLen t)) (word_of a)).
Proof.
  intros Ht Ha; pose proof (word_range a Ha) as Hw.
  unfold tweakToFieldElements.
  destruct (Z.ltb_spec (tweakLen t) 0); [lia|].
  destruct a as [e c q|l pos|e]; cbn [in_range tweak_of word_of] in *.
  - destruct Ha as (He & Hc & Hq).
    unfold ChainTweak; rewrite chain_word by assumption.
    rewrite PutUint64_head, Uint64_PutUint64 by (unfold is_u64; lia).
    replace ((e * 2 ^ 24 + c * 2 ^ 16 + q * 2 ^ 8) mod 256) with 0
      by (apply Z.mod_unique_pos
            with (q := e * 2 ^ 16 + c * 2 ^ 8 + q); lia).
    cbn [Z.eqb TweakSeparatorTreeHash TweakSeparatorChainHash].
    rewrite DigitsFacts.base_p_is_digits; reflexivity.
  - destruct Ha as (Hl & Hp).
    unfold TreeTweak; rewrite tree_word by assumption.
    rewrite PutUint64_head, Uint64_PutUint64 by (unfold is_u64; lia).
    replace ((l * 2 ^ 40 + pos * 2 ^ 8 + 1) mod 256) with 1
      by (apply Z.mod_unique_pos
            with (q := l * 2 ^ 32 + pos); lia).
    cbn [Z.eqb TweakSeparatorTreeHash Pos.eqb].
    rewrite DigitsFacts.base_p_is_digits; reflexivity.
  - unfold MessageTweak; rewrite idx_cons_0.
    cbn [Z.eqb TweakSeparatorTreeHash TweakSeparatorChainHash
           TweakSeparatorMessageHash Pos.eqb skipn].
    rewrite AppendUint32_digits.
    assert (Hl5 : (len (TweakSeparatorMessageHash :: digits_le 256 4 e) >=? 5)
                  = true) by reflexivity.
    rewrite Hl5, LittleEndian_Uint32_value;
      [|apply digits_range; lia|reflexivity].
    rewrite digits_small by (unfold is_u32 in Ha; lia).
    unfold is_u32, u64, TweakSeparatorMessageHash in *.
    rewrite Z.shiftl_mul_pow2, Z.mod_small, lor_mul by lia.
    rewrite DigitsFacts.base_p_is_digits; reflexivity.
Qed.

(** X27: with at least two tweak elements the tweak encoding separates
    domains.  Every chain, tree and message tweak is turned into
    [tweakLen] field elements without a panic, and two tweaks built from
    different inputs (another kind, or another epoch, index, level or
    position) never give the same elements: the packed 56-bit word is
    below [P^2], so its base-[P] digits determine it. *)
Theorem tweakToFieldElements_separates (t : PoseidonTweakHash)
    (a b : tweak_input)
    (Htl : 2 <= tweakLen t)
    (Ha : in_range a) (Hb : in_range b)
    (Hne : a <> b) :
  exists fa fb,
    tweakToFieldElements t (tweak_of t a) = Some fa
    /\ tweakToFieldElements t (tweak_of t b) = Some fb
    /\ len fa = tweakLen t /\ len fb = tweakLen t
    /\ fa <> fb.
Proof.
  rewrite !tweakToFieldElements_word by (assumption || lia).
  do 2 eexists; split; [reflexivity|split; [reflexivity|]].
  rewrite !digits_len.
  split; [lia|split; [lia|]].
  intros E; apply Hne, word_inj; try assumption.
  apply (f_equal (value_le P)) in E.
  pose proof (word_range a Ha); pose proof (word_range b Hb).
  assert (Hp : 2 ^ 56 < P ^ Z.of_nat (Z.to_nat (tweakLen t))).
  { apply Z.lt_le_trans with (P ^ 2); [vm_compute; reflexivity|].
    apply Z.pow_le_mono_r; unfold P; lia. }
  rewrite !digits_small in E by (unfold P in *; lia).
  exact E.
Qed.

Lemma tweakToFieldElements_separates_witness :
  exists fa fb,
    tweakToFieldElements test_config
      (tweak_of test_config (ChainInput 30720 0 1)) = Some fa
    /\ tweakToFieldElements test_config
         (tweak_of test_config (ChainInput 0 0 0)) = Some fb
    /\ len fa = 2 /\ len fb = 2
    /\ fa <> fb.
Proof.
  apply (tweakToFieldElements_separates test_config
           (ChainInput 30720 0 1) (ChainInput 0 0 0)).
  - cbn; lia.
  - cbn; unfold is_u32, is_u8; lia.
  - cbn; unfold is_u32, is_u8; lia.
  - discriminate.
Defined.

(** With a single tweak element the encoding is the packed word modulo
    [P], and tweaks whose words differ by a multiple of [P] collide. *)
Example tweakToFieldElements_one_element_collides :
  tweakToFieldElements (NewPoseidonTweakHash 4 4 1 9 32)
    (ChainTweak (NewPoseidonTweakHash 4 4 1 9 32) 30720 0 1)
  = tweakToFieldElements (NewPoseidonTweakHash 4 4 1 9 32)
      (ChainTweak (NewPoseidonTweakHash 4 4 1 9 32) 0 0 0).
Proof. reflexivity. Qed.

(** *** Field elements to bytes and back *)

Lemma PutUint32_value z :
  is_u32 z -> Tweak.be_value (PRF.BigEndian_PutUint32 z) = z.
Proof.
  intros Hz; rewrite <- (TweakFacts.be_value_BE32 z Hz) at 2.
  f_equal; unfold PRF.BigEndian_PutUint32, Tweak.spec_BE32, u8; cbn [map].
  rewrite !Z.shiftr_div_pow2 by lia.
  change (2 ^ (8 * 3)) with (256 ^ 3); change (2 ^ (8 * 2)) with (256 ^ 2).
  change (2 ^ (8 * 1)) with 256; change (2 ^ (8 * 0)) with 1.
  rewrite Z.div_1_r; reflexivity.
Qed.

Lemma SetBytes_Bytes z :
  0 <= z < P -> Element_SetBytes (Element_Bytes z) = z.
Proof.
  intros Hz; unfold Element_SetBytes, Element_Bytes.
  rewrite PutUint32_value by (unfold is_u32, P in *; lia).
  apply Z.mod_small; exact Hz.
Qed.

Lemma Bytes_length z : length (Element_Bytes z) = 4%nat.
Proof. reflexivity. Qed.

Lemma zrange_succ n :
  0 <= n -> zrange (1 + n) = 0 :: map (fun i => 1 + i) (zrange n).
Proof.
  intros Hn; unfold zrange.
  replace (Z.to_nat (1 + n)) with (S (Z.to_nat n)) by lia.
  cbn [seq map]; f_equal.
  rewrite <- seq_shift, !map_map.
  apply map_ext; intros k; lia.
Qed.

(** Reading elements from a string that starts with a full group. *)
Lemma bytesToFieldElements_cons (g rest : list Z) (n : Z) :
  length g = 4%nat -> 0 <= n ->
  bytesToFieldElements (g ++ rest) (1 + n)
  = match bytesToFieldElements rest n with
    | Some es => Some (Element_SetBytes g :: es)
    | None => None
    end.
Proof.
  intros Hg Hn; unfold bytesToFieldElements.
  destruct (Z.ltb_spec (1 + n) 0); [lia|].
  destruct (Z.ltb_spec n 0); [lia|].
  rewrite zrange_succ by assumption; cbn [map]; f_equal.
  assert (Hl : len (g ++ rest) = 4 + len rest)
    by (rewrite len_app; unfold len; lia).
  pose proof (len_nonneg rest) as Hr.
  f_equal.
  - cbn [Z.mul Z.add]; rewrite Hl.
    destruct (Z.leb_spec 4 (4 + len rest)); [|lia].
    cbn [Z.to_nat skipn].
    rewrite firstn_app, <- Hg, firstn_all, Nat.sub_diag; cbn [firstn].
    rewrite app_nil_r; reflexivity.
  - rewrite map_map; apply map_ext_in; intros i Hi.
    apply zrange_In in Hi; rewrite Hl.
    assert (Hs : skipn (Z.to_nat ((1 + i) * 4)) (g ++ rest)
                 = skipn (Z.to_nat (i * 4)) rest).
    { replace (Z.to_nat ((1 + i) * 4)) with (length g + Z.to_nat (i * 4))%nat
        by lia.
      rewrite skipn_app, skipn_all2 by lia.
      replace (length g + Z.to_nat (i * 4) - length g)%nat
        with (Z.to_nat (i * 4)) by lia.
      reflexivity. }
    cbv zeta; rewrite Hs.
    destruct (Z.leb_spec ((1 + i) * 4 + 4) (4 + len rest));
      destruct (Z.leb_spec (i * 4 + 4) (len rest));
      try lia; try reflexivity.
    destruct (Z.ltb_spec ((1 + i) * 4) (4 + len rest));
      destruct (Z.ltb_spec (i * 4) (len rest)); try lia; reflexivity.
Qed.

Lemma elements_roundtrip (es : list Z) :
  Forall (fun e => 0 <= e < P) es ->
  bytesToFieldElements (fieldElementsToBytes es) (len es) = Some es.
Proof.
  intros H; induction H as [|e es He _ IH]; [reflexivity|].
  unfold fieldElementsToBytes; cbn [map concat]; rewrite len_cons.
  rewrite bytesToFieldElements_cons
    by (try apply Bytes_length; apply len_nonneg).
  fold (fieldElementsToBytes es); rewrite IH, SetBytes_Bytes by assumption.
  reflexivity.
Qed.

Lemma fieldElementsToBytes_len (es : list Z) :
  len (fieldElementsToBytes es) = 4 * len es.
Proof.
  induction es as [|e es IH]; [reflexivity|].
  unfold fieldElementsToBytes in *; cbn [map concat].
  rewrite len_app, len_cons, IH; unfold len at 1; rewrite Bytes_length; lia.
Qed.

Lemma bytesToFieldElements_canonical data n es :
  bytesToFieldElements data n = Some es ->
  len es = Z.max 0 n /\ Forall (fun e => 0 <= e < P) es.
Proof.
  unfold bytesToFieldElements.
  destruct (Z.ltb_spec n 0); [discriminate|].
  intros E; injection E as <-; split.
  - rewrite HypercubeFacts.len_map_zrange by assumption; lia.
  - apply Forall_forall; intros e He; apply in_map_iff in He.
    destruct He as (i & <- & _); cbv zeta.
    assert (Hm : forall x, 0 <= Element_SetBytes x < P)
      by (intros x; apply Z.mod_pos_bound; unfold P; lia).
    destruct (_ <=? _); [apply Hm|].
    destruct (_ <? _); [apply Hm|unfold P; lia].
Qed.

(** X28: field elements survive the byte encoding.  Writing canonical
    elements with [fieldElementsToBytes] gives 4 bytes each, and
    [bytesToFieldElements] reads the same elements back; whatever bytes
    are read, the elements are canonical.  The converse fails: bytes are
    reduced modulo [P] on reading, so two byte strings can denote the same
    elements. *)
Theorem field_elements_bytes_roundtrip (elements : list Z)
    (Hcanon : Forall (fun e => 0 <= e < P) elements) :
  len (fieldElementsToBytes elements) = 4 * len elements
  /\ bytesToFieldElements (fieldElementsToBytes elements) (len elements)
     = Some elements
  /\ bytesToFieldElements [0x78; 0; 0; 1] 1 = bytesToFieldElements [0; 0; 0; 0] 1.
Proof.
  split; [apply fieldElementsToBytes_len|].
  split; [apply elements_roundtrip; assumption|reflexivity].
Qed.

Lemma field_elements_bytes_roundtrip_witness :
  len (fieldElementsToBytes [0; 1; 2013265920]) = 4 * len [0; 1; 2013265920]
  /\ bytesToFieldElements (fieldElementsToBytes [0; 1; 2013265920])
       (len [0; 1; 2013265920])
     = Some [0; 1; 2013265920]
  /\ bytesToFieldElements [0x78; 0; 0; 1] 1 = bytesToFieldElements [0; 0; 0; 0] 1.
Proof.
  apply (field_elements_bytes_roundtrip [0; 1; 2013265920]).
  repeat constructor; unfold P; lia.
Defined.

(** *** [Apply] *)

Lemma mapM_total {A B} (f : A -> option B) (Q : B -> Prop) (l : list A) :
  (forall a, In a l -> exists b, f a = Some b /\ Q b) ->
  exists bs, mapM f l = Some bs /\ Forall Q bs /\ length bs = length l.
Proof.
  induction l as [|a l IH]; intros H; cbn [mapM].
  - exists []; auto.
  - destruct (H a (or_introl eq_refl)) as (b & -> & Hb).
    destruct IH as (bs & -> & Hbs & Hl);
      [intros x Hx; apply H; right; exact Hx|].
    exists (b :: bs); cbn [length]; auto.
Qed.

Lemma concat_len (n : Z) (ls : list (list Z)) :
  Forall (fun l => len l = n) ls -> len (concat ls) = n * len ls.
Proof.
  intros H; induction H as [|l ls Hl _ IH]; cbn [concat].
  - change (len (@nil Z)) with 0; change (len (@nil (list Z))) with 0; lia.
  - rewrite len_app, len_cons, IH, Hl; lia.
Qed.

Section WithPermutation.
Variable permutation24 : list Z -> list Z.
Hypothesis permutation24_len :
  forall state, len state = 24 -> len (permutation24 state) = 24.
Hypothesis permutation24_canonical :
  forall state, Forall (fun x => 0 <= x < P) (permutation24 state).

(** X29: on a configuration whose capacity leaves room in the state
    ([parameterLen + tweakLen < 24], at most 24 elements squeezed),
    [Apply] ends without a panic for every chain, tree or message tweak
    and any list of data blocks.  Its result has [OutputLen()] bytes and
    is the byte encoding of canonical field elements, so reading it back
    with [bytesToFieldElements], as the next [Apply] of a chain or of the
    Merkle tree does, gives exactly the elements the sponge squeezed. *)
Theorem PoseidonTweakHash_Apply_output (fuel : nat) (t : PoseidonTweakHash)
    (params : Params) (a : tweak_input) (data : list Domain)
    (Hpl : 0 <= parameterLen t) (Htl : 0 <= tweakLen t)
    (Hcap : parameterLen t + tweakLen t < 24)
    (Hhl : 0 <= hashLen t <= 24)
    (Ha : in_range a)
    (Hf : hashLen t * len data <= Z.of_nat fuel) :
  exists result,
    Apply permutation24 fuel t params (tweak_of t a) data
    = Some (fieldElementsToBytes result)
    /\ len result = hashLen t
    /\ Forall (fun e => 0 <= e < P) result
    /\ len (fieldElementsToBytes result) = OutputLen t
    /\ bytesToFieldElements (fieldElementsToBytes result) (hashLen t)
       = Some result.
Proof.
  unfold Apply.
  destruct (bytesToFieldElements params (parameterLen t)) as [pf|] eqn:Ep;
    [|unfold bytesToFieldElements in Ep;
      destruct (Z.ltb_spec (parameterLen t) 0); [lia|discriminate]].
  destruct (bytesToFieldElements_canonical _ _ _ Ep) as [Hpfl Hpfc].
  rewrite tweakToFieldElements_word by assumption.
  destruct (mapM_total (fun d => bytesToFieldElements d (hashLen t))
              (fun es => len es = hashLen t) data) as (fields & -> & Hfl & Hfn).
  { intros d _.
    destruct (bytesToFieldElements d (hashLen t)) as [es|] eqn:Ed.
    - exists es; split; [reflexivity|].
      destruct (bytesToFieldElements_canonical _ _ _ Ed); lia.
    - unfold bytesToFieldElements in Ed.
      destruct (Z.ltb_spec (hashLen t) 0); [lia|discriminate]. }
  cbv zeta; unfold computeCapacityValue, poseidonSponge.
  set (cap := pf ++ _); set (input := concat fields).
  destruct (SpongeFacts.poseidonSponge_total permutation24 permutation24_len
              fuel (hashLen t) cap input) as (result & E & Hl).
  { unfold cap; rewrite len_app, digits_len; lia. }
  { assumption. }
  { assert (Hi : len input = hashLen t * len fields)
      by (apply concat_len; exact Hfl).
    assert (Hld : len fields = len data)
      by (unfold len; rewrite Hfn; reflexivity).
    rewrite Hld in Hi.
    assert (Hz : Z.of_nat (length input) = len input) by reflexivity.
    lia. }
  assert (Hc : Forall (fun e => 0 <= e < P) result).
  { apply (SpongeFacts.poseidonSponge_canonical permutation24
             permutation24_canonical _ _ _ _ _ E).
    unfold cap; apply Forall_app; split; [exact Hpfc|].
    apply digits_range; unfold P; lia. }
  rewrite E; exists result.
  split; [reflexivity|split; [exact Hl|split; [exact Hc|]]].
  split.
  - rewrite fieldElementsToBytes_len, Hl; unfold OutputLen.
    rewrite i64_id by (unfold is_int; lia); lia.
  - rewrite <- Hl; apply elements_roundtrip; exact Hc.
Qed.

End WithPermutation.

Lemma toy_permutation_canonical state :
  Forall (fun x => 0 <= x < P) (Toy.toy_permutation state).
Proof.
  unfold Toy.toy_permutation; destruct state as [|s rest]; [constructor|].
  apply Forall_forall; intros x Hx; apply in_map_iff in Hx.
  destruct Hx as (y & <- & _); apply Z.mod_pos_bound; reflexivity.
Qed.

Lemma PoseidonTweakHash_Apply_output_witness :
  exists result,
    Apply Toy.toy_permutation 8 test_config [1; 2; 3]
      (tweak_of test_config (TreeInput 1 5)) [[4; 5; 6]; [7; 8; 9; 10; 11]]
    = Some (fieldElementsToBytes result)
    /\ len result = 4
    /\ Forall (fun e => 0 <= e < P) result
    /\ len (fieldElementsToBytes result) = 16
    /\ bytesToFieldElements (fieldElementsToBytes result) 4 = Some result.
Proof.
  apply (PoseidonTweakHash_Apply_output Toy.toy_permutation
           TopLevelFacts.toy_permutation_len toy_permutation_canonical
           8%nat test_config [1; 2; 3] (TreeInput 1 5)
           [[4; 5; 6]; [7; 8; 9; 10; 11]]);
    cbn; unfold is_u32, is_u8; lia.
Defined.

End PoseidonTHFacts.

(* ================================================================= *)
(** ** The SHAKE128 PRF with field-element output *)

Module ShakePRFFacts.
Import Th.
Import ShakePRF.

Lemma BigEndian_Uint64_value (b : list Z) :
  Forall is_u8 b -> length b = 8%nat ->
  BigEndian_Uint64 b = Some (Tweak.be_value b).
Proof.
  intros Hb Hl.
  do 8 (destruct b as [|? b]; [discriminate|]).
  destruct b; [|discriminate].
  PoseidonTHFacts.bytes_in_range.
  cbn [BigEndian_Uint64]; unfold Tweak.be_value; cbn [fold_left].
  PoseidonTHFacts.sum_bytes; f_equal; ring.
Qed.

Lemma Forall_chunk {A} (Q : A -> Prop) (l : list A) (lo n : nat) :
  Forall Q l -> Forall Q (firstn n (skipn lo l)).
Proof.
  intros H.
  assert (Hs : Forall Q (skipn lo l)).
  { clear n; revert l H; induction lo as [|lo IH]; intros l H; [exact H|].
    destruct H as [|a l Ha H]; [constructor|apply IH; exact H]. }
  revert Hs; generalize (skipn lo l); clear.
  induction n as [|n IH]; intros l H; [constructor|].
  destruct H as [|a l Ha H]; [constructor|].
  cbn [firstn]; constructor; [exact Ha|apply IH; exact H].
Qed.

Section WithShake.
Variable SHAKE128 : list Z -> nat -> list Z.
Hypothesis SHAKE128_bytes :
  forall m n, length (SHAKE128 m n) = n /\ Forall is_u8 (SHAKE128 m n).

(** X30: [Apply] returns [OutputLen()] bytes, four per field element:
    element [i] is bytes [8i .. 8i+7] of the SHAKE128 output over
    [domain_sep || key || BE32(epoch) || BE64(chainIndex)], read as a
    big-endian integer and reduced modulo the BabyBear prime.  The
    elements are canonical, so the Poseidon tweakable hash, which reads
    chain starts with [bytesToFieldElements], recovers exactly them. *)
Theorem ShakePRFtoField_Apply_output (p : ShakePRFtoField) (key : list Z)
    (epoch chainIndex : Z)
    (Hn : 0 <= outputLenFE p < 2 ^ 60) :
  let out :=
    SHAKE128 (shakePRFDomainSep ++ key ++ PRF.BigEndian_PutUint32 epoch
              ++ PRF.BigEndian_PutUint64 chainIndex)
             (Z.to_nat (8 * outputLenFE p)) in
  let elements :=
    map (fun i => Tweak.be_value (firstn 8 (skipn (Z.to_nat (8 * i)) out))
                  mod PoseidonTH.P)
        (zrange (outputLenFE p)) in
  Apply SHAKE128 p key epoch chainIndex
  = Some (PoseidonTH.fieldElementsToBytes elements)
  /\ len (PoseidonTH.fieldElementsToBytes elements) = OutputLen p
  /\ Forall (fun e => 0 <= e < PoseidonTH.P) elements
  /\ PoseidonTH.bytesToFieldElements (PoseidonTH.fieldElementsToBytes elements)
       (outputLenFE p)
     = Some elements.
Proof.
  intros out elements.
  assert (Hlen : len elements = outputLenFE p)
    by (apply HypercubeFacts.len_map_zrange; lia).
  assert (Hcanon : Forall (fun e => 0 <= e < PoseidonTH.P) elements).
  { apply Forall_forall; intros e He; apply in_map_iff in He.
    destruct He as (i & <- & _); apply Z.mod_pos_bound; reflexivity. }
  split; [|split; [|split; [exact Hcanon|]]].
  - unfold Apply, IO.make_bytes.
    rewrite i64_id by (unfold is_int; lia).
    destruct (Z.ltb_spec (8 * outputLenFE p) 0); [lia|].
    rewrite repeat_length; fold out.
    rewrite i64_id by (unfold is_int; lia).
    destruct (Z.ltb_spec (outputLenFE p * 4) 0); [lia|].
    destruct (SHAKE128_bytes
                (shakePRFDomainSep ++ key ++ PRF.BigEndian_PutUint32 epoch
                 ++ PRF.BigEndian_PutUint64 chainIndex)
                (Z.to_nat (8 * outputLenFE p))) as [Hol Hob];
      fold out in Hol, Hob.
    rewrite (mapM_map _
               (fun i => PoseidonTH.Element_Bytes
                           (Tweak.be_value
                              (firstn 8 (skipn (Z.to_nat (8 * i)) out))
                            mod PoseidonTH.P))).
    + unfold PoseidonTH.fieldElementsToBytes, elements.
      rewrite map_map; reflexivity.
    + intros i Hi; apply zrange_In in Hi; cbv zeta.
      unfold slice.
      destruct (Z.ltb_spec (i * 8) 0); [lia|].
      destruct (Z.ltb_spec (i * 8 + 8) (i * 8)); [lia|].
      destruct (Z.ltb_spec (len out) (i * 8 + 8)); [unfold len in *; lia|].
      cbn [orb].
      replace (Z.to_nat (i * 8 + 8 - i * 8)) with 8%nat by lia.
      replace (i * 8) with (8 * i) by ring.
      rewrite BigEndian_Uint64_value.
      * change 2013265921 with PoseidonTH.P.
        rewrite Z.mod_mod by (unfold PoseidonTH.P; lia); reflexivity.
      * apply Forall_chunk; exact Hob.
      * rewrite length_firstn, length_skipn; lia.
  - rewrite PoseidonTHFacts.fieldElementsToBytes_len, Hlen; unfold OutputLen.
    rewrite i64_id by (unfold is_int; lia); lia.
  - rewrite <- Hlen; apply PoseidonTHFacts.elements_roundtrip; exact Hcanon.
Qed.

End WithShake.

Lemma toy_shake_bytes m n :
  length (toy_shake m n) = n /\ Forall is_u8 (toy_shake m n).
Proof.
  unfold toy_shake; split.
  - rewrite length_map; unfold zrange; rewrite length_map, length_seq; lia.
  - apply Forall_forall; intros x Hx; apply in_map_iff in Hx.
    destruct Hx as (k & <- & _); apply u8_range.
Qed.

Lemma ShakePRFtoField_Apply_output_witness :
  let p := NewShakePRFtoField 32 7 in
  let out :=
    toy_shake (shakePRFDomainSep ++ [1; 2; 3] ++ PRF.BigEndian_PutUint32 13
               ++ PRF.BigEndian_PutUint64 5)
              (Z.to_nat (8 * outputLenFE p)) in
  let elements :=
    map (fun i => Tweak.be_value (firstn 8 (skipn (Z.to_nat (8 * i)) out))
                  mod PoseidonTH.P)
        (zrange (outputLenFE p)) in
  Apply toy_shake p [1; 2; 3] 13 5
  = Some (PoseidonTH.fieldElementsToBytes elements)
  /\ len (PoseidonTH.fieldElementsToBytes elements) = OutputLen p
  /\ Forall (fun e => 0 <= e < PoseidonTH.P) elements
  /\ PoseidonTH.bytesToFieldElements (PoseidonTH.fieldElementsToBytes elements)
       (outputLenFE p)
     = Some elements.
Proof.
  apply (ShakePRFtoField_Apply_output toy_shake toy_shake_bytes
           (NewShakePRFtoField 32 7) [1; 2; 3] 13 5).
  cbn; lia.
Defined.

End ShakePRFFacts.
